(** * certbot-nginx: the low-level nginx configuration parser

    A shallow embedding of [certbot_nginx/nginxparser.py]:
    - the pyparsing combinators the grammar is written with, and the
      grammar of [RawNginxParser] on top of them;
    - Python lists as objects of a store, with [UnspacedList] (a list
      together with its [spaced] shadow list), its constructor and its
      mutation methods;
    - [RawNginxDumper], [loads] and [dumps].

    The module is Python 2 code ([reduce] is used as a builtin), so [str]
    is the byte string type and a character is an [ascii]. *)

From Stdlib Require Import String Ascii ZArith List Lia Bool.
From stdpp Require Import base list.
Import ListNotations.

Set Warnings "-register-all".

Local Open Scope string_scope.
Local Open Scope list_scope.

(** ** Characters and strings *)

Module Chars.

Definition LF : ascii := "010"%char.
Definition TAB : ascii := "009"%char.
Definition CR : ascii := "013"%char.
Definition VT : ascii := "011"%char.
Definition FF : ascii := "012"%char.
Definition DQ : ascii := "034"%char.
Definition SQ : ascii := "039"%char.

(** One-character strings for the characters a Rocq literal cannot hold. *)
Definition nl : string := String LF "".
Definition dq : string := String DQ "".

(** [c in cs] for a character and a string of characters. *)
Fixpoint inb (c : ascii) (cs : string) : bool :=
  match cs with
  | EmptyString => false
  | String d cs' => Ascii.eqb c d || inb c cs'
  end.

(** pyparsing's [DEFAULT_WHITE_CHARS], and the default [ws] of [White]:
    space, newline, tab, carriage return. *)
Definition default_white : string :=
  String " " (String LF (String TAB (String CR ""))).

(** Python 2's [string.whitespace]; also the characters of [str.isspace]
    and the complement of the regular expression class [\S]. *)
Definition whitespace : string :=
  String TAB (String LF (String VT (String FF (String CR (String " " ""))))).

(** [string.ascii_letters + string.digits] *)
Definition alphanums : string :=
  "abcdefghijklmnopqrstuvwxyzABCDEFGHIJKLMNOPQRSTUVWXYZ0123456789".

(** The longest prefix whose characters satisfy [p], and the rest. *)
Fixpoint span (p : ascii -> bool) (s : string) : string * string :=
  match s with
  | EmptyString => (EmptyString, EmptyString)
  | String c t =>
      if p c then let '(a, b) := span p t in (String c a, b)
      else (EmptyString, s)
  end.

(** [s.startswith(pre)], returning what follows the prefix. *)
Fixpoint strip_prefix (pre s : string) : option string :=
  match pre, s with
  | EmptyString, _ => Some s
  | String a pre', String b s' =>
      if Ascii.eqb a b then strip_prefix pre' s' else None
  | String _ _, EmptyString => None
  end.

(** The part of [s] that was consumed when [rest] is what remains. *)
Definition consumed (s rest : string) : string :=
  substring 0 (String.length s - String.length rest) s.

(** [str.isspace]: at least one character, all of them whitespace. *)
Fixpoint all_in (cs s : string) : bool :=
  match s with
  | EmptyString => true
  | String c t => inb c cs && all_in cs t
  end.

Definition isspace (s : string) : bool :=
  match s with
  | EmptyString => false
  | _ => all_in whitespace s
  end.

Fixpoint rev_string (s acc : string) : string :=
  match s with
  | EmptyString => acc
  | String c t => rev_string t (String c acc)
  end.

Definition lstrip (s : string) : string :=
  snd (span (fun c => inb c whitespace) s).

(** [str.strip()] *)
Definition strip (s : string) : string :=
  rev_string (lstrip (rev_string (lstrip s) "")) "".

End Chars.

(** ** Regular expressions

    The patterns of the grammar, matched the way Python's [re] matches:
    by backtracking, every repetition greedy.  [rmatch r s k] matches [r]
    at the start of [s] and hands what is left to the continuation [k];
    the first way of matching [r] that [k] accepts is the answer. *)

Module Re.
Import Chars.

Inductive regex :=
| RChr (c : ascii)          (* one given character *)
| RDot                      (* [.]: any character but a newline *)
| RNotIn (cs : string)      (* [[^cs]] *)
| RNonSpace                 (* [\S] *)
| RSeq (r1 r2 : regex)
| ROpt (r : regex)          (* [r?] *)
| RStar (r : regex)         (* [r*] *)
| RPlus (r : regex).        (* [r+] *)

Definition cont := string -> option string.

(** The iterations of a greedy repetition.  An iteration that consumed
    nothing ends the repetition (the zero-width guard of [re]). *)
Fixpoint rloop (body : string -> cont -> option string)
    (fuel : nat) (s : string) (k : cont) : option string :=
  match fuel with
  | O => k s
  | S n =>
      match body s (fun s1 =>
              if Nat.ltb (String.length s1) (String.length s) then rloop body n s1 k
              else k s1) with
      | Some r => Some r
      | None => k s
      end
  end.

Definition one (p : ascii -> bool) (s : string) (k : cont) : option string :=
  match s with
  | String c t => if p c then k t else None
  | EmptyString => None
  end.

Fixpoint rmatch (r : regex) (s : string) (k : cont) : option string :=
  match r with
  | RChr c => one (Ascii.eqb c) s k
  | RDot => one (fun c => negb (Ascii.eqb c LF)) s k
  | RNotIn cs => one (fun c => negb (inb c cs)) s k
  | RNonSpace => one (fun c => negb (inb c whitespace)) s k
  | RSeq r1 r2 => rmatch r1 s (fun s1 => rmatch r2 s1 k)
  | ROpt r1 =>
      match rmatch r1 s k with
      | Some r => Some r
      | None => k s
      end
  | RStar r1 => rloop (rmatch r1) (String.length s) s k
  | RPlus r1 =>
      rmatch r1 s (fun s1 => rloop (rmatch r1) (String.length s1) s1 k)
  end.

(** [re.match(s, loc)]: what is left of [s] after the match, if any. *)
Definition re_match (r : regex) (s : string) : option string :=
  rmatch r s Some.

Fixpoint rseq (rs : list regex) : regex :=
  match rs with
  | [] => ROpt (RChr "000"%char)
  | [r] => r
  | r :: rs' => RSeq r (rseq rs')
  end.

End Re.

(** ** The pyparsing combinators

    A parser element has the [skipWhitespace] flag pyparsing consults in
    [preParse], the [callPreparse] flag [_parse] consults before it calls
    [preParse], and a [parseImpl].  Tokens are the [asList()] form of
    [ParseResults]: strings, [None], and nested lists.

    The elements are those of pyparsing 2, the release line of this
    Python 2 module.  Which of them skip white characters before they
    match: a token ([Literal], [Word], [Regex], [StringEnd]) does; [White]
    skips none of the characters it matches, and [CharsNotIn] clears its
    flag; [And] takes the flag of its first operand; [MatchFirst] and [Or]
    keep the flag every element is created with, whatever their operands;
    an element around one expression ([Optional], [Group], [Suppress],
    [ZeroOrMore], [OneOrMore], [Forward]) takes the flag of that
    expression.  [And] and the elements around one expression parse their
    first operand without a [preParse] of it, having done their own; the
    later operands of [And], the repetitions after the first and the
    alternatives of [MatchFirst] and [Or] are parsed with theirs.

    Which of them call [preParse] at all: every element is created with
    [callPreparse] set; an expression of several operands clears it in its
    constructor, and [And] alone sets it again; an element around one
    expression takes the flag of that expression when it is built, so a
    [Forward], built around nothing, keeps the flag set.  [MatchFirst],
    [Or] and what is built around them therefore skip no white characters
    of their own. *)

Module Pyparsing.
Import Chars Re.

Inductive tok :=
| TStr (s : string)
| TNone
| TList (l : list tok).

Definition presult := option (list tok * string).

Record ParserElement := mkPE {
  skipWhitespace : bool;
  callPreparse : bool;
  parseImpl : string -> presult
}.

(** [preParse]: skip the default white characters when the flag is set. *)
Definition preParse (e : ParserElement) (s : string) : string :=
  if skipWhitespace e then snd (span (fun c => inb c default_white) s) else s.

(** [_parse(instring, loc, callPreParse)]: [preParse] is called when the
    caller asks for it and the element's own flag is set. *)
Definition _parse (e : ParserElement) (callPreParse : bool) (s : string)
  : presult :=
  parseImpl e (if callPreParse && callPreparse e then preParse e s else s).

(** An expression of the grammar is read in a context that says whether an
    enclosing [leaveWhitespace()] has been applied: that call clears the
    flag of the expression and of copies of all the expressions in it. *)
Definition Expr := bool -> ParserElement.

Definition leaveWhitespace (e : Expr) : Expr := fun _ => e true.

(** *** Tokens *)

Definition Literal (m : string) : Expr := fun lv =>
  mkPE (negb lv) true (fun s =>
    match strip_prefix m s with
    | Some rest => Some ([TStr m], rest)
    | None => None
    end).

Definition nonempty_run (p : ascii -> bool) (s : string) : presult :=
  match span p s with
  | (EmptyString, _) => None
  | (w, rest) => Some ([TStr w], rest)
  end.

(** [Word(chars)]: a non-empty run of the given characters. *)
Definition Word (chars : string) : Expr := fun lv =>
  mkPE (negb lv) true (nonempty_run (fun c => inb c chars)).

(** [White()]: a non-empty run of white characters.  Its own white
    characters are removed from what it would skip, so it skips nothing. *)
Definition White : Expr := fun _ =>
  mkPE false true (nonempty_run (fun c => inb c default_white)).

(** [CharsNotIn(chars)] clears [skipWhitespace] in its constructor. *)
Definition CharsNotIn (chars : string) : Expr := fun _ =>
  mkPE false true (nonempty_run (fun c => negb (inb c chars))).

(** [Regex(pattern)]: the text matched is the token, also when empty. *)
Definition regex_impl (r : regex) (s : string) : presult :=
  match re_match r s with
  | Some rest => Some ([TStr (consumed s rest)], rest)
  | None => None
  end.

Definition Regex (r : regex) : Expr :=
  fun lv => mkPE (negb lv) true (regex_impl r).

(** [restOfLine = Regex(r".*").leaveWhitespace()] *)
Definition restOfLine : Expr := leaveWhitespace (Regex (RStar RDot)).

Definition stringEnd : Expr := fun lv =>
  mkPE (negb lv) true (fun s =>
    match s with
    | EmptyString => Some ([], EmptyString)
    | _ => None
    end).

(** *** Combinators *)

(** [a + b] *)
Definition And (a b : Expr) : Expr := fun lv =>
  mkPE (skipWhitespace (a lv)) true (fun s =>
    match _parse (a lv) false s with
    | Some (t1, s1) =>
        match _parse (b lv) true s1 with
        | Some (t2, s2) => Some (t1 ++ t2, s2)
        | None => None
        end
    | None => None
    end).

(** [a | b]: the first alternative that matches. *)
Definition MatchFirst (a b : Expr) : Expr := fun lv =>
  mkPE (negb lv) false (fun s =>
    match _parse (a lv) true s with
    | Some r => Some r
    | None => _parse (b lv) true s
    end).

(** [a ^ b]: the alternative that matches the longest text; the earlier
    one when both match the same. *)
Definition Or (a b : Expr) : Expr := fun lv =>
  mkPE (negb lv) false (fun s =>
    match _parse (a lv) true s, _parse (b lv) true s with
    | Some (ta, ra), Some (tb, rb) =>
        if Nat.ltb (String.length rb) (String.length ra) then Some (tb, rb)
        else Some (ta, ra)
    | Some r, None => Some r
    | None, r => r
    end).

(** [Optional(e)] and [Optional(e, default=d)] *)
Definition Optional_with (dflt : list tok) (e : Expr) : Expr := fun lv =>
  mkPE (skipWhitespace (e lv)) (callPreparse (e lv)) (fun s =>
    match _parse (e lv) false s with
    | Some r => Some r
    | None => Some (dflt, s)
    end).

Definition Optional (e : Expr) : Expr := Optional_with [] e.
Definition Optional_default (e : Expr) (d : tok) : Expr := Optional_with [d] e.

Definition Group (e : Expr) : Expr := fun lv =>
  mkPE (skipWhitespace (e lv)) (callPreparse (e lv)) (fun s =>
    match _parse (e lv) false s with
    | Some (ts, rest) => Some ([TList ts], rest)
    | None => None
    end).

(** [e.suppress()] *)
Definition suppress (e : Expr) : Expr := fun lv =>
  mkPE (skipWhitespace (e lv)) (callPreparse (e lv)) (fun s =>
    match _parse (e lv) false s with
    | Some (_, rest) => Some ([], rest)
    | None => None
    end).

(** The repetitions after the first: parse [e] until it fails.  The fuel
    bounds the number of iterations by the length of the input. *)
Fixpoint repeat_more (e : ParserElement) (fuel : nat) (acc : list tok)
    (s : string) : presult :=
  match fuel with
  | O => None
  | S n =>
      match _parse e true s with
      | Some (ts, s') => repeat_more e n (acc ++ ts) s'
      | None => Some (acc, s)
      end
  end.

Definition ZeroOrMore (e : Expr) : Expr := fun lv =>
  mkPE (skipWhitespace (e lv)) (callPreparse (e lv)) (fun s =>
    match _parse (e lv) false s with
    | Some (ts, s') => repeat_more (e lv) (S (String.length s')) ts s'
    | None => Some ([], s)
    end).

Definition OneOrMore (e : Expr) : Expr := fun lv =>
  mkPE (skipWhitespace (e lv)) (callPreparse (e lv)) (fun s =>
    match _parse (e lv) false s with
    | Some (ts, s') => repeat_more (e lv) (S (String.length s')) ts s'
    | None => None
    end).

(** A [Forward] that stands for the element [e]: [leaveWhitespace] clears
    its own flag and leaves the expression it stands for as it is; its
    [callPreparse] is the one it was created with. *)
Definition Forward (e : ParserElement) : Expr := fun lv =>
  mkPE (if lv then false else skipWhitespace e) true
       (fun s => _parse e false s).

Definition fail : ParserElement := mkPE false true (fun _ => None).

End Pyparsing.

Declare Scope pyparsing_scope.
Delimit Scope pyparsing_scope with pp.
Infix "+" := Pyparsing.And : pyparsing_scope.
Infix ":^:" := Pyparsing.Or (at level 53, left associativity)
  : pyparsing_scope.
Infix ":|:" := Pyparsing.MatchFirst (at level 54, left associativity)
  : pyparsing_scope.

(** ** The grammar *)

Module RawNginxParser.
Import Chars Re Pyparsing.
Local Open Scope pyparsing_scope.

Definition space : Expr := Optional White.
Definition left_bracket : Expr := suppress (Literal "{").
Definition right_bracket : Expr := leaveWhitespace space + suppress (Literal "}").
Definition semicolon : Expr := suppress (Literal ";").
Definition key_chars : string := (alphanums ++ "_/+-.")%string.
Definition key : Expr := Word key_chars.

(** [((\".*\")?(\'.*\')?[^\{\};,]?)+] *)
Definition value_re : regex :=
  RPlus (rseq [ ROpt (rseq [RChr DQ; RStar RDot; RChr DQ]);
                ROpt (rseq [RChr SQ; RStar RDot; RChr SQ]);
                ROpt (RNotIn "{};,") ]).
Definition value : Expr := Regex value_re.

Definition location : Expr := CharsNotIn ("{};," ++ whitespace)%string.
Definition modifier : Expr :=
  Literal "=" :|: Literal "~*" :|: Literal "~" :|: Literal "^~".

Definition comment : Expr := space + Literal "#" + restOfLine.

Definition assignment : Expr :=
  space + key + Optional_default (space + value) TNone + semicolon.
Definition location_statement : Expr :=
  space + Optional modifier + Optional (space + location + space).
(** [\(.+\)] *)
Definition if_statement : Expr :=
  space + Literal "if" + space
  + Regex (rseq [RChr "("; RPlus RDot; RChr ")"]) + space.
(** [\S+] and [\$\S+] *)
Definition map_statement : Expr :=
  space + Literal "map" + space + Regex (RPlus RNonSpace) + space
  + Regex (rseq [RChr "$"; RPlus RNonSpace]) + space.

(** The three shapes of a block header, the first operand of [block]. *)
Definition block_header : Expr :=
  leaveWhitespace (Group (space + key + location_statement)
                   :^: Group if_statement
                   :^: Group map_statement).

(** [block] is recursive through its body; [fuel] bounds the nesting. *)
Fixpoint block (fuel : nat) : Expr :=
  match fuel with
  | O => fun _ => fail
  | S n =>
      Group (
        block_header
        + left_bracket
        + leaveWhitespace
            (Group (ZeroOrMore (Group (comment :|: assignment)
                                :|: Forward (block n false)) + space))
        + right_bracket)
  end.

Definition script (fuel : nat) : Expr :=
  OneOrMore (Group (comment :|: assignment) :^: block fuel) + space + stringEnd.

(** [RawNginxParser(source).parse().asList()]; [None] is a
    [ParseException]. *)
Definition as_list (source : string) : option (list tok) :=
  match _parse (script (String.length source) false) true source with
  | Some (ts, _) => Some ts
  | None => None
  end.

End RawNginxParser.

(** ** Python values and the store

    Lists are objects with identity: a value refers to a list by its
    address in the store, so that two views may share a sublist, as the
    logical and the formatted view of an [UnspacedList] do. *)

Module Py.
Import Chars.

Inductive val :=
| VStr (s : string)
| VNone
| VInt (z : Z)          (* an object that is neither a string nor a list *)
| VRef (l : nat).       (* a list or an UnspacedList, by address *)

(** An [UnspacedList] is a list with one more attribute, [spaced], which
    names a plain list. *)
Inductive obj :=
| OList (xs : list val)
| OUnspaced (xs : list val) (spaced : nat).

Abbreviation heap := (list obj).

Inductive exn := IndexError | TypeError | AttributeError | ParseException.

(** [Abort] is no outcome of a Python run: the fuel of a recursion ran
    out, or an address names no object of the expected kind. *)
Inductive outcome (A : Type) :=
| Ret (a : A)
| Raise (e : exn)
| Abort.
Arguments Ret {A} a.
Arguments Raise {A} e.
Arguments Abort {A}.

(** Computations keep the store also when they raise: what a method did
    before it failed stays done. *)
Definition M (A : Type) := heap -> outcome A * heap.

Definition ret {A} (a : A) : M A := fun h => (Ret a, h).
Definition raise {A} (e : exn) : M A := fun h => (Raise e, h).
Definition abort {A} : M A := fun h => (Abort, h).
Definition bind {A B} (m : M A) (k : A -> M B) : M B := fun h =>
  match m h with
  | (Ret a, h') => k a h'
  | (Raise e, h') => (Raise e, h')
  | (Abort, h') => (Abort, h')
  end.

(** [try: m except: pass], keeping what was raised. *)
Definition attempt {A} (m : M A) : M (outcome A) := fun h =>
  let (r, h') := m h in (Ret r, h').

Definition val_eqb (a b : val) : bool :=
  match a, b with
  | VStr s, VStr t => String.eqb s t
  | VNone, VNone => true
  | VInt x, VInt y => Z.eqb x y
  | VRef l, VRef m => Nat.eqb l m
  | _, _ => false
  end.

Definition elems (o : obj) : list val :=
  match o with
  | OList xs => xs
  | OUnspaced xs _ => xs
  end.

Definition with_elems (o : obj) (xs : list val) : obj :=
  match o with
  | OList _ => OList xs
  | OUnspaced _ sp => OUnspaced xs sp
  end.

End Py.

Declare Scope py_scope.
Delimit Scope py_scope with py.
Notation "x <- m ;; k" := (Py.bind m (fun x => k))
  (at level 100, m at next level, right associativity) : py_scope.
Notation "m ;; k" := (Py.bind m (fun _ => k))
  (at level 100, right associativity) : py_scope.

Module Store.
Import Chars Py.
Local Open Scope py_scope.

Definition alloc (o : obj) : M nat := fun h => (Ret (length h), h ++ [o]).

Definition get_obj (l : nat) : M obj := fun h =>
  match h !! l with
  | Some o => (Ret o, h)
  | None => (Abort, h)
  end.

Definition put_obj (l : nat) (o : obj) : M unit := fun h =>
  (Ret tt, <[l := o]> h).

(** The elements of the list at [l], plain or unspaced. *)
Definition get_elems (l : nat) : M (list val) :=
  o <- get_obj l ;; ret (elems o).

Definition set_elems (l : nat) (xs : list val) : M unit :=
  o <- get_obj l ;; put_obj l (with_elems o xs).

(** [x.spaced] *)
Definition get_spaced (l : nat) : M nat :=
  o <- get_obj l ;;
  match o with
  | OUnspaced _ sp => ret sp
  | OList _ => raise AttributeError
  end.

(** [x.spaced = sp] *)
Definition set_spaced (l sp : nat) : M unit :=
  o <- get_obj l ;; put_obj l (OUnspaced (elems o) sp).

Fixpoint foldM {A B} (f : B -> A -> M B) (b : B) (xs : list A) : M B :=
  match xs with
  | [] => ret b
  | x :: xs' => b' <- f b x ;; foldM f b' xs'
  end.

Definition forM_ {A} (xs : list A) (f : A -> M unit) : M unit :=
  foldM (fun _ x => f x) tt xs.

(** *** The methods of [list] *)

(** The position an index names in a list of [n] elements, for item
    access: negative indices count from the end. *)
Definition item_index (n : nat) (i : Z) : option nat :=
  let j := (if i <? 0 then i + Z.of_nat n else i)%Z in
  if ((0 <=? j) && (j <? Z.of_nat n))%Z then Some (Z.to_nat j) else None.

(** The position [list.insert] uses: out-of-range indices are clipped. *)
Definition insert_index (n : nat) (i : Z) : nat :=
  let j := (if i <? 0 then i + Z.of_nat n else i)%Z in
  Z.to_nat (Z.min (Z.max 0 j) (Z.of_nat n)).

(** [l[i]]; [UnspacedList] does not override it. *)
Definition list_getitem (l : nat) (i : Z) : M val :=
  xs <- get_elems l ;;
  match item_index (length xs) i with
  | Some j => match xs !! j with Some v => ret v | None => raise IndexError end
  | None => raise IndexError
  end.

Definition list_setitem (l : nat) (i : Z) (v : val) : M unit :=
  xs <- get_elems l ;;
  match item_index (length xs) i with
  | Some j => set_elems l (<[j := v]> xs)
  | None => raise IndexError
  end.

Definition list_delitem (l : nat) (i : Z) : M unit :=
  xs <- get_elems l ;;
  match item_index (length xs) i with
  | Some j => set_elems l (delete j xs)
  | None => raise IndexError
  end.

Definition list_insert (l : nat) (i : Z) (v : val) : M unit :=
  xs <- get_elems l ;;
  let j := insert_index (length xs) i in
  set_elems l (take j xs ++ v :: drop j xs).

Definition list_append (l : nat) (v : val) : M unit :=
  xs <- get_elems l ;; set_elems l (xs ++ [v]).

(** [b.pop(0)] *)
Definition list_pop0 (l : nat) : M val :=
  xs <- get_elems l ;;
  match xs with
  | [] => raise IndexError
  | x :: xs' => set_elems l xs' ;; ret x
  end.

Fixpoint chars (s : string) : list val :=
  match s with
  | EmptyString => []
  | String c t => VStr (String c "") :: chars t
  end.

(** The elements an iteration over [v] yields: those of a list, the
    characters of a string; other objects are not iterable. *)
Definition iterate (v : val) : M (list val) :=
  match v with
  | VRef l => get_elems l
  | VStr s => ret (chars s)
  | VNone | VInt _ => raise TypeError
  end.

Definition list_extend (l : nat) (v : val) : M unit :=
  ys <- iterate v ;;
  xs <- get_elems l ;;
  set_elems l (xs ++ ys).

End Store.

(** ** [nginxparser]: the dual-view tree and the dumper *)

Module Nginxparser.
Import Chars Py Store.
Local Open Scope py_scope.

(** [spacey = lambda x: (isinstance(x, str) and x.isspace()) or x == ''] *)
Definition spacey (x : val) : bool :=
  match x with
  | VStr s => isspace s || String.eqb s ""
  | _ => false
  end.

(** [isinstance(x, str)] and [isinstance(x, list)] *)
Definition is_str (x : val) : bool :=
  match x with VStr _ => true | _ => false end.
Definition is_list (x : val) : bool :=
  match x with VRef _ => true | _ => false end.

Definition as_ref (v : val) : M nat :=
  match v with
  | VRef l => ret l
  | _ => abort
  end.

Definition enumerate (xs : list val) : list (nat * val) :=
  combine (seq 0 (length xs)) xs.

(** The memo of [copy.deepcopy]: the copies made so far, by original. *)
Definition memo := list (nat * nat).

Fixpoint memo_get (l : nat) (m : memo) : option nat :=
  match m with
  | [] => None
  | (a, b) :: m' => if Nat.eqb a l then Some b else memo_get l m'
  end.

(** [copy.deepcopy], [UnspacedList.__init__] and
    [UnspacedList.__deepcopy__] call one another; [fuel] bounds the depth
    of the calls. *)
Fixpoint deepcopy (fuel : nat) (m : memo) (x : val) {struct fuel}
  : M (val * memo) :=
  match x with
  | VRef l =>
      match memo_get l m with
      | Some y => ret (VRef y, m)
      | None =>
          match fuel with
          | O => abort
          | S n =>
              o <- get_obj l ;;
              match o with
              | OList xs =>
                  (* _deepcopy_list *)
                  y <- alloc (OList []) ;;
                  m' <- foldM (fun m1 a =>
                                 r <- deepcopy n m1 a ;;
                                 list_append y (fst r) ;;
                                 ret (snd r))
                              ((l, y) :: m) xs ;;
                  ret (VRef y, m')
              | OUnspaced _ _ =>
                  y <- UnspacedList_deepcopy n l ;;
                  ret (VRef y, (l, y) :: m)
              end
          end
      end
  | _ => ret (x, m)
  end

with UnspacedList_init (fuel : nat) (list_source : list val) (spaceout : bool)
  {struct fuel} : M nat :=
  match fuel with
  | O => abort
  | S n =>
      (* self.spaced = copy.deepcopy(list(list_source)) *)
      tmp <- alloc (OList list_source) ;;
      r <- deepcopy n [] (VRef tmp) ;;
      sp <- as_ref (fst r) ;;
      self <- alloc (OUnspaced [] sp) ;;
      (if spaceout then
         sp0 <- get_spaced self ;;
         spaced <- get_elems sp0 ;;
         if forallb is_str spaced then
           let first := take 1 spaced in
           let rest := drop 1 spaced in
           sp1 <- alloc (OList (fold_left (fun x y => x ++ [VStr " "; y])
                                          rest first)) ;;
           set_spaced self sp1 ;;
           list_insert sp1 0 (VStr nl)
         else ret tt
       else ret tt) ;;
      (* list.__init__(self, list_source) *)
      set_elems self list_source ;;
      forM_ (rev (enumerate list_source)) (fun ie =>
        let i := Z.of_nat (fst ie) in
        let entry := snd ie in
        if is_list entry then
          src <- iterate entry ;;
          sublist <- UnspacedList_init n src spaceout ;;
          sub_xs <- get_elems sublist ;;
          sub_sp <- get_spaced sublist ;;
          sub_spaced <- get_elems sub_sp ;;
          (if negb (Nat.eqb (length sub_xs) 0) || Nat.eqb (length sub_spaced) 0
           then list_setitem self i (VRef sublist)
           else list_delitem self i) ;;
          sp2 <- get_spaced self ;;
          list_setitem sp2 i (VRef sub_sp)
        else if spacey entry then
          xs <- get_elems self ;;
          if negb (existsb (val_eqb (VStr "#")) (take (fst ie) xs))
          then list_delitem self i
          else ret tt
        else ret tt) ;;
      ret self
  end

with UnspacedList_deepcopy (fuel : nat) (self : nat) {struct fuel} : M nat :=
  match fuel with
  | O => abort
  | S n =>
      (* l = UnspacedList(self[:]) *)
      xs <- get_elems self ;;
      l <- UnspacedList_init n xs false ;;
      (* l.spaced = copy.deepcopy(self.spaced) *)
      sp <- get_spaced self ;;
      r <- deepcopy n [] (VRef sp) ;;
      sp' <- as_ref (fst r) ;;
      set_spaced l sp' ;;
      ret l
  end.

(** [UnspacedList(list_source, spaceout)] for a value [list_source] *)
Definition UnspacedList (fuel : nat) (list_source : val) (spaceout : bool)
  : M nat :=
  src <- iterate list_source ;;
  UnspacedList_init fuel src spaceout.

(** [_coerce]: the pair of the item for the logical list and the item for
    the spaced list. *)
Definition _coerce (fuel : nat) (inbound : val) (spaceout : bool)
  : M (val * val) :=
  match inbound with
  | VRef l =>
      o <- get_obj l ;;
      match o with
      | OUnspaced _ sp => ret (inbound, VRef sp)
      | OList xs =>
          u <- UnspacedList_init fuel xs spaceout ;;
          sp <- get_spaced u ;;
          ret (VRef u, VRef sp)
      end
  | _ => ret (inbound, inbound)
  end.

(** The loop of [_spaces_before], on [self.spaced[pos:]]. *)
Fixpoint spaces_loop (rest : list val) (idx spaces : Z) : M Z :=
  if (idx =? -1)%Z then ret spaces
  else
    match rest with
    | [] => raise IndexError
    | x :: rest' =>
        if spacey x then spaces_loop rest' idx (spaces + 1)%Z
        else spaces_loop rest' (idx - 1)%Z spaces
    end.

Definition _spaces_before (self : nat) (idx : Z) : M Z :=
  sp <- get_spaced self ;;
  spaced <- get_elems sp ;;
  spaces_loop spaced idx 0%Z.

Definition insert (fuel : nat) (self : nat) (i : Z) (x : val)
    (spaceout : bool) : M unit :=
  c <- _coerce fuel x spaceout ;;
  sp <- get_spaced self ;;
  n <- _spaces_before self i ;;
  list_insert sp (i + n)%Z (snd c) ;;
  list_insert self i (fst c).

Definition append (fuel : nat) (self : nat) (x : val) (spaceout : bool)
  : M unit :=
  c <- _coerce fuel x spaceout ;;
  sp <- get_spaced self ;;
  list_append sp (snd c) ;;
  list_append self (fst c).

Definition extend (fuel : nat) (self : nat) (x : val) (spaceout : bool)
  : M unit :=
  c <- _coerce fuel x spaceout ;;
  sp <- get_spaced self ;;
  list_extend sp (snd c) ;;
  list_extend self (fst c).

Definition __add__ (fuel : nat) (self : nat) (other : val) : M nat :=
  r <- deepcopy fuel [] (VRef self) ;;
  l <- as_ref (fst r) ;;
  extend fuel l other false ;;
  ret l.

Definition __setitem__ (fuel : nat) (self : nat) (i : Z) (value : val)
  : M unit :=
  c <- _coerce fuel value false ;;
  sp <- get_spaced self ;;
  n <- _spaces_before self i ;;
  list_setitem sp (i + n)%Z (snd c) ;;
  list_setitem self i (fst c).

Definition __delitem__ (self : nat) (i : Z) : M unit :=
  sp <- get_spaced self ;;
  n <- _spaces_before self i ;;
  list_delitem sp (i + n)%Z ;;
  list_delitem self i.

(** *** [RawNginxDumper] *)

Definition expect_str (v : val) : M string :=
  match v with
  | VStr s => ret s
  | _ => raise TypeError
  end.

(** [b[0]] *)
Definition first_item (b : val) : M val :=
  match b with
  | VRef l => list_getitem l 0
  | _ => raise TypeError
  end.

Definition truthy (v : val) : M bool :=
  match v with
  | VStr s => ret (negb (String.eqb s ""))
  | VNone => ret false
  | VInt z => ret (negb (z =? 0)%Z)
  | VRef l => xs <- get_elems l ;; ret (negb (Nat.eqb (length xs) 0))
  end.

(** [isinstance(key, str) and key.strip() == '#'] *)
Definition is_comment_key (key : val) : bool :=
  match key with
  | VStr k => String.eqb (strip k) "#"
  | _ => false
  end.

(** [__iter__(blocks)]: the strings it yields, in order. *)
Fixpoint RawNginxDumper_iter (fuel : nat) (blocks : list val)
  : M (list string) :=
  match fuel with
  | O => abort
  | S n =>
      foldM (fun out b0 =>
        match b0 with
        | VStr s => ret (out ++ [s])
        | _ =>
            r <- deepcopy n [] b0 ;;
            let b := fst r in
            b_0 <- first_item b ;;
            bl <- as_ref b ;;
            ind <- (if spacey b_0 then
                      v <- list_pop0 bl ;;
                      s <- expect_str v ;;
                      rest <- get_elems bl ;;
                      ret (s, Nat.eqb (length rest) 0)
                    else ret ("", false)) ;;
            let indentation := fst ind in
            if snd ind then ret (out ++ [indentation])
            else
              key <- list_pop0 bl ;;
              values <- list_pop0 bl ;;
              if is_list key then
                kl <- as_ref key ;;
                ks <- get_elems kl ;;
                strs <- foldM (fun acc k => s <- expect_str k ;;
                                            ret (acc ++ s)%string) "" ks ;;
                params <- iterate values ;;
                inner <- foldM (fun acc parameter =>
                                  dumped <- RawNginxDumper_iter n [parameter] ;;
                                  ret (acc ++ dumped))
                               [] params ;;
                ret (out ++ [(indentation ++ strs ++ "{")%string]
                         ++ inner ++ ["}"])
              else if is_comment_key key then
                k <- expect_str key ;;
                v <- expect_str values ;;
                ret (out ++ [(indentation ++ k ++ v)%string])
              else
                t <- truthy values ;;
                gv <- (if t && spacey values then
                         g <- expect_str values ;;
                         v <- list_pop0 bl ;;
                         ret (g, v)
                       else ret ("", values)) ;;
                k <- expect_str key ;;
                v <- expect_str (snd gv) ;;
                ret (out ++ [(indentation ++ k ++ fst gv ++ v ++ ";")%string])
        end) [] blocks
  end.

(** [str(RawNginxDumper(blocks))]: [''.join(self)] *)
Definition RawNginxDumper_str (fuel : nat) (blocks : nat) : M string :=
  bs <- get_elems blocks ;;
  lines <- RawNginxDumper_iter fuel bs ;;
  ret (fold_right String.append "" lines).

(** *** [loads] and [dumps] *)

Import Pyparsing.

(** The nested lists of [asList()], as fresh objects of the store. *)
Fixpoint alloc_tok (t : tok) : M val :=
  match t with
  | TStr s => ret (VStr s)
  | TNone => ret VNone
  | TList ts =>
      vs <- (fix go (ts : list tok) : M (list val) :=
               match ts with
               | [] => ret []
               | t1 :: ts' => v <- alloc_tok t1 ;; vs <- go ts' ;; ret (v :: vs)
               end) ts ;;
      l <- alloc (OList vs) ;;
      ret (VRef l)
  end.

Definition loads (fuel : nat) (source : string) : M nat :=
  match RawNginxParser.as_list source with
  | None => raise ParseException
  | Some ts =>
      v <- alloc_tok (TList ts) ;;
      UnspacedList fuel v false
  end.

Definition dumps (fuel : nat) (blocks : nat) : M string :=
  sp <- get_spaced blocks ;;
  RawNginxDumper_str fuel sp.

End Nginxparser.


(** * Vocabulary of the statements *)

Module ParserSpec.
Import Chars Pyparsing RawNginxParser.

(** Every character of [w] satisfies [p]. *)
Fixpoint all_chars (p : ascii -> bool) (w : string) : bool :=
  match w with
  | EmptyString => true
  | String c t => p c && all_chars p t
  end.

(** [s] is empty or starts with a character that fails [p]. *)
Definition stops (p : ascii -> bool) (s : string) : Prop :=
  match s with
  | EmptyString => True
  | String c _ => p c = false
  end.

Definition is_white (c : ascii) : bool := inb c default_white.
Definition is_key_char (c : ascii) : bool := inb c key_chars.

(** The token a run of white characters leaves: none when it is empty. *)
Definition ws_tok (w : string) : list tok :=
  match w with
  | EmptyString => []
  | _ => [TStr w]
  end.

End ParserSpec.

Module TreeSpec.
Import Chars Py Store Nginxparser.
Local Open Scope py_scope.

(** The list [xs] with [v] inserted the way [list.insert(i, v)] does. *)
Definition inserted (xs : list val) (i : Z) (v : val) : list val :=
  let j := insert_index (length xs) i in take j xs ++ v :: drop j xs.

(** The number of entries that are not whitespace strings. *)
Fixpoint count_nonspacey (xs : list val) : Z :=
  match xs with
  | [] => 0
  | x :: rest => (if spacey x then 0 else 1) + count_nonspacey rest
  end.

(** The node [self] has [a] logical elements and its spaced list [sp] has
    [b] elements. *)
Definition counts (h : heap) (self sp : nat) (a b : nat) : Prop :=
  exists xs spaced,
    h !! self = Some (OUnspaced xs sp) /\ h !! sp = Some (OList spaced)
    /\ length xs = a /\ length spaced = b.

(** A mutation at a logical index or at the end, and a sequence of them
    applied to one node. *)
Inductive mutation :=
| MInsert (i : Z) (x : val) (spaceout : bool)
| MAppend (x : val) (spaceout : bool)
| MSet (i : Z) (x : val)
| MDelete (i : Z).

Definition mutate (fuel : nat) (self : nat) (m : mutation) : M unit :=
  match m with
  | MInsert i x so => insert fuel self i x so
  | MAppend x so => append fuel self x so
  | MSet i x => __setitem__ fuel self i x
  | MDelete i => __delitem__ self i
  end.

Definition mutate_all (fuel : nat) (self : nat) (ms : list mutation) : M unit :=
  forM_ ms (mutate fuel self).

(** Appending [;], putting [x] in front and deleting the second element. *)
Definition three_mutations : list mutation :=
  [MAppend (VStr ";") false; MInsert 0 (VStr "x") false; MDelete 1].

(** The directive [ listen 80]: the logical list and the spaced list. *)
Definition listen_node : heap :=
  [OUnspaced [VStr "listen"; VStr "80"] 1;
   OList [VStr " "; VStr "listen"; VStr " "; VStr "80"]].

(** The same with a new directive, a plain list, beside it. *)
Definition listen_and_root : heap :=
  listen_node ++ [OList [VStr "root"; VStr "/var/www"]].

End TreeSpec.

Module FrameSpec.
Import Py Store Nginxparser.

(** Every [UnspacedList] at or above address [n] has its [spaced] list at
    or above [n] too. *)
Definition fresh_attrs (n : nat) (h : heap) : Prop :=
  forall l xs a, n <= l -> h !! l = Some (OUnspaced xs a) -> n <= a.

Definition inv (n : nat) (h : heap) : Prop :=
  n <= length h /\ fresh_attrs n h.

(** [h'] extends [h] and holds the same objects below [n]. *)
Definition keeps (n : nat) (h h' : heap) : Prop :=
  length h <= length h' /\ forall l, l < n -> h' !! l = h !! l.

(** A computation that leaves every object below [n] alone, whatever its
    outcome, and whose results satisfy [P]. *)
Definition ok {A} (n : nat) (m : M A) (P : A -> Prop) : Prop :=
  forall h r h', inv n h -> m h = (r, h') ->
    inv n h' /\ keeps n h h' /\ forall a, r = Ret a -> P a.

(** A copy of a list not yet in the memo is a new object. *)
Definition copy_result (n : nat) (m : memo) (x : val) (r : val * memo) : Prop :=
  forall l, x = VRef l -> memo_get l m = None ->
  exists y, fst r = VRef y /\ n <= y.

End FrameSpec.

(** What the constructor is given and what it builds. *)
Module ConstructSpec.
Import Py Store Nginxparser FrameSpec.

(** [v] is no list, or it is a plain list, nested at most [d] deep, of
    such values: what the parser returns and what a caller writes down as
    a new directive or block. *)
Fixpoint plain (h : heap) (d : nat) (v : val) {struct d} : Prop :=
  match d with
  | O => is_list v = false
  | S d' =>
      match v with
      | VRef l => exists vs, h !! l = Some (OList vs) /\ Forall (plain h d') vs
      | _ => True
      end
  end.

(** An argument of the mutating methods: a plain value or an
    [UnspacedList]. *)
Definition operand (h : heap) (d : nat) (x : val) : Prop :=
  plain h d x
  \/ exists l ys sp, x = VRef l /\ h !! l = Some (OUnspaced ys sp).

(** The indices of [ies] go down, from below [bound]. *)
Fixpoint descending (ies : list (nat * val)) (bound : nat) : Prop :=
  match ies with
  | [] => True
  | ie :: rest => fst ie < bound /\ descending rest (fst ie)
  end.

(** The copy of a plain list not yet in the memo is a new plain list of
    the same length. *)
Definition copied (h : heap) (m : memo) (x : val) (r : val * memo) (h' : heap)
  : Prop :=
  forall l vs, x = VRef l -> memo_get l m = None -> h !! l = Some (OList vs) ->
  exists y ys, fst r = VRef y /\ length h <= y
    /\ h' !! y = Some (OList ys) /\ length ys = length vs.

(** [self] is an [UnspacedList] built on top of [h], with its spaced
    list. *)
Definition built (h h' : heap) (self : nat) : Prop :=
  exists xs sp ys,
    length h <= self /\ length h <= sp
    /\ h' !! self = Some (OUnspaced xs sp) /\ h' !! sp = Some (OList ys).

(** The node under construction, while the loop of [__init__] runs: its
    logical list has at least [b] elements and its spaced list at least
    [bz], and the store [h0] the constructor started from is intact. *)
Definition node_at (h0 : heap) (self spA : nat) (hc : heap) (b bz : nat) : Prop :=
  exists cur zs,
    hc !! self = Some (OUnspaced cur spA) /\ hc !! spA = Some (OList zs)
    /\ b <= length cur /\ bz <= length zs /\ keeps (length h0) h0 hc.

End ConstructSpec.

(** The logical view of a list without sublists, and the spaced list of a
    new directive. *)
Module ViewSpec.
Import Chars Py Store Nginxparser.

(** Neither a list nor an [UnspacedList]. *)
Definition atom (v : val) : Prop := is_list v = false.

(** What the loop of [__init__] leaves of a list of atoms: an entry of
    white space is dropped unless a [#] stands before it. *)
Fixpoint visible_from (seen : bool) (xs : list val) : list val :=
  match xs with
  | [] => []
  | x :: rest =>
      (if spacey x && negb seen then [] else [x])
      ++ visible_from (seen || val_eqb (VStr "#") x) rest
  end.

Definition visible (xs : list val) : list val := visible_from false xs.

(** [["\n", s1, " ", s2, ...]]: the spaced list of a new directive. *)
Definition spaced_out (src : list val) : list val :=
  VStr nl :: take 1 src ++ flat_map (fun y => [VStr " "; y]) (drop 1 src).

Definition nonspacey (v : val) : bool := negb (spacey v).

(** Stores for the examples. *)
Definition spaced_listen : heap :=
  [OList [VStr " "; VStr "listen"; VStr " "; VStr "80"]].

Definition comment_line : heap :=
  [OList [VStr " "; VStr "#"; VStr " "; VStr ""]].

Definition root_directive : heap :=
  [OList [VStr "root"; VStr "/var/www"]].

End ViewSpec.

(** Token trees in the store, and the text the dumper writes for them. *)
Module TokenSpec.
Import Chars Pyparsing Py Store Nginxparser FrameSpec.

(** The number of lists in a token tree. *)
Fixpoint size (t : tok) : nat :=
  match t with
  | TList ts => S (list_sum (map size ts))
  | _ => 0
  end.

(** The value [v] is the token tree [t] in the store [h], by lists that
    are none of [ys]. *)
Inductive repr_in (ys : list nat) (h : heap) : tok -> val -> Prop :=
| repr_str s : repr_in ys h (TStr s) (VStr s)
| repr_none : repr_in ys h TNone VNone
| repr_list ts l vs :
    ~ In l ys -> h !! l = Some (OList vs) ->
    Forall2 (repr_in ys h) ts vs ->
    repr_in ys h (TList ts) (VRef l).

Definition repr : heap -> tok -> val -> Prop := repr_in [].

(** While a list is copied: [c] is a finished copy of the source list [l]
    that reaches none of the copies [ys] still under construction. *)
Definition complete (h0 : heap) (ys : list nat) (hc : heap) (l c : nat) : Prop :=
  forall t, repr h0 t (VRef l) -> repr_in ys hc t (VRef c).

(** Every entry of the memo is a finished copy, or belongs to a source
    list larger than [K], one that contains the value now copied. *)
Definition memo_ok (h0 : heap) (K : nat) (ys : list nat) (m : memo) (hc : heap)
  : Prop :=
  forall l c, memo_get l m = Some c ->
    (forall t, repr h0 t (VRef l) -> K < size t) \/ complete h0 ys hc l c.

(** What [deepcopy m v] has done when it returns [r]. *)
Definition copy_post (h0 : heap) (ys : list nat) (m : memo) (hc : heap)
    (t : tok) (v : val) (r : val * memo) (hc' : heap) : Prop :=
  repr_in ys hc' t (fst r)
  /\ keeps (length hc) hc hc'
  /\ (forall l c, memo_get l (snd r) = Some c ->
        memo_get l m = Some c \/ complete h0 ys hc' l c)
  /\ (forall l, v = VRef l -> memo_get l m = None -> fst r = VRef (length hc)).

(** The memo while the elements of [l] are copied into [y]. *)
Definition growing (h0 : heap) (ys : list nat) (m : memo) (l y : nat)
    (mi : memo) (hi : heap) : Prop :=
  forall l' c, memo_get l' mi = Some c ->
    (l' = l /\ c = y) \/ memo_get l' m = Some c
    \/ complete h0 (y :: ys) hi l' c.

(** The node [self] under construction from the source [h], with its
    spaced list [y], while the loop of [__init__] runs. *)
Definition inv_at (h : heap) (ts : list tok) (self y : nat) (hc : heap)
    (b : nat) : Prop :=
  exists cur zs,
    hc !! self = Some (OUnspaced cur y) /\ hc !! y = Some (OList zs)
    /\ Forall2 (repr hc) ts zs /\ b <= length cur
    /\ keeps (length h) h hc.

(** The atom a token is, for the tests on it; a list is any list. *)
Definition leaf (t : tok) : val :=
  match t with
  | TStr s => VStr s
  | TNone => VNone
  | TList _ => VRef 0
  end.

Definition join (ss : list string) : string := fold_right String.append EmptyString ss.

Definition indent (pre : list tok) (ind : string) (first : tok) : Prop :=
  (pre = [] /\ ind = EmptyString /\ spacey (leaf first) = false)
  \/ (pre = [TStr ind] /\ spacey (VStr ind) = true).

Definition gap_of (gapt : list tok) (gap v : string) : Prop :=
  (gapt = [] /\ gap = EmptyString
   /\ (v = EmptyString \/ spacey (VStr v) = false))
  \/ (gapt = [TStr gap] /\ gap <> EmptyString /\ spacey (VStr gap) = true).

Inductive text_of : tok -> list string -> Prop :=
| text_str s : text_of (TStr s) [s]
| text_space s : spacey (VStr s) = true -> text_of (TList [TStr s]) [s]
| text_directive pre ind k gapt gap v extra :
    indent pre ind (TStr k) ->
    is_comment_key (VStr k) = false ->
    gap_of gapt gap v ->
    text_of (TList (pre ++ TStr k :: gapt ++ TStr v :: extra))
            [(ind ++ k ++ gap ++ v ++ ";")%string]
| text_comment pre ind k v extra :
    indent pre ind (TStr k) ->
    is_comment_key (VStr k) = true ->
    text_of (TList (pre ++ TStr k :: TStr v :: extra)) [(ind ++ k ++ v)%string]
| text_block pre ind ks ps liness extra :
    indent pre ind (TList (map TStr ks)) ->
    Forall2 text_of ps liness ->
    text_of (TList (pre ++ TList (map TStr ks) :: TList ps :: extra))
            ((ind ++ join ks ++ "{")%string :: List.concat liness ++ ["}"%string]).


(** Stores for the examples: the tokens of [listen 80;], and a tree with
    them as its spaced list. *)
Definition listen_tokens : list tok :=
  [TList [TStr "listen"; TStr " "; TStr "80"]].

Definition parsed_listen : heap :=
  [OList [VStr "listen"; VStr " "; VStr "80"]; OList [VRef 0]].

Definition listen_tree : heap :=
  [OList [VStr "listen"; VStr " "; VStr "80"]; OList [VRef 0];
   OUnspaced [] 1].

End TokenSpec.


(** ** Vocabulary of the grammar statements *)

Module GrammarSpec.
Import Chars Re Pyparsing RawNginxParser ParserSpec TokenSpec.

(** A character [.] matches. *)
Definition no_lf (c : ascii) : bool := negb (Ascii.eqb c LF).

(** A character of a plain value: not one of [{ } ; ,] and no quote. *)
Definition is_plain (c : ascii) : bool :=
  negb (inb c "{};,") && negb (Ascii.eqb c DQ) && negb (Ascii.eqb c SQ).

(** [s] starts with a character that satisfies [p]. *)
Definition starts (p : ascii -> bool) (s : string) : bool :=
  match s with
  | EmptyString => false
  | String c _ => p c
  end.

(** [s] is at the end of a line. *)
Definition ends_line (s : string) : bool :=
  match s with
  | EmptyString => true
  | String c _ => Ascii.eqb c LF
  end.

(** The class [[^\{\};,]] of the pattern of [value]. *)
Definition not_special (c : ascii) : bool := negb (inb c "{};,").

(** One iteration of the pattern of [value]. *)
Definition value_body : regex :=
  rseq [ ROpt (rseq [RChr DQ; RStar RDot; RChr DQ]);
         ROpt (rseq [RChr SQ; RStar RDot; RChr SQ]);
         ROpt (RNotIn "{};,") ].

(** No character [q] stands on the line [t] starts with. *)
Fixpoint line_free (q : ascii) (t : string) : bool :=
  match t with
  | EmptyString => true
  | String c t' =>
      if Ascii.eqb c LF then true
      else negb (Ascii.eqb c q) && line_free q t'
  end.

(** The text [s] between two quotes [q]. *)
Definition quoted (q : ascii) (s : string) : string :=
  String q (s ++ String q EmptyString).

(** *** Configurations as trees of items *)

(** The header of a block: a key and, after it, a modifier and a
    location, each of which may be missing (the empty string), with the
    white characters between them. *)
Record header := mkHeader {
  hkey : string;
  hgap : string;
  hmod : string;
  hgap2 : string;
  hloc : string;
  hgap3 : string
}.

Definition header_text (hd : header) : string :=
  hkey hd ++ hgap hd ++ hmod hd ++ hgap2 hd ++ hloc hd ++ hgap3 hd.

(** A token for each part that is not empty. *)
Definition header_toks (hd : header) : list tok :=
  [TStr (hkey hd)] ++ ws_tok (hgap hd) ++ ws_tok (hmod hd)
  ++ ws_tok (hgap2 hd) ++ ws_tok (hloc hd) ++ ws_tok (hgap3 hd).

(** A directive with a plain value, a comment, or a block, each with the
    white characters [w] in front of it. *)
Inductive stmt :=
| Directive (w k g v : string)
| Comment (w t : string)
| Block (w : string) (hd : header) (body : list stmt) (e : string).

(** The text of an item, and the tokens it stands for. *)
Fixpoint stmt_text (it : stmt) : string :=
  match it with
  | Directive w k g v => w ++ k ++ g ++ v ++ ";"
  | Comment w t => w ++ "#" ++ t
  | Block w hd body e =>
      w ++ header_text hd ++ "{" ++ join (map stmt_text body) ++ e ++ "}"
  end.

Definition stmts_text (its : list stmt) : string := join (map stmt_text its).

Fixpoint stmt_tok (it : stmt) : tok :=
  match it with
  | Directive w k g v => TList (ws_tok w ++ [TStr k] ++ ws_tok g ++ [TStr v])
  | Comment w t => TList (ws_tok w ++ [TStr "#"; TStr t])
  | Block w hd body e =>
      TList [TList (ws_tok w ++ header_toks hd);
             TList (map stmt_tok body ++ ws_tok e)]
  end.

(** The nesting of blocks. *)
Fixpoint depth (it : stmt) : nat :=
  match it with
  | Block _ _ body _ => S (list_max (map depth body))
  | _ => 0
  end.

Definition key_ok (k : string) : bool :=
  negb (k =? "") && all_chars is_key_char k.

(** A key that is not taken for the start of an [if] or [map] header. *)
Definition free_key (k : string) : bool :=
  negb (String.prefix "if" k) && negb (String.prefix "map" k).

(** The class of [location]: [CharsNotIn("{};," + string.whitespace)] *)
Definition is_loc (c : ascii) : bool := negb (inb c ("{};," ++ whitespace)).

(** A character of a location without quotes. *)
Definition is_arg (c : ascii) : bool := is_plain c && negb (inb c whitespace).

Definition is_modifier (m : string) : bool :=
  (m =? "=") || (m =? "~*") || (m =? "~") || (m =? "^~").

(** [s] does not start with a modifier. *)
Definition no_modifier (s : string) : bool :=
  negb (String.prefix "=" s) && negb (String.prefix "~" s)
  && negb (String.prefix "^~" s).

Definition header_ok (hd : header) : bool :=
  key_ok (hkey hd) && free_key (hkey hd)
  && all_chars is_white (hgap hd) && all_chars is_white (hgap2 hd)
  && all_chars is_arg (hloc hd) && all_chars is_white (hgap3 hd)
  && negb (starts is_key_char (hgap hd ++ hmod hd ++ hloc hd))
  && (if hmod hd =? "" then (hgap2 hd =? "") && no_modifier (hloc hd)
      else is_modifier (hmod hd)
           && negb ((hmod hd =? "~")
                    && starts (Ascii.eqb "*") (hgap2 hd ++ hloc hd)))
  && (if hloc hd =? "" then (hgap2 hd =? "") && (hgap3 hd =? "") else true).

(** A comment ends with its line: what follows a comment is the end of
    the text or a newline. *)
Fixpoint lines_ok (its : list stmt) (tail : string) : bool :=
  match its with
  | [] => true
  | it :: rest =>
      match it with
      | Comment _ _ => ends_line (stmts_text rest ++ tail)
      | _ => true
      end && lines_ok rest tail
  end.

Fixpoint stmt_ok (it : stmt) : bool :=
  match it with
  | Directive w k g v =>
      all_chars is_white w && key_ok k && all_chars is_white g
      && all_chars is_plain v && negb (starts is_white v)
      && (negb (g =? "") || (v =? ""))
  | Comment w t => all_chars is_white w && all_chars no_lf t
  | Block w hd body e =>
      all_chars is_white w && header_ok hd
      && forallb stmt_ok body && lines_ok body (e ++ "}")
      && all_chars is_white e
  end.

(** At the top level a directive is tried as a block header as well. *)
Definition top_ok (it : stmt) : bool :=
  match it with
  | Directive _ k _ _ => free_key k
  | _ => true
  end.

(** The item without the white characters in front of it. *)
Definition unlead (it : stmt) : stmt :=
  match it with
  | Directive _ k g v => Directive "" k g v
  | Comment _ t => Comment "" t
  | Block _ hd body e => Block "" hd body e
  end.

Definition lead (it : stmt) : string :=
  match it with
  | Directive w _ _ _ | Comment w _ | Block w _ _ _ => w
  end.

(** The items without the white characters in front of the first. *)
Definition unlead_first (its : list stmt) : list stmt :=
  match its with
  | [] => []
  | it :: rest => unlead it :: rest
  end.

(** An element of a block body, for the nesting [n]. *)
Definition body_item (n : nat) : Expr :=
  (Group (comment :|: assignment) :|: Forward (block n false))%pp.

(** An element of the script. *)
Definition script_item (n : nat) : Expr :=
  (Group (comment :|: assignment) :^: block n)%pp.

(** The text leads to a semicolon before any left brace. *)
Fixpoint guarded (s : string) : bool :=
  match s with
  | EmptyString => false
  | String c t =>
      if Ascii.eqb c ";" then true
      else if Ascii.eqb c "{" then false
      else guarded t
  end.

(** An element that leaves a guarded text guarded. *)
Definition keeps_guard (e : ParserElement) : Prop :=
  forall s ts s1,
    guarded s = true -> parseImpl e s = Some (ts, s1) -> guarded s1 = true.

Definition not_brace (c : ascii) : bool := negb (Ascii.eqb c "{").
Definition not_semicolon (c : ascii) : bool := negb (Ascii.eqb c ";").

(** A configuration for the examples. *)
Definition php_location : stmt :=
  Block (nl ++ "    ") (mkHeader "location" " " "~*" " " "\.php$" " ")
    [Directive " " "return" " " "301 $uri"] " ".

Definition sample_server : stmt :=
  Block (nl ++ "  ") (mkHeader "server" " " "" "" "" "")
    [ Directive (nl ++ "    ") "listen" " " "80 default";
      php_location;
      Block (nl ++ "    ") (mkHeader "location" " " "" "" "/" " ")
        [Comment " " " nothing"] nl ]
    (nl ++ "  ").

Definition sample_config : list stmt :=
  [ Directive "" "user" " " "www-data";
    Comment nl " the http { block";
    Block nl (mkHeader "http" " " "" "" "" "")
      [Directive (nl ++ "  ") "gzip" " " "on"; sample_server] nl ].

(** An indented first line, and the items that follow it. *)
Definition indented_user : stmt := Directive "  " "user" " " "www-data".

Definition sample_tail : list stmt :=
  [ Comment nl " the http { block";
    Block nl (mkHeader "http" " " "" "" "" "")
      [Directive (nl ++ "  ") "gzip" " " "on"; sample_server] nl ].

(** The same without white characters before its top-level items. *)
Definition sample_http : list stmt :=
  [ Block "" (mkHeader "http" " " "" "" "" "")
      [Directive (nl ++ "  ") "gzip" " " "on"; sample_server] nl ].

End GrammarSpec.

(** ** Vocabulary of the logical view *)

Module NodeSpec.
Import Chars Pyparsing Py Store Nginxparser FrameSpec ParserSpec TokenSpec
  GrammarSpec.

(** The entry is the string [#]. *)
Definition is_hash (t : tok) : bool := val_eqb (VStr "#") (leaf t).

(** What the loop of [__init__] leaves of the entry [t], whose logical
    view is [v], in front of the entries [rest] it has left of those that
    follow: a sublist is dropped when its view is empty and it is not; a
    whitespace entry is dropped unless a [#] stands before it. *)
Definition view_entry (seen : bool) (t v : tok) (rest : list tok) : list tok :=
  match t, v with
  | TList sub, TList vsub =>
      if negb (Nat.eqb (length vsub) 0) || Nat.eqb (length sub) 0
      then v :: rest else rest
  | _, _ => if spacey (leaf t) && negb seen then rest else t :: rest
  end.

(** The logical view of a token tree. *)
Fixpoint view (t : tok) : tok :=
  match t with
  | TList ts =>
      TList ((fix go (seen : bool) (ts : list tok) {struct ts} : list tok :=
                match ts with
                | [] => []
                | t1 :: ts' =>
                    view_entry seen t1 (view t1) (go (seen || is_hash t1) ts')
                end) false ts)
  | _ => t
  end.

Fixpoint view_from (seen : bool) (ts : list tok) : list tok :=
  match ts with
  | [] => []
  | t1 :: ts' =>
      view_entry seen t1 (view t1) (view_from (seen || is_hash t1) ts')
  end.

(** The value [v] is the tree [t] of [UnspacedList] nodes, all of them at
    or above the address [lo], with [t] as their logical lists. *)
Inductive nrepr (lo : nat) (h : heap) : tok -> val -> Prop :=
| nrepr_str s : nrepr lo h (TStr s) (VStr s)
| nrepr_none : nrepr lo h TNone VNone
| nrepr_node ts l xs sp :
    lo <= l -> h !! l = Some (OUnspaced xs sp) ->
    Forall2 (nrepr lo h) ts xs ->
    nrepr lo h (TList ts) (VRef l).

(** The node [self] while the loop of [__init__] runs: the entries below
    [b] are those of the source, the others have been dealt with. *)
Definition view_at (h : heap) (ts : list tok) (vs : list val) (self y : nat)
    (hc : heap) (b : nat) : Prop :=
  exists suf zs,
    hc !! self = Some (OUnspaced (take b vs ++ suf) y)
    /\ hc !! y = Some (OList zs)
    /\ Forall2 (repr hc) ts zs
    /\ Forall2 (nrepr (S self) hc)
               (view_from (existsb is_hash (take b ts)) (drop b ts)) suf
    /\ keeps (length h) h hc.

(** What the logical lists hold of an item of a configuration: a
    directive is its key and its value (the key alone when the value is
    empty or whitespace), a comment the [#] and its text, a block its
    header and the list of its body; a body that is nothing but white
    characters is left out. *)
Fixpoint stmt_view (it : stmt) : tok :=
  match it with
  | Directive _ k _ v =>
      TList (TStr k :: if spacey (VStr v) then [] else [TStr v])
  | Comment _ t => TList [TStr "#"; TStr t]
  | Block _ hd body e =>
      TList (TList (TStr (hkey hd) :: ws_tok (hmod hd) ++ ws_tok (hloc hd))
             :: match body with
                | [] => if (e =? "")%string then [TList []] else []
                | _ => [TList (map stmt_view body)]
                end)
  end.

(** No block has the single character [#] as its location. *)
Fixpoint view_ok (it : stmt) : bool :=
  match it with
  | Block _ hd body _ => negb (hloc hd =? "#")%string && forallb view_ok body
  | _ => true
  end.

End NodeSpec.

(** ** Vocabulary of the edits *)

Module EditSpec.
Import Chars Pyparsing Py Store Nginxparser TokenSpec.

(** The number of tokens that are no whitespace strings: the length the
    logical list of a node with these tokens as its spaced list has. *)
Definition entries (ts : list tok) : nat :=
  length (List.filter (fun t => negb (spacey (leaf t))) ts).

(** The tokens [_coerce] makes of the new directive [[k, v]]: with
    [spaceout] a line break in front and a blank between. *)
Definition directive_tokens (spaceout : bool) (k v : string) : tok :=
  TList (if spaceout then [TStr nl; TStr k; TStr " "; TStr v]
         else [TStr k; TStr v]).

(** The text the dumper writes for these tokens. *)
Definition directive_line (spaceout : bool) (k v : string) : string :=
  if spaceout then (nl ++ k ++ " " ++ v ++ ";")%string
  else (k ++ v ++ ";")%string.

(** A store for the examples: the node of [listen 80;] followed by
    [server_name a;] on a line of its own, and the source list of a new
    directive. *)
Definition two_lines : list tok :=
  [TList [TStr "listen"; TStr " "; TStr "80"];
   TList [TStr nl; TStr "server_name"; TStr " "; TStr "a"]].

Definition two_lines_tree : heap :=
  [OList [VStr "listen"; VStr " "; VStr "80"];
   OList [VStr nl; VStr "server_name"; VStr " "; VStr "a"];
   OList [VRef 0; VRef 1];
   OUnspaced [VStr "listen"; VStr "80"] 0;
   OUnspaced [VStr "server_name"; VStr "a"] 1;
   OUnspaced [VRef 3; VRef 4] 2;
   OList [VStr "root"; VStr "/var/www"]].

End EditSpec.

(** The programs of the scenarios: whole runs from the text to the text. *)
Module Programs.
Import Chars Py Store Nginxparser.
Local Open Scope py_scope.
Local Open Scope string_scope.

(** The outcome of a run that starts from the empty store. *)
Definition run {A} (m : M A) : outcome A := fst (m []).

(** [l[i]], where it is a list. *)
Definition item (l : nat) (i : Z) : M nat :=
  v <- list_getitem l i ;; as_ref v.

Definition len (l : nat) : M nat :=
  xs <- get_elems l ;; ret (length xs).

Definition round_trip (source : string) : M string :=
  tree <- loads 40 source ;; dumps 40 tree.

Definition server_text : string :=
  "server {" ++ nl ++ "  listen 80;" ++ nl ++ "}" ++ nl.

(** [s.split("\n")]: the lines of a text. *)
Fixpoint split_lines (s : string) : list string :=
  match s with
  | EmptyString => [EmptyString]
  | String c t =>
      if Ascii.eqb c LF then EmptyString :: split_lines t
      else
        match split_lines t with
        | l :: ls => String c l :: ls
        | [] => [String c EmptyString]
        end
  end.

(** Scenario 5: appending a directive to the body of the block. *)
Definition append_root : M string :=
  tree <- loads 40 server_text ;;
  block <- item tree 0 ;;
  body <- item block 1 ;;
  directive <- alloc (OList [VStr "root"; VStr "/var/www"]) ;;
  append 40 body (VRef directive) true ;;
  dumps 40 tree.

(** The tree of [foo { }] and its block.  The body of the block, [[" "]],
    is dropped from the logical list of the block and kept in its spaced
    list. *)
Definition foo_block : M (nat * nat) :=
  tree <- loads 40 "foo { }" ;;
  block <- item tree 0 ;;
  ret (tree, block).

End Programs.

(** * Examples of parsing *)

Module ParserExamples.
Import Chars Pyparsing RawNginxParser.

Example parse_server :
  as_list ("server {" ++ nl ++ "  listen 80;" ++ nl ++ "}" ++ nl)
  = Some [TList [TList [TStr "server"; TStr " "];
                 TList [TList [TStr (nl ++ "  "); TStr "listen"; TStr " ";
                               TStr "80"];
                        TStr nl]];
          TStr nl].
Proof. vm_compute. reflexivity. Qed.

End ParserExamples.

(** * Properties of the grammar *)

Module ParserFacts.
Import Chars Re Pyparsing RawNginxParser ParserSpec.

#[local] Arguments inb : simpl never.


Lemma span_app_stop p w s :
  all_chars p w = true -> stops p s -> span p (w ++ s) = (w, s).
Proof.
  induction w as [|c w IH]; simpl; intros Hw Hs.
  - destruct s as [|d s]; simpl in *; [reflexivity|]. now rewrite Hs.
  - apply andb_prop in Hw as [Hc Hw]. rewrite Hc, (IH Hw Hs). reflexivity.
Qed.

Lemma nonempty_run_app p w s :
  all_chars p w = true -> stops p s ->
  nonempty_run p (w ++ s)
  = match w with EmptyString => None | _ => Some ([TStr w], s) end.
Proof.
  intros Hw Hs. unfold nonempty_run. rewrite (span_app_stop _ _ _ Hw Hs).
  destruct w; reflexivity.
Qed.

(** [space] takes a run of white characters as one token, or nothing. *)
Lemma parse_space lv cp w s :
  all_chars is_white w = true -> stops is_white s ->
  _parse (space lv) cp (w ++ s) = Some (ws_tok w, s).
Proof.
  intros Hw Hs.
  assert (H : parseImpl (space lv) (w ++ s) = Some (ws_tok w, s)).
  { cbn. unfold _parse. cbn.
    change (nonempty_run _ (w ++ s)) with (nonempty_run is_white (w ++ s)).
    rewrite (nonempty_run_app _ _ _ Hw Hs). destruct w; reflexivity. }
  destruct cp; exact H.
Qed.

Lemma white_not_key c : is_white c = true -> is_key_char c = false.
Proof.
  destruct c as [[] [] [] [] [] [] [] []]; vm_compute; congruence.
Qed.

Lemma parse_key lv cp k s :
  k <> EmptyString -> all_chars is_key_char k = true -> stops is_key_char s ->
  stops is_white (k ++ s) ->
  _parse (key lv) cp (k ++ s) = Some ([TStr k], s).
Proof.
  intros Hne Hk Hs Hw.
  assert (H : parseImpl (key lv) (k ++ s) = Some ([TStr k], s)).
  { cbn. change (nonempty_run _ (k ++ s)) with (nonempty_run is_key_char (k ++ s)).
    rewrite (nonempty_run_app _ _ _ Hk Hs). destruct k; congruence. }
  unfold _parse, preParse. destruct (cp && _); [|exact H].
  destruct (skipWhitespace (key lv)); [|exact H].
  change (span _ (k ++ s)) with (span is_white (EmptyString ++ (k ++ s))).
  rewrite span_app_stop; [exact H|reflexivity|exact Hw].
Qed.

(** The combinators reduce to their [parseImpl] where the first operand
    does not skip white characters; inside a [leaveWhitespace()] that is
    every element. *)
Section Equations.
Variables a b : Expr.
Variable lv : bool.
Hypothesis a_noskip : skipWhitespace (a lv) = false.

Lemma parse_And cp s :
  _parse (And a b lv) cp s
  = match _parse (a lv) false s with
    | Some (t1, s1) =>
        match _parse (b lv) true s1 with
        | Some (t2, s2) => Some (t1 ++ t2, s2)
        | None => None
        end
    | None => None
    end.
Proof.
  unfold _parse at 1, preParse. cbn [And skipWhitespace parseImpl].
  rewrite a_noskip. now destruct (cp && _).
Qed.

Lemma parse_Group cp s :
  _parse (Group a lv) cp s
  = match _parse (a lv) false s with
    | Some (ts, rest) => Some ([TList ts], rest)
    | None => None
    end.
Proof.
  unfold _parse at 1, preParse. cbn [Group skipWhitespace parseImpl].
  rewrite a_noskip. now destruct (cp && _).
Qed.

Lemma parse_Optional_with d cp s :
  _parse (Optional_with d a lv) cp s
  = match _parse (a lv) false s with
    | Some r => Some r
    | None => Some (d, s)
    end.
Proof.
  unfold _parse at 1, preParse.
  cbn [Optional_with skipWhitespace parseImpl].
  rewrite a_noskip. now destruct (cp && _).
Qed.

End Equations.

Lemma parse_Optional a lv cp s :
  skipWhitespace (a lv) = false ->
  _parse (Optional a lv) cp s
  = match _parse (a lv) false s with
    | Some r => Some r
    | None => Some ([], s)
    end.
Proof. intros H. unfold Optional. now apply parse_Optional_with. Qed.

Lemma parse_MatchFirst a b cp s :
  _parse (MatchFirst a b true) cp s
  = match _parse (a true) true s with
    | Some r => Some r
    | None => _parse (b true) true s
    end.
Proof.
  unfold _parse at 1, preParse. cbn [MatchFirst skipWhitespace parseImpl negb].
  now destruct (cp && _).
Qed.

Lemma parse_Or a b cp s :
  _parse (Or a b true) cp s
  = match _parse (a true) true s, _parse (b true) true s with
    | Some (ta, ra), Some (tb, rb) =>
        if Nat.ltb (String.length rb) (String.length ra) then Some (tb, rb)
        else Some (ta, ra)
    | Some r, None => Some r
    | None, r => r
    end.
Proof.
  unfold _parse at 1, preParse. cbn [Or skipWhitespace parseImpl negb].
  now destruct (cp && _).
Qed.

Lemma parse_Literal_true cp m s :
  _parse (Literal m true) cp s
  = match strip_prefix m s with
    | Some rest => Some ([TStr m], rest)
    | None => None
    end.
Proof. unfold _parse, preParse. cbn. destruct cp; reflexivity. Qed.

(** [modifier] on a text that starts with [~*] *)
Lemma parse_modifier_tilde_star cp rest :
  _parse (modifier true) cp ("~*" ++ rest) = Some ([TStr "~*"], rest).
Proof.
  unfold modifier.
  rewrite !parse_MatchFirst, !parse_Literal_true. reflexivity.
Qed.

Lemma stops_key_after_location w1 rest :
  all_chars is_white w1 = true ->
  stops is_key_char (w1 ++ "~*" ++ rest).
Proof.
  destruct w1 as [|c w1]; simpl; [reflexivity|].
  intros H. apply andb_prop in H as [H _]. now apply white_not_key.
Qed.

Lemma literal_fails_on_location lv cp m s :
  (forall t, strip_prefix m (String "l" t) = None) ->
  _parse (Literal m lv) cp ("location" ++ s) = None.
Proof.
  intros Hm. unfold _parse, preParse.
  assert (H : parseImpl (Literal m lv) ("location" ++ s) = None).
  { cbn. now rewrite Hm. }
  destruct cp; [|exact H]. destruct (skipWhitespace (Literal m lv)); exact H.
Qed.

(** C9. A block header whose key is [location] and whose text after the
    key (and after the white characters that follow it) starts with [~*]
    is parsed by the generic header shape, and the token after the key is
    the two-character modifier [~*]: it is never split into the modifier
    [~] and a location that starts with [*]. *)
Theorem location_header_tilde_star_modifier (lv cp : bool) (w0 w1 rest : string) :
  all_chars is_white w0 = true ->
  all_chars is_white w1 = true ->
  exists more rest',
    _parse (block_header lv) cp (w0 ++ "location" ++ w1 ++ "~*" ++ rest)
    = Some ([TList (ws_tok w0 ++ [TStr "location"] ++ ws_tok w1
                    ++ [TStr "~*"] ++ more)], rest')
    /\ _parse (Optional (space + location + space)%pp true) true rest
       = Some (more, rest').
Proof.
  intros H0 H1.
  destruct (_parse (Optional (space + location + space)%pp true) true rest)
    as [[more rest']|] eqn:Hopt.
  2:{ rewrite parse_Optional in Hopt by reflexivity.
      destruct (_parse _ false rest); discriminate. }
  exists more, rest'. split; [|reflexivity].
  unfold block_header, leaveWhitespace.
  rewrite !parse_Or.
  rewrite !parse_Group by reflexivity.
  unfold if_statement, map_statement, location_statement.
  rewrite !parse_And by reflexivity.
  rewrite !(parse_space true false w0) by (assumption || reflexivity).
  rewrite !literal_fails_on_location by (intros; reflexivity).
  rewrite (parse_key true true "location" (w1 ++ "~*" ++ rest))
    by (try discriminate; try reflexivity; auto using stops_key_after_location).
  rewrite !parse_And by reflexivity.
  rewrite (parse_space true false w1 ("~*" ++ rest)) by (assumption || reflexivity).
  rewrite parse_Optional by reflexivity.
  rewrite parse_modifier_tilde_star.
  rewrite Hopt.
  rewrite <- !app_assoc. reflexivity.
Qed.

Lemma location_header_tilde_star_modifier_witness :
  all_chars is_white "" = true /\ all_chars is_white " " = true /\
  exists more rest',
    _parse (block_header false) false ("" ++ "location" ++ " " ++ "~*" ++ " \.php$ {")
    = Some ([TList (ws_tok "" ++ [TStr "location"] ++ ws_tok " "
                    ++ [TStr "~*"] ++ more)], rest')
    /\ _parse (Optional (space + location + space)%pp true) true " \.php$ {"
       = Some (more, rest').
Proof.
  split; [reflexivity|]. split; [reflexivity|].
  exact (location_header_tilde_star_modifier false false "" " " " \.php$ {"
           eq_refl eq_refl).
Defined.

(** Scenario 3 of the specification, through the whole script. *)
Example parse_location_tilde_star :
  as_list ("location ~* \.php$ {" ++ nl ++ "}" ++ nl)
  = Some [TList [TList [TStr "location"; TStr " "; TStr "~*"; TStr " ";
                        TStr "\.php$"; TStr " "];
                 TList [TStr nl]];
          TStr nl].
Proof. vm_compute. reflexivity. Qed.

(** *** Directives without a value *)

Lemma key_not_white c : is_key_char c = true -> is_white c = false.
Proof.
  intros H. destruct (is_white c) eqn:E; [|reflexivity].
  apply white_not_key in E. congruence.
Qed.

Lemma consumed_nothing s : consumed s s = EmptyString.
Proof. unfold consumed. rewrite Nat.sub_diag. destruct s; reflexivity. Qed.

(** The pattern of [value] matches the empty text before a semicolon. *)
Lemma value_re_at_semicolon rest :
  re_match value_re (String ";" rest) = Some (String ";" rest).
Proof.
  unfold re_match, value_re. cbn -[Nat.ltb].
  change (inb ";" "{};,") with true. cbn -[Nat.ltb].
  change (inb ";" "{};,") with true. cbn -[Nat.ltb].
  now rewrite Nat.ltb_irrefl.
Qed.

Lemma parse_value_at_semicolon lv cp rest :
  _parse (value lv) cp (";" ++ rest) = Some ([TStr ""], ";" ++ rest)%string.
Proof.
  assert (H : parseImpl (value lv) (";" ++ rest) = Some ([TStr ""], ";" ++ rest)%string).
  { cbn [value Regex parseImpl]. unfold regex_impl.
    change (";" ++ rest)%string with (String ";" rest).
    rewrite value_re_at_semicolon, consumed_nothing. reflexivity. }
  unfold _parse, preParse. destruct cp; [|exact H].
  destruct (skipWhitespace (value lv)); exact H.
Qed.

Lemma parse_semicolon lv cp rest :
  _parse (semicolon lv) cp (";" ++ rest) = Some ([], rest).
Proof.
  unfold _parse, preParse. destruct cp, lv; reflexivity.
Qed.

Lemma stops_white_key k s :
  k <> EmptyString -> all_chars is_key_char k = true -> stops is_white (k ++ s).
Proof.
  destruct k as [|c k]; [congruence|]. simpl. intros _ H.
  apply andb_prop in H as [H _]. now apply key_not_white.
Qed.

Lemma stops_key_white_semicolon w rest :
  all_chars is_white w = true -> stops is_key_char (w ++ ";" ++ rest).
Proof.
  destruct w as [|c w]; simpl; [reflexivity|].
  intros H. apply andb_prop in H as [H _]. now apply white_not_key.
Qed.

(** C3, as the code has it.  A directive in which only white characters
    stand between the key and the semicolon is parsed, at the top level and
    inside a block alike, into a node whose value is the empty string
    [TStr ""]: the pattern of [value] matches the empty text, so the
    [default=None] of the [Optional] is never used. *)
Theorem valueless_directive_value_is_empty_string
    (lv cp : bool) (w0 k w rest : string) :
  all_chars is_white w0 = true ->
  k <> EmptyString ->
  all_chars is_key_char k = true ->
  all_chars is_white w = true ->
  _parse (assignment lv) cp (w0 ++ k ++ w ++ ";" ++ rest)
  = Some (ws_tok w0 ++ [TStr k] ++ ws_tok w ++ [TStr ""], rest).
Proof.
  intros H0 Hne Hk Hw.
  unfold assignment, Optional_default.
  rewrite !parse_And by reflexivity.
  rewrite (parse_space lv false w0) by (auto using stops_white_key).
  rewrite (parse_key lv true k (w ++ ";" ++ rest))
    by (auto using stops_white_key, stops_key_white_semicolon).
  rewrite parse_Optional_with by reflexivity.
  rewrite parse_And by reflexivity.
  rewrite (parse_space lv false w (";" ++ rest)) by (assumption || reflexivity).
  rewrite parse_value_at_semicolon, parse_semicolon.
  rewrite <- !app_assoc. reflexivity.
Qed.

Lemma valueless_directive_value_is_empty_string_witness :
  all_chars is_white "" = true /\ "break" <> EmptyString /\
  all_chars is_key_char "break" = true /\ all_chars is_white "" = true /\
  _parse (assignment false) true ("" ++ "break" ++ "" ++ ";" ++ "")
  = Some (ws_tok "" ++ [TStr "break"] ++ ws_tok "" ++ [TStr ""], "").
Proof.
  split; [reflexivity|]. split; [discriminate|].
  split; [reflexivity|]. split; [reflexivity|].
  apply (valueless_directive_value_is_empty_string false true "" "break" "" "");
    (reflexivity || discriminate).
Defined.

(** C3, as stated, fails on [break;]: the node the parser builds holds
    the empty string where the claim puts the no-value marker [None]. *)
Lemma break_value_is_not_None :
  as_list "break;" = Some [TList [TStr "break"; TStr ""]]
  /\ as_list "break;" <> Some [TList [TStr "break"; TNone]].
Proof. split; [vm_compute; reflexivity | vm_compute; discriminate]. Qed.

(** *** Quoted values *)

(** C8 fails on these two inputs.  In [x 'a'"b;c";] the semicolon stands
    inside a matching pair of double quotes, yet the directive ends at it:
    after the single-quoted span the pattern takes the opening double
    quote as an ordinary character.  In the second input the quoted text
    runs over two lines, which [.] does not cross.  Both parse into two
    directives. *)
Theorem quoted_semicolon_ends_directive :
  as_list ("x 'a'" ++ dq ++ "b;c" ++ dq ++ ";")
  = Some [TList [TStr "x"; TStr " "; TStr ("'a'" ++ dq ++ "b")];
          TList [TStr "c"; TStr dq]]
  /\ as_list ("x " ++ dq ++ "a;" ++ nl ++ "b" ++ dq ++ ";")
  = Some [TList [TStr "x"; TStr " "; TStr (dq ++ "a")];
          TList [TStr nl; TStr "b"; TStr dq]].
Proof. split; vm_compute; reflexivity. Qed.

(** Where the quoted span starts an iteration of the pattern, it is taken
    whole. *)
Example quoted_semicolon_kept :
  as_list ("x " ++ dq ++ "b;c" ++ dq ++ ";")
  = Some [TList [TStr "x"; TStr " "; TStr (dq ++ "b;c" ++ dq)]].
Proof. vm_compute. reflexivity. Qed.

End ParserFacts.

(** * Properties of the store model

    What the constructor and the copies write: only objects they
    allocate themselves. *)

Module Frame.
Import Chars Py Store Nginxparser FrameSpec.
Local Open Scope py_scope.


Lemma keeps_refl n h : keeps n h h.
Proof. split; auto. Qed.

Lemma keeps_trans n h1 h2 h3 : keeps n h1 h2 -> keeps n h2 h3 -> keeps n h1 h3.
Proof.
  intros [L1 K1] [L2 K2]. split; [lia|].
  intros l Hl. rewrite K2, K1; auto.
Qed.

Lemma inv_start h : inv (length h) h.
Proof.
  split; [lia|]. intros l xs a Hl Hlk.
  apply lookup_lt_Some in Hlk. lia.
Qed.

Lemma ok_ret {A} n (a : A) (P : A -> Prop) : P a -> ok n (ret a) P.
Proof.
  intros Pa h r h' I E. inversion E; subst.
  split; [assumption|]. split; [apply keeps_refl|].
  intros a' Ha. inversion Ha; subst; assumption.
Qed.

Lemma ok_raise {A} n e (P : A -> Prop) : ok n (raise e) P.
Proof.
  intros h r h' I E. inversion E; subst.
  split; [assumption|]. split; [apply keeps_refl|]. discriminate.
Qed.

Lemma ok_abort {A} n (P : A -> Prop) : ok n abort P.
Proof.
  intros h r h' I E. inversion E; subst.
  split; [assumption|]. split; [apply keeps_refl|]. discriminate.
Qed.

Lemma ok_bind {A B} n (m : M A) (k : A -> M B) (P : A -> Prop) (Q : B -> Prop) :
  ok n m P -> (forall a, P a -> ok n (k a) Q) -> ok n (bind m k) Q.
Proof.
  intros Hm Hk h r h' I E. unfold bind in E.
  destruct (m h) as [[a|e|] h1] eqn:Em;
    destruct (Hm _ _ _ I Em) as (I1 & K1 & P1).
  - destruct (Hk a (P1 a eq_refl) _ _ _ I1 E) as (I2 & K2 & P2).
    split; [assumption|]. split; [eapply keeps_trans; eassumption|assumption].
  - inversion E; subst. split; [assumption|]. split; [assumption|discriminate].
  - inversion E; subst. split; [assumption|]. split; [assumption|discriminate].
Qed.

Lemma ok_weaken {A} n (m : M A) (P Q : A -> Prop) :
  ok n m P -> (forall a, P a -> Q a) -> ok n m Q.
Proof.
  intros Hm HPQ h r h' I E. destruct (Hm _ _ _ I E) as (I1 & K1 & P1).
  split; [assumption|]. split; [assumption|]. intros a Ha. apply HPQ, P1, Ha.
Qed.

Lemma ok_foldM {A B} n (f : B -> A -> M B) (I : B -> Prop) xs :
  (forall b a, I b -> ok n (f b a) I) ->
  forall b, I b -> ok n (foldM f b xs) I.
Proof.
  intros Hf. induction xs as [|x xs IH]; intros b Ib; simpl.
  - now apply ok_ret.
  - eapply ok_bind; [apply Hf, Ib|]. intros b' Ib'. now apply IH.
Qed.

Lemma ok_forM_ {A} n (xs : list A) (f : A -> M unit) :
  (forall a, ok n (f a) (fun _ => True)) ->
  ok n (forM_ xs f) (fun _ => True).
Proof.
  intros Hf. unfold forM_. apply ok_foldM; [|exact I].
  intros b a _. apply Hf.
Qed.

(** *** The primitives *)

Section Primitives.
Variable n : nat.

Lemma ok_alloc_list xs : ok n (alloc (OList xs)) (fun l => n <= l).
Proof.
  intros h r h' [L F] E. inversion E; subst. split; [split|split].
  - rewrite length_app. simpl. lia.
  - intros l ys a Hl Hlk.
    destruct (decide (l < length h)) as [Hlt|Hge].
    + rewrite lookup_app_l in Hlk by assumption. eauto.
    + rewrite lookup_app_r in Hlk by lia.
      destruct (l - length h) as [|k]; simpl in Hlk; [discriminate|].
      now rewrite lookup_nil in Hlk.
  - split; [rewrite length_app; simpl; lia|].
    intros l Hl. apply lookup_app_l. lia.
  - intros a Ha. inversion Ha; subst. assumption.
Qed.

Lemma ok_alloc_unspaced xs sp :
  n <= sp -> ok n (alloc (OUnspaced xs sp)) (fun l => n <= l).
Proof.
  intros Hsp h r h' [L F] E. inversion E; subst. split; [split|split].
  - rewrite length_app. simpl. lia.
  - intros l ys a Hl Hlk.
    destruct (decide (l < length h)) as [Hlt|Hge].
    + rewrite lookup_app_l in Hlk by assumption. eauto.
    + rewrite lookup_app_r in Hlk by lia.
      destruct (l - length h) as [|k]; simpl in Hlk.
      * inversion Hlk; subst. assumption.
      * now rewrite lookup_nil in Hlk.
  - split; [rewrite length_app; simpl; lia|].
    intros l Hl. apply lookup_app_l. lia.
  - intros a Ha. inversion Ha; subst. assumption.
Qed.

(** Reading an object at or above [n]: its [spaced] is at or above [n]. *)
Lemma ok_get_obj l :
  ok n (get_obj l)
     (fun o => n <= l -> forall xs a, o = OUnspaced xs a -> n <= a).
Proof.
  intros h r h' [L F] E. unfold get_obj in E.
  destruct (h !! l) as [o|] eqn:Hl; inversion E; subst;
    (split; [split; assumption|]); (split; [apply keeps_refl|]).
  - intros a Ha. inversion Ha; subst. intros Hn xs sp ->. eauto.
  - discriminate.
Qed.

Lemma ok_put_obj l o :
  n <= l -> (forall xs a, o = OUnspaced xs a -> n <= a) ->
  ok n (put_obj l o) (fun _ => True).
Proof.
  intros Hl Ho h r h' [L F] E. inversion E; subst. split; [split|split].
  - rewrite length_insert. assumption.
  - intros l' xs a Hl' Hlk.
    destruct (decide (l = l')) as [->|Hne].
    + destruct (decide (l' < length h)) as [Hlt|Hge].
      * rewrite list_lookup_insert_eq in Hlk by assumption.
        inversion Hlk; subst. eauto.
      * rewrite list_insert_ge in Hlk by lia. eauto.
    + rewrite list_lookup_insert_ne in Hlk by assumption. eauto.
  - split; [rewrite length_insert; lia|].
    intros l' Hl'. apply list_lookup_insert_ne. lia.
  - intros [] _. exact I.
Qed.

Lemma ok_get_elems l : ok n (get_elems l) (fun _ => True).
Proof.
  unfold get_elems. eapply ok_bind; [apply ok_get_obj|].
  intros o _. now apply ok_ret.
Qed.

Lemma ok_get_spaced l : n <= l -> ok n (get_spaced l) (fun a => n <= a).
Proof.
  intros Hl. unfold get_spaced. eapply ok_bind; [apply ok_get_obj|].
  intros o Ho. destruct o as [xs|xs a].
  - apply ok_raise.
  - apply ok_ret. eauto.
Qed.

Lemma ok_get_spaced_any l : ok n (get_spaced l) (fun _ => True).
Proof.
  unfold get_spaced. eapply ok_bind; [apply ok_get_obj|].
  intros o Ho. destruct o as [xs|xs a]; [apply ok_raise|now apply ok_ret].
Qed.

Lemma ok_set_elems l xs : n <= l -> ok n (set_elems l xs) (fun _ => True).
Proof.
  intros Hl. unfold set_elems. eapply ok_bind; [apply ok_get_obj|].
  intros o Ho. apply ok_put_obj; [assumption|].
  intros ys a Hw. destruct o; simpl in Hw; inversion Hw; subst. eauto.
Qed.

Lemma ok_set_spaced l sp :
  n <= l -> n <= sp -> ok n (set_spaced l sp) (fun _ => True).
Proof.
  intros Hl Hsp. unfold set_spaced. eapply ok_bind; [apply ok_get_obj|].
  intros o Ho. apply ok_put_obj; [assumption|].
  intros ys a Hw. inversion Hw; subst. assumption.
Qed.

Lemma ok_list_setitem l i v : n <= l -> ok n (list_setitem l i v) (fun _ => True).
Proof.
  intros Hl. unfold list_setitem. eapply ok_bind; [apply ok_get_elems|].
  intros xs _. destruct (item_index _ _).
  - now apply ok_set_elems.
  - apply ok_raise.
Qed.

Lemma ok_list_delitem l i : n <= l -> ok n (list_delitem l i) (fun _ => True).
Proof.
  intros Hl. unfold list_delitem. eapply ok_bind; [apply ok_get_elems|].
  intros xs _. destruct (item_index _ _).
  - now apply ok_set_elems.
  - apply ok_raise.
Qed.

Lemma ok_list_insert l i v : n <= l -> ok n (list_insert l i v) (fun _ => True).
Proof.
  intros Hl. unfold list_insert. eapply ok_bind; [apply ok_get_elems|].
  intros xs _. now apply ok_set_elems.
Qed.

Lemma ok_list_append l v : n <= l -> ok n (list_append l v) (fun _ => True).
Proof.
  intros Hl. unfold list_append. eapply ok_bind; [apply ok_get_elems|].
  intros xs _. now apply ok_set_elems.
Qed.

Lemma ok_iterate v : ok n (iterate v) (fun _ => True).
Proof.
  destruct v; simpl; try apply ok_raise.
  - now apply ok_ret.
  - apply ok_get_elems.
Qed.

Lemma ok_list_extend l v : n <= l -> ok n (list_extend l v) (fun _ => True).
Proof.
  intros Hl. unfold list_extend. eapply ok_bind; [apply ok_iterate|].
  intros ys _. eapply ok_bind; [apply ok_get_elems|].
  intros xs _. now apply ok_set_elems.
Qed.

Lemma ok_as_ref v : ok n (as_ref v) (fun l => v = VRef l).
Proof.
  destruct v; simpl; try apply ok_abort. now apply ok_ret.
Qed.

End Primitives.

(** *** The constructor and the copies *)


Ltac ok_step lem := eapply ok_bind; [apply lem; try assumption|].

Lemma ok_constructors fuel :
  (forall n m x, ok n (deepcopy fuel m x) (copy_result n m x))
  /\ (forall n src so, ok n (UnspacedList_init fuel src so) (fun l => n <= l))
  /\ (forall n self, ok n (UnspacedList_deepcopy fuel self) (fun l => n <= l)).
Proof.
  induction fuel as [|k (IHd & IHi & IHu)].
  - split; [|split]; try (intros; apply ok_abort).
    intros n m x.
    destruct x as [s| |z|l]; simpl;
      try (apply ok_ret; intros ? ?; discriminate).
    destruct (memo_get l m) eqn:Em; [|apply ok_abort].
    apply ok_ret. intros l' [= <-] H. congruence.
  - split; [|split].
    + intros n m x.
      destruct x as [s| |z|l]; simpl;
        try (apply ok_ret; intros ? ?; discriminate).
      destruct (memo_get l m) eqn:Em.
      { apply ok_ret. intros l' [= <-] H. congruence. }
      ok_step ok_get_obj. intros o _. destruct o as [xs|xs sp].
      * ok_step ok_alloc_list. intros y Hy.
        eapply ok_bind.
        { apply (ok_foldM n _ (fun _ => True)); [|exact I]. intros m1 a _.
          ok_step IHd. intros r _.
          ok_step ok_list_append. intros _ _. now apply ok_ret. }
        intros m' _. apply ok_ret. intros l' _ _. simpl. eauto.
      * ok_step IHu. intros y Hy. apply ok_ret. intros l' _ _. simpl. eauto.
    + intros n src so. simpl.
      ok_step ok_alloc_list. intros tmp Htmp.
      ok_step IHd. intros r Hr.
      ok_step ok_as_ref. intros sp Hsp.
      assert (Hn : n <= sp).
      { destruct (Hr tmp eq_refl eq_refl) as (y & Hy & Hle).
        rewrite Hsp in Hy. inversion Hy; subst. assumption. }
      ok_step ok_alloc_unspaced. intros self Hself.
      apply ok_bind with (P := fun _ => True).
      { destruct so; [|apply ok_ret; exact I].
        ok_step ok_get_spaced. intros sp0 Hsp0.
        ok_step ok_get_elems. intros spaced _.
        destruct (forallb is_str spaced); [|apply ok_ret; exact I].
        ok_step ok_alloc_list. intros sp1 Hsp1.
        ok_step ok_set_spaced. intros _ _.
        now apply ok_list_insert. }
      intros _ _. ok_step ok_set_elems. intros _ _.
      apply ok_bind with (P := fun _ => True).
      { apply ok_forM_. intros [i entry]. simpl.
        destruct (is_list entry).
        - ok_step ok_iterate. intros src' _.
          ok_step IHi. intros sublist Hsub.
          ok_step ok_get_elems. intros sub_xs _.
          ok_step ok_get_spaced. intros sub_sp Hsubsp.
          ok_step ok_get_elems. intros sub_spaced _.
          apply ok_bind with (P := fun _ => True).
          { destruct (_ || _);
              [now apply ok_list_setitem | now apply ok_list_delitem]. }
          intros _ _. ok_step ok_get_spaced. intros sp2 Hsp2.
          now apply ok_list_setitem.
        - destruct (spacey entry); [|apply ok_ret; exact I].
          ok_step ok_get_elems. intros xs _.
          destruct (negb _); [now apply ok_list_delitem|apply ok_ret; exact I]. }
      intros _ _. now apply ok_ret.
    + intros n self. simpl.
      ok_step ok_get_elems. intros xs _.
      ok_step IHi. intros l Hl.
      ok_step ok_get_spaced_any. intros sp _.
      ok_step IHd. intros r Hr.
      ok_step ok_as_ref. intros sp' Hsp'.
      assert (Hn : n <= sp').
      { destruct (Hr sp eq_refl eq_refl) as (y & Hy & Hle).
        rewrite Hsp' in Hy. inversion Hy; subst. assumption. }
      ok_step ok_set_spaced. intros _ _. now apply ok_ret.
Qed.

Lemma ok_deepcopy fuel n m x : ok n (deepcopy fuel m x) (copy_result n m x).
Proof. apply ok_constructors. Qed.

Lemma ok_UnspacedList_init fuel n src so :
  ok n (UnspacedList_init fuel src so) (fun l => n <= l).
Proof. apply ok_constructors. Qed.

Lemma ok_coerce fuel n x so : ok n (_coerce fuel x so) (fun _ => True).
Proof.
  unfold _coerce. destruct x as [s| |z|l]; try (now apply ok_ret).
  ok_step ok_get_obj. intros o _. destruct o as [xs|xs sp].
  - ok_step ok_UnspacedList_init. intros u Hu.
    ok_step ok_get_spaced. intros sp Hsp. now apply ok_ret.
  - now apply ok_ret.
Qed.

Lemma ok_extend fuel n self x so :
  n <= self -> ok n (extend fuel self x so) (fun _ => True).
Proof.
  intros Hself. unfold extend.
  ok_step ok_coerce. intros c _.
  ok_step ok_get_spaced. intros sp Hsp.
  ok_step ok_list_extend. intros _ _.
  now apply ok_list_extend.
Qed.

Lemma ok_add fuel n self other :
  ok n (__add__ fuel self other) (fun l => n <= l).
Proof.
  unfold __add__.
  ok_step ok_deepcopy. intros r Hr.
  ok_step ok_as_ref. intros l Hl.
  assert (Hn : n <= l).
  { destruct (Hr self eq_refl eq_refl) as (y & Hy & Hle).
    rewrite Hl in Hy. inversion Hy; subst. assumption. }
  ok_step ok_extend. intros _ _. now apply ok_ret.
Qed.

(** What an [ok] computation says when it is run from a given store:
    every object of that store is still there, unchanged. *)
Lemma ok_preserves {A} (m : M A) (P : A -> Prop) h r h' :
  (forall n, ok n m P) -> m h = (r, h') ->
  forall l o, h !! l = Some o -> h' !! l = Some o.
Proof.
  intros Hok E l o Hl.
  destruct (Hok (length h) _ _ _ (inv_start h) E) as (_ & [_ K] & _).
  rewrite K; [assumption|]. now apply lookup_lt_Some in Hl.
Qed.

End Frame.

(** * Properties of the dual-view tree *)

Module TreeFacts.
Import Chars Py Store Nginxparser FrameSpec ConstructSpec Frame TreeSpec.
Local Open Scope py_scope.

(** *** Running a computation from a store whose objects are known *)

Lemma run_bind_Ret {A B} (m : M A) (k : A -> M B) h a h1 :
  m h = (Ret a, h1) -> bind m k h = k a h1.
Proof. intros E. unfold bind. now rewrite E. Qed.

Lemma run_bind_Raise {A B} (m : M A) (k : A -> M B) h e h1 :
  m h = (Raise e, h1) -> bind m k h = (Raise e, h1).
Proof. intros E. unfold bind. now rewrite E. Qed.

Lemma run_get_obj h l o : h !! l = Some o -> get_obj l h = (Ret o, h).
Proof. intros E. unfold get_obj. now rewrite E. Qed.

Lemma run_get_elems h l o : h !! l = Some o -> get_elems l h = (Ret (elems o), h).
Proof.
  intros E. unfold get_elems. now rewrite (run_bind_Ret _ _ _ _ _ (run_get_obj _ _ _ E)).
Qed.

Lemma run_get_spaced h l xs sp :
  h !! l = Some (OUnspaced xs sp) -> get_spaced l h = (Ret sp, h).
Proof.
  intros E. unfold get_spaced.
  now rewrite (run_bind_Ret _ _ _ _ _ (run_get_obj _ _ _ E)).
Qed.

Lemma run_set_elems h l o ys :
  h !! l = Some o -> set_elems l ys h = (Ret tt, <[l := with_elems o ys]> h).
Proof.
  intros E. unfold set_elems.
  now rewrite (run_bind_Ret _ _ _ _ _ (run_get_obj _ _ _ E)).
Qed.


Lemma run_list_insert h l o i v :
  h !! l = Some o ->
  list_insert l i v h = (Ret tt, <[l := with_elems o (inserted (elems o) i v)]> h).
Proof.
  intros E. unfold list_insert.
  rewrite (run_bind_Ret _ _ _ _ _ (run_get_elems _ _ _ E)).
  now rewrite (run_set_elems _ _ _ _ E).
Qed.

Lemma run_list_append h l o v :
  h !! l = Some o ->
  list_append l v h = (Ret tt, <[l := with_elems o (elems o ++ [v])]> h).
Proof.
  intros E. unfold list_append.
  rewrite (run_bind_Ret _ _ _ _ _ (run_get_elems _ _ _ E)).
  now rewrite (run_set_elems _ _ _ _ E).
Qed.

Lemma run_list_setitem h l o i j v :
  h !! l = Some o -> item_index (length (elems o)) i = Some j ->
  list_setitem l i v h = (Ret tt, <[l := with_elems o (<[j := v]> (elems o))]> h).
Proof.
  intros E Hj. unfold list_setitem.
  rewrite (run_bind_Ret _ _ _ _ _ (run_get_elems _ _ _ E)). rewrite Hj.
  now rewrite (run_set_elems _ _ _ _ E).
Qed.

Lemma run_list_delitem h l o i j :
  h !! l = Some o -> item_index (length (elems o)) i = Some j ->
  list_delitem l i h = (Ret tt, <[l := with_elems o (delete j (elems o))]> h).
Proof.
  intros E Hj. unfold list_delitem.
  rewrite (run_bind_Ret _ _ _ _ _ (run_get_elems _ _ _ E)). rewrite Hj.
  now rewrite (run_set_elems _ _ _ _ E).
Qed.

Lemma length_inserted xs i v : length (inserted xs i v) = S (length xs).
Proof.
  unfold inserted, insert_index.
  rewrite length_app. simpl. rewrite length_take, length_drop. lia.
Qed.

(** *** Index translation *)


Lemma count_nonspacey_nonneg xs : (0 <= count_nonspacey xs)%Z.
Proof. induction xs as [|x xs IH]; simpl; [lia|]. destruct (spacey x); lia. Qed.

(** The loop reads the store and leaves it as it is. *)
Lemma spaces_loop_store rest idx acc h :
  snd (spaces_loop rest idx acc h) = h.
Proof.
  revert idx acc. induction rest as [|x rest IH]; intros idx acc; simpl;
    destruct (idx =? -1)%Z; try reflexivity.
  destruct (spacey x); apply IH.
Qed.

(** It runs off the end of the spaced list exactly when the index is below
    [-1] or not below the number of non-whitespace entries. *)
Lemma spaces_loop_fails rest idx acc h :
  (idx < -1 \/ count_nonspacey rest <= idx)%Z ->
  spaces_loop rest idx acc h = (Raise IndexError, h).
Proof.
  revert idx acc. induction rest as [|x rest IH]; intros idx acc Hi.
  - simpl in *. destruct (Z.eqb_spec idx (-1)); [lia|reflexivity].
  - pose proof (count_nonspacey_nonneg rest).
    cbn [spaces_loop count_nonspacey] in *.
    destruct (Z.eqb_spec idx (-1)); [destruct (spacey x); lia|].
    destruct (spacey x); apply IH; lia.
Qed.

Lemma spaces_loop_succeeds rest idx acc h :
  (-1 <= idx < count_nonspacey rest)%Z ->
  exists n, spaces_loop rest idx acc h = (Ret n, h).
Proof.
  revert idx acc. induction rest as [|x rest IH]; intros idx acc Hi.
  - simpl in *. destruct (Z.eqb_spec idx (-1)); [eauto|lia].
  - cbn [spaces_loop count_nonspacey] in *.
    destruct (Z.eqb_spec idx (-1)); [eexists; reflexivity|].
    destruct (spacey x); apply IH; lia.
Qed.

(** *** A node whose two lists are known *)

Section Node.
Variable fuel : nat.
Variables (h : heap) (self sp : nat) (xs spaced : list val).
Hypothesis Hself : h !! self = Some (OUnspaced xs sp).
Hypothesis Hsp : h !! sp = Some (OList spaced).

Lemma self_ne_sp : self <> sp.
Proof. intros ->. congruence. Qed.

Lemma run_spaces_before i :
  _spaces_before self i h = spaces_loop spaced i 0%Z h.
Proof.
  unfold _spaces_before.
  rewrite (run_bind_Ret _ _ _ _ _ (run_get_spaced _ _ _ _ Hself)).
  now rewrite (run_bind_Ret _ _ _ _ _ (run_get_elems _ _ _ Hsp)).
Qed.

End Node.

(** [_coerce] builds new objects and leaves the existing ones alone. *)
Lemma coerce_preserves fuel x so h r h1 :
  _coerce fuel x so h = (r, h1) ->
  forall l o, h !! l = Some o -> h1 !! l = Some o.
Proof.
  intros E. eapply ok_preserves; [|exact E].
  intros n. apply ok_coerce.
Qed.

(** An [UnspacedList] is passed through with its spaced list, uncopied. *)
Lemma coerce_unspaced fuel l ys sp so h :
  h !! l = Some (OUnspaced ys sp) ->
  _coerce fuel (VRef l) so h = (Ret (VRef l, VRef sp), h).
Proof.
  intros Hl. unfold _coerce.
  now rewrite (run_bind_Ret _ _ _ _ _ (run_get_obj _ _ _ Hl)).
Qed.

(** An element that is not a list is passed through as it is. *)
Lemma coerce_atom fuel x so h :
  is_list x = false -> _coerce fuel x so h = (Ret (x, x), h).
Proof. destruct x; simpl; (reflexivity || discriminate). Qed.

(** *** The constructor returns

    Copying and wrapping a plain nested list comes to an end, given fuel
    beyond the depth of the list, and yields a node with its spaced
    list. *)

Lemma plain_atom h d v : is_list v = false -> plain h d v.
Proof. destruct d, v; simpl; intros; (assumption || exact I || discriminate). Qed.

Lemma plain_keeps d : forall h h' v,
  keeps (length h) h h' -> plain h d v -> plain h' d v.
Proof.
  induction d as [|d IH]; intros h h' v K; simpl; [auto|].
  destruct v as [s| |z|l]; auto.
  intros (vs & Hl & Hvs). exists vs. split.
  - destruct K as [_ K]. rewrite K; [assumption|]. now apply lookup_lt_Some in Hl.
  - eapply Forall_impl; [exact Hvs|]. intros v. now apply IH.
Qed.

Lemma ok_keeps {A} (m : M A) (P : nat -> A -> Prop) h r h' :
  (forall n, ok n m (P n)) -> m h = (r, h') -> keeps (length h) h h'.
Proof.
  intros Hok E. now destruct (Hok (length h) _ _ _ (inv_start h) E) as (_ & K & _).
Qed.

Lemma keeps_le n n' h h' : n' <= n -> keeps n h h' -> keeps n' h h'.
Proof. intros Hle [L K]. split; [assumption|]. intros l Hl. apply K. lia. Qed.

Lemma keeps_put n h l o : n <= l -> keeps n h (<[l := o]> h).
Proof.
  intros Hl. split; [rewrite length_insert; lia|].
  intros l' Hl'. apply list_lookup_insert_ne. lia.
Qed.

Lemma keeps_alloc h o : keeps (length h) h (h ++ [o]).
Proof.
  split; [rewrite length_app; simpl; lia|].
  intros l Hl. now apply lookup_app_l.
Qed.

Lemma item_index_in_range n i : i < n -> item_index n (Z.of_nat i) = Some i.
Proof.
  intros Hi. unfold item_index.
  destruct (Z.ltb_spec (Z.of_nat i) 0); [lia|].
  destruct (Z.leb_spec 0 (Z.of_nat i)); [|lia].
  destruct (Z.ltb_spec (Z.of_nat i) (Z.of_nat n)); [|lia].
  simpl. now rewrite Nat2Z.id.
Qed.

Lemma run_list_setitem_at h l o i v :
  h !! l = Some o -> i < length (elems o) ->
  list_setitem l (Z.of_nat i) v h
  = (Ret tt, <[l := with_elems o (<[i := v]> (elems o))]> h).
Proof.
  intros E Hi. apply run_list_setitem; [assumption|].
  now apply item_index_in_range.
Qed.

Lemma run_list_delitem_at h l o i :
  h !! l = Some o -> i < length (elems o) ->
  list_delitem l (Z.of_nat i) h
  = (Ret tt, <[l := with_elems o (delete i (elems o))]> h).
Proof.
  intros E Hi. apply run_list_delitem; [assumption|].
  now apply item_index_in_range.
Qed.

Lemma length_spaced_out (rest first : list val) :
  length (fold_left (fun x y => x ++ [VStr " "; y]) rest first)
  = length first + 2 * length rest.
Proof.
  revert first. induction rest as [|y rest IH]; intros first; simpl; [lia|].
  rewrite IH, length_app. simpl. lia.
Qed.

Lemma combine_seq_app k (xs : list val) x :
  combine (seq k (length (xs ++ [x]))) (xs ++ [x])
  = combine (seq k (length xs)) xs ++ [(k + length xs, x)].
Proof.
  revert k. induction xs as [|y xs IH]; intros k; simpl.
  - now rewrite Nat.add_0_r.
  - rewrite IH. now rewrite Nat.add_succ_r.
Qed.

Lemma enumerate_app xs x :
  enumerate (xs ++ [x]) = enumerate xs ++ [(length xs, x)].
Proof. unfold enumerate. now rewrite combine_seq_app. Qed.

Lemma enumerate_descending xs :
  descending (rev (enumerate xs)) (length xs).
Proof.
  induction xs as [|x xs IH] using rev_ind; [exact I|].
  rewrite enumerate_app, rev_app_distr, length_app. simpl.
  split; [lia|assumption].
Qed.

Lemma enumerate_entries (P : val -> Prop) xs :
  Forall P xs -> Forall (fun ie => P (snd ie)) (rev (enumerate xs)).
Proof.
  intros H. apply Forall_rev. unfold enumerate.
  generalize 0. induction H as [|x xs Hx Hxs IH]; intros k; simpl; constructor; auto.
Qed.

Lemma deepcopy_keeps fuel m x h r h' :
  deepcopy fuel m x h = (r, h') -> keeps (length h) h h'.
Proof.
  intros E. eapply (ok_keeps _ (fun n => copy_result n m x)); [|exact E].
  intros n. apply ok_deepcopy.
Qed.

Lemma init_keeps fuel src so h r h' :
  UnspacedList_init fuel src so h = (r, h') -> keeps (length h) h h'.
Proof.
  intros E. eapply (ok_keeps _ (fun n l => n <= l)); [|exact E].
  intros n. apply ok_UnspacedList_init.
Qed.

Lemma deepcopy_atom fuel m x h :
  is_list x = false -> deepcopy fuel m x h = (Ret (x, m), h).
Proof. destruct fuel, x; simpl; (reflexivity || discriminate). Qed.

Section CopyLoop.
Variables (d n y : nat) (h0 : heap).
Hypothesis IH : forall m v h, plain h d v ->
  exists r h', deepcopy n m v h = (Ret r, h').
Hypothesis Hy : length h0 <= y.

(** The loop of [_deepcopy_list]: the copy [y] grows by one element for
    each element of the original. *)
Lemma copy_loop xs : forall m1 hc acc,
  Forall (plain h0 d) xs -> keeps (length h0) h0 hc ->
  hc !! y = Some (OList acc) ->
  exists m' hc' acc',
    foldM (fun m1 a => r <- deepcopy n m1 a ;; list_append y (fst r) ;; ret (snd r))
          m1 xs hc = (Ret m', hc')
    /\ hc' !! y = Some (OList acc')
    /\ length acc' = length acc + length xs
    /\ keeps (length h0) h0 hc'.
Proof.
  induction xs as [|a xs IHxs]; intros m1 hc acc Hxs K Hacc.
  - exists m1, hc, acc. simpl. repeat split; auto; try lia; apply K.
  - inversion Hxs as [|? ? Ha Hrest]; subst.
    destruct (IH m1 a hc (plain_keeps _ _ _ _ K Ha)) as (r & hc1 & Hdc).
    pose proof (deepcopy_keeps _ _ _ _ _ _ Hdc) as K1.
    assert (Hy1 : hc1 !! y = Some (OList acc)).
    { destruct K1 as [_ K1]. rewrite K1; [assumption|].
      now apply lookup_lt_Some in Hacc. }
    pose proof (run_list_append _ _ _ (fst r) Hy1) as Happ. simpl in Happ.
    set (hc2 := <[y := OList (acc ++ [fst r])]> hc1) in *.
    assert (K2 : keeps (length h0) h0 hc2).
    { eapply keeps_trans; [exact K|].
      eapply keeps_trans.
      - eapply keeps_le; [|exact K1]. apply K.
      - now apply keeps_put. }
    assert (Hy2 : hc2 !! y = Some (OList (acc ++ [fst r]))).
    { apply list_lookup_insert_eq. now apply lookup_lt_Some in Hy1. }
    destruct (IHxs (snd r) hc2 _ Hrest K2 Hy2) as (m' & hc' & acc' & E & Hy' & Hlen & K').
    exists m', hc', acc'. split; [|split; [assumption|split; [|assumption]]].
    + cbn [foldM]. unfold bind at 1. unfold bind at 1. rewrite Hdc.
      unfold bind at 1. rewrite Happ. unfold ret at 1. exact E.
    + rewrite Hlen, length_app. simpl. lia.
Qed.

End CopyLoop.

(** [copy.deepcopy] of a plain value returns, given fuel for its depth. *)
Lemma deepcopy_returns d : forall fuel m v h,
  plain h d v -> d <= fuel ->
  exists r h', deepcopy fuel m v h = (Ret r, h') /\ copied h m v r h'.
Proof.
  induction d as [|d IH]; intros fuel m v h Hv Hfuel.
  - exists (v, m), h. split; [now apply deepcopy_atom|].
    intros l vs ->. discriminate.
  - destruct v as [s| |z|l];
      try (eexists _, h; split; [now apply deepcopy_atom|intros ? ? [=]]).
    destruct Hv as (vs & Hl & Hvs).
    destruct (memo_get l m) as [y|] eqn:Em.
    { exists (VRef y, m), h. split.
      - destruct fuel; simpl; now rewrite Em.
      - intros l' vs' [= <-]. congruence. }
    destruct fuel as [|n]; [lia|].
    assert (IH' : forall m v h, plain h d v ->
              exists r h', deepcopy n m v h = (Ret r, h')).
    { intros m0 v0 h1 Hp. destruct (IH n m0 v0 h1 Hp ltac:(lia)) as (r & h' & E & _).
      eauto. }
    set (y := length h).
    assert (Hy0 : (h ++ [OList []]) !! y = Some (OList [])).
    { unfold y. rewrite lookup_app_r by lia. now rewrite Nat.sub_diag. }
    destruct (copy_loop d n y h IH' (Nat.le_refl _) vs ((l, y) :: m)
                (h ++ [OList []]) [] Hvs (keeps_alloc h _) Hy0)
      as (m' & hc' & acc' & E & Hy' & Hlen & K').
    exists (VRef y, m'), hc'. split.
    + simpl. rewrite Em.
      rewrite (run_bind_Ret _ _ _ _ _ (run_get_obj _ _ _ Hl)).
      unfold bind at 1, alloc at 1. fold y.
      unfold bind at 1. rewrite E. reflexivity.
    + intros l' vs' [= <-] _ Hl'. exists y, acc'. simpl.
      repeat split; auto. rewrite Hlen. simpl. congruence.
Qed.

#[local] Abbreviation init_body n so self :=
  (fun ie : nat * val =>
        let i := Z.of_nat (fst ie) in
        let entry := snd ie in
        if is_list entry then
          src <- iterate entry ;;
          sublist <- UnspacedList_init n src so ;;
          sub_xs <- get_elems sublist ;;
          sub_sp <- get_spaced sublist ;;
          sub_spaced <- get_elems sub_sp ;;
          (if negb (Nat.eqb (length sub_xs) 0) || Nat.eqb (length sub_spaced) 0
           then list_setitem self i (VRef sublist)
           else list_delitem self i) ;;
          sp2 <- get_spaced self ;;
          list_setitem sp2 i (VRef sub_sp)
        else if spacey entry then
          xs <- get_elems self ;;
          if negb (existsb (val_eqb (VStr "#")) (take (fst ie) xs))
          then list_delitem self i
          else ret tt
        else ret tt).

Section InitLoop.
Variables (n : nat) (so : bool) (h0 : heap) (P : val -> Prop) (self spA : nat).
Hypothesis Hself : length h0 <= self.
Hypothesis HspA : length h0 <= spA.
Hypothesis IHinit : forall e hc, P e -> is_list e = true ->
  keeps (length h0) h0 hc ->
  exists l es, e = VRef l /\ hc !! l = Some (OList es)
    /\ exists sub hc', UnspacedList_init n es so hc = (Ret sub, hc')
         /\ built hc hc' sub.

#[local] Abbreviation node hc b bz := (node_at h0 self spA hc b bz).

Lemma node_le hc b bz b' bz' :
  node hc b bz -> b' <= b -> bz' <= bz -> node hc b' bz'.
Proof.
  intros (cur & zs & Hs & Hz & Hc & Hzl & K) Hb Hbz.
  exists cur, zs. repeat split; auto; try lia; apply K.
Qed.

Lemma node_keeps hc hc1 b bz :
  node hc b bz -> keeps (length hc) hc hc1 -> node hc1 b bz.
Proof.
  intros (cur & zs & Hs & Hz & Hc & Hzl & K) K1.
  exists cur, zs. repeat split; auto.
  - destruct K1 as [_ K1]. rewrite K1; [assumption|]. now apply lookup_lt_Some in Hs.
  - destruct K1 as [_ K1]. rewrite K1; [assumption|]. now apply lookup_lt_Some in Hz.
  - destruct K as [L _], K1 as [L1 _]. lia.
  - destruct K as [L K], K1 as [L1 K1]. intros l Hl. rewrite K1 by lia. now apply K.
Qed.

Lemma node_put_self hc b bz cur' :
  node hc b bz -> node (<[self := OUnspaced cur' spA]> hc) (length cur') bz.
Proof.
  intros (cur & zs & Hs & Hz & Hc & Hzl & K).
  assert (self <> spA) by (intros ->; congruence).
  exists cur', zs. repeat split; auto.
  - apply list_lookup_insert_eq. now apply lookup_lt_Some in Hs.
  - now rewrite list_lookup_insert_ne.
  - rewrite length_insert. apply K.
  - intros l Hl. rewrite list_lookup_insert_ne by lia. now apply K.
Qed.

Lemma node_put_spaced hc b bz zs' :
  node hc b bz -> node (<[spA := OList zs']> hc) b (length zs').
Proof.
  intros (cur & zs & Hs & Hz & Hc & Hzl & K).
  assert (self <> spA) by (intros ->; congruence).
  exists cur, zs'. repeat split; auto.
  - now rewrite list_lookup_insert_ne.
  - apply list_lookup_insert_eq. now apply lookup_lt_Some in Hz.
  - rewrite length_insert. apply K.
  - intros l Hl. rewrite list_lookup_insert_ne by lia. now apply K.
Qed.

Lemma run_delete_at hc b bz i :
  node hc b bz -> i < b ->
  exists hc', list_delitem self (Z.of_nat i) hc = (Ret tt, hc') /\ node hc' i bz.
Proof.
  intros Hn Hi. pose proof Hn as (cur & zs & Hs & Hz & Hc & Hzl & K).
  eexists. split.
  - apply (run_list_delitem_at _ _ _ _ Hs). simpl. lia.
  - simpl. eapply node_le; [eapply node_put_self; exact Hn| |lia].
    rewrite length_delete by (apply lookup_lt_is_Some_2; lia). lia.
Qed.

Lemma run_set_at hc b bz i v :
  node hc b bz -> i < b ->
  exists hc', list_setitem self (Z.of_nat i) v hc = (Ret tt, hc') /\ node hc' i bz.
Proof.
  intros Hn Hi. pose proof Hn as (cur & zs & Hs & Hz & Hc & Hzl & K).
  eexists. split.
  - apply (run_list_setitem_at _ _ _ _ _ Hs). simpl. lia.
  - simpl. eapply node_le; [eapply node_put_self; exact Hn| |lia].
    rewrite length_insert. lia.
Qed.

Lemma run_set_spaced_at hc b bz i v :
  node hc b bz -> i < bz ->
  exists hc', (sp2 <- get_spaced self ;; list_setitem sp2 (Z.of_nat i) v) hc
              = (Ret tt, hc') /\ node hc' b i.
Proof.
  intros Hn Hi. pose proof Hn as (cur & zs & Hs & Hz & Hc & Hzl & K).
  eexists. split.
  - rewrite (run_bind_Ret _ _ _ _ _ (run_get_spaced _ _ _ _ Hs)).
    apply (run_list_setitem_at _ _ _ _ _ Hz). simpl. lia.
  - simpl. eapply node_le; [eapply node_put_spaced; exact Hn|lia|].
    rewrite length_insert. lia.
Qed.

(** One round of the loop over the entries, from the last to the first:
    the entry at [i] is wrapped, dropped or kept, and both lists still
    have their first [i] entries. *)
Lemma init_body_returns hc b ie :
  P (snd ie) -> fst ie < b -> node hc b b ->
  exists hc', init_body n so self ie hc = (Ret tt, hc')
    /\ node hc' (fst ie) (fst ie).
Proof.
  destruct ie as [i e]. simpl fst. simpl snd. intros He Hi Hn.
  assert (Hn_i : node hc i i) by (eapply node_le; [exact Hn|lia|lia]).
  cbv beta zeta. cbn [fst snd].
  destruct (is_list e) eqn:El.
  - assert (K : keeps (length h0) h0 hc) by (destruct Hn as (? & ? & ? & ? & ? & ? & ?); assumption).
    destruct (IHinit e hc He El K)
      as (l & es & -> & Hl & sub & hc1 & Einit & sxs & ssp & sys & _ & _ & Hsub & Hssp).
    assert (Hn1 : node hc1 b b).
    { apply (node_keeps hc); [assumption|eapply init_keeps; exact Einit]. }
    assert (Hstep : exists hc2,
      (if negb (Nat.eqb (length (elems (OUnspaced sxs ssp))) 0)
          || Nat.eqb (length (elems (OList sys))) 0
       then list_setitem self (Z.of_nat i) (VRef sub)
       else list_delitem self (Z.of_nat i)) hc1 = (Ret tt, hc2)
      /\ node hc2 i b).
    { destruct (_ || _).
      - now apply (run_set_at hc1 b b).
      - now apply (run_delete_at hc1 b b). }
    destruct Hstep as (hc2 & E2 & Hn2).
    destruct (run_set_spaced_at hc2 i b i (VRef ssp) Hn2 Hi) as (hc3 & E3 & Hn3).
    exists hc3. split; [|assumption].
    simpl iterate.
    rewrite (run_bind_Ret _ _ _ _ _ (run_get_elems _ _ _ Hl)). cbn [elems].
    rewrite (run_bind_Ret _ _ _ _ _ Einit).
    rewrite (run_bind_Ret _ _ _ _ _ (run_get_elems _ _ _ Hsub)).
    rewrite (run_bind_Ret _ _ _ _ _ (run_get_spaced _ _ _ _ Hsub)).
    rewrite (run_bind_Ret _ _ _ _ _ (run_get_elems _ _ _ Hssp)).
    rewrite (run_bind_Ret _ _ _ _ _ E2). exact E3.
  - destruct (spacey e).
    + pose proof Hn as (cur & zs & Hs & Hz & Hc & Hzl & K).
      destruct (negb (existsb (val_eqb (VStr "#")) (take i cur))) eqn:Ec.
      * destruct (run_delete_at hc b b i Hn Hi) as (hc' & E & Hn').
        exists hc'. split; [|eapply node_le; [exact Hn'|lia|lia]].
        rewrite (run_bind_Ret _ _ _ _ _ (run_get_elems _ _ _ Hs)). cbn [elems].
        now rewrite Ec.
      * exists hc. split; [|assumption].
        rewrite (run_bind_Ret _ _ _ _ _ (run_get_elems _ _ _ Hs)). cbn [elems].
        now rewrite Ec.
    + exists hc. split; [reflexivity|assumption].
Qed.

Lemma init_loop ies : forall hc b,
  Forall (fun ie => P (snd ie)) ies -> descending ies b -> node hc b b ->
  exists hc', forM_ ies (init_body n so self) hc = (Ret tt, hc')
    /\ node hc' 0 0.
Proof.
  induction ies as [|ie ies IH]; intros hc b Hall Hd Hn.
  - exists hc. split; [reflexivity|]. eapply node_le; [exact Hn|lia|lia].
  - inversion Hall as [|? ? He Hrest]; subst. destruct Hd as [Hi Hd].
    destruct (init_body_returns hc b ie He Hi Hn) as (hc1 & E1 & Hn1).
    destruct (IH hc1 (fst ie) Hrest Hd Hn1) as (hc' & E & Hn').
    exists hc'. split; [|assumption].
    unfold forM_. cbn [foldM].
    rewrite (run_bind_Ret _ _ _ _ _ E1). exact E.
Qed.

End InitLoop.

#[local] Abbreviation spaceout_block so self :=
  (if so : bool then
     sp0 <- get_spaced self ;;
     spaced <- get_elems sp0 ;;
     if forallb is_str spaced then
       let first := take 1 spaced in
       let rest := drop 1 spaced in
       sp1 <- alloc (OList (fold_left (fun x y => x ++ [VStr " "; y])
                                      rest first)) ;;
       set_spaced self sp1 ;;
       list_insert sp1 0 (VStr nl)
     else ret tt
   else ret tt).

(** Spacing out a new directive replaces the spaced list by one that is
    no shorter. *)
Lemma run_spaceout so h3 self y ys :
  h3 !! self = Some (OUnspaced [] y) -> h3 !! y = Some (OList ys) ->
  exists h4 spA zs,
    spaceout_block so self h3 = (Ret tt, h4)
    /\ h4 !! self = Some (OUnspaced [] spA) /\ h4 !! spA = Some (OList zs)
    /\ length ys <= length zs /\ keeps self h3 h4
    /\ (spA = y \/ length h3 <= spA).
Proof.
  intros Hs Hy.
  assert (Hsame : exists h4 spA zs,
            ret tt h3 = (Ret tt, h4)
            /\ h4 !! self = Some (OUnspaced [] spA) /\ h4 !! spA = Some (OList zs)
            /\ length ys <= length zs /\ keeps self h3 h4
            /\ (spA = y \/ length h3 <= spA)).
  { exists h3, y, ys. repeat split; auto. }
  destruct so; [|exact Hsame].
  rewrite (run_bind_Ret _ _ _ _ _ (run_get_spaced _ _ _ _ Hs)).
  rewrite (run_bind_Ret _ _ _ _ _ (run_get_elems _ _ _ Hy)). cbn [elems].
  destruct (forallb is_str ys); [|exact Hsame].
  cbv zeta.
  set (zs0 := fold_left (fun x y => x ++ [VStr " "; y]) (drop 1 ys) (take 1 ys)).
  set (sp1 := length h3).
  set (h3a := h3 ++ [OList zs0]).
  assert (Hlt : self < length h3) by now apply lookup_lt_Some in Hs.
  assert (Hs_a : h3a !! self = Some (OUnspaced [] y)).
  { unfold h3a. now rewrite lookup_app_l. }
  set (h3b := <[self := OUnspaced [] sp1]> h3a).
  assert (Hsp_b : h3b !! sp1 = Some (OList zs0)).
  { unfold h3b, h3a, sp1. rewrite list_lookup_insert_ne by lia.
    rewrite lookup_app_r by lia. now rewrite Nat.sub_diag. }
  exists (<[sp1 := OList (inserted zs0 0 (VStr nl))]> h3b), sp1,
         (inserted zs0 0 (VStr nl)).
  split; [|split; [|split; [|split; [|split]]]].
  - unfold bind at 1, alloc at 1. fold sp1. fold h3a.
    assert (Eset : set_spaced self sp1 h3a = (Ret tt, h3b)).
    { unfold set_spaced.
      now rewrite (run_bind_Ret _ _ _ _ _ (run_get_obj _ _ _ Hs_a)). }
    rewrite (run_bind_Ret _ _ _ _ _ Eset).
    apply (run_list_insert _ _ _ _ _ Hsp_b).
  - rewrite list_lookup_insert_ne by (unfold sp1; lia).
    unfold h3b. apply list_lookup_insert_eq. unfold h3a.
    rewrite length_app. simpl. lia.
  - apply list_lookup_insert_eq. now apply lookup_lt_Some in Hsp_b.
  - rewrite length_inserted. unfold zs0. rewrite length_spaced_out.
    rewrite length_take, length_drop. lia.
  - split.
    + unfold h3b, h3a. rewrite !length_insert, length_app. simpl. lia.
    + intros l Hl. rewrite list_lookup_insert_ne by (unfold sp1; lia).
      unfold h3b. rewrite list_lookup_insert_ne by lia.
      unfold h3a. apply lookup_app_l. lia.
  - right. unfold sp1. lia.
Qed.

(** [UnspacedList(src, spaceout)] returns for a list [src] of plain values
    nested at most [d] deep, given two more units of fuel than [d]: one
    for the call, one for the copy of the list itself. *)
Lemma init_returns d : forall fuel src so h,
  Forall (plain h d) src -> d + 2 <= fuel ->
  exists self h', UnspacedList_init fuel src so h = (Ret self, h')
    /\ built h h' self.
Proof.
  induction d as [d IHd] using lt_wf_ind. intros fuel src so h Hsrc Hfuel.
  destruct fuel as [|n]; [lia|].
  set (tmp := length h). set (h1 := h ++ [OList src]).
  assert (K1 : keeps (length h) h h1) by apply keeps_alloc.
  assert (Htmp : plain h1 (S d) (VRef tmp)).
  { exists src. split.
    - unfold h1, tmp. rewrite lookup_app_r by lia. now rewrite Nat.sub_diag.
    - eapply Forall_impl; [exact Hsrc|]. intros v. now apply plain_keeps. }
  destruct (deepcopy_returns (S d) n [] (VRef tmp) h1 Htmp ltac:(lia))
    as (r & h2 & Edc & Hcopied).
  destruct Htmp as (src' & Htmp & _).
  destruct (Hcopied tmp src' eq_refl eq_refl Htmp) as (y & ys & Hr & Hy & Hys & Hlen).
  assert (src' = src) as ->.
  { unfold h1, tmp in Htmp. rewrite lookup_app_r in Htmp by lia.
    rewrite Nat.sub_diag in Htmp. now inversion Htmp. }
  pose proof (deepcopy_keeps _ _ _ _ _ _ Edc) as K2.
  set (self := length h2). set (h3 := h2 ++ [OUnspaced [] y]).
  assert (Hs3 : h3 !! self = Some (OUnspaced [] y)).
  { unfold h3, self. rewrite lookup_app_r by lia. now rewrite Nat.sub_diag. }
  assert (Hy3 : h3 !! y = Some (OList ys)).
  { unfold h3. rewrite lookup_app_l; [assumption|]. now apply lookup_lt_Some in Hys. }
  destruct (run_spaceout so h3 self y ys Hs3 Hy3)
    as (h4 & spA & zs & E4 & Hs4 & Hz4 & Hzlen & K4 & HspA).
  pose proof (run_set_elems _ _ _ src Hs4) as E5. cbn [with_elems] in E5.
  set (h5 := <[self := OUnspaced src spA]> h4) in *.
  assert (Lh1 : length h1 = S (length h)).
  { unfold h1. rewrite length_app. simpl. lia. }
  assert (Lh3 : length h3 = S (length h2)).
  { unfold h3. rewrite length_app. simpl. lia. }
  assert (Hself : length h <= self).
  { unfold self. destruct K2 as [L2 _]. lia. }
  assert (HspA' : length h <= spA).
  { destruct HspA as [->|HspA]; lia. }
  assert (K : keeps (length h) h h4).
  { eapply keeps_trans; [exact K1|].
    eapply keeps_trans; [eapply keeps_le; [|exact K2]; lia|].
    eapply keeps_trans; [eapply keeps_le; [|apply keeps_alloc]; destruct K2; lia|].
    eapply keeps_le; [|exact K4]. assumption. }
  assert (Hn5 : node_at h self spA h5 (length src) (length src)).
  { assert (self <> spA) by (intros ->; congruence).
    exists src, zs. unfold h5. split; [|split; [|split; [|split]]].
    - apply list_lookup_insert_eq. now apply lookup_lt_Some in Hs4.
    - now rewrite list_lookup_insert_ne.
    - lia.
    - lia.
    - eapply keeps_trans; [exact K|]. now apply keeps_put. }
  assert (IHinit : forall e hc, plain h d e -> is_list e = true ->
            keeps (length h) h hc ->
            exists l es, e = VRef l /\ hc !! l = Some (OList es)
              /\ exists sub hc', UnspacedList_init n es so hc = (Ret sub, hc')
                   /\ built hc hc' sub).
  { intros e hc He El Kc. destruct d as [|d'].
    - simpl in He. congruence.
    - destruct e as [s| |z|l]; try discriminate.
      destruct He as (es & Hl & Hes). exists l, es. split; [reflexivity|].
      split.
      + destruct Kc as [_ Kc]. rewrite Kc; [assumption|]. now apply lookup_lt_Some in Hl.
      + apply (IHd d'); [lia| |lia].
        eapply Forall_impl; [exact Hes|]. intros v. now apply plain_keeps. }
  destruct (init_loop n so h (plain h d) self spA Hself HspA' IHinit
              (rev (enumerate src)) h5 (length src)
              (enumerate_entries _ _ Hsrc) (enumerate_descending src) Hn5)
    as (h6 & E6 & cur & zs6 & Hs6 & Hz6 & _ & _ & K6).
  exists self, h6. split.
  - cbn [UnspacedList_init].
    unfold bind at 1, alloc at 1. fold tmp. fold h1.
    rewrite (run_bind_Ret _ _ _ _ _ Edc). rewrite Hr. cbn [as_ref].
    unfold bind at 1, ret at 1.
    unfold bind at 1, alloc at 1. fold self. fold h3.
    rewrite (run_bind_Ret _ _ _ _ _ E4).
    rewrite (run_bind_Ret _ _ _ _ _ E5).
    rewrite (run_bind_Ret _ _ _ _ _ E6). reflexivity.
  - exists cur, spA, zs6. repeat split; assumption.
Qed.

(** [_coerce] returns for every operand, given fuel beyond its depth, and
    leaves the store as it was but for the objects it adds. *)
Lemma coerce_returns fuel h d x so :
  operand h d x -> d < fuel ->
  exists c h1, _coerce fuel x so h = (Ret c, h1).
Proof.
  intros [Hp|(l & ys & sp & -> & Hl)] Hfuel.
  - destruct x as [s| |z|l]; try (eexists _, h; reflexivity).
    destruct d as [|d]; [discriminate|].
    destruct Hp as (vs & Hl & Hvs).
    destruct (init_returns d fuel vs so h Hvs ltac:(lia))
      as (u & h1 & E & xs & sp & ys & _ & _ & Hu & _).
    exists (VRef u, VRef sp), h1. unfold _coerce.
    rewrite (run_bind_Ret _ _ _ _ _ (run_get_obj _ _ _ Hl)).
    rewrite (run_bind_Ret _ _ _ _ _ E).
    now rewrite (run_bind_Ret _ _ _ _ _ (run_get_spaced _ _ _ _ Hu)).
  - eexists _, h. eapply coerce_unspaced; eassumption.
Qed.

Lemma run_delitem_fails h self sp xs spaced i :
  h !! self = Some (OUnspaced xs sp) ->
  h !! sp = Some (OList spaced) ->
  (i < -1 \/ count_nonspacey spaced <= i)%Z ->
  __delitem__ self i h = (Raise IndexError, h).
Proof.
  intros Hself Hsp Hi. unfold __delitem__.
  rewrite (run_bind_Ret _ _ _ _ _ (run_get_spaced _ _ _ _ Hself)).
  apply run_bind_Raise.
  rewrite (run_spaces_before _ _ _ _ _ Hself Hsp).
  now apply spaces_loop_fails.
Qed.

Lemma run_insert_fails fuel h self sp xs spaced i x so c h1 :
  h !! self = Some (OUnspaced xs sp) ->
  h !! sp = Some (OList spaced) ->
  (i < -1 \/ count_nonspacey spaced <= i)%Z ->
  _coerce fuel x so h = (Ret c, h1) ->
  insert fuel self i x so h = (Raise IndexError, h1).
Proof.
  intros Hself Hsp Hi Hc. unfold insert.
  rewrite (run_bind_Ret _ _ _ _ _ Hc).
  pose proof (coerce_preserves _ _ _ _ _ _ Hc _ _ Hself) as Hself1.
  pose proof (coerce_preserves _ _ _ _ _ _ Hc _ _ Hsp) as Hsp1.
  rewrite (run_bind_Ret _ _ _ _ _ (run_get_spaced _ _ _ _ Hself1)).
  apply run_bind_Raise.
  rewrite (run_spaces_before _ _ _ _ _ Hself1 Hsp1).
  now apply spaces_loop_fails.
Qed.

Lemma run_setitem_fails fuel h self sp xs spaced i x c h1 :
  h !! self = Some (OUnspaced xs sp) ->
  h !! sp = Some (OList spaced) ->
  (i < -1 \/ count_nonspacey spaced <= i)%Z ->
  _coerce fuel x false h = (Ret c, h1) ->
  __setitem__ fuel self i x h = (Raise IndexError, h1).
Proof.
  intros Hself Hsp Hi Hc. unfold __setitem__.
  rewrite (run_bind_Ret _ _ _ _ _ Hc).
  pose proof (coerce_preserves _ _ _ _ _ _ Hc _ _ Hself) as Hself1.
  pose proof (coerce_preserves _ _ _ _ _ _ Hc _ _ Hsp) as Hsp1.
  rewrite (run_bind_Ret _ _ _ _ _ (run_get_spaced _ _ _ _ Hself1)).
  apply run_bind_Raise.
  rewrite (run_spaces_before _ _ _ _ _ Hself1 Hsp1).
  now apply spaces_loop_fails.
Qed.

(** C7, as the code has it.  When the index translation fails, that is
    when the logical index is below [-1] or the spaced list has at most
    that many non-whitespace entries, [__delitem__], [insert] and
    [__setitem__] raise [IndexError] and neither the logical nor the spaced
    list of the node has changed: the translation runs before the first
    write.  The argument is a string, [None], an [UnspacedList] or a plain
    nested list; wrapping the last only adds new objects to the store. *)
Theorem failed_translation_leaves_both_views
    (fuel : nat) (h : heap) (self sp : nat) (xs spaced : list val) (i : Z) :
  h !! self = Some (OUnspaced xs sp) ->
  h !! sp = Some (OList spaced) ->
  (i < -1 \/ count_nonspacey spaced <= i)%Z ->
  __delitem__ self i h = (Raise IndexError, h)
  /\ (forall x so d,
        operand h d x -> d < fuel ->
        exists h1,
          insert fuel self i x so h = (Raise IndexError, h1)
          /\ h1 !! self = Some (OUnspaced xs sp)
          /\ h1 !! sp = Some (OList spaced))
  /\ (forall x d,
        operand h d x -> d < fuel ->
        exists h1,
          __setitem__ fuel self i x h = (Raise IndexError, h1)
          /\ h1 !! self = Some (OUnspaced xs sp)
          /\ h1 !! sp = Some (OList spaced)).
Proof.
  intros Hself Hsp Hi. split; [|split].
  - eapply run_delitem_fails; eassumption.
  - intros x so d Hx Hd.
    destruct (coerce_returns fuel h d x so Hx Hd) as (c & h1 & Hc).
    exists h1. split; [eapply run_insert_fails; eassumption|].
    split; eapply coerce_preserves; eassumption.
  - intros x d Hx Hd.
    destruct (coerce_returns fuel h d x false Hx Hd) as (c & h1 & Hc).
    exists h1. split; [eapply run_setitem_fails; eassumption|].
    split; eapply coerce_preserves; eassumption.
Qed.

Lemma failed_translation_leaves_both_views_witness :
  listen_node !! 0 = Some (OUnspaced [VStr "listen"; VStr "80"] 1)
  /\ listen_node !! 1 = Some (OList [VStr " "; VStr "listen"; VStr " "; VStr "80"])
  /\ (2 < -1 \/ count_nonspacey [VStr " "; VStr "listen"; VStr " "; VStr "80"] <= 2)%Z
  /\ __delitem__ 0 2 listen_node = (Raise IndexError, listen_node)
  /\ (exists h1, insert 5 0 2 (VStr "x") false listen_node = (Raise IndexError, h1)
        /\ h1 !! 0 = Some (OUnspaced [VStr "listen"; VStr "80"] 1)
        /\ h1 !! 1 = Some (OList [VStr " "; VStr "listen"; VStr " "; VStr "80"]))
  /\ (exists h1, __setitem__ 5 0 2 (VStr "x") listen_node = (Raise IndexError, h1)
        /\ h1 !! 0 = Some (OUnspaced [VStr "listen"; VStr "80"] 1)
        /\ h1 !! 1 = Some (OList [VStr " "; VStr "listen"; VStr " "; VStr "80"])).
Proof.
  split; [reflexivity|]. split; [reflexivity|].
  assert (H2 : (2 < -1
                \/ count_nonspacey [VStr " "; VStr "listen"; VStr " "; VStr "80"]
                   <= 2)%Z) by (right; now vm_compute).
  split; [exact H2|].
  destruct (failed_translation_leaves_both_views 5 listen_node 0 1
              [VStr "listen"; VStr "80"]
              [VStr " "; VStr "listen"; VStr " "; VStr "80"] 2
              eq_refl eq_refl H2)
    as (Hd & Hi & Hs).
  assert (Hx : operand listen_node 0 (VStr "x")) by (left; reflexivity).
  split; [exact Hd|]. split.
  - exact (Hi (VStr "x") false 0 Hx ltac:(lia)).
  - exact (Hs (VStr "x") 0 Hx ltac:(lia)).
Defined.

Lemma run_append fuel h self sp xs spaced x so c h1 :
  h !! self = Some (OUnspaced xs sp) ->
  h !! sp = Some (OList spaced) ->
  _coerce fuel x so h = (Ret c, h1) ->
  append fuel self x so h
  = (Ret tt, <[self := OUnspaced (xs ++ [fst c]) sp]>
               (<[sp := OList (spaced ++ [snd c])]> h1)).
Proof.
  intros Hself Hsp Hc. unfold append.
  rewrite (run_bind_Ret _ _ _ _ _ Hc).
  pose proof (coerce_preserves _ _ _ _ _ _ Hc _ _ Hself) as Hself1.
  pose proof (coerce_preserves _ _ _ _ _ _ Hc _ _ Hsp) as Hsp1.
  rewrite (run_bind_Ret _ _ _ _ _ (run_get_spaced _ _ _ _ Hself1)).
  rewrite (run_bind_Ret _ _ _ _ _ (run_list_append _ _ _ _ Hsp1)).
  assert (Hself2 : <[sp := with_elems (OList spaced) (elems (OList spaced) ++ [snd c])]> h1
                   !! self = Some (OUnspaced xs sp)).
  { rewrite list_lookup_insert_ne; [assumption|].
    intros ->. congruence. }
  now rewrite (run_list_append _ _ _ _ Hself2).
Qed.

(** C10, as the code has it.  Where the spaced list has no more
    non-whitespace entries than the logical list has elements (no sublist
    of whitespace is hidden from the logical list), [insert(i, x)] with
    [i >= len(l)] raises [IndexError] and leaves both lists of the node as
    they were, while [append(x)] returns and puts the element at the end of
    both lists. *)
Theorem insert_at_end_raises
    (fuel : nat) (h : heap) (self sp : nat) (xs spaced : list val)
    (i : Z) (x : val) (so : bool) (d : nat) :
  h !! self = Some (OUnspaced xs sp) ->
  h !! sp = Some (OList spaced) ->
  (count_nonspacey spaced <= Z.of_nat (length xs))%Z ->
  (Z.of_nat (length xs) <= i)%Z ->
  operand h d x -> d < fuel ->
  exists c h1,
    _coerce fuel x so h = (Ret c, h1)
    /\ insert fuel self i x so h = (Raise IndexError, h1)
    /\ h1 !! self = Some (OUnspaced xs sp)
    /\ h1 !! sp = Some (OList spaced)
    /\ append fuel self x so h
       = (Ret tt, <[self := OUnspaced (xs ++ [fst c]) sp]>
                    (<[sp := OList (spaced ++ [snd c])]> h1)).
Proof.
  intros Hself Hsp Hcount Hi Hx Hd.
  destruct (coerce_returns fuel h d x so Hx Hd) as (c & h1 & Hc).
  exists c, h1. split; [assumption|]. split; [|split; [|split]].
  - eapply run_insert_fails; try eassumption. right. lia.
  - eapply coerce_preserves; eassumption.
  - eapply coerce_preserves; eassumption.
  - eapply run_append; eassumption.
Qed.

Lemma insert_at_end_raises_witness :
  listen_and_root !! 0 = Some (OUnspaced [VStr "listen"; VStr "80"] 1)
  /\ listen_and_root !! 1
     = Some (OList [VStr " "; VStr "listen"; VStr " "; VStr "80"])
  /\ (count_nonspacey [VStr " "; VStr "listen"; VStr " "; VStr "80"]
      <= Z.of_nat (length [VStr "listen"; VStr "80"]))%Z
  /\ (Z.of_nat (length [VStr "listen"; VStr "80"]) <= 2)%Z
  /\ operand listen_and_root 1 (VRef 2) /\ 1 < 5
  /\ exists c h1,
       _coerce 5 (VRef 2) true listen_and_root = (Ret c, h1)
       /\ insert 5 0 2 (VRef 2) true listen_and_root = (Raise IndexError, h1)
       /\ h1 !! 0 = Some (OUnspaced [VStr "listen"; VStr "80"] 1)
       /\ h1 !! 1 = Some (OList [VStr " "; VStr "listen"; VStr " "; VStr "80"])
       /\ append 5 0 (VRef 2) true listen_and_root
          = (Ret tt, <[0 := OUnspaced ([VStr "listen"; VStr "80"] ++ [fst c]) 1]>
                       (<[1 := OList ([VStr " "; VStr "listen"; VStr " "; VStr "80"]
                                      ++ [snd c])]> h1)).
Proof.
  assert (Hx : operand listen_and_root 1 (VRef 2)).
  { left. exists [VStr "root"; VStr "/var/www"].
    split; [reflexivity|]. repeat constructor. }
  split; [reflexivity|]. split; [reflexivity|].
  split; [now vm_compute|]. split; [now vm_compute|].
  split; [exact Hx|]. split; [lia|].
  apply (insert_at_end_raises 5 listen_and_root 0 1 _ _ 2 (VRef 2) true 1).
  - reflexivity.
  - reflexivity.
  - now vm_compute.
  - now vm_compute.
  - exact Hx.
  - lia.
Defined.

(** *** Elements that are neither strings nor lists *)

Lemma run_insert fuel h self sp xs spaced i n x so c h1 :
  h !! self = Some (OUnspaced xs sp) ->
  h !! sp = Some (OList spaced) ->
  _coerce fuel x so h = (Ret c, h1) ->
  spaces_loop spaced i 0%Z h1 = (Ret n, h1) ->
  insert fuel self i x so h
  = (Ret tt, <[self := OUnspaced (inserted xs i (fst c)) sp]>
               (<[sp := OList (inserted spaced (i + n) (snd c))]> h1)).
Proof.
  intros Hself Hsp Hc Hn. unfold insert.
  rewrite (run_bind_Ret _ _ _ _ _ Hc).
  pose proof (coerce_preserves _ _ _ _ _ _ Hc _ _ Hself) as Hself1.
  pose proof (coerce_preserves _ _ _ _ _ _ Hc _ _ Hsp) as Hsp1.
  rewrite (run_bind_Ret _ _ _ _ _ (run_get_spaced _ _ _ _ Hself1)).
  assert (Hsb : _spaces_before self i h1 = (Ret n, h1))
    by (now rewrite (run_spaces_before _ _ _ _ _ Hself1 Hsp1)).
  rewrite (run_bind_Ret _ _ _ _ _ Hsb).
  rewrite (run_bind_Ret _ _ _ _ _ (run_list_insert _ _ _ _ _ Hsp1)).
  assert (Hself2 : <[sp := with_elems (OList spaced)
                             (inserted (elems (OList spaced)) (i + n) (snd c))]> h1
                   !! self = Some (OUnspaced xs sp)).
  { rewrite list_lookup_insert_ne; [assumption|]. intros ->. congruence. }
  now rewrite (run_list_insert _ _ _ _ _ Hself2).
Qed.

Lemma run_setitem fuel h self sp xs spaced i n j k x c h1 :
  h !! self = Some (OUnspaced xs sp) ->
  h !! sp = Some (OList spaced) ->
  _coerce fuel x false h = (Ret c, h1) ->
  spaces_loop spaced i 0%Z h1 = (Ret n, h1) ->
  item_index (length spaced) (i + n) = Some j ->
  item_index (length xs) i = Some k ->
  __setitem__ fuel self i x h
  = (Ret tt, <[self := OUnspaced (<[k := fst c]> xs) sp]>
               (<[sp := OList (<[j := snd c]> spaced)]> h1)).
Proof.
  intros Hself Hsp Hc Hn Hj Hk. unfold __setitem__.
  rewrite (run_bind_Ret _ _ _ _ _ Hc).
  pose proof (coerce_preserves _ _ _ _ _ _ Hc _ _ Hself) as Hself1.
  pose proof (coerce_preserves _ _ _ _ _ _ Hc _ _ Hsp) as Hsp1.
  rewrite (run_bind_Ret _ _ _ _ _ (run_get_spaced _ _ _ _ Hself1)).
  assert (Hsb : _spaces_before self i h1 = (Ret n, h1))
    by (now rewrite (run_spaces_before _ _ _ _ _ Hself1 Hsp1)).
  rewrite (run_bind_Ret _ _ _ _ _ Hsb).
  rewrite (run_bind_Ret _ _ _ _ _ (run_list_setitem _ _ _ _ _ (snd c) Hsp1 Hj)).
  assert (Hself2 : <[sp := with_elems (OList spaced)
                             (<[j := snd c]> (elems (OList spaced)))]> h1
                   !! self = Some (OUnspaced xs sp)).
  { rewrite list_lookup_insert_ne; [assumption|]. intros ->. congruence. }
  now rewrite (run_list_setitem _ _ _ _ _ (fst c) Hself2 Hk).
Qed.

Lemma run_extend_not_iterable fuel h self sp xs x so :
  h !! self = Some (OUnspaced xs sp) ->
  is_str x = false -> is_list x = false ->
  extend fuel self x so h = (Raise TypeError, h).
Proof.
  intros Hself Hs Hl. unfold extend.
  rewrite (run_bind_Ret _ _ _ _ _ (coerce_atom fuel x so h Hl)).
  rewrite (run_bind_Ret _ _ _ _ _ (run_get_spaced _ _ _ _ Hself)).
  apply run_bind_Raise. unfold list_extend. apply run_bind_Raise.
  destruct x; simpl in *; (reflexivity || discriminate).
Qed.

(** C4, as the code has it.  An element that is neither a string nor a
    list is taken as it is: [append] stores it at the end of both lists,
    [insert] and [__setitem__] store it at the translated positions when
    the index is valid, and none of them raises.  Only [extend] fails, with
    the [TypeError] of extending a list by something that is not iterable,
    and it fails before it writes. *)
Theorem element_of_another_type_is_stored
    (fuel : nat) (h : heap) (self sp : nat) (xs spaced : list val)
    (x : val) (so : bool) :
  h !! self = Some (OUnspaced xs sp) ->
  h !! sp = Some (OList spaced) ->
  is_str x = false ->
  is_list x = false ->
  append fuel self x so h
  = (Ret tt, <[self := OUnspaced (xs ++ [x]) sp]>
               (<[sp := OList (spaced ++ [x])]> h))
  /\ (forall i n,
        spaces_loop spaced i 0%Z h = (Ret n, h) ->
        insert fuel self i x so h
        = (Ret tt, <[self := OUnspaced (inserted xs i x) sp]>
                     (<[sp := OList (inserted spaced (i + n) x)]> h)))
  /\ (forall i n j k,
        spaces_loop spaced i 0%Z h = (Ret n, h) ->
        item_index (length spaced) (i + n) = Some j ->
        item_index (length xs) i = Some k ->
        __setitem__ fuel self i x h
        = (Ret tt, <[self := OUnspaced (<[k := x]> xs) sp]>
                     (<[sp := OList (<[j := x]> spaced)]> h)))
  /\ extend fuel self x so h = (Raise TypeError, h).
Proof.
  intros Hself Hsp Hs Hl. split; [|split; [|split]].
  - apply (run_append fuel h self sp xs spaced x so (x, x) h Hself Hsp).
    now apply coerce_atom.
  - intros i n Hn.
    apply (run_insert fuel h self sp xs spaced i n x so (x, x) h Hself Hsp);
      [now apply coerce_atom|assumption].
  - intros i n j k Hn Hj Hk.
    apply (run_setitem fuel h self sp xs spaced i n j k x (x, x) h Hself Hsp);
      [now apply coerce_atom|assumption..].
  - eapply run_extend_not_iterable; eassumption.
Qed.

Lemma element_of_another_type_is_stored_witness :
  listen_node !! 0 = Some (OUnspaced [VStr "listen"; VStr "80"] 1)
  /\ listen_node !! 1 = Some (OList [VStr " "; VStr "listen"; VStr " "; VStr "80"])
  /\ is_str (VInt 5) = false
  /\ is_list (VInt 5) = false
  /\ append 5 0 (VInt 5) false listen_node
     = (Ret tt, [OUnspaced [VStr "listen"; VStr "80"; VInt 5] 1;
                 OList [VStr " "; VStr "listen"; VStr " "; VStr "80"; VInt 5]])
  /\ extend 5 0 (VInt 5) false listen_node = (Raise TypeError, listen_node).
Proof.
  split; [reflexivity|]. split; [reflexivity|].
  split; [reflexivity|]. split; [reflexivity|].
  destruct (element_of_another_type_is_stored 5 listen_node 0 1
              [VStr "listen"; VStr "80"]
              [VStr " "; VStr "listen"; VStr " "; VStr "80"]
              (VInt 5) false eq_refl eq_refl eq_refl eq_refl)
    as (Ha & _ & _ & He).
  split; [exact Ha|exact He].
Defined.

(** *** Concatenation *)

Lemma get_obj_store l h r h' : get_obj l h = (r, h') -> h' = h.
Proof. unfold get_obj. destruct (h !! l); intros [= _ <-]; reflexivity. Qed.

Lemma get_elems_store l h r h' : get_elems l h = (r, h') -> h' = h.
Proof.
  unfold get_elems, bind. destruct (get_obj l h) as [[o|e|] h1] eqn:E;
    apply get_obj_store in E; subst; intros [= _ <-]; reflexivity.
Qed.

Lemma get_spaced_inv l h r h' :
  get_spaced l h = (r, h') ->
  h' = h /\ forall sp, r = Ret sp -> exists xs, h !! l = Some (OUnspaced xs sp).
Proof.
  unfold get_spaced, bind, get_obj.
  destruct (h !! l) as [[xs|xs a]|]; intros [= <- <-];
    (split; [reflexivity|]); intros sp [= ->]. eauto.
Qed.

Lemma iterate_store v h r h' : iterate v h = (r, h') -> h' = h.
Proof.
  destruct v; simpl; try (intros [= _ <-]; reflexivity).
  apply get_elems_store.
Qed.

Lemma set_elems_other l0 ys h r h' l :
  set_elems l0 ys h = (r, h') -> l <> l0 -> h' !! l = h !! l.
Proof.
  unfold set_elems, bind, get_obj, put_obj.
  destruct (h !! l0); intros [= _ <-] Hne; [|reflexivity].
  apply list_lookup_insert_ne. congruence.
Qed.

(** [list.extend] writes the list it extends and nothing else. *)
Lemma list_extend_other l0 v h r h' l :
  list_extend l0 v h = (r, h') -> l <> l0 -> h' !! l = h !! l.
Proof.
  unfold list_extend, bind at 1. intros E Hne.
  destruct (iterate v h) as [[ys|e|] h1] eqn:Ei;
    apply iterate_store in Ei; subst h1;
    [|injection E as _ <-; reflexivity..].
  unfold bind in E.
  destruct (get_elems l0 h) as [[zs|e|] h1] eqn:Eg;
    apply get_elems_store in Eg; subst h1;
    [|injection E as _ <-; reflexivity..].
  eapply set_elems_other; eassumption.
Qed.

(** [extend] writes the node and its spaced list; the operand, unless it
    is one of the two, and everything else stay as they are. *)
Lemma extend_touches fuel self x so h r h' l o :
  extend fuel self x so h = (r, h') ->
  h !! l = Some o ->
  l <> self ->
  (forall ys sp, h !! self = Some (OUnspaced ys sp) -> l <> sp) ->
  h' !! l = Some o.
Proof.
  intros E Hl Hne Hsp. unfold extend, bind at 1 in E.
  destruct (_coerce fuel x so h) as [[c|e|] h1] eqn:Ec.
  2,3: injection E as _ <-; eapply coerce_preserves; eassumption.
  pose proof (coerce_preserves _ _ _ _ _ _ Ec _ _ Hl) as Hl1.
  destruct (ok_coerce fuel (length h) x so _ _ _ (inv_start h) Ec)
    as ([_ Hfresh] & [_ Hkeep] & _).
  unfold bind at 1 in E.
  destruct (get_spaced self h1) as [[sp1|e|] h2] eqn:Eg;
    apply get_spaced_inv in Eg as [-> Hattr].
  2,3: injection E as _ <-; assumption.
  destruct (Hattr sp1 eq_refl) as [ys Hself1].
  assert (Hne1 : l <> sp1).
  { pose proof (lookup_lt_Some _ _ _ Hl) as Hlt.
    destruct (decide (self < length h)) as [Hold|Hnew].
    - apply (Hsp ys). rewrite <- (Hkeep self Hold). assumption.
    - assert (length h <= sp1) by (apply (Hfresh self ys); [lia|assumption]).
      lia. }
  unfold bind in E.
  destruct (list_extend sp1 (snd c) h1) as [[[]|e|] h2] eqn:E1.
  - rewrite (list_extend_other _ _ _ _ _ l E Hne).
    rewrite (list_extend_other _ _ _ _ _ l E1 Hne1). assumption.
  - injection E as _ <-.
    rewrite (list_extend_other _ _ _ _ _ l E1 Hne1). assumption.
  - injection E as _ <-.
    rewrite (list_extend_other _ _ _ _ _ l E1 Hne1). assumption.
Qed.

(** C6, as the code has it.  Concatenation writes no object that exists
    when it is called: neither operand of [a + b] nor anything reachable
    from them is changed by the call, the left operand being copied and
    the right one only read.  [extend] writes the node it extends and that
    node's spaced list, and nothing else.  (The right operand is not
    copied when it is an [UnspacedList]: see [result_shares_operand].) *)
Theorem concatenation_writes_no_existing_object
    (fuel : nat) (h : heap) (a : nat) (b : val) (l : nat) (o : obj) :
  h !! l = Some o ->
  (forall r h', __add__ fuel a b h = (r, h') -> h' !! l = Some o)
  /\ (forall so r h',
        extend fuel a b so h = (r, h') ->
        l <> a ->
        (forall ys sp, h !! a = Some (OUnspaced ys sp) -> l <> sp) ->
        h' !! l = Some o).
Proof.
  intros Hl. split.
  - intros r h' E.
    eapply (ok_preserves _ (fun _ => True)); [|exact E|exact Hl].
    intros n. eapply ok_weaken; [apply ok_add|]. intros; exact I.
  - intros so r h' E Hne Hsp. eapply extend_touches; eassumption.
Qed.

(** *** The element counts of the two views *)

Lemma list_setitem_Ret_inv h l o i v h' :
  h !! l = Some o -> list_setitem l i v h = (Ret tt, h') ->
  exists j, item_index (length (elems o)) i = Some j
            /\ h' = <[l := with_elems o (<[j := v]> (elems o))]> h.
Proof.
  intros Hl E. unfold list_setitem in E.
  rewrite (run_bind_Ret _ _ _ _ _ (run_get_elems _ _ _ Hl)) in E.
  destruct (item_index _ _) as [j|]; [|discriminate].
  rewrite (run_set_elems _ _ _ _ Hl) in E. injection E as <-. eauto.
Qed.

Lemma list_delitem_Ret_inv h l o i h' :
  h !! l = Some o -> list_delitem l i h = (Ret tt, h') ->
  exists j, item_index (length (elems o)) i = Some j
            /\ h' = <[l := with_elems o (delete j (elems o))]> h.
Proof.
  intros Hl E. unfold list_delitem in E.
  rewrite (run_bind_Ret _ _ _ _ _ (run_get_elems _ _ _ Hl)) in E.
  destruct (item_index _ _) as [j|]; [|discriminate].
  rewrite (run_set_elems _ _ _ _ Hl) in E. injection E as <-. eauto.
Qed.

Lemma bind_Ret_inv {A B} (m : M A) (k : A -> M B) h b h' :
  bind m k h = (Ret b, h') ->
  exists a h1, m h = (Ret a, h1) /\ k a h1 = (Ret b, h').
Proof.
  unfold bind. destruct (m h) as [[a|e|] h1]; intros E;
    [eauto | discriminate | discriminate].
Qed.

Lemma item_index_lt n i j : item_index n i = Some j -> j < n.
Proof.
  unfold item_index. cbv zeta.
  destruct (_ && _) eqn:E; intros [= <-].
  apply andb_prop in E as [E1 E2].
  apply Z.leb_le in E1. apply Z.ltb_lt in E2.
  destruct (i <? 0)%Z; lia.
Qed.


Lemma counts_after h self sp xs spaced xs' spaced' :
  h !! self = Some (OUnspaced xs sp) ->
  h !! sp = Some (OList spaced) ->
  counts (<[self := OUnspaced xs' sp]> (<[sp := OList spaced']> h)) self sp
         (length xs') (length spaced').
Proof.
  intros Hself Hsp.
  assert (Hne : self <> sp) by (intros ->; congruence).
  exists xs', spaced'. split; [|split; [|split]]; try reflexivity.
  - apply list_lookup_insert_eq. rewrite length_insert.
    now apply lookup_lt_Some in Hself.
  - rewrite list_lookup_insert_ne by assumption.
    apply list_lookup_insert_eq. now apply lookup_lt_Some in Hsp.
Qed.

Lemma spaces_before_Ret_inv h self sp xs spaced i n h' :
  h !! self = Some (OUnspaced xs sp) ->
  h !! sp = Some (OList spaced) ->
  _spaces_before self i h = (Ret n, h') ->
  h' = h /\ spaces_loop spaced i 0%Z h = (Ret n, h).
Proof.
  intros Hself Hsp E. rewrite (run_spaces_before _ _ _ _ _ Hself Hsp) in E.
  pose proof (spaces_loop_store spaced i 0%Z h) as Hs.
  rewrite E in Hs. simpl in Hs. subst h'. split; [reflexivity|assumption].
Qed.

Lemma run_list_extend h l o v ys :
  h !! l = Some o -> iterate v h = (Ret ys, h) ->
  list_extend l v h = (Ret tt, <[l := with_elems o (elems o ++ ys)]> h).
Proof.
  intros Hl Hv. unfold list_extend.
  rewrite (run_bind_Ret _ _ _ _ _ Hv).
  rewrite (run_bind_Ret _ _ _ _ _ (run_get_elems _ _ _ Hl)).
  now rewrite (run_set_elems _ _ _ _ Hl).
Qed.

(** Iterating over a value reads one list; writing another list does not
    change what it yields. *)
Lemma iterate_insert_other v h ys l o :
  iterate v h = (Ret ys, h) ->
  (forall u, v = VRef u -> u <> l) ->
  iterate v (<[l := o]> h) = (Ret ys, <[l := o]> h).
Proof.
  destruct v as [s| |z|u]; simpl; try discriminate.
  - intros [= <-] _. reflexivity.
  - intros E Hu. unfold get_elems, bind, get_obj in *.
    rewrite list_lookup_insert_ne by (intros ->; now apply (Hu u)).
    destruct (h !! u); [|discriminate]. injection E as <-. reflexivity.
Qed.

Section Counts.
Variable fuel : nat.
Variables (h : heap) (self sp : nat) (xs spaced : list val).
Hypothesis Hself : h !! self = Some (OUnspaced xs sp).
Hypothesis Hsp : h !! sp = Some (OList spaced).

Lemma insert_counts i x so h' :
  insert fuel self i x so h = (Ret tt, h') ->
  counts h' self sp (S (length xs)) (S (length spaced)).
Proof.
  intros E. pose proof E as E0. unfold insert in E0.
  apply bind_Ret_inv in E0 as (c & h1 & Hc & E0).
  pose proof (coerce_preserves _ _ _ _ _ _ Hc _ _ Hself) as Hself1.
  pose proof (coerce_preserves _ _ _ _ _ _ Hc _ _ Hsp) as Hsp1.
  rewrite (run_bind_Ret _ _ _ _ _ (run_get_spaced _ _ _ _ Hself1)) in E0.
  apply bind_Ret_inv in E0 as (n & h2 & Hn & _).
  apply (spaces_before_Ret_inv _ _ _ _ _ _ _ _ Hself1 Hsp1) in Hn as [-> Hn].
  rewrite (run_insert _ _ _ _ _ _ _ _ _ _ _ _ Hself Hsp Hc Hn) in E.
  injection E as <-.
  rewrite <- (length_inserted xs i (fst c)).
  rewrite <- (length_inserted spaced (i + n) (snd c)).
  eapply counts_after; eassumption.
Qed.

Lemma append_counts x so h' :
  append fuel self x so h = (Ret tt, h') ->
  counts h' self sp (S (length xs)) (S (length spaced)).
Proof.
  intros E. pose proof E as E0. unfold append in E0.
  apply bind_Ret_inv in E0 as (c & h1 & Hc & _).
  pose proof (coerce_preserves _ _ _ _ _ _ Hc _ _ Hself) as Hself1.
  pose proof (coerce_preserves _ _ _ _ _ _ Hc _ _ Hsp) as Hsp1.
  rewrite (run_append _ _ _ _ _ _ _ _ _ _ Hself Hsp Hc) in E.
  injection E as <-.
  replace (S (length xs)) with (length (xs ++ [fst c]))
    by (rewrite length_app; simpl; lia).
  replace (S (length spaced)) with (length (spaced ++ [snd c]))
    by (rewrite length_app; simpl; lia).
  eapply counts_after; eassumption.
Qed.

Lemma setitem_counts i x h' :
  __setitem__ fuel self i x h = (Ret tt, h') ->
  counts h' self sp (length xs) (length spaced).
Proof.
  intros E. pose proof E as E0. unfold __setitem__ in E0.
  apply bind_Ret_inv in E0 as (c & h1 & Hc & E0).
  pose proof (coerce_preserves _ _ _ _ _ _ Hc _ _ Hself) as Hself1.
  pose proof (coerce_preserves _ _ _ _ _ _ Hc _ _ Hsp) as Hsp1.
  rewrite (run_bind_Ret _ _ _ _ _ (run_get_spaced _ _ _ _ Hself1)) in E0.
  apply bind_Ret_inv in E0 as (n & h2 & Hn & E0).
  apply (spaces_before_Ret_inv _ _ _ _ _ _ _ _ Hself1 Hsp1) in Hn as [-> Hn].
  apply bind_Ret_inv in E0 as ([] & h2 & E1 & E2).
  destruct (list_setitem_Ret_inv _ _ _ _ _ _ Hsp1 E1) as (j & Hj & ->).
  assert (Hself2 : <[sp := with_elems (OList spaced)
                             (<[j := snd c]> (elems (OList spaced)))]> h1
                   !! self = Some (OUnspaced xs sp)).
  { rewrite list_lookup_insert_ne; [assumption|]. intros ->. congruence. }
  destruct (list_setitem_Ret_inv _ _ _ _ _ _ Hself2 E2) as (k & Hk & _).
  rewrite (run_setitem _ _ _ _ _ _ _ _ _ _ _ _ _ Hself Hsp Hc Hn Hj Hk) in E.
  injection E as <-.
  rewrite <- (length_insert xs k (fst c)).
  rewrite <- (length_insert spaced j (snd c)).
  eapply counts_after; eassumption.
Qed.

Lemma delitem_counts i h' :
  __delitem__ self i h = (Ret tt, h') ->
  exists a b, length xs = S a /\ length spaced = S b /\ counts h' self sp a b.
Proof.
  intros E. unfold __delitem__ in E.
  rewrite (run_bind_Ret _ _ _ _ _ (run_get_spaced _ _ _ _ Hself)) in E.
  apply bind_Ret_inv in E as (n & h2 & Hn & E).
  apply (spaces_before_Ret_inv _ _ _ _ _ _ _ _ Hself Hsp) in Hn as [-> Hn].
  apply bind_Ret_inv in E as ([] & h2 & E1 & E2).
  destruct (list_delitem_Ret_inv _ _ _ _ _ Hsp E1) as (j & Hj & ->).
  assert (Hself2 : <[sp := with_elems (OList spaced)
                             (delete j (elems (OList spaced)))]> h
                   !! self = Some (OUnspaced xs sp)).
  { rewrite list_lookup_insert_ne; [assumption|]. intros ->. congruence. }
  destruct (list_delitem_Ret_inv _ _ _ _ _ Hself2 E2) as (k & Hk & ->).
  simpl in *. apply item_index_lt in Hj, Hk.
  pose proof (length_delete xs k (lookup_lt_is_Some_2 _ _ Hk)) as Lx.
  pose proof (length_delete spaced j (lookup_lt_is_Some_2 _ _ Hj)) as Ls.
  exists (length (delete k xs)), (length (delete j spaced)).
  split; [lia|]. split; [lia|].
  eapply counts_after; eassumption.
Qed.

(** The item [_coerce] hands to the logical list, when it is a list, is
    an [UnspacedList]. *)
Lemma coerce_item_unspaced x so c h1 u :
  _coerce fuel x so h = (Ret c, h1) -> fst c = VRef u ->
  exists ys a, h1 !! u = Some (OUnspaced ys a).
Proof.
  unfold _coerce. destruct x as [s| |z|l]; try (intros [= <- <-]; discriminate).
  intros E Hu. apply bind_Ret_inv in E as (o & h2 & Ho & E).
  pose proof (get_obj_store _ _ _ _ Ho) as ->.
  unfold get_obj in Ho. destruct (h !! l) as [o'|] eqn:Hl; [|discriminate].
  injection Ho as ->. destruct o as [ys|ys a].
  - apply bind_Ret_inv in E as (u' & h2 & _ & E).
    apply bind_Ret_inv in E as (a & h3 & Ha & E).
    apply get_spaced_inv in Ha as [-> Ha]. destruct (Ha a eq_refl) as [zs Hz].
    injection E as <- <-. simpl in Hu. injection Hu as <-. eauto.
  - injection E as <- <-. simpl in Hu. injection Hu as <-. eauto.
Qed.

Lemma extend_counts x so c h1 ys zs h' :
  _coerce fuel x so h = (Ret c, h1) ->
  iterate (fst c) h1 = (Ret ys, h1) ->
  iterate (snd c) h1 = (Ret zs, h1) ->
  extend fuel self x so h = (Ret tt, h') ->
  counts h' self sp (length xs + length ys) (length spaced + length zs).
Proof.
  intros Hc Hys Hzs E. unfold extend in E.
  rewrite (run_bind_Ret _ _ _ _ _ Hc) in E.
  pose proof (coerce_preserves _ _ _ _ _ _ Hc _ _ Hself) as Hself1.
  pose proof (coerce_preserves _ _ _ _ _ _ Hc _ _ Hsp) as Hsp1.
  rewrite (run_bind_Ret _ _ _ _ _ (run_get_spaced _ _ _ _ Hself1)) in E.
  rewrite (run_bind_Ret _ _ _ _ _ (run_list_extend _ _ _ _ _ Hsp1 Hzs)) in E.
  assert (Hne : self <> sp) by (intros ->; congruence).
  assert (Hself2 : <[sp := with_elems (OList spaced) (elems (OList spaced) ++ zs)]> h1
                   !! self = Some (OUnspaced xs sp))
    by (now rewrite list_lookup_insert_ne).
  assert (Hys2 : iterate (fst c)
                   (<[sp := with_elems (OList spaced) (elems (OList spaced) ++ zs)]> h1)
                 = (Ret ys, <[sp := with_elems (OList spaced)
                                      (elems (OList spaced) ++ zs)]> h1)).
  { apply iterate_insert_other; [assumption|].
    intros u Hu ->.
    destruct (coerce_item_unspaced _ _ _ _ _ Hc Hu) as (ys' & a & Hul).
    congruence. }
  rewrite (run_list_extend _ _ _ _ _ Hself2 Hys2) in E.
  injection E as <-. simpl.
  rewrite <- !length_app.
  eapply counts_after; eassumption.
Qed.

End Counts.


Lemma mutate_counts fuel h self sp a b m h' :
  counts h self sp a b ->
  mutate fuel self m h = (Ret tt, h') ->
  exists a' b', counts h' self sp a' b'
                /\ (Z.of_nat b' - Z.of_nat a' = Z.of_nat b - Z.of_nat a)%Z.
Proof.
  intros (xs & spaced & Hself & Hsp & <- & <-) E.
  destruct m as [i x so|x so|i x|i]; simpl in E.
  - eexists _, _. split; [eapply insert_counts; eassumption|lia].
  - eexists _, _. split; [eapply append_counts; eassumption|lia].
  - eexists _, _. split; [eapply setitem_counts; eassumption|lia].
  - destruct (delitem_counts _ _ _ _ _ Hself Hsp _ _ E) as (a' & b' & Ha & Hb & Hc).
    exists a', b'. split; [assumption|lia].
Qed.

Lemma mutate_all_counts fuel self sp ms : forall h a b h',
  counts h self sp a b ->
  mutate_all fuel self ms h = (Ret tt, h') ->
  exists a' b', counts h' self sp a' b'
                /\ (Z.of_nat b' - Z.of_nat a' = Z.of_nat b - Z.of_nat a)%Z.
Proof.
  unfold mutate_all, forM_.
  induction ms as [|m ms IH]; intros h a b h' Hc E; simpl in E.
  - injection E as <-. eauto.
  - apply bind_Ret_inv in E as ([] & h1 & E1 & E2).
    destruct (mutate_counts _ _ _ _ _ _ _ _ Hc E1) as (a1 & b1 & Hc1 & Hd1).
    destruct (IH _ _ _ _ Hc1 E2) as (a2 & b2 & Hc2 & Hd2).
    exists a2, b2. split; [assumption|lia].
Qed.

(** The two counts of one node.  On a node with [a] logical elements whose own
    spaced list has [b] elements: a successful [insert] or [append] adds
    one element to each list, a successful [__setitem__] leaves both
    counts, a successful [__delitem__] removes one element from each, and a
    successful [extend] adds the operand's logical elements to the one and
    the operand's spaced elements to the other.  So over every sequence of
    successful insert, append, set and delete operations the number of
    formatted entries hidden from the logical view, [b - a], stays what it
    was.  Neither which entries are hidden (whitespace strings, but
    sublists of whitespace only as well) nor what a deep copy does to the
    sharing of the spaced lists is part of this statement. *)
Theorem mutations_move_both_counts
    (fuel : nat) (h : heap) (self sp : nat) (a b : nat) :
  counts h self sp a b ->
  (forall i x so h',
      insert fuel self i x so h = (Ret tt, h') ->
      counts h' self sp (S a) (S b))
  /\ (forall x so h',
        append fuel self x so h = (Ret tt, h') ->
        counts h' self sp (S a) (S b))
  /\ (forall i x h',
        __setitem__ fuel self i x h = (Ret tt, h') ->
        counts h' self sp a b)
  /\ (forall i h',
        __delitem__ self i h = (Ret tt, h') ->
        exists a' b', a = S a' /\ b = S b' /\ counts h' self sp a' b')
  /\ (forall x so c h1 ys zs h',
        _coerce fuel x so h = (Ret c, h1) ->
        iterate (fst c) h1 = (Ret ys, h1) ->
        iterate (snd c) h1 = (Ret zs, h1) ->
        extend fuel self x so h = (Ret tt, h') ->
        counts h' self sp (a + length ys) (b + length zs))
  /\ (forall ms h',
        mutate_all fuel self ms h = (Ret tt, h') ->
        exists a' b', counts h' self sp a' b'
                      /\ (Z.of_nat b' - Z.of_nat a' = Z.of_nat b - Z.of_nat a)%Z).
Proof.
  intros Hc. pose proof Hc as (xs & spaced & Hself & Hsp & <- & <-).
  repeat split.
  - intros. eapply insert_counts; eassumption.
  - intros. eapply append_counts; eassumption.
  - intros. eapply setitem_counts; eassumption.
  - intros i h' E.
    destruct (delitem_counts _ _ _ _ _ Hself Hsp _ _ E) as (a' & b' & Ha & Hb & H').
    eauto.
  - intros. eapply extend_counts; eassumption.
  - intros ms h' E. eapply mutate_all_counts; eassumption.
Qed.

End TreeFacts.

(** * Scenarios

    Whole runs, from the text to the text: [loads], mutations through the
    logical view, [dumps]. *)

Module Scenarios.
Import Chars Py Store Pyparsing Nginxparser TreeSpec TreeFacts Programs.
Local Open Scope py_scope.
Local Open Scope string_scope.


(** Scenarios 1, 2 and 4 of the specification. *)
Example server_round_trip : run (round_trip server_text) = Ret server_text.
Proof. vm_compute. reflexivity. Qed.

Example comment_round_trip :
  run (round_trip ("# hello world" ++ nl)) = Ret ("# hello world" ++ nl).
Proof. vm_compute. reflexivity. Qed.

Example if_round_trip :
  run (round_trip ("if ($request_method = POST) {" ++ nl ++ "}" ++ nl))
  = Ret ("if ($request_method = POST) {" ++ nl ++ "}" ++ nl).
Proof. vm_compute. reflexivity. Qed.

(** The directive [break;]: its value, the empty string, is in the spaced
    list and not in the logical list. *)
Example break_views :
  run (tree <- loads 40 "break;" ;;
       directive <- item tree 0 ;;
       xs <- get_elems directive ;;
       sp <- get_spaced directive ;;
       ys <- get_elems sp ;;
       ret (xs, ys))
  = Ret ([VStr "break"], [VStr "break"; VStr ""]).
Proof. vm_compute. reflexivity. Qed.

(** Scenario 6: deleting the only directive of the block. *)
Example delete_listen :
  run (tree <- loads 40 server_text ;;
       block <- item tree 0 ;;
       body <- item block 1 ;;
       __delitem__ body 0 ;;
       dumps 40 tree)
  = Ret ("server {" ++ nl ++ "}" ++ nl).
Proof. vm_compute. reflexivity. Qed.

(** C1 fails on a text that starts with white space.  [script] is the one
    expression of the grammar that is not under [leaveWhitespace()]: the
    white characters in front of it are skipped before the first item is
    parsed, so that a leading line break or indentation is in no token
    and [dumps] cannot write it.  The white space in front of every later
    top-level item is in the tokens of that item and is reproduced, as it
    is inside a block.  The last text loses the blank between the
    modifier and the brace, which the literal of the brace skips. *)
Theorem leading_whitespace_is_lost :
  run (round_trip (nl ++ "user www;" ++ nl)) = Ret ("user www;" ++ nl)
  /\ run (round_trip ("  user www;" ++ nl ++ "  events {}" ++ nl))
     = Ret ("user www;" ++ nl ++ "  events {}" ++ nl)
  /\ run (round_trip ("http {" ++ nl ++ "  user www;" ++ nl ++ "  events {}" ++ nl ++ "}"))
     = Ret ("http {" ++ nl ++ "  user www;" ++ nl ++ "  events {}" ++ nl ++ "}")
  /\ run (round_trip "location = {}") = Ret "location ={}".
Proof. repeat split; vm_compute; reflexivity. Qed.

(** *** Appending a directive (scenario 5) *)


(** C5, as the code has it.  Appending [["root", "/var/www"]] with
    [spaceout=True] to the body of the block parsed from the server text
    succeeds.  The dumped text is the original text with a newline and
    [root /var/www;] put in directly before the closing brace: every byte
    of the original is in place around the insertion, the directive starts
    a line of its own inside the block, the closing brace follows it on
    that line, and the text parses again into a block with the two
    directives. *)
Theorem append_root_directive :
  exists before after,
    server_text = before ++ after
    /\ after = "}" ++ nl
    /\ run append_root = Ret (before ++ (nl ++ "root /var/www;") ++ after)
    /\ RawNginxParser.as_list (before ++ (nl ++ "root /var/www;") ++ after)
       = Some [TList [TList [TStr "server"; TStr " "];
                      TList [TList [TStr (nl ++ "  "); TStr "listen"; TStr " ";
                                    TStr "80"];
                             TList [TStr (nl ++ nl); TStr "root"; TStr " ";
                                    TStr "/var/www"]]];
               TStr nl].
Proof.
  exists ("server {" ++ nl ++ "  listen 80;" ++ nl), ("}" ++ nl).
  repeat split; vm_compute; reflexivity.
Qed.

(** C5, as stated, fails on the lines of the dumped text: none of them is
    [root /var/www;], and the line [}] of the original is not among them,
    the brace having moved to the end of the line of the new directive. *)
Lemma appended_directive_shares_its_line :
  exists out,
    run append_root = Ret out
    /\ split_lines server_text = ["server {"; "  listen 80;"; "}"; ""]
    /\ split_lines out
       = ["server {"; "  listen 80;"; ""; "root /var/www;}"; ""]
    /\ ~ In "root /var/www;" (split_lines out)
    /\ ~ In "}" (split_lines out).
Proof.
  exists ("server {" ++ nl ++ "  listen 80;" ++ nl ++ nl ++ "root /var/www;}" ++ nl).
  split; [vm_compute; reflexivity|].
  split; [vm_compute; reflexivity|].
  split; [vm_compute; reflexivity|].
  split; vm_compute; intros H;
    repeat (destruct H as [H|H]; [discriminate H|]); exact H.
Qed.

(** *** A block whose body is white space only *)


Example foo_block_views :
  run (tb <- foo_block ;;
       xs <- len (snd tb) ;;
       sp <- get_spaced (snd tb) ;;
       ys <- len sp ;;
       ret (xs, ys))
  = Ret (1, 2).
Proof. vm_compute. reflexivity. Qed.

(** C7 fails here: index 1 is out of range for the block, whose logical
    list has one element, yet [block[1] = "x"] has replaced the body in the
    spaced list by the time it raises [IndexError], and the text dumped
    afterwards is another one. *)
Lemma setitem_writes_before_raising :
  run (tb <- foo_block ;;
       n <- len (snd tb) ;;
       before <- dumps 40 (fst tb) ;;
       r <- attempt (__setitem__ 40 (snd tb) 1 (VStr "x")) ;;
       after <- dumps 40 (fst tb) ;;
       ret (n, before, r, after))
  = Ret (1, "foo { }", Raise IndexError, "foo {x}").
Proof. vm_compute. reflexivity. Qed.

(** C10 fails here: [insert(1, "x")] on the block of one element raises
    nothing and puts the element at the end of the logical list. *)
Lemma insert_at_len_succeeds :
  run (tb <- foo_block ;;
       n <- len (snd tb) ;;
       r <- attempt (insert 40 (snd tb) 1 (VStr "x") false) ;;
       xs <- get_elems (snd tb) ;;
       ret (n, r, nth_error xs 1))
  = Ret (1, Ret tt, Some (VStr "x")).
Proof. vm_compute. reflexivity. Qed.

(** *** An element of another type *)

(** C4 fails here: appending the integer 5 to the tree of [a b;] raises
    nothing, and 5 is the last element of both lists. *)
Lemma append_accepts_an_integer :
  run (tree <- loads 40 "a b;" ;;
       r <- attempt (append 40 tree (VInt 5) false) ;;
       xs <- get_elems tree ;;
       sp <- get_spaced tree ;;
       ys <- get_elems sp ;;
       ret (r, last xs, last ys))
  = Ret (Ret tt, Some (VInt 5), Some (VInt 5))
  /\ Ret tt <> (Raise TypeError : outcome unit).
Proof. split; [vm_compute; reflexivity|discriminate]. Qed.

(** *** Sharing after concatenation *)

(** C6 fails here: in [c = a + b] the block of [b] is not copied, so that
    appending a directive to the body of the block through [c] changes
    what [b] dumps. *)
Lemma result_shares_operand :
  run (a <- loads 40 "user www;" ;;
       b <- loads 40 server_text ;;
       before <- dumps 40 b ;;
       c <- __add__ 40 a (VRef b) ;;
       block <- item c 1 ;;
       body <- item block 1 ;;
       directive <- alloc (OList [VStr "root"; VStr "/var/www"]) ;;
       append 40 body (VRef directive) true ;;
       after <- dumps 40 b ;;
       ret (before, after))
  = Ret (server_text,
         "server {" ++ nl ++ "  listen 80;" ++ nl ++ nl ++ "root /var/www;}" ++ nl)
  /\ server_text
     <> "server {" ++ nl ++ "  listen 80;" ++ nl ++ nl ++ "root /var/www;}" ++ nl.
Proof. split; [vm_compute; reflexivity|vm_compute; discriminate]. Qed.

Lemma concatenation_writes_no_existing_object_witness :
  listen_node !! 0 = Some (OUnspaced [VStr "listen"; VStr "80"] 1)
  /\ snd (__add__ 10 0 (VRef 0) listen_node) !! 0
     = Some (OUnspaced [VStr "listen"; VStr "80"] 1).
Proof.
  split; [reflexivity|].
  apply (proj1 (concatenation_writes_no_existing_object 10 listen_node 0
                  (VRef 0) 0 _ eq_refl)
           (fst (__add__ 10 0 (VRef 0) listen_node))).
  now destruct (__add__ 10 0 (VRef 0) listen_node).
Defined.

(** *** The counts after a deep copy *)

(** C2 fails here: after [copy.deepcopy] of the tree, two directives
    appended to the body of the block in the copy make its logical list
    three elements long, while the body that [dumps] reads in the spaced
    tree of the copy still has its two entries, and the dumped text is the
    original one.  No number of elided leaves makes three plus it two.
    [__init__] links the spaced list of every nested node into the spaced
    list of its parent; [__deepcopy__] then replaces the spaced list of
    the copy by a deep copy of the original one, which the nested nodes
    of the copy do not share. *)
Theorem counts_drift_after_deepcopy :
  run (tree <- loads 40 server_text ;;
       r <- deepcopy 40 [] (VRef tree) ;;
       clone <- as_ref (fst r) ;;
       block <- item clone 0 ;;
       body <- item block 1 ;;
       d1 <- alloc (OList [VStr "root"; VStr "/var/www"]) ;;
       append 40 body (VRef d1) true ;;
       d2 <- alloc (OList [VStr "index"; VStr "x"]) ;;
       append 40 body (VRef d2) true ;;
       logical <- len body ;;
       spaced <- get_spaced clone ;;
       spaced_block <- item spaced 0 ;;
       spaced_body <- item spaced_block 1 ;;
       formatted <- len spaced_body ;;
       text <- dumps 40 clone ;;
       ret (logical, formatted, text))
  = Ret (3, 2, server_text)
  /\ forall elided : nat, 3 + elided <> 2.
Proof. split; [vm_compute; reflexivity|lia]. Qed.

(** Without the copy the spaced body is the list the appends wrote. *)
Example counts_without_deepcopy :
  run (tree <- loads 40 server_text ;;
       block <- item tree 0 ;;
       body <- item block 1 ;;
       d1 <- alloc (OList [VStr "root"; VStr "/var/www"]) ;;
       append 40 body (VRef d1) true ;;
       logical <- len body ;;
       spaced <- get_spaced tree ;;
       spaced_block <- item spaced 0 ;;
       spaced_body <- item spaced_block 1 ;;
       formatted <- len spaced_body ;;
       ret (logical, formatted))
  = Ret (2, 3).
Proof. vm_compute. reflexivity. Qed.

Lemma mutations_move_both_counts_witness :
  counts listen_node 0 1 2 4
  /\ fst (mutate_all 5 0 three_mutations listen_node) = Ret tt
  /\ exists a' b',
       counts (snd (mutate_all 5 0 three_mutations listen_node)) 0 1 a' b'
       /\ (Z.of_nat b' - Z.of_nat a' = Z.of_nat 4 - Z.of_nat 2)%Z.
Proof.
  assert (H : counts listen_node 0 1 2 4).
  { exists [VStr "listen"; VStr "80"],
           [VStr " "; VStr "listen"; VStr " "; VStr "80"].
    repeat split; reflexivity. }
  split; [exact H|].
  destruct (mutations_move_both_counts 5 listen_node 0 1 2 4 H)
    as (_ & _ & _ & _ & _ & Hseq).
  destruct (mutate_all 5 0 three_mutations listen_node) as [r h'] eqn:E.
  assert (Hr : r = Ret tt) by (vm_compute in E; now injection E as <- _).
  subst r. split; [reflexivity|]. exact (Hseq three_mutations h' E).
Defined.

End Scenarios.

(** * More of the dual-view tree

    What the index translation computes, what the mutations do at a valid
    index, and what the constructor, the copy and the concatenation make
    of lists without sublists. *)

Module ViewFacts.
Import Chars Py Store Nginxparser FrameSpec ConstructSpec Frame TreeSpec
  TreeFacts ViewSpec.
Local Open Scope py_scope.

Lemma spaces_loop_locates h rest : forall idx acc,
  (0 <= idx < count_nonspacey rest)%Z ->
  exists (n : Z) (p : nat) v,
    spaces_loop rest idx acc h = (Ret (acc + n)%Z, h)
    /\ (0 <= n)%Z /\ (idx + n)%Z = Z.of_nat p
    /\ rest !! p = Some v /\ spacey v = false
    /\ count_nonspacey (take p rest) = idx.
Proof.
  induction rest as [|x rest IH]; intros idx acc Hi.
  - simpl in Hi. lia.
  - pose proof (count_nonspacey_nonneg rest) as Hnn.
    cbn [spaces_loop count_nonspacey] in *.
    destruct (Z.eqb_spec idx (-1)) as [|_]; [lia|].
    destruct (spacey x) eqn:Ex.
    + destruct (IH idx (acc + 1)%Z ltac:(lia)) as (n & p & v & E & Hn & Hp & Hv & Hs & Hc).
      exists (n + 1)%Z, (S p), v. rewrite E.
      repeat split; try assumption; try lia.
      * f_equal. f_equal. lia.
      * cbn [take count_nonspacey]. rewrite Ex. lia.
    + destruct (Z.eq_dec idx 0%Z) as [->|Hne].
      * exists 0%Z, 0, x. cbn.
        destruct rest; cbn; rewrite ?Z.add_0_r; repeat split; auto; lia.
      * destruct (IH (idx - 1)%Z acc ltac:(lia)) as (n & p & v & E & Hn & Hp & Hv & Hs & Hc).
        exists n, (S p), v. rewrite E.
        repeat split; try assumption; try lia.
        cbn [take count_nonspacey]. rewrite Ex. lia.
Qed.

(** X1.  For a logical index [idx] that names an entry, [_spaces_before] returns
    the number [n] of whitespace entries in front of that entry: position
    [idx + n] of the spaced list holds an entry that is no whitespace, and
    exactly [idx] such entries stand before it. *)
Theorem spaces_before_locates_entry
    (h : heap) (self sp : nat) (xs spaced : list val) (idx : Z) :
  h !! self = Some (OUnspaced xs sp) ->
  h !! sp = Some (OList spaced) ->
  (0 <= idx < count_nonspacey spaced)%Z ->
  exists (n : Z) (p : nat) v,
    _spaces_before self idx h = (Ret n, h)
    /\ (0 <= n)%Z /\ (idx + n)%Z = Z.of_nat p
    /\ spaced !! p = Some v /\ spacey v = false
    /\ count_nonspacey (take p spaced) = idx.
Proof.
  intros Hself Hsp Hi.
  destruct (spaces_loop_locates h spaced idx 0%Z Hi) as (n & p & v & E & H).
  exists n, p, v. split; [|exact H].
  now rewrite (run_spaces_before _ _ _ _ _ Hself Hsp).
Qed.

Lemma spaces_loop_minus_one rest acc h :
  spaces_loop rest (-1) acc h = (Ret acc, h).
Proof. destruct rest; reflexivity. Qed.

(** X2.  [_spaces_before] raises [IndexError] exactly when the index is below
    [-1] or not below the number of non-whitespace entries of the spaced
    list; otherwise it returns, and for [-1] it returns [0] without a
    look at the list.  It never loops and never changes the store. *)
Theorem spaces_before_raises_exactly
    (h : heap) (self sp : nat) (xs spaced : list val) (idx : Z) :
  h !! self = Some (OUnspaced xs sp) ->
  h !! sp = Some (OList spaced) ->
  (_spaces_before self idx h = (Raise IndexError, h)
   <-> (idx < -1 \/ count_nonspacey spaced <= idx)%Z)
  /\ ((-1 <= idx < count_nonspacey spaced)%Z ->
      exists n, _spaces_before self idx h = (Ret n, h))
  /\ _spaces_before self (-1) h = (Ret 0%Z, h).
Proof.
  intros Hself Hsp. rewrite !(run_spaces_before _ _ _ _ _ Hself Hsp).
  split; [split|split].
  - intros E.
    destruct (Z_lt_dec idx (-1)); [now left|].
    destruct (Z_le_dec (count_nonspacey spaced) idx); [now right|].
    destruct (spaces_loop_succeeds spaced idx 0%Z h ltac:(lia)) as (m & En).
    congruence.
  - apply spaces_loop_fails.
  - apply spaces_loop_succeeds.
  - apply spaces_loop_minus_one.
Qed.

Lemma count_nonspacey_app a b :
  count_nonspacey (a ++ b) = (count_nonspacey a + count_nonspacey b)%Z.
Proof. induction a as [|x a IH]; simpl; [lia|]. rewrite IH. lia. Qed.

Lemma split_at p (l : list val) v :
  l !! p = Some v -> l = take p l ++ v :: drop (S p) l.
Proof. intros H. symmetry. now apply take_drop_middle. Qed.

Lemma delete_at p (l : list val) v :
  l !! p = Some v -> delete p l = take p l ++ drop (S p) l.
Proof. intros _. apply delete_take_drop. Qed.

Lemma insert_at p (l : list val) v z :
  l !! p = Some v -> <[p := z]> l = take p l ++ z :: drop (S p) l.
Proof. intros H. apply insert_take_drop. now apply lookup_lt_Some in H. Qed.

Lemma insert_index_in_range n p : p <= n -> insert_index n (Z.of_nat p) = p.
Proof.
  intros Hp. unfold insert_index.
  destruct (Z.ltb_spec (Z.of_nat p) 0); lia.
Qed.

Lemma run_delitem h self sp xs spaced i n j k :
  h !! self = Some (OUnspaced xs sp) ->
  h !! sp = Some (OList spaced) ->
  spaces_loop spaced i 0%Z h = (Ret n, h) ->
  item_index (length spaced) (i + n) = Some j ->
  item_index (length xs) i = Some k ->
  __delitem__ self i h
  = (Ret tt, <[self := OUnspaced (delete k xs) sp]>
               (<[sp := OList (delete j spaced)]> h)).
Proof.
  intros Hself Hsp Hn Hj Hk. unfold __delitem__.
  rewrite (run_bind_Ret _ _ _ _ _ (run_get_spaced _ _ _ _ Hself)).
  assert (Hsb : _spaces_before self i h = (Ret n, h))
    by (now rewrite (run_spaces_before _ _ _ _ _ Hself Hsp)).
  rewrite (run_bind_Ret _ _ _ _ _ Hsb).
  rewrite (run_bind_Ret _ _ _ _ _ (run_list_delitem _ _ _ _ _ Hsp Hj)).
  assert (Hself2 : <[sp := with_elems (OList spaced)
                             (delete j (elems (OList spaced)))]> h
                   !! self = Some (OUnspaced xs sp)).
  { rewrite list_lookup_insert_ne; [assumption|]. intros ->. congruence. }
  now rewrite (run_list_delitem _ _ _ _ _ Hself2 Hk).
Qed.

(** The entry of the spaced list that stands for the logical element
    [i], and what the scan returns for it. *)
Lemma entry_of_element (spaced : list val) (i : nat) h1 :
  (Z.of_nat i < count_nonspacey spaced)%Z ->
  exists (n : Z) (p : nat) v,
    spaces_loop spaced (Z.of_nat i) 0%Z h1 = (Ret n, h1)
    /\ (Z.of_nat i + n)%Z = Z.of_nat p
    /\ spaced !! p = Some v /\ spacey v = false
    /\ count_nonspacey (take p spaced) = Z.of_nat i.
Proof.
  intros Hc.
  destruct (spaces_loop_locates h1 spaced (Z.of_nat i) 0%Z ltac:(lia))
    as (n & p & v & E & Hn & Hp & Hv & Hs & Hcount).
  exists n, p, v. repeat split; assumption.
Qed.

(** X3.  [del l[i]] at an index that names an element removes element [i] from
    the logical list and, from the spaced list, the entry that stands for
    it: every whitespace entry stays where it was, and the spaced list has
    one non-whitespace entry less. *)
Theorem delete_removes_the_entry
    (h : heap) (self sp : nat) (xs spaced : list val) (i : nat) :
  h !! self = Some (OUnspaced xs sp) ->
  h !! sp = Some (OList spaced) ->
  i < length xs ->
  (Z.of_nat i < count_nonspacey spaced)%Z ->
  exists p v,
    spaced !! p = Some v /\ spacey v = false
    /\ count_nonspacey (take p spaced) = Z.of_nat i
    /\ __delitem__ self (Z.of_nat i) h
       = (Ret tt, <[self := OUnspaced (delete i xs) sp]>
                    (<[sp := OList (delete p spaced)]> h))
    /\ List.filter spacey (delete p spaced) = List.filter spacey spaced
    /\ count_nonspacey (delete p spaced) = (count_nonspacey spaced - 1)%Z.
Proof.
  intros Hself Hsp Hi Hc.
  destruct (entry_of_element spaced i h Hc) as (n & p & v & E & Hp & Hv & Hs & Hcount).
  exists p, v. split; [assumption|]. split; [assumption|]. split; [assumption|].
  split; [|split].
  - apply (run_delitem h self sp xs spaced (Z.of_nat i) n p i Hself Hsp E).
    + rewrite Hp. apply item_index_in_range. now apply lookup_lt_Some in Hv.
    + now apply item_index_in_range.
  - rewrite (delete_at _ _ _ Hv). rewrite (split_at _ _ _ Hv) at 3.
    rewrite !List.filter_app. cbn [List.filter]. now rewrite Hs.
  - rewrite (delete_at _ _ _ Hv). rewrite (split_at _ _ _ Hv) at 3.
    rewrite !count_nonspacey_app. cbn [count_nonspacey]. rewrite Hs. lia.
Qed.

Lemma coerce_spaced_item fuel x so h c h1 :
  _coerce fuel x so h = (Ret c, h1) -> spacey x = false -> spacey (snd c) = false.
Proof.
  unfold _coerce. destruct x as [s| |z|l]; try (intros [= <- _]; auto).
  intros E _. apply bind_Ret_inv in E as (o & h2 & _ & E).
  destruct o as [ys|ys sp0].
  - apply bind_Ret_inv in E as (u & h3 & _ & E).
    apply bind_Ret_inv in E as (sp1 & h4 & _ & E).
    now injection E as <- _.
  - now injection E as <- _.
Qed.

(** X4.  [l[i] = x] at an index that names an element, for an [x] that is no
    whitespace: the item replaces element [i] of the logical list and its
    spaced form replaces the entry that stands for it, no whitespace entry
    is touched and the number of non-whitespace entries stays. *)
Theorem set_replaces_the_entry
    (fuel : nat) (h : heap) (self sp : nat) (xs spaced : list val) (i : nat)
    (x : val) (d : nat) :
  h !! self = Some (OUnspaced xs sp) ->
  h !! sp = Some (OList spaced) ->
  i < length xs ->
  (Z.of_nat i < count_nonspacey spaced)%Z ->
  operand h d x -> d < fuel -> spacey x = false ->
  exists c h1 p v,
    _coerce fuel x false h = (Ret c, h1)
    /\ spaced !! p = Some v /\ spacey v = false
    /\ count_nonspacey (take p spaced) = Z.of_nat i
    /\ __setitem__ fuel self (Z.of_nat i) x h
       = (Ret tt, <[self := OUnspaced (<[i := fst c]> xs) sp]>
                    (<[sp := OList (<[p := snd c]> spaced)]> h1))
    /\ List.filter spacey (<[p := snd c]> spaced) = List.filter spacey spaced
    /\ count_nonspacey (<[p := snd c]> spaced) = count_nonspacey spaced.
Proof.
  intros Hself Hsp Hi Hc Hx Hd Hxs.
  destruct (coerce_returns fuel h d x false Hx Hd) as (c & h1 & Ec).
  destruct (entry_of_element spaced i h1 Hc) as (n & p & v & E & Hp & Hv & Hs & Hcount).
  pose proof (coerce_spaced_item _ _ _ _ _ _ Ec Hxs) as Hcs.
  exists c, h1, p, v. split; [assumption|].
  split; [assumption|]. split; [assumption|]. split; [assumption|].
  split; [|split].
  - apply (run_setitem fuel h self sp xs spaced (Z.of_nat i) n p i x c h1
             Hself Hsp Ec E).
    + rewrite Hp. apply item_index_in_range. now apply lookup_lt_Some in Hv.
    + now apply item_index_in_range.
  - rewrite (insert_at _ _ _ _ Hv). rewrite (split_at _ _ _ Hv) at 3.
    rewrite !List.filter_app. cbn [List.filter]. now rewrite Hs, Hcs.
  - rewrite (insert_at _ _ _ _ Hv). rewrite (split_at _ _ _ Hv) at 3.
    rewrite !count_nonspacey_app. cbn [count_nonspacey]. now rewrite Hs, Hcs.
Qed.

(** X5.  [l.insert(i, x)] at an index that names an element, for an [x] that is
    no whitespace: the item goes in front of element [i] of the logical
    list, and its spaced form directly in front of the entry that stands
    for that element, after the white space that precedes it. *)
Theorem insert_lands_before_the_entry
    (fuel : nat) (h : heap) (self sp : nat) (xs spaced : list val) (i : nat)
    (x : val) (so : bool) (d : nat) :
  h !! self = Some (OUnspaced xs sp) ->
  h !! sp = Some (OList spaced) ->
  i < length xs ->
  (Z.of_nat i < count_nonspacey spaced)%Z ->
  operand h d x -> d < fuel -> spacey x = false ->
  exists c h1 p v,
    _coerce fuel x so h = (Ret c, h1)
    /\ spaced !! p = Some v /\ spacey v = false
    /\ count_nonspacey (take p spaced) = Z.of_nat i
    /\ insert fuel self (Z.of_nat i) x so h
       = (Ret tt, <[self := OUnspaced (take i xs ++ fst c :: drop i xs) sp]>
                    (<[sp := OList (take p spaced ++ snd c :: drop p spaced)]> h1))
    /\ count_nonspacey (take p spaced ++ snd c :: drop p spaced)
       = (count_nonspacey spaced + 1)%Z.
Proof.
  intros Hself Hsp Hi Hc Hx Hd Hxs.
  destruct (coerce_returns fuel h d x so Hx Hd) as (c & h1 & Ec).
  destruct (entry_of_element spaced i h1 Hc) as (n & p & v & E & Hp & Hv & Hs & Hcount).
  pose proof (coerce_spaced_item _ _ _ _ _ _ Ec Hxs) as Hcs.
  exists c, h1, p, v. split; [assumption|].
  split; [assumption|]. split; [assumption|]. split; [assumption|].
  split.
  - rewrite (run_insert fuel h self sp xs spaced (Z.of_nat i) n x so c h1
               Hself Hsp Ec E).
    unfold inserted. rewrite Hp.
    apply lookup_lt_Some in Hv.
    rewrite !insert_index_in_range by lia. reflexivity.
  - rewrite count_nonspacey_app. cbn [count_nonspacey]. rewrite Hcs.
    rewrite <- (take_drop p spaced) at 3. rewrite count_nonspacey_app. lia.
Qed.

Lemma item_index_minus_one n : 0 < n -> item_index n (-1) = Some (n - 1).
Proof.
  intros Hn. unfold item_index. cbn [Z.ltb Z.compare].
  destruct (Z.leb_spec 0 (-1 + Z.of_nat n)); [|lia].
  destruct (Z.ltb_spec (-1 + Z.of_nat n) (Z.of_nat n)); [|lia].
  simpl. f_equal. lia.
Qed.

(** X6.  The index [-1] is not translated: [del l[-1]] removes the last element
    of the logical list and the last entry of the spaced list, whatever
    that entry is, and [l[-1] = x] overwrites both. *)
Theorem minus_one_is_not_translated
    (fuel : nat) (h : heap) (self sp : nat) (xs spaced : list val) :
  h !! self = Some (OUnspaced xs sp) ->
  h !! sp = Some (OList spaced) ->
  0 < length xs -> 0 < length spaced ->
  __delitem__ self (-1) h
  = (Ret tt, <[self := OUnspaced (delete (length xs - 1) xs) sp]>
               (<[sp := OList (delete (length spaced - 1) spaced)]> h))
  /\ (forall x, is_list x = false ->
        __setitem__ fuel self (-1) x h
        = (Ret tt, <[self := OUnspaced (<[length xs - 1 := x]> xs) sp]>
                     (<[sp := OList (<[length spaced - 1 := x]> spaced)]> h))).
Proof.
  intros Hself Hsp Hx Hs. split.
  - apply (run_delitem h self sp xs spaced (-1) 0 _ _ Hself Hsp).
    + apply spaces_loop_minus_one.
    + now apply item_index_minus_one.
    + now apply item_index_minus_one.
  - intros x Hl.
    apply (run_setitem fuel h self sp xs spaced (-1) 0 _ _ x (x, x) h Hself Hsp).
    + now apply coerce_atom.
    + apply spaces_loop_minus_one.
    + now apply item_index_minus_one.
    + now apply item_index_minus_one.
Qed.

(** X7.  [l.extend(s)] for a string [s] does not fail: a string is iterable, and
    its characters are added one by one to the logical and to the spaced
    list. *)
Theorem extend_by_string_adds_characters
    (fuel : nat) (h : heap) (self sp : nat) (xs spaced : list val)
    (s : string) (so : bool) :
  h !! self = Some (OUnspaced xs sp) ->
  h !! sp = Some (OList spaced) ->
  extend fuel self (VStr s) so h
  = (Ret tt, <[self := OUnspaced (xs ++ chars s) sp]>
               (<[sp := OList (spaced ++ chars s)]> h)).
Proof.
  intros Hself Hsp. unfold extend. cbn [_coerce].
  rewrite (run_bind_Ret _ _ _ _ _ (eq_refl : ret (VStr s, VStr s) h = _)).
  rewrite (run_bind_Ret _ _ _ _ _ (run_get_spaced _ _ _ _ Hself)).
  cbn [fst snd].
  rewrite (run_bind_Ret _ _ _ _ _
             (run_list_extend _ _ _ (VStr s) (chars s) Hsp eq_refl)).
  cbn [with_elems elems].
  apply (run_list_extend _ self (OUnspaced xs sp) (VStr s) (chars s));
    [|reflexivity].
  rewrite list_lookup_insert_ne; [assumption|]. intros ->. congruence.
Qed.

Lemma lookup_last (h : heap) o : (h ++ [o]) !! length h = Some o.
Proof. rewrite lookup_app_r by lia. now rewrite Nat.sub_diag. Qed.

Lemma put_last (h : heap) o o' : <[length h := o']> (h ++ [o]) = h ++ [o'].
Proof. rewrite insert_app_r_alt by lia. now rewrite Nat.sub_diag. Qed.

Lemma copy_flat_loop n (h : heap) xs : forall m1 acc,
  Forall atom xs ->
  foldM (fun m1 a => r <- deepcopy n m1 a ;; list_append (length h) (fst r) ;;
                     ret (snd r))
        m1 xs (h ++ [OList acc])
  = (Ret m1, h ++ [OList (acc ++ xs)]).
Proof.
  induction xs as [|a xs IH]; intros m1 acc Hxs.
  - cbn. now rewrite app_nil_r.
  - inversion Hxs as [|? ? Ha Hrest]; subst. cbn [foldM].
    unfold bind at 1. unfold bind at 1.
    rewrite (deepcopy_atom n m1 a _ Ha). cbn [fst snd].
    unfold bind at 1.
    rewrite (run_list_append _ _ _ a (lookup_last h (OList acc))).
    cbn [with_elems elems]. rewrite put_last. unfold ret at 1.
    rewrite (IH m1 (acc ++ [a]) Hrest). now rewrite <- app_assoc.
Qed.

(** The deep copy of a flat list is a new list with the same elements. *)
Lemma deepcopy_flat fuel m l h xs :
  h !! l = Some (OList xs) -> Forall atom xs -> memo_get l m = None ->
  deepcopy (S fuel) m (VRef l) h
  = (Ret (VRef (length h), (l, length h) :: m), h ++ [OList xs]).
Proof.
  intros Hl Hxs Hm. cbn [deepcopy]. rewrite Hm.
  rewrite (run_bind_Ret _ _ _ _ _ (run_get_obj _ _ _ Hl)).
  unfold bind at 1, alloc at 1.
  unfold bind at 1. rewrite (copy_flat_loop fuel h xs _ [] Hxs). reflexivity.
Qed.

#[local] Abbreviation init_body n so self :=
  (fun ie : nat * val =>
        let i := Z.of_nat (fst ie) in
        let entry := snd ie in
        if is_list entry then
          src <- iterate entry ;;
          sublist <- UnspacedList_init n src so ;;
          sub_xs <- get_elems sublist ;;
          sub_sp <- get_spaced sublist ;;
          sub_spaced <- get_elems sub_sp ;;
          (if negb (Nat.eqb (length sub_xs) 0) || Nat.eqb (length sub_spaced) 0
           then list_setitem self i (VRef sublist)
           else list_delitem self i) ;;
          sp2 <- get_spaced self ;;
          list_setitem sp2 i (VRef sub_sp)
        else if spacey entry then
          xs <- get_elems self ;;
          if negb (existsb (val_eqb (VStr "#")) (take (fst ie) xs))
          then list_delitem self i
          else ret tt
        else ret tt).

Lemma visible_from_app seen pre x :
  visible_from seen (pre ++ [x])
  = visible_from seen pre
    ++ (if spacey x && negb (seen || existsb (val_eqb (VStr "#")) pre)
        then [] else [x]).
Proof.
  revert seen. induction pre as [|a pre IH]; intros seen; cbn.
  - now rewrite orb_false_r, app_nil_r.
  - rewrite IH, <- app_assoc, orb_assoc. reflexivity.
Qed.

Lemma flat_loop n so self y pre : forall suf hc,
  Forall atom pre ->
  hc !! self = Some (OUnspaced (pre ++ suf) y) ->
  forM_ (rev (enumerate pre)) (init_body n so self) hc
  = (Ret tt, <[self := OUnspaced (visible pre ++ suf) y]> hc).
Proof.
  induction pre as [|x pre IH] using rev_ind; intros suf hc Hpre Hs.
  - cbn. f_equal. symmetry. now apply list_insert_id.
  - apply Forall_app in Hpre as [Hpre Hx].
    inversion Hx as [|? ? Hx' _]; subst. unfold atom in Hx'.
    rewrite enumerate_app, rev_app_distr. cbn [rev app].
    unfold forM_. cbn [foldM]. cbv beta zeta. cbn [fst snd]. rewrite Hx'.
    unfold visible. rewrite visible_from_app. cbn [orb].
    assert (Htake : take (length pre) ((pre ++ [x]) ++ suf) = pre).
    { rewrite <- app_assoc. now rewrite take_app_length. }
    destruct (spacey x) eqn:Ex; cbn [andb].
    + unfold bind at 1.
      rewrite (run_bind_Ret _ _ _ _ _ (run_get_elems _ _ _ Hs)). cbn [elems].
      rewrite Htake.
      destruct (negb (existsb (val_eqb (VStr "#")) pre)) eqn:Eh.
      * rewrite (run_list_delitem_at _ _ _ (length pre) Hs)
          by (cbn [elems]; rewrite !length_app; simpl; lia).
        cbn [with_elems elems].
        assert (Hdel : delete (length pre) ((pre ++ [x]) ++ suf) = pre ++ suf).
        { rewrite <- app_assoc. rewrite delete_take_drop.
          rewrite take_app_length.
          replace (S (length pre)) with (length pre + 1) by lia.
          rewrite drop_app_add'; [|reflexivity]. reflexivity. }
        rewrite Hdel.
        fold (forM_ (rev (enumerate pre)) (init_body n so self)).
        rewrite (IH suf _ Hpre).
        -- rewrite list_insert_insert_eq. now rewrite app_nil_r.
        -- apply list_lookup_insert_eq. now apply lookup_lt_Some in Hs.
      * unfold ret at 1.
        fold (forM_ (rev (enumerate pre)) (init_body n so self)).
        rewrite (IH (x :: suf) hc Hpre) by (now rewrite <- app_assoc in Hs).
        now rewrite <- app_assoc.
    + unfold bind at 1, ret at 1.
      fold (forM_ (rev (enumerate pre)) (init_body n so self)).
      rewrite (IH (x :: suf) hc Hpre) by (now rewrite <- app_assoc in Hs).
      now rewrite <- app_assoc.
Qed.

Lemma lookup_off (h l : heap) k : (h ++ l) !! (length h + k) = l !! k.
Proof. rewrite lookup_app_r by lia. f_equal. lia. Qed.

Lemma alloc_off (h l : heap) o :
  alloc o (h ++ l) = (Ret (length h + length l), h ++ (l ++ [o])).
Proof. unfold alloc. now rewrite length_app, app_assoc. Qed.

Lemma fold_spaced_out (rest first : list val) :
  fold_left (fun x y => x ++ [VStr " "; y]) rest first
  = first ++ flat_map (fun y => [VStr " "; y]) rest.
Proof.
  revert first. induction rest as [|y rest IH]; intros first; cbn.
  - now rewrite app_nil_r.
  - rewrite IH, <- app_assoc. reflexivity.
Qed.

Lemma is_str_atom v : is_str v = true -> atom v.
Proof. destruct v; simpl; intros; (reflexivity || discriminate). Qed.

Lemma init_flat fuel src h :
  2 <= fuel ->
  Forall atom src ->
  UnspacedList_init fuel src false h
  = (Ret (length h + 2),
     h ++ [OList src; OList src; OUnspaced (visible src) (length h + 1)]).
Proof.
  intros Hfuel Hsrc. destruct fuel as [|n]; [lia|]. cbn [UnspacedList_init].
  destruct n as [|fuel]; [lia|].
  unfold bind at 1, alloc at 1.
  unfold bind at 1.
  rewrite (deepcopy_flat fuel [] (length h) (h ++ [OList src]) src
             (lookup_last h _) Hsrc eq_refl).
  cbn [fst as_ref]. unfold bind at 1, ret at 1.
  rewrite <- app_assoc. cbn [app]. rewrite length_app. cbn [length].
  unfold bind at 1.
  rewrite (alloc_off h [OList src; OList src] (OUnspaced [] (length h + 1))).
  cbn [length app].
  unfold bind at 1, ret at 1.
  assert (Hs : (h ++ [OList src; OList src; OUnspaced [] (length h + 1)])
               !! (length h + 2) = Some (OUnspaced [] (length h + 1)))
    by (now rewrite lookup_off).
  rewrite (run_bind_Ret _ _ _ _ _ (run_set_elems _ _ _ src Hs)).
  cbn [with_elems]. rewrite insert_app_r. cbn [insert list_insert].
  set (hc := h ++ _).
  assert (Hc : hc !! (length h + 2)
               = Some (OUnspaced (src ++ []) (length h + 1)))
    by (unfold hc; now rewrite lookup_off, app_nil_r).
  rewrite (run_bind_Ret _ _ _ _ _
             (flat_loop (S fuel) false _ _ src [] hc Hsrc Hc)).
  unfold hc. rewrite insert_app_r, app_nil_r. reflexivity.
Qed.

#[local] Abbreviation spaceout_block so self :=
  (if so : bool then
     sp0 <- get_spaced self ;;
     spaced <- get_elems sp0 ;;
     if forallb is_str spaced then
       let first := take 1 spaced in
       let rest := drop 1 spaced in
       sp1 <- alloc (OList (fold_left (fun x y => x ++ [VStr " "; y])
                                      rest first)) ;;
       set_spaced self sp1 ;;
       list_insert sp1 0 (VStr nl)
     else ret tt
   else ret tt).

Lemma spaceout_flat (h : heap) src :
  Forall (fun v => is_str v = true) src ->
  spaceout_block true (length h + 2)
    (h ++ [OList src; OList src; OUnspaced [] (length h + 1)])
  = (Ret tt, h ++ [OList src; OList src; OUnspaced [] (length h + 3);
                   OList (spaced_out src)]).
Proof.
  intros Hstr. cbv iota.
  set (h3 := h ++ [OList src; OList src; OUnspaced [] (length h + 1)]).
  assert (Hs : h3 !! (length h + 2) = Some (OUnspaced [] (length h + 1)))
    by (unfold h3; now rewrite lookup_off).
  assert (Hy : h3 !! (length h + 1) = Some (OList src))
    by (unfold h3; now rewrite lookup_off).
  rewrite (run_bind_Ret _ _ _ _ _ (run_get_spaced _ _ _ _ Hs)).
  rewrite (run_bind_Ret _ _ _ _ _ (run_get_elems _ _ _ Hy)). cbn [elems].
  assert (Hall : forallb is_str src = true).
  { clear -Hstr. induction Hstr as [|v l Hv _ IH]; simpl; [reflexivity|].
    now rewrite Hv. }
  rewrite Hall. cbv zeta. rewrite fold_spaced_out.
  set (zs := take 1 src ++ flat_map (fun y => [VStr " "; y]) (drop 1 src)).
  assert (Ealloc : alloc (OList zs) h3
                   = (Ret (length h + 3),
                      h ++ [OList src; OList src; OUnspaced [] (length h + 1);
                            OList zs]))
    by (unfold h3; apply alloc_off).
  rewrite (run_bind_Ret _ _ _ _ _ Ealloc).
  set (h4 := h ++ _).
  assert (Hs4 : h4 !! (length h + 2) = Some (OUnspaced [] (length h + 1)))
    by (unfold h4; now rewrite lookup_off).
  assert (Eset : set_spaced (length h + 2) (length h + 3) h4
                 = (Ret tt, h ++ [OList src; OList src;
                                  OUnspaced [] (length h + 3); OList zs])).
  { unfold set_spaced.
    rewrite (run_bind_Ret _ _ _ _ _ (run_get_obj _ _ _ Hs4)).
    unfold put_obj. cbn [elems].
    unfold h4. now rewrite insert_app_r. }
  rewrite (run_bind_Ret _ _ _ _ _ Eset).
  set (h5 := h ++ _).
  assert (Hsp5 : h5 !! (length h + 3) = Some (OList zs))
    by (unfold h5; now rewrite lookup_off).
  rewrite (run_list_insert _ _ _ 0%Z (VStr nl) Hsp5).
  cbn [with_elems elems]. unfold inserted.
  change 0%Z with (Z.of_nat 0). rewrite insert_index_in_range by lia.
  unfold h5. rewrite insert_app_r. reflexivity.
Qed.

Lemma init_flat_spaced_out fuel src h :
  2 <= fuel ->
  Forall (fun v => is_str v = true) src ->
  UnspacedList_init fuel src true h
  = (Ret (length h + 2),
     h ++ [OList src; OList src; OUnspaced (visible src) (length h + 3);
           OList (spaced_out src)]).
Proof.
  intros Hfuel Hstr.
  assert (Hsrc : Forall atom src)
    by (eapply Forall_impl; [exact Hstr|]; apply is_str_atom).
  destruct fuel as [|n]; [lia|]. cbn [UnspacedList_init].
  destruct n as [|fuel]; [lia|].
  unfold bind at 1, alloc at 1.
  unfold bind at 1.
  rewrite (deepcopy_flat fuel [] (length h) (h ++ [OList src]) src
             (lookup_last h _) Hsrc eq_refl).
  cbn [fst as_ref]. unfold bind at 1, ret at 1.
  rewrite <- app_assoc. cbn [app]. rewrite length_app. cbn [length].
  unfold bind at 1.
  rewrite (alloc_off h [OList src; OList src] (OUnspaced [] (length h + 1))).
  cbn [length app].
  rewrite (run_bind_Ret _ _ _ _ _ (spaceout_flat h src Hstr)).
  set (h6 := h ++ _).
  assert (Hs6 : h6 !! (length h + 2) = Some (OUnspaced [] (length h + 3)))
    by (unfold h6; now rewrite lookup_off).
  rewrite (run_bind_Ret _ _ _ _ _ (run_set_elems _ _ _ src Hs6)).
  cbn [with_elems]. unfold h6. rewrite insert_app_r. cbn [insert list_insert].
  set (hc := h ++ _).
  assert (Hc : hc !! (length h + 2)
               = Some (OUnspaced (src ++ []) (length h + 3)))
    by (unfold hc; now rewrite lookup_off, app_nil_r).
  rewrite (run_bind_Ret _ _ _ _ _
             (flat_loop (S fuel) true _ _ src [] hc Hsrc Hc)).
  unfold hc. rewrite insert_app_r, app_nil_r. reflexivity.
Qed.

Lemma visible_from_seen xs : visible_from true xs = xs.
Proof.
  induction xs as [|x xs IH]; cbn; [reflexivity|].
  rewrite andb_false_r. cbn. now rewrite IH.
Qed.

Lemma visible_no_hash xs :
  existsb (val_eqb (VStr "#")) xs = false ->
  visible xs = List.filter nonspacey xs.
Proof.
  unfold visible. induction xs as [|x xs IH]; cbn; [reflexivity|].
  intros H. apply orb_false_elim in H as [Hx Hxs].
  rewrite Hx, andb_true_r. unfold nonspacey at 1.
  destruct (spacey x); cbn; now rewrite IH.
Qed.

Lemma visible_after_hash pre post :
  existsb (val_eqb (VStr "#")) pre = false ->
  visible (pre ++ VStr "#" :: post)
  = List.filter nonspacey pre ++ VStr "#" :: post.
Proof.
  unfold visible. induction pre as [|x pre IH]; cbn.
  - intros _. now rewrite visible_from_seen.
  - intros H. apply orb_false_elim in H as [Hx Hxs].
    rewrite Hx, andb_true_r. unfold nonspacey at 1.
    destruct (spacey x); cbn; now rewrite IH.
Qed.

Lemma visible_nonspacey xs :
  Forall (fun v => spacey v = false) xs -> visible xs = xs.
Proof.
  intros H. unfold visible. generalize false.
  induction H as [|x xs Hx _ IH]; intros seen; cbn; [reflexivity|].
  now rewrite Hx, IH.
Qed.

Lemma count_nonspacey_filter xs :
  count_nonspacey xs = Z.of_nat (length (List.filter nonspacey xs)).
Proof.
  induction xs as [|x xs IH]; cbn; [reflexivity|]. unfold nonspacey at 1.
  destruct (spacey x); cbn [negb length]; lia.
Qed.

Lemma run_UnspacedList fuel l src so h :
  h !! l = Some (OList src) ->
  UnspacedList fuel (VRef l) so h = UnspacedList_init fuel src so h.
Proof.
  intros Hl. unfold UnspacedList. cbn [iterate].
  now rewrite (run_bind_Ret _ _ _ _ _ (run_get_elems _ _ _ Hl)).
Qed.

Lemma lookup_old (h l : heap) k o : h !! k = Some o -> (h ++ l) !! k = Some o.
Proof. intros H. rewrite lookup_app_l; [assumption|]. now apply lookup_lt_Some in H. Qed.

(** X8.  [UnspacedList(src)] for a list of strings and [None] with no [#] among
    them: the logical list is [src] without its whitespace entries, in
    order, the spaced list is a new list equal to [src], and no object
    that existed before has changed. *)
Theorem construct_drops_whitespace
    (fuel : nat) (h : heap) (l : nat) (src : list val) :
  h !! l = Some (OList src) ->
  Forall atom src ->
  existsb (val_eqb (VStr "#")) src = false ->
  2 <= fuel ->
  exists self sp h',
    UnspacedList fuel (VRef l) false h = (Ret self, h')
    /\ h' !! self = Some (OUnspaced (List.filter nonspacey src) sp)
    /\ h' !! sp = Some (OList src)
    /\ length h <= self /\ length h <= sp
    /\ (forall k o, h !! k = Some o -> h' !! k = Some o).
Proof.
  intros Hl Hsrc Hhash Hfuel.
  exists (length h + 2), (length h + 1),
    (h ++ [OList src; OList src; OUnspaced (visible src) (length h + 1)]).
  split; [|split; [|split; [|split; [|split]]]].
  - rewrite (run_UnspacedList _ _ _ _ _ Hl). now apply init_flat.
  - rewrite lookup_off. cbn. now rewrite visible_no_hash.
  - now rewrite lookup_off.
  - lia.
  - lia.
  - intros k o. apply lookup_old.
Qed.

(** X9.  [UnspacedList(src)] keeps whitespace entries that follow a [#]: of
    [pre + ['#'] + post] the logical list is [pre] without its whitespace
    entries, then [#] and all of [post]. *)
Theorem construct_keeps_comment_text
    (fuel : nat) (h : heap) (l : nat) (pre post : list val) :
  h !! l = Some (OList (pre ++ VStr "#" :: post)) ->
  Forall atom pre -> Forall atom post ->
  existsb (val_eqb (VStr "#")) pre = false ->
  2 <= fuel ->
  exists self sp h',
    UnspacedList fuel (VRef l) false h = (Ret self, h')
    /\ h' !! self
       = Some (OUnspaced (List.filter nonspacey pre ++ VStr "#" :: post) sp)
    /\ h' !! sp = Some (OList (pre ++ VStr "#" :: post)).
Proof.
  intros Hl Hpre Hpost Hhash Hfuel.
  set (src := pre ++ VStr "#" :: post) in *.
  assert (Hsrc : Forall atom src).
  { apply Forall_app. split; [assumption|]. constructor; [reflexivity|assumption]. }
  exists (length h + 2), (length h + 1),
    (h ++ [OList src; OList src; OUnspaced (visible src) (length h + 1)]).
  split; [|split].
  - rewrite (run_UnspacedList _ _ _ _ _ Hl). now apply init_flat.
  - rewrite lookup_off. cbn. unfold src. now rewrite visible_after_hash.
  - now rewrite lookup_off.
Qed.

(** X10.  [UnspacedList(src, spaceout=True)] for a list of strings none of which
    is whitespace: the logical list is [src], and the spaced list is a
    newline, the first string, and each further string with one space in
    front of it. *)
Theorem construct_spaces_out_new_directive
    (fuel : nat) (h : heap) (l : nat) (src : list val) :
  h !! l = Some (OList src) ->
  Forall (fun v => is_str v = true) src ->
  Forall (fun v => spacey v = false) src ->
  2 <= fuel ->
  exists self sp h',
    UnspacedList fuel (VRef l) true h = (Ret self, h')
    /\ h' !! self = Some (OUnspaced src sp)
    /\ h' !! sp
       = Some (OList (VStr nl :: take 1 src
                      ++ flat_map (fun y => [VStr " "; y]) (drop 1 src)))
    /\ h' !! l = Some (OList src).
Proof.
  intros Hl Hstr Hns Hfuel.
  exists (length h + 2), (length h + 3),
    (h ++ [OList src; OList src; OUnspaced (visible src) (length h + 3);
           OList (spaced_out src)]).
  split; [|split; [|split]].
  - rewrite (run_UnspacedList _ _ _ _ _ Hl). now apply init_flat_spaced_out.
  - rewrite lookup_off. cbn. now rewrite visible_nonspacey.
  - now rewrite lookup_off.
  - now apply lookup_old.
Qed.

Lemma run_extend fuel h self sp xs spaced x so c h1 ys zs :
  h !! self = Some (OUnspaced xs sp) ->
  h !! sp = Some (OList spaced) ->
  _coerce fuel x so h = (Ret c, h1) ->
  iterate (fst c) h1 = (Ret ys, h1) ->
  iterate (snd c) h1 = (Ret zs, h1) ->
  (forall u, fst c = VRef u -> u <> sp) ->
  extend fuel self x so h
  = (Ret tt, <[self := OUnspaced (xs ++ ys) sp]>
               (<[sp := OList (spaced ++ zs)]> h1)).
Proof.
  intros Hself Hsp Hc Hys Hzs Hu. unfold extend.
  rewrite (run_bind_Ret _ _ _ _ _ Hc).
  pose proof (coerce_preserves _ _ _ _ _ _ Hc _ _ Hself) as Hself1.
  pose proof (coerce_preserves _ _ _ _ _ _ Hc _ _ Hsp) as Hsp1.
  rewrite (run_bind_Ret _ _ _ _ _ (run_get_spaced _ _ _ _ Hself1)).
  rewrite (run_bind_Ret _ _ _ _ _ (run_list_extend _ _ _ _ _ Hsp1 Hzs)).
  cbn [with_elems elems].
  assert (Hne : self <> sp) by (intros ->; congruence).
  apply (run_list_extend _ self (OUnspaced xs sp)).
  - now rewrite list_lookup_insert_ne.
  - now apply iterate_insert_other.
Qed.

Lemma coerce_flat fuel l src h :
  h !! l = Some (OList src) -> Forall atom src -> 2 <= fuel ->
  _coerce fuel (VRef l) false h
  = (Ret (VRef (length h + 2), VRef (length h + 1)),
     h ++ [OList src; OList src; OUnspaced (visible src) (length h + 1)]).
Proof.
  intros Hl Hsrc Hfuel. unfold _coerce.
  rewrite (run_bind_Ret _ _ _ _ _ (run_get_obj _ _ _ Hl)).
  rewrite (run_bind_Ret _ _ _ _ _ (init_flat fuel src h Hfuel Hsrc)).
  erewrite run_bind_Ret; [reflexivity|].
  eapply run_get_spaced. now rewrite lookup_off.
Qed.

Lemma extend_flat fuel h self sp xs spaced l src :
  h !! self = Some (OUnspaced xs sp) ->
  h !! sp = Some (OList spaced) ->
  h !! l = Some (OList src) ->
  Forall atom src ->
  2 <= fuel ->
  exists h',
    extend fuel self (VRef l) false h = (Ret tt, h')
    /\ h' !! self = Some (OUnspaced (xs ++ visible src) sp)
    /\ h' !! sp = Some (OList (spaced ++ src))
    /\ (forall k o, h !! k = Some o -> k <> self -> k <> sp -> h' !! k = Some o).
Proof.
  intros Hself Hsp Hl Hsrc Hfuel.
  set (h1 := h ++ [OList src; OList src; OUnspaced (visible src) (length h + 1)]).
  pose proof (coerce_flat fuel l src h Hl Hsrc Hfuel) as Hc. fold h1 in Hc.
  assert (Hne : self <> sp) by (intros ->; congruence).
  pose proof (lookup_lt_Some _ _ _ Hself) as Lself.
  pose proof (lookup_lt_Some _ _ _ Hsp) as Lsp.
  eexists. split; [|split; [|split]].
  - apply (run_extend fuel h self sp xs spaced (VRef l) false _ h1
             (visible src) src Hself Hsp Hc).
    + apply (run_get_elems h1 _ (OUnspaced (visible src) (length h + 1))).
      unfold h1. now rewrite lookup_off.
    + apply (run_get_elems h1 _ (OList src)).
      unfold h1. now rewrite lookup_off.
    + cbn. intros u [= <-]. lia.
  - apply list_lookup_insert_eq.
    rewrite length_insert. unfold h1. rewrite length_app. lia.
  - rewrite list_lookup_insert_ne by assumption.
    apply list_lookup_insert_eq. unfold h1. rewrite length_app. lia.
  - intros k o Hk Hk1 Hk2. rewrite !list_lookup_insert_ne by congruence.
    unfold h1. now apply lookup_old.
Qed.

(** X11.  [l.extend(src)] for a plain list of strings and [None] with no [#]:
    the spaced list is extended by all of [src], the logical list by
    [src] without its whitespace entries. *)
Theorem extend_by_flat_list
    (fuel : nat) (h : heap) (self sp : nat) (xs spaced : list val)
    (l : nat) (src : list val) :
  h !! self = Some (OUnspaced xs sp) ->
  h !! sp = Some (OList spaced) ->
  h !! l = Some (OList src) ->
  Forall atom src ->
  existsb (val_eqb (VStr "#")) src = false ->
  2 <= fuel ->
  exists h',
    extend fuel self (VRef l) false h = (Ret tt, h')
    /\ h' !! self = Some (OUnspaced (xs ++ List.filter nonspacey src) sp)
    /\ h' !! sp = Some (OList (spaced ++ src)).
Proof.
  intros Hself Hsp Hl Hsrc Hhash Hfuel.
  destruct (extend_flat fuel h self sp xs spaced l src Hself Hsp Hl Hsrc Hfuel)
    as (h' & E & Hs' & Hsp' & _).
  exists h'. rewrite <- (visible_no_hash _ Hhash). auto.
Qed.

Lemma clone_flat fuel h self sp xs spaced :
  h !! self = Some (OUnspaced xs sp) ->
  h !! sp = Some (OList spaced) ->
  Forall atom xs -> Forall atom spaced ->
  4 <= fuel ->
  deepcopy fuel [] (VRef self) h
  = (Ret (VRef (length h + 2), [(self, length h + 2)]),
     h ++ [OList xs; OList xs; OUnspaced (visible xs) (length h + 3);
           OList spaced]).
Proof.
  intros Hself Hsp Hxs Hspaced Hfuel.
  destruct fuel as [|k]; [lia|]. cbn [deepcopy memo_get].
  rewrite (run_bind_Ret _ _ _ _ _ (run_get_obj _ _ _ Hself)).
  destruct k as [|n]; [lia|]. cbn [UnspacedList_deepcopy].
  unfold bind at 1. unfold bind at 1.
  rewrite (run_get_elems _ _ _ Hself). cbn [elems].
  unfold bind at 1.
  rewrite (init_flat n xs h ltac:(lia) Hxs).
  set (h1 := h ++ _).
  assert (Hself1 : h1 !! self = Some (OUnspaced xs sp))
    by (now apply lookup_old).
  assert (Hsp1 : h1 !! sp = Some (OList spaced)) by (now apply lookup_old).
  unfold bind at 1. rewrite (run_get_spaced _ _ _ _ Hself1).
  destruct n as [|n]; [lia|].
  unfold bind at 1.
  rewrite (deepcopy_flat n [] sp h1 spaced Hsp1 Hspaced eq_refl).
  cbn [fst as_ref]. unfold bind at 1, ret at 1.
  assert (L1 : length h1 = length h + 3)
    by (unfold h1; rewrite length_app; simpl; lia).
  rewrite L1. unfold h1. rewrite <- app_assoc. cbn [app].
  set (h2 := h ++ _).
  assert (Hl2 : h2 !! (length h + 2)
                = Some (OUnspaced (visible xs) (length h + 1)))
    by (unfold h2; now rewrite lookup_off).
  unfold bind at 1. unfold set_spaced.
  rewrite (run_bind_Ret _ _ _ _ _ (run_get_obj _ _ _ Hl2)).
  unfold put_obj, ret. cbn [elems].
  unfold h2. now rewrite insert_app_r.
Qed.

(** X12.  [copy.deepcopy] of a node whose lists hold no sublists and whose
    logical list holds no whitespace: the clone is a new node with an equal
    logical list and a new, equal spaced list, and the original is
    untouched. *)
Theorem clone_of_directive_node
    (fuel : nat) (h : heap) (self sp : nat) (xs spaced : list val) :
  h !! self = Some (OUnspaced xs sp) ->
  h !! sp = Some (OList spaced) ->
  Forall atom xs -> Forall atom spaced ->
  Forall (fun v => spacey v = false) xs ->
  4 <= fuel ->
  exists c csp m h',
    deepcopy fuel [] (VRef self) h = (Ret (VRef c, m), h')
    /\ h' !! c = Some (OUnspaced xs csp)
    /\ h' !! csp = Some (OList spaced)
    /\ length h <= c /\ length h <= csp
    /\ (forall k o, h !! k = Some o -> h' !! k = Some o).
Proof.
  intros Hself Hsp Hxs Hspaced Hns Hfuel.
  eexists _, (length h + 3), _, _. split; [|split; [|split; [|split; [|split]]]].
  - now apply (clone_flat fuel h self sp xs spaced).
  - rewrite lookup_off. cbn. now rewrite visible_nonspacey.
  - now rewrite lookup_off.
  - lia.
  - lia.
  - intros k o. apply lookup_old.
Qed.

(** X13.  [a + src] for such a node [a] and a plain list [src] of strings and
    [None] with no [#]: the result is a new node whose logical list is
    that of [a] followed by [src] without its whitespace entries and whose
    spaced list is that of [a] followed by [src]; [a], its spaced list and
    [src] are unchanged. *)
Theorem concatenation_of_directive_nodes
    (fuel : nat) (h : heap) (a sp : nat) (xs spaced : list val)
    (l : nat) (src : list val) :
  h !! a = Some (OUnspaced xs sp) ->
  h !! sp = Some (OList spaced) ->
  h !! l = Some (OList src) ->
  Forall atom xs -> Forall atom spaced -> Forall atom src ->
  Forall (fun v => spacey v = false) xs ->
  existsb (val_eqb (VStr "#")) src = false ->
  4 <= fuel ->
  exists c csp h',
    __add__ fuel a (VRef l) h = (Ret c, h')
    /\ h' !! c = Some (OUnspaced (xs ++ List.filter nonspacey src) csp)
    /\ h' !! csp = Some (OList (spaced ++ src))
    /\ length h <= c /\ length h <= csp
    /\ h' !! a = Some (OUnspaced xs sp)
    /\ h' !! sp = Some (OList spaced)
    /\ h' !! l = Some (OList src).
Proof.
  intros Ha Hsp Hl Hxs Hspaced Hsrc Hns Hhash Hfuel.
  pose proof (clone_flat fuel h a sp xs spaced Ha Hsp Hxs Hspaced Hfuel) as Ec.
  set (h1 := h ++ _) in Ec.
  assert (Hc1 : h1 !! (length h + 2) = Some (OUnspaced xs (length h + 3))).
  { unfold h1. rewrite lookup_off. cbn. now rewrite visible_nonspacey. }
  assert (Hcsp1 : h1 !! (length h + 3) = Some (OList spaced))
    by (unfold h1; now rewrite lookup_off).
  assert (Hl1 : h1 !! l = Some (OList src)) by (now apply lookup_old).
  destruct (extend_flat fuel h1 _ _ xs spaced l src Hc1 Hcsp1 Hl1 Hsrc
              ltac:(lia)) as (h' & E & Hc' & Hcsp' & Hother).
  pose proof (lookup_lt_Some _ _ _ Ha) as La.
  pose proof (lookup_lt_Some _ _ _ Hsp) as Lsp.
  pose proof (lookup_lt_Some _ _ _ Hl) as Ll.
  exists (length h + 2), (length h + 3), h'.
  split; [|split; [|split; [|split; [|split; [|split; [|split]]]]]].
  - unfold __add__. rewrite (run_bind_Ret _ _ _ _ _ Ec). cbn [fst as_ref].
    unfold bind at 1, ret at 1.
    now rewrite (run_bind_Ret _ _ _ _ _ E).
  - now rewrite <- (visible_no_hash _ Hhash).
  - assumption.
  - lia.
  - lia.
  - apply Hother; [now apply lookup_old|lia|lia].
  - apply Hother; [now apply lookup_old|lia|lia].
  - apply Hother; [assumption|lia|lia].
Qed.

Lemma ok_list_getitem n l i : ok n (list_getitem l i) (fun _ => True).
Proof.
  unfold list_getitem. ok_step ok_get_elems. intros xs _.
  destruct (item_index _ _) as [j|]; [|apply ok_raise].
  destruct (xs !! j); [now apply ok_ret|apply ok_raise].
Qed.

Lemma ok_first_item n b : ok n (first_item b) (fun _ => True).
Proof. destruct b; simpl; try apply ok_raise. apply ok_list_getitem. Qed.

Lemma ok_list_pop0 n l : n <= l -> ok n (list_pop0 l) (fun _ => True).
Proof.
  intros Hl. unfold list_pop0. ok_step ok_get_elems. intros xs _.
  destruct xs as [|x xs]; [apply ok_raise|].
  ok_step ok_set_elems. intros _ _. now apply ok_ret.
Qed.

Lemma ok_expect_str n v : ok n (expect_str v) (fun _ => True).
Proof. destruct v; simpl; try apply ok_raise. now apply ok_ret. Qed.

Lemma ok_truthy n v : ok n (truthy v) (fun _ => True).
Proof.
  destruct v; simpl; try (now apply ok_ret).
  ok_step ok_get_elems. intros xs _. now apply ok_ret.
Qed.

Lemma ok_ext {A} n (m m' : M A) (P : A -> Prop) :
  (forall h, m h = m' h) -> ok n m' P -> ok n m P.
Proof. intros E Hm h r h' I Em. rewrite E in Em. now apply Hm. Qed.

Lemma ok_dumper fuel : forall n blocks,
  ok n (RawNginxDumper_iter fuel blocks) (fun _ => True).
Proof.
  induction fuel as [|k IH]; intros n blocks; [apply ok_abort|].
  cbn [RawNginxDumper_iter].
  apply (ok_foldM n _ (fun _ => True)); [|exact I].
  intros out b0 _.
  destruct b0 as [s| |z|l]; [now apply ok_ret| | |].
  1,2: eapply ok_ext;
       [intros h; apply run_bind_Ret; now apply deepcopy_atom|];
       cbn [fst first_item];
       apply ok_bind with (P := fun _ => False); [apply ok_raise|intros ? []].
  ok_step ok_deepcopy. intros r Hr.
  destruct (Hr l eq_refl eq_refl) as (y & Hy & Hle).
  destruct r as [b m]. cbn [fst] in *. subst b.
  ok_step ok_first_item. intros b_0 _.
  ok_step ok_as_ref. intros bl [= <-].
  apply ok_bind with (P := fun _ => True).
  { destruct (spacey b_0); [|now apply ok_ret].
    ok_step ok_list_pop0. intros v _.
    ok_step ok_expect_str. intros s _.
    ok_step ok_get_elems. intros rest _. now apply ok_ret. }
  intros ind _. destruct (snd ind); [now apply ok_ret|].
  ok_step ok_list_pop0. intros key _.
  ok_step ok_list_pop0. intros values _.
  destruct (is_list key).
  - ok_step ok_as_ref. intros kl _.
    ok_step ok_get_elems. intros ks _.
    apply ok_bind with (P := fun _ => True).
    { apply (ok_foldM n _ (fun _ => True)); [|exact I]. intros acc k0 _.
      ok_step ok_expect_str. intros s _. now apply ok_ret. }
    intros strs _. ok_step ok_iterate. intros params _.
    apply ok_bind with (P := fun _ => True).
    { apply (ok_foldM n _ (fun _ => True)); [|exact I]. intros acc p _.
      ok_step IH. intros dumped _. now apply ok_ret. }
    intros inner _. now apply ok_ret.
  - destruct (is_comment_key key).
    + ok_step ok_expect_str. intros k0 _.
      ok_step ok_expect_str. intros v _. now apply ok_ret.
    + ok_step ok_truthy. intros t _.
      apply ok_bind with (P := fun _ => True).
      { destruct (t && spacey values); [|now apply ok_ret].
        ok_step ok_expect_str. intros g _.
        ok_step ok_list_pop0. intros v _. now apply ok_ret. }
      intros gv _. ok_step ok_expect_str. intros k0 _.
      ok_step ok_expect_str. intros v _. now apply ok_ret.
Qed.

(** X14.  [dumps] works on deep copies: whatever tree it is given and whether it
    returns or raises, every object that existed before the call is
    unchanged after it. *)
Theorem dumps_is_read_only
    (fuel : nat) (tree : nat) (h : heap) (r : outcome string) (h' : heap) :
  dumps fuel tree h = (r, h') ->
  length h <= length h'
  /\ forall l o, h !! l = Some o -> h' !! l = Some o.
Proof.
  intros E.
  assert (Hok : forall n, ok n (dumps fuel tree) (fun _ => True)).
  { intros n. unfold dumps, RawNginxDumper_str.
    ok_step ok_get_spaced_any. intros sp _.
    ok_step ok_get_elems. intros bs _.
    ok_step ok_dumper. intros lines _. now apply ok_ret. }
  split.
  - destruct (Hok (length h) _ _ _ (inv_start h) E) as (_ & [L _] & _). exact L.
  - eapply ok_preserves; eassumption.
Qed.

End ViewFacts.

(** * The spaced tree and the dumper

    The spaced tree of [UnspacedList(src)] is a copy of [src], token for
    token, and the dumper writes the text of its tokens. *)

Module TokenFacts.
Import Chars Pyparsing Py Store Nginxparser FrameSpec ConstructSpec Frame
  TreeSpec TreeFacts TokenSpec.
Local Open Scope py_scope.

Lemma size_child t ts : In t ts -> size t < size (TList ts).
Proof.
  intros H. change (size (TList ts)) with (S (list_sum (map size ts))).
  induction ts as [|a ts IH]; [destruct H|].
  change (list_sum (map size (a :: ts)))
    with (size a + list_sum (map size ts)).
  destruct H as [->|H]; [lia|]. specialize (IH H). lia.
Qed.

Lemma Forall2_impl_In {A B} (P Q : A -> B -> Prop) xs ys :
  Forall2 P xs ys -> (forall x y, In x xs -> P x y -> Q x y) -> Forall2 Q xs ys.
Proof.
  induction 1 as [|x y xs ys Hxy _ IH]; intros HPQ; constructor.
  - apply HPQ; [now left|assumption].
  - apply IH. intros a b Ha. apply HPQ. now right.
Qed.

(** Induction on the size of a token tree. *)
Lemma size_ind (P : tok -> Prop) :
  (forall t, (forall t', size t' < size t -> P t') -> P t) -> forall t, P t.
Proof.
  intros H t. remember (size t) as n eqn:E. revert t E.
  induction n as [n IH] using lt_wf_ind. intros t ->.
  apply H. intros t' Hlt. now apply (IH (size t')).
Qed.

Lemma repr_in_heap ys h h' t v :
  (forall a o, h !! a = Some o -> h' !! a = Some o) ->
  repr_in ys h t v -> repr_in ys h' t v.
Proof.
  intros Hext. revert v. induction t as [t IH] using size_ind. intros v Hr.
  inversion Hr as [s|  |ts l vs Hl Hlk Hall]; subst; try constructor.
  apply (repr_list _ _ _ _ vs); auto.
  eapply Forall2_impl_In; [exact Hall|].
  intros t v Ht. apply IH. now apply size_child.
Qed.

Lemma keeps_extends h h' :
  keeps (length h) h h' -> forall a o, h !! a = Some o -> h' !! a = Some o.
Proof.
  intros [_ K] a o Ha. rewrite K; [assumption|]. now apply lookup_lt_Some in Ha.
Qed.

Lemma repr_in_keeps ys h h' t v :
  keeps (length h) h h' -> repr_in ys h t v -> repr_in ys h' t v.
Proof. intros K. apply repr_in_heap. now apply keeps_extends. Qed.

Lemma repr_in_put ys h y o t v :
  In y ys -> repr_in ys h t v -> repr_in ys (<[y := o]> h) t v.
Proof.
  intros Hy. revert v. induction t as [t IH] using size_ind. intros v Hr.
  inversion Hr as [s|  |ts l vs Hl Hlk Hall]; subst; try constructor.
  apply (repr_list _ _ _ _ vs); auto.
  - rewrite list_lookup_insert_ne; [assumption|]. intros <-. contradiction.
  - eapply Forall2_impl_In; [exact Hall|].
    intros t v Ht. apply IH. now apply size_child.
Qed.

Lemma repr_in_avoid ys ys' h t v :
  (forall a, In a ys' -> In a ys \/ length h <= a) ->
  repr_in ys h t v -> repr_in ys' h t v.
Proof.
  intros Hsub. revert v. induction t as [t IH] using size_ind. intros v Hr.
  inversion Hr as [s|  |ts l vs Hl Hlk Hall]; subst; try constructor.
  apply (repr_list _ _ _ _ vs); auto.
  - intros Hin. destruct (Hsub _ Hin) as [H|H]; [contradiction|].
    apply lookup_lt_Some in Hlk. lia.
  - eapply Forall2_impl_In; [exact Hall|].
    intros t v Ht. apply IH. now apply size_child.
Qed.

Lemma repr_fun ys ys' h t : forall t' v,
  repr_in ys h t v -> repr_in ys' h t' v -> t = t'.
Proof.
  induction t as [t IH] using size_ind. intros t' v Hr Hr'.
  inversion Hr as [s|  |ts l vs Hl Hlk Hall]; subst;
    inversion Hr' as [s'|  |ts' l' vs' Hl' Hlk' Hall']; subst; try reflexivity.
  rewrite Hlk in Hlk'. injection Hlk' as <-. f_equal.
  assert (IH' : forall t, In t ts -> forall t' v,
            repr_in ys h t v -> repr_in ys' h t' v -> t = t').
  { intros t Ht. apply IH. now apply size_child. }
  clear -Hall Hall' IH'. revert ts' Hall'.
  induction Hall as [|t v ts vs Htv _ IHall]; intros ts' Hall';
    inversion Hall' as [|t' ? ts'' ? Htv' Hrest]; subst; [reflexivity|].
  f_equal.
  - eapply IH'; [now left|eassumption..].
  - apply IHall; [|assumption]. intros a Ha. apply IH'. now right.
Qed.

Lemma repr_avoid_bigger h T y t : forall v,
  repr h T (VRef y) -> repr h t v -> size t < size T -> repr_in [y] h t v.
Proof.
  induction t as [t IH] using size_ind. intros v HT Hr Hlt.
  inversion Hr as [s|  |ts l vs Hl Hlk Hall]; subst; try constructor.
  apply (repr_list _ _ _ _ vs); auto.
  - intros [->|[]]. pose proof (repr_fun _ _ _ _ _ _ HT Hr) as ->. lia.
  - eapply Forall2_impl_In; [exact Hall|].
    intros t v Ht Htv. pose proof (size_child _ _ Ht).
    apply IH; [assumption..|lia].
Qed.

Section DeepCopy.
Variable h0 : heap.

Lemma complete_keeps ys hc hc' l c :
  keeps (length hc) hc hc' -> complete h0 ys hc l c -> complete h0 ys hc' l c.
Proof. intros K H t Ht. eapply repr_in_keeps; eauto. Qed.

Lemma complete_put ys hc y o l c :
  In y ys -> complete h0 ys hc l c -> complete h0 ys (<[y := o]> hc) l c.
Proof. intros Hy H t Ht. apply repr_in_put; auto. Qed.

Lemma complete_avoid ys ys' hc l c :
  (forall a, In a ys' -> In a ys \/ length hc <= a) ->
  complete h0 ys hc l c -> complete h0 ys' hc l c.
Proof. intros Hs H t Ht. eapply repr_in_avoid; eauto. Qed.

Lemma Forall2_snoc {A B} (P : A -> B -> Prop) xs ys x y :
  Forall2 P xs ys -> P x y -> Forall2 P (xs ++ [x]) (ys ++ [y]).
Proof. intros H Hxy. apply Forall2_app; [assumption|]. now constructor. Qed.

Section Loop.
Variables (n K : nat) (ys : list nat) (m : memo) (hc : heap) (l : nat) (t : tok).
Variable y : nat.
Hypothesis Hy_def : y = length hc.
Hypothesis Ht : repr h0 t (VRef l).
Hypothesis HK : size t <= K.
Hypothesis Hfuel : size t <= S n.
Hypothesis Hkeep0 : keeps (length h0) h0 hc.
Hypothesis Hmemo : memo_ok h0 K ys m hc.
Hypothesis Hys : forall a, In a ys -> a < length hc.
Hypothesis IH : forall t', size t' < size t ->
  forall v m1 hc1 fuel K1 ys1,
    repr h0 t' v -> size t' <= K1 -> size t' <= fuel ->
    keeps (length h0) h0 hc1 -> memo_ok h0 K1 ys1 m1 hc1 ->
    (forall a, In a ys1 -> a < length hc1) ->
    exists r hc', deepcopy fuel m1 v hc1 = (Ret r, hc')
                  /\ copy_post h0 ys1 m1 hc1 t' v r hc'.

Lemma growing_memo_ok mi hi :
  keeps (length hc) hc hi -> growing h0 ys m l y mi hi ->
  memo_ok h0 (size t - 1) (y :: ys) mi hi.
Proof.
  intros Ki G l' c Hg. destruct (G l' c Hg) as [[-> ->]|[Hm|Hc]].
  - left. intros t' Ht'. rewrite <- (repr_fun _ _ _ _ _ _ Ht Ht').
    inversion Ht; subst; cbn; lia.
  - destruct (Hmemo l' c Hm) as [Hbig|Hc].
    + left. intros t' Ht'. specialize (Hbig t' Ht'). lia.
    + right. eapply complete_keeps; [exact Ki|].
      eapply complete_avoid; [|exact Hc].
      intros a [<-|Ha]; [right; lia|now left].
  - now right.
Qed.

Lemma copy_children ts2 vs2 :
  Forall2 (repr h0) ts2 vs2 ->
  (forall t', In t' ts2 -> size t' < size t) ->
  forall mi hi acc ts1,
    hi !! y = Some (OList acc) ->
    Forall2 (repr_in (y :: ys) hi) ts1 acc ->
    keeps (length hc) hc hi ->
    growing h0 ys m l y mi hi ->
    exists mf hf accf,
      foldM (fun m1 a => r <- deepcopy n m1 a ;; list_append y (fst r) ;;
                         ret (snd r)) mi vs2 hi = (Ret mf, hf)
      /\ hf !! y = Some (OList accf)
      /\ Forall2 (repr_in (y :: ys) hf) (ts1 ++ ts2) accf
      /\ keeps (length hc) hc hf
      /\ growing h0 ys m l y mf hf.
Proof.
  induction 1 as [|ta a ts2 vs2 Hta _ IHl]; intros Hsz mi hi acc ts1 Hy Hacc Ki G.
  - exists mi, hi, acc. rewrite app_nil_r.
    split; [reflexivity|]. split; [assumption|]. split; [assumption|].
    split; assumption.
  - assert (Hlen : length hc <= length hi) by apply Ki.
    assert (Hk0 : keeps (length h0) h0 hi).
    { eapply keeps_trans; [exact Hkeep0|].
      eapply keeps_le; [|exact Ki]. apply Hkeep0. }
    assert (Hsza : size ta < size t) by (apply Hsz; now left).
    destruct (IH ta Hsza a mi hi n (size t - 1) (y :: ys) Hta
                ltac:(lia) ltac:(lia) Hk0 (growing_memo_ok mi hi Ki G))
      as ([c m'] & hi' & Edc & Hc & Ki' & Hgrow & _).
    { intros b [<-|Hb]; [apply lookup_lt_Some in Hy; exact Hy|].
      specialize (Hys b Hb). lia. }
    cbn [fst snd] in *.
    assert (Hy' : hi' !! y = Some (OList acc)).
    { eapply keeps_extends; eassumption. }
    pose proof (run_list_append _ _ _ c Hy') as Happ. cbn [with_elems elems] in Happ.
    set (hi'' := <[y := OList (acc ++ [c])]> hi') in *.
    assert (Hin : In y (y :: ys)) by now left.
    destruct (IHl ltac:(intros t' Ht'; apply Hsz; now right)
                m' hi'' (acc ++ [c]) (ts1 ++ [ta]))
      as (mf & hf & accf & E & Hyf & Hallf & Kf & Gf).
    + apply list_lookup_insert_eq. now apply lookup_lt_Some in Hy'.
    + apply Forall2_snoc.
      * eapply Forall2_impl; [exact Hacc|]. intros t1 v1 H1.
        apply repr_in_put; [assumption|]. eapply repr_in_keeps; eassumption.
      * now apply repr_in_put.
    + eapply keeps_trans; [exact Ki|].
      eapply keeps_trans; [eapply keeps_le; [|exact Ki']; lia|].
      apply keeps_put. destruct Ki, Ki'. lia.
    + intros l' c' Hg. destruct (Hgrow l' c' Hg) as [Hold|Hcomp].
      * destruct (G l' c' Hold) as [H|[H|H]]; [now left|now right; left|].
        right; right. apply complete_put; [assumption|].
        eapply complete_keeps; eassumption.
      * right; right. now apply complete_put.
    + exists mf, hf, accf. rewrite <- app_assoc in Hallf.
      split; [|auto].
      cbn [foldM]. unfold bind at 1. unfold bind at 1. rewrite Edc.
      cbn [fst snd]. unfold bind at 1. rewrite Happ. unfold ret at 1. exact E.
Qed.

End Loop.
End DeepCopy.

Lemma deepcopy_repr h0 t : forall v m hc fuel K ys,
  repr h0 t v -> size t <= K -> size t <= fuel ->
  keeps (length h0) h0 hc -> memo_ok h0 K ys m hc ->
  (forall a, In a ys -> a < length hc) ->
  exists r hc', deepcopy fuel m v hc = (Ret r, hc')
                /\ copy_post h0 ys m hc t v r hc'.
Proof.
  induction t as [t IH] using size_ind.
  intros v m hc fuel K ys Hr HK Hfuel Hk0 Hmemo Hys.
  inversion Hr as [s|  |ts l vs _ Hlk Hall]; subst.
  - exists (VStr s, m), hc. split; [now apply deepcopy_atom|].
    split; [constructor|]. split; [apply keeps_refl|]. split; [auto|discriminate].
  - exists (VNone, m), hc. split; [now apply deepcopy_atom|].
    split; [constructor|]. split; [apply keeps_refl|]. split; [auto|discriminate].
  - destruct (memo_get l m) as [c|] eqn:Em.
    { exists (VRef c, m), hc. split; [destruct fuel; cbn; now rewrite Em|].
      split; [|split; [apply keeps_refl|split; [auto|]]].
      - destruct (Hmemo l c Em) as [Hbig|Hc]; [|now apply Hc].
        specialize (Hbig _ Hr). lia.
      - intros l' [= <-]. congruence. }
    destruct fuel as [|n]; [cbn in Hfuel; lia|].
    assert (Hlk' : hc !! l = Some (OList vs)) by (eapply keeps_extends; eassumption).
    set (y := length hc).
    assert (Hy0 : (hc ++ [OList []]) !! y = Some (OList [])).
    { unfold y. rewrite lookup_app_r by lia. now rewrite Nat.sub_diag. }
    destruct (copy_children h0 n K ys m hc l (TList ts) y eq_refl Hr HK Hfuel Hk0 Hmemo Hys IH
                ts vs Hall (fun t' Ht' => size_child _ _ Ht')
                ((l, y) :: m) (hc ++ [OList []]) [] [] Hy0 (List.Forall2_nil _)
                (keeps_alloc hc _))
      as (mf & hf & accf & E & Hyf & Hallf & Kf & Gf).
    { intros l' c Hg. cbn [memo_get] in Hg.
      destruct (Nat.eqb_spec l l') as [<-|_].
      - left. injection Hg as <-. now split.
      - right. now left. }
    cbn [app] in Hallf.
    assert (Hlist : repr_in ys hf (TList ts) (VRef y)).
    { apply (repr_list _ _ _ _ accf).
      - intros Hin. specialize (Hys _ Hin). unfold y in Hys. lia.
      - assumption.
      - eapply Forall2_impl; [exact Hallf|]. intros t1 v1.
        apply repr_in_avoid. intros a Ha. left. now right. }
    exists (VRef y, mf), hf. split.
    + cbn [deepcopy]. rewrite Em.
      rewrite (run_bind_Ret _ _ _ _ _ (run_get_obj _ _ _ Hlk')).
      unfold bind at 1, alloc at 1. unfold y in E.
      unfold bind at 1. rewrite E. reflexivity.
    + split; [exact Hlist|]. split; [exact Kf|]. split; [|reflexivity].
      intros l' c Hg. cbn [snd] in Hg.
      destruct (Gf l' c Hg) as [[-> ->]|[H|H]].
      * right. intros t' Ht'. now rewrite <- (repr_fun _ _ _ _ _ _ Hr Ht').
      * now left.
      * right. eapply complete_avoid; [|exact H]. intros a Ha. left. now right.
Qed.

(** [copy.deepcopy] of a nested list of strings and [None] returns a
    structurally equal nested list made of new objects. *)
Lemma deepcopy_tree fuel h t v :
  repr h t v -> size t <= fuel ->
  exists v' m' h', deepcopy fuel [] v h = (Ret (v', m'), h')
    /\ repr h' t v' /\ keeps (length h) h h'
    /\ (forall l, v = VRef l -> v' = VRef (length h)).
Proof.
  intros Hr Hfuel.
  destruct (deepcopy_repr h t v [] h fuel (size t) [] Hr (Nat.le_refl _) Hfuel
              (keeps_refl _ _)) as ([v' m'] & h' & E & Hv' & K & _ & Hfresh).
  - intros l c Hg. discriminate.
  - intros a [].
  - exists v', m', h'. split; [assumption|]. split; [assumption|].
    split; [assumption|]. intros l ->. now apply (Hfresh l).
Qed.

#[local] Abbreviation alloc_toks :=
  (fix go (ts : list tok) : M (list val) :=
     match ts with
     | [] => ret []
     | t1 :: ts' => v <- alloc_tok t1 ;; vs <- go ts' ;; ret (v :: vs)
     end).

Lemma alloc_tok_repr t : forall h,
  exists v h', alloc_tok t h = (Ret v, h') /\ repr h' t v
               /\ keeps (length h) h h'.
Proof.
  induction t as [t IH] using size_ind. intros h.
  destruct t as [s| |ts].
  - exists (VStr s), h. split; [reflexivity|]. split; [constructor|apply keeps_refl].
  - exists VNone, h. split; [reflexivity|]. split; [constructor|apply keeps_refl].
  - assert (Hgo : forall ts', (forall t', In t' ts' -> size t' < size (TList ts)) ->
              forall h1, exists vs h', alloc_toks ts' h1 = (Ret vs, h')
                /\ Forall2 (repr h') ts' vs /\ keeps (length h1) h1 h').
    { induction ts' as [|t1 ts' IHts]; intros Hsz h1.
      - exists [], h1. split; [reflexivity|]. split; [constructor|apply keeps_refl].
      - destruct (IH t1 (Hsz _ (or_introl eq_refl)) h1) as (v & h2 & E1 & R1 & K1).
        destruct (IHts (fun t' Ht' => Hsz _ (or_intror Ht')) h2)
          as (vs & h3 & E2 & R2 & K2).
        exists (v :: vs), h3. split; [|split].
        + rewrite (run_bind_Ret _ _ _ _ _ E1).
          now rewrite (run_bind_Ret _ _ _ _ _ E2).
        + constructor; [|assumption]. eapply repr_in_keeps; eassumption.
        + eapply keeps_trans; [exact K1|].
          eapply keeps_le; [|exact K2]. apply K1. }
    destruct (Hgo ts (fun t' Ht' => size_child _ _ Ht') h) as (vs & h' & E & R & K).
    exists (VRef (length h')), (h' ++ [OList vs]). split; [|split].
    + cbn [alloc_tok]. now rewrite (run_bind_Ret _ _ _ _ _ E).
    + apply (repr_list _ _ _ _ vs); [intros []| |].
      * rewrite lookup_app_r by lia. now rewrite Nat.sub_diag.
      * eapply Forall2_impl; [exact R|]. intros t1 v1.
        apply repr_in_keeps. apply keeps_alloc.
    + eapply keeps_trans; [exact K|].
      eapply keeps_le; [|apply keeps_alloc]. apply K.
Qed.

#[local] Abbreviation init_body n so self :=
  (fun ie : nat * val =>
        let i := Z.of_nat (fst ie) in
        let entry := snd ie in
        if is_list entry then
          src <- iterate entry ;;
          sublist <- UnspacedList_init n src so ;;
          sub_xs <- get_elems sublist ;;
          sub_sp <- get_spaced sublist ;;
          sub_spaced <- get_elems sub_sp ;;
          (if negb (Nat.eqb (length sub_xs) 0) || Nat.eqb (length sub_spaced) 0
           then list_setitem self i (VRef sublist)
           else list_delitem self i) ;;
          sp2 <- get_spaced self ;;
          list_setitem sp2 i (VRef sub_sp)
        else if spacey entry then
          xs <- get_elems self ;;
          if negb (existsb (val_eqb (VStr "#")) (take (fst ie) xs))
          then list_delitem self i
          else ret tt
        else ret tt).

Lemma repr_put_unspaced ys h l xs sp o t v :
  h !! l = Some (OUnspaced xs sp) ->
  repr_in ys h t v -> repr_in ys (<[l := o]> h) t v.
Proof.
  intros Hl. revert v. induction t as [t IH] using size_ind. intros v Hr.
  inversion Hr as [s|  |ts a vs Ha Hlk Hall]; subst; try constructor.
  apply (repr_list _ _ _ _ vs); auto.
  - rewrite list_lookup_insert_ne; [assumption|]. intros <-. congruence.
  - eapply Forall2_impl_In; [exact Hall|].
    intros t v Ht. apply IH. now apply size_child.
Qed.

Lemma Forall2_In_l {A B} (P : A -> B -> Prop) xs ys :
  Forall2 P xs ys -> Forall2 (fun x y => In x xs /\ P x y) xs ys.
Proof.
  intros H. eapply Forall2_impl_In; [exact H|]. auto.
Qed.

(** Writing the list [y] leaves what its elements stand for. *)
Lemma spaced_put hc y zs ts zs' :
  hc !! y = Some (OList zs) ->
  Forall2 (repr hc) ts zs -> Forall2 (repr hc) ts zs' ->
  Forall2 (repr (<[y := OList zs']> hc)) ts zs'.
Proof.
  intros Hy Hzs Hzs'.
  assert (HT : repr hc (TList ts) (VRef y))
    by (apply (repr_list _ _ _ _ zs); [intros []|assumption..]).
  eapply Forall2_impl_In; [exact Hzs'|]. intros t z Ht Hz.
  eapply repr_in_avoid; [|apply repr_in_put;
    [|apply (repr_avoid_bigger hc (TList ts) y t z HT Hz (size_child _ _ Ht))]].
  - intros a [].
  - now left.
Qed.

Lemma Forall2_set_r {A B} (P : A -> B -> Prop) xs ys i x y :
  Forall2 P xs ys -> xs !! i = Some x -> P x y -> Forall2 P xs (<[i := y]> ys).
Proof.
  intros H. revert i. induction H as [|a b xs ys Hab Hrest IH]; intros i Hi Hxy.
  - constructor.
  - destruct i as [|i]; cbn in *.
    + injection Hi as ->. now constructor.
    + constructor; [assumption|]. now apply IH.
Qed.

Lemma lookup_In {A} (xs : list A) i x : xs !! i = Some x -> In x xs.
Proof.
  revert i. induction xs as [|a xs IH]; intros [|i] H; cbn in H; try discriminate.
  - injection H as ->. now left.
  - right. eapply IH, H.
Qed.

Lemma enumerate_lookup (vs : list val) :
  Forall (fun ie => vs !! fst ie = Some (snd ie)) (rev (enumerate vs)).
Proof.
  induction vs as [|x vs IH] using rev_ind; [constructor|].
  rewrite enumerate_app, rev_app_distr. cbn [rev app]. constructor.
  - cbn. rewrite lookup_app_r by lia. now rewrite Nat.sub_diag.
  - eapply Forall_impl; [exact IH|]. intros ie Hie.
    apply lookup_app_l_Some. exact Hie.
Qed.

Section InitRepr.
Variables (n : nat) (h : heap) (ts : list tok) (vs : list val) (self y : nat).
Hypothesis Hsrc : Forall2 (repr h) ts vs.
Hypothesis IHinit : forall tsi es hc,
  size (TList tsi) < size (TList ts) ->
  Forall2 (repr hc) tsi es ->
  exists sub hc', UnspacedList_init n es false hc = (Ret sub, hc')
    /\ keeps (length hc) hc hc'
    /\ exists sxs ssp, hc' !! sub = Some (OUnspaced sxs ssp)
         /\ repr hc' (TList tsi) (VRef ssp).

Lemma inv_put_self hc b cur' :
  inv_at h ts self y hc b -> length h <= self ->
  inv_at h ts self y (<[self := OUnspaced cur' y]> hc) (length cur').
Proof.
  intros (cur & zs & Hs & Hy & Hzs & Hb & K) Hself.
  assert (self <> y) by (intros ->; congruence).
  exists cur', zs. split; [|split; [|split; [|split]]].
  - apply list_lookup_insert_eq. now apply lookup_lt_Some in Hs.
  - now rewrite list_lookup_insert_ne.
  - eapply Forall2_impl; [exact Hzs|]. intros t z.
    apply (repr_put_unspaced _ _ _ _ _ _ _ _ Hs).
  - lia.
  - eapply keeps_trans; [exact K|]. now apply keeps_put.
Qed.

Lemma inv_le hc b b' : inv_at h ts self y hc b -> b' <= b -> inv_at h ts self y hc b'.
Proof.
  intros (cur & zs & Hs & Hy & Hzs & Hb & K) Hle.
  exists cur, zs. repeat (split; [assumption|]). split; [lia|assumption].
Qed.

Hypothesis Hself : length h <= self.
Hypothesis Hy : length h <= y.

Lemma body_returns hc b i e :
  vs !! i = Some e -> i < b -> inv_at h ts self y hc b ->
  exists hc', init_body n false self (i, e) hc = (Ret tt, hc') /\ inv_at h ts self y hc' i.
Proof.
  intros Hie Hi Hinv. cbv beta zeta. cbn [fst snd].
  pose proof Hinv as (cur & zs & Hs & Hyl & Hzs & Hb & K).
  destruct (Forall2_lookup_r _ _ _ _ _ Hsrc Hie) as (ti & Hti & Hrepr).
  destruct (is_list e) eqn:El.
  - inversion Hrepr as [s|  |tsi a es _ Ha Hes]; subst; try discriminate.
    assert (Ha' : hc !! a = Some (OList es)) by (eapply keeps_extends; eassumption).
    assert (Hes' : Forall2 (repr hc) tsi es).
    { eapply Forall2_impl; [exact Hes|]. intros t v. now apply repr_in_keeps. }
    assert (Hsz : size (TList tsi) < size (TList ts)).
    { apply size_child. eapply lookup_In, Hti. }
    destruct (IHinit tsi es hc Hsz Hes')
      as (sub & hc1 & Einit & K1 & sxs & ssp & Hsub & Hssp).
    inversion Hssp as [ |  |? ? sys _ Hssp_l Hsys]; subst.
    assert (Hs1 : hc1 !! self = Some (OUnspaced cur y))
      by (eapply keeps_extends; eassumption).
    assert (Hinv1 : inv_at h ts self y hc1 b).
    { exists cur, zs. split; [assumption|]. split; [eapply keeps_extends; eassumption|].
      split; [|split; [assumption|]].
      - eapply Forall2_impl; [exact Hzs|]. intros t v. now apply repr_in_keeps.
      - eapply keeps_trans; [exact K|]. eapply keeps_le; [|exact K1]. apply K. }
    assert (Hstep : exists hc2,
      (if negb (Nat.eqb (length sxs) 0) || Nat.eqb (length sys) 0
       then list_setitem self (Z.of_nat i) (VRef sub)
       else list_delitem self (Z.of_nat i)) hc1 = (Ret tt, hc2)
      /\ inv_at h ts self y hc2 i /\ repr hc2 (TList tsi) (VRef ssp)).
    { destruct (_ || _).
      - eexists. split; [apply (run_list_setitem_at _ _ _ _ _ Hs1); cbn; lia|].
        cbn [with_elems elems]. split.
        + eapply inv_le; [eapply inv_put_self; [exact Hinv1|assumption]|].
          rewrite length_insert. lia.
        + eapply repr_put_unspaced; eassumption.
      - eexists. split; [apply (run_list_delitem_at _ _ _ _ Hs1); cbn; lia|].
        cbn [with_elems elems]. split.
        + eapply inv_le; [eapply inv_put_self; [exact Hinv1|assumption]|].
          rewrite length_delete by (apply lookup_lt_is_Some_2; lia). lia.
        + eapply repr_put_unspaced; eassumption. }
    destruct Hstep as (hc2 & E2 & Hinv2 & Hssp2).
    destruct Hinv2 as (cur2 & zs2 & Hs2 & Hy2 & Hzs2 & Hb2 & K2).
    assert (Hilen : i < length zs2).
    { apply Forall2_length in Hzs2. rewrite <- Hzs2.
      apply lookup_lt_Some in Hti. exact Hti. }
    exists (<[y := OList (<[i := VRef ssp]> zs2)]> hc2). split.
    + cbn [iterate].
      rewrite (run_bind_Ret _ _ _ _ _ (run_get_elems _ _ _ Ha')). cbn [elems].
      rewrite (run_bind_Ret _ _ _ _ _ Einit).
      rewrite (run_bind_Ret _ _ _ _ _ (run_get_elems _ _ _ Hsub)).
      rewrite (run_bind_Ret _ _ _ _ _ (run_get_spaced _ _ _ _ Hsub)).
      rewrite (run_bind_Ret _ _ _ _ _ (run_get_elems _ _ _ Hssp_l)).
      cbn [elems]. rewrite (run_bind_Ret _ _ _ _ _ E2).
      rewrite (run_bind_Ret _ _ _ _ _ (run_get_spaced _ _ _ _ Hs2)).
      apply (run_list_setitem_at _ _ _ _ _ Hy2). exact Hilen.
    + assert (self <> y) by (intros ->; congruence).
      exists cur2, (<[i := VRef ssp]> zs2).
      split; [now rewrite list_lookup_insert_ne|].
      split; [apply list_lookup_insert_eq; now apply lookup_lt_Some in Hy2|].
      split; [|split; [assumption|]].
      * apply (spaced_put hc2 y zs2); [assumption..|].
        eapply Forall2_set_r; eassumption.
      * eapply keeps_trans; [exact K2|]. now apply keeps_put.
  - assert (Hdel : forall hc', hc' = <[self := OUnspaced (delete i cur) y]> hc ->
              inv_at h ts self y hc' i).
    { intros hc' ->. eapply inv_le; [eapply inv_put_self; [exact Hinv|assumption]|].
      rewrite length_delete by (apply lookup_lt_is_Some_2; lia). lia. }
    destruct (spacey e).
    + rewrite (run_bind_Ret _ _ _ _ _ (run_get_elems _ _ _ Hs)). cbn [elems].
      destruct (negb _).
      * eexists. split; [apply (run_list_delitem_at _ _ _ _ Hs); cbn; lia|].
        now apply Hdel.
      * exists hc. split; [reflexivity|]. eapply inv_le; [exact Hinv|lia].
    + exists hc. split; [reflexivity|]. eapply inv_le; [exact Hinv|lia].
Qed.

Lemma loop_returns ies : forall hc b,
  Forall (fun ie => vs !! fst ie = Some (snd ie)) ies ->
  descending ies b -> inv_at h ts self y hc b ->
  exists hc', forM_ ies (init_body n false self) hc = (Ret tt, hc')
    /\ inv_at h ts self y hc' 0.
Proof.
  induction ies as [|[i e] ies IH]; intros hc b Hall Hd Hinv.
  - exists hc. split; [reflexivity|]. eapply inv_le; [exact Hinv|lia].
  - inversion Hall as [|? ? Hie Hrest]; subst. destruct Hd as [Hi Hd].
    cbn [fst snd] in *.
    destruct (body_returns hc b i e Hie Hi Hinv) as (hc1 & E1 & Hinv1).
    destruct (IH hc1 i Hrest Hd Hinv1) as (hc' & E & Hinv').
    exists hc'. split; [|assumption].
    unfold forM_. cbn [foldM].
    rewrite (run_bind_Ret _ _ _ _ _ E1). exact E.
Qed.

End InitRepr.

(** [UnspacedList(src)] keeps in its spaced tree a structurally equal copy
    of [src], whatever it drops from the logical lists. *)
Lemma init_repr ts : forall vs h fuel,
  Forall2 (repr h) ts vs -> size (TList ts) < fuel ->
  exists self h', UnspacedList_init fuel vs false h = (Ret self, h')
    /\ keeps (length h) h h'
    /\ exists xs sp, h' !! self = Some (OUnspaced xs sp)
         /\ repr h' (TList ts) (VRef sp).
Proof.
  remember (TList ts) as T eqn:ET. revert ts ET.
  induction T as [T IH] using size_ind. intros ts -> vs h fuel Hsrc Hfuel.
  destruct fuel as [|n]; [lia|].
  set (tmp := length h). set (h1 := h ++ [OList vs]).
  assert (K1 : keeps (length h) h h1) by apply keeps_alloc.
  assert (Htmp : repr h1 (TList ts) (VRef tmp)).
  { apply (repr_list _ _ _ _ vs); [intros []| |].
    - unfold h1, tmp. rewrite lookup_app_r by lia. now rewrite Nat.sub_diag.
    - eapply Forall2_impl; [exact Hsrc|]. intros t v. now apply repr_in_keeps. }
  destruct (deepcopy_tree n h1 (TList ts) (VRef tmp) Htmp ltac:(lia))
    as (v' & m' & h2 & Edc & Hcopy & K2 & Hfresh).
  rewrite (Hfresh tmp eq_refl) in *. clear Hfresh.
  set (y := length h1) in *.
  inversion Hcopy as [ |  |? ? cs _ Hy2 Hcs]; subst.
  set (self := length h2). set (h3 := h2 ++ [OUnspaced [] y]).
  assert (Hs3 : h3 !! self = Some (OUnspaced [] y)).
  { unfold h3, self. rewrite lookup_app_r by lia. now rewrite Nat.sub_diag. }
  pose proof (run_set_elems _ _ _ vs Hs3) as E4. cbn [with_elems] in E4.
  set (h4 := <[self := OUnspaced vs y]> h3) in *.
  assert (Lh1 : length h1 = S (length h))
    by (unfold h1; rewrite length_app; simpl; lia).
  assert (Hself : length h <= self) by (unfold self; destruct K2; lia).
  assert (Hy : length h <= y) by (unfold y; lia).
  assert (K3 : keeps (length h2) h2 h3) by apply keeps_alloc.
  assert (Hinv : inv_at h ts self y h4 (length vs)).
  { assert (Hy3 : h3 !! y = Some (OList cs)) by (eapply keeps_extends; eassumption).
    assert (self <> y) by (intros E; rewrite E in Hs3; congruence).
    exists vs, cs. unfold h4. split; [|split; [|split; [|split]]].
    - apply list_lookup_insert_eq. now apply lookup_lt_Some in Hs3.
    - now rewrite list_lookup_insert_ne.
    - eapply Forall2_impl; [exact Hcs|]. intros t v Htv.
      apply (repr_put_unspaced _ _ _ _ _ _ _ _ Hs3).
      eapply repr_in_keeps; eassumption.
    - lia.
    - eapply keeps_trans; [exact K1|].
      eapply keeps_trans; [eapply keeps_le; [|exact K2]; lia|].
      eapply keeps_trans; [eapply keeps_le; [|exact K3]; destruct K2; lia|].
      now apply keeps_put. }
  assert (IHinit : forall tsi es hc,
            size (TList tsi) < size (TList ts) ->
            Forall2 (repr hc) tsi es ->
            exists sub hc', UnspacedList_init n es false hc = (Ret sub, hc')
              /\ keeps (length hc) hc hc'
              /\ exists sxs ssp, hc' !! sub = Some (OUnspaced sxs ssp)
                   /\ repr hc' (TList tsi) (VRef ssp)).
  { intros tsi es hc Hsz Hes.
    apply (IH (TList tsi) Hsz tsi eq_refl es hc n Hes). lia. }
  destruct (loop_returns n h ts vs self y Hsrc IHinit Hself Hy
              (rev (enumerate vs)) h4 (length vs)
              (enumerate_lookup vs) (enumerate_descending vs) Hinv)
    as (h5 & E5 & cur & zs & Hs5 & Hy5 & Hzs5 & _ & K5).
  exists self, h5. split; [|split; [exact K5|]].
  - cbn [UnspacedList_init].
    unfold bind at 1, alloc at 1. fold tmp. fold h1.
    rewrite (run_bind_Ret _ _ _ _ _ Edc). cbn [fst as_ref].
    unfold bind at 1, ret at 1.
    unfold bind at 1, alloc at 1. fold self. fold h3.
    unfold bind at 1, ret at 1.
    rewrite (run_bind_Ret _ _ _ _ _ E4).
    rewrite (run_bind_Ret _ _ _ _ _ E5). reflexivity.
  - exists cur, y. split; [assumption|].
    apply (repr_list _ _ _ _ zs); [intros []|assumption..].
Qed.

#[local] Abbreviation dump_item n :=
  (fun (out : list string) (b0 : val) =>
        match b0 with
        | VStr s => ret (out ++ [s])
        | _ =>
            r <- deepcopy n [] b0 ;;
            let b := fst r in
            b_0 <- first_item b ;;
            bl <- as_ref b ;;
            ind <- (if spacey b_0 then
                      v <- list_pop0 bl ;;
                      s <- expect_str v ;;
                      rest <- get_elems bl ;;
                      ret (s, Nat.eqb (length rest) 0)
                    else ret (EmptyString, false)) ;;
            let indentation := fst ind in
            if snd ind then ret (out ++ [indentation])
            else
              key <- list_pop0 bl ;;
              values <- list_pop0 bl ;;
              if is_list key then
                kl <- as_ref key ;;
                ks <- get_elems kl ;;
                strs <- foldM (fun acc k => s <- expect_str k ;;
                                            ret (acc ++ s)%string) EmptyString ks ;;
                params <- iterate values ;;
                inner <- foldM (fun acc parameter =>
                                  dumped <- RawNginxDumper_iter n [parameter] ;;
                                  ret (acc ++ dumped))
                               [] params ;;
                ret (out ++ [(indentation ++ strs ++ "{")%string]
                         ++ inner ++ ["}"%string])
              else if is_comment_key key then
                k <- expect_str key ;;
                v <- expect_str values ;;
                ret (out ++ [(indentation ++ k ++ v)%string])
              else
                t <- truthy values ;;
                gv <- (if t && spacey values then
                         g <- expect_str values ;;
                         v <- list_pop0 bl ;;
                         ret (g, v)
                       else ret (EmptyString, values)) ;;
                k <- expect_str key ;;
                v <- expect_str (snd gv) ;;
                ret (out ++ [(indentation ++ k ++ fst gv ++ v ++ ";")%string])
        end).

Lemma dumper_unfold n vs :
  RawNginxDumper_iter (S n) vs = foldM (dump_item n) [] vs.
Proof. reflexivity. Qed.

Local Open Scope string_scope.

Lemma string_app_assoc (a b c : string) : (a ++ b) ++ c = a ++ (b ++ c).
Proof. induction a as [|x a IH]; cbn; [reflexivity|]. now rewrite IH. Qed.

Lemma string_app_nil_r (a : string) : a ++ "" = a.
Proof. induction a as [|x a IH]; cbn; [reflexivity|]. now rewrite IH. Qed.

Local Open Scope list_scope.

Lemma run_list_pop0 h y c cs :
  h !! y = Some (OList (c :: cs)) ->
  list_pop0 y h = (Ret c, <[y := OList cs]> h).
Proof.
  intros Hy. unfold list_pop0.
  rewrite (run_bind_Ret _ _ _ _ _ (run_get_elems _ _ _ Hy)). cbn [elems].
  now rewrite (run_bind_Ret _ _ _ _ _ (run_set_elems _ _ _ cs Hy)).
Qed.

Lemma run_first_item h y c cs :
  h !! y = Some (OList (c :: cs)) -> first_item (VRef y) h = (Ret c, h).
Proof.
  intros Hy. cbn [first_item]. unfold list_getitem.
  now rewrite (run_bind_Ret _ _ _ _ _ (run_get_elems _ _ _ Hy)).
Qed.

Lemma repr_str_inv ys h s v : repr_in ys h (TStr s) v -> v = VStr s.
Proof. now inversion 1. Qed.

Lemma repr_list_inv ys h ts v :
  repr_in ys h (TList ts) v ->
  exists l vs, v = VRef l /\ ~ In l ys /\ h !! l = Some (OList vs)
               /\ Forall2 (repr_in ys h) ts vs.
Proof. inversion 1; subst. eauto 10. Qed.

Lemma repr_spacey ys h t v : repr_in ys h t v -> spacey v = spacey (leaf t).
Proof. now inversion 1. Qed.

Lemma repr_strs ys h ks vs :
  Forall2 (repr_in ys h) (map TStr ks) vs -> vs = map VStr ks.
Proof.
  revert vs. induction ks as [|k ks IH]; intros vs H; cbn in H.
  - now inversion H.
  - apply Forall2_cons_inv_l in H as (v & vs' & Hv & Hvs & ->).
    apply repr_str_inv in Hv as ->. cbn. f_equal. now apply IH.
Qed.

Lemma Forall2_repr_put ys h y o ts vs :
  In y ys -> Forall2 (repr_in ys h) ts vs ->
  Forall2 (repr_in ys (<[y := o]> h)) ts vs.
Proof.
  intros Hy H. eapply Forall2_impl; [exact H|]. intros t v.
  now apply repr_in_put.
Qed.

Lemma join_strs acc ks h :
  foldM (fun acc k => s <- expect_str k ;; ret (acc ++ s)%string) acc
        (map VStr ks) h
  = (Ret (acc ++ join ks)%string, h).
Proof.
  revert acc. induction ks as [|k ks IH]; intros acc; cbn [map foldM join fold_right].
  - unfold ret. now rewrite string_app_nil_r.
  - unfold bind at 1. unfold bind at 1. cbn [expect_str]. unfold ret at 1.
    unfold ret at 1. rewrite IH. now rewrite string_app_assoc.
Qed.

(** The copy the dumper takes of an item: a new list [y] whose elements
    do not reach [y]. *)
Lemma item_copy n h b v :
  repr h (TList b) v -> size (TList b) <= n ->
  exists y cs m' h1,
    deepcopy n [] v h = (Ret (VRef y, m'), h1)
    /\ (exists l, v = VRef l)
    /\ length h <= y
    /\ h1 !! y = Some (OList cs)
    /\ Forall2 (repr_in [y] h1) b cs
    /\ keeps (length h) h h1.
Proof.
  intros Hr Hn.
  destruct (deepcopy_tree n h (TList b) v Hr Hn) as (v' & m' & h1 & E & Hc & K & Hf).
  destruct (repr_list_inv _ _ _ _ Hr) as (l & vs & -> & _).
  rewrite (Hf l eq_refl) in *.
  destruct (repr_list_inv _ _ _ _ Hc) as (y & cs & [= <-] & _ & Hy & Hcs).
  exists (length h), cs, m', h1. split; [assumption|]. split; [eauto|].
  split; [lia|]. split; [assumption|]. split; [|assumption].
  eapply Forall2_impl_In; [exact Hcs|]. intros t c Ht Htc.
  apply (repr_avoid_bigger h1 (TList b) (length h) t c Hc Htc).
  now apply size_child.
Qed.

#[local] Abbreviation indent_block bl b_0 :=
  (if spacey b_0 then
     v <- list_pop0 bl ;;
     s <- expect_str v ;;
     rest <- get_elems bl ;;
     ret (s, Nat.eqb (length rest) 0)
   else ret (EmptyString, false)).

Lemma run_indent (h : heap) h1 y cs pre ind first rest :
  length h <= y -> keeps (length h) h h1 ->
  h1 !! y = Some (OList cs) ->
  Forall2 (repr_in [y] h1) (pre ++ first :: rest) cs ->
  indent pre ind first ->
  exists c0 hA c csr,
    first_item (VRef y) h1 = (Ret c0, h1)
    /\ indent_block y c0 h1 = (Ret (ind, false), hA)
    /\ hA !! y = Some (OList (c :: csr))
    /\ repr_in [y] hA first c
    /\ Forall2 (repr_in [y] hA) rest csr
    /\ keeps (length h) h hA.
Proof.
  intros Hle K Hy Hcs [(-> & -> & Hsp)|(-> & Hsp)]; cbn [app] in Hcs.
  - apply Forall2_cons_inv_l in Hcs as (c & csr & Hc & Hcsr & ->).
    exists c, h1, c, csr. split; [eapply run_first_item; eassumption|].
    rewrite (repr_spacey _ _ _ _ Hc), Hsp. auto 10.
  - apply Forall2_cons_inv_l in Hcs as (c0 & cs' & Hc0 & Hcs' & ->).
    apply Forall2_cons_inv_l in Hcs' as (c & csr & Hc & Hcsr & ->).
    apply repr_str_inv in Hc0 as ->.
    assert (Hy' : <[y := OList (c :: csr)]> h1 !! y = Some (OList (c :: csr))).
    { apply list_lookup_insert_eq. now apply lookup_lt_Some in Hy. }
    exists (VStr ind), (<[y := OList (c :: csr)]> h1), c, csr.
    split; [eapply run_first_item; eassumption|]. rewrite Hsp.
    split; [|split; [assumption|split; [|split]]].
    + rewrite (run_bind_Ret _ _ _ _ _ (run_list_pop0 _ _ _ _ Hy)).
      cbn [expect_str]. unfold bind at 1, ret at 1.
      now rewrite (run_bind_Ret _ _ _ _ _ (run_get_elems _ _ _ Hy')).
    + apply repr_in_put; [now left|assumption].
    + apply Forall2_repr_put; [now left|assumption].
    + eapply keeps_trans; [exact K|]. now apply keeps_put.
Qed.

(** The two pops that follow: the key and what comes after it. *)
Lemma run_two_pops (h : heap) hA y c c1 csr :
  length h <= y -> keeps (length h) h hA ->
  hA !! y = Some (OList (c :: c1 :: csr)) ->
  exists hC,
    (forall A (k : val -> val -> M A),
       (key <- list_pop0 y ;; values <- list_pop0 y ;; k key values) hA
       = k c c1 hC)
    /\ hC !! y = Some (OList csr)
    /\ keeps (length h) h hC
    /\ (forall ts vs, Forall2 (repr_in [y] hA) ts vs ->
                      Forall2 (repr_in [y] hC) ts vs)
    /\ (forall t v, repr_in [y] hA t v -> repr_in [y] hC t v).
Proof.
  intros Hle K Hy.
  assert (Hlt : y < length hA) by now apply lookup_lt_Some in Hy.
  assert (HyB : <[y := OList (c1 :: csr)]> hA !! y = Some (OList (c1 :: csr)))
    by now apply list_lookup_insert_eq.
  exists (<[y := OList csr]> (<[y := OList (c1 :: csr)]> hA)).
  split; [|split; [|split; [|split]]].
  - intros A k.
    rewrite (run_bind_Ret _ _ _ _ _ (run_list_pop0 _ _ _ _ Hy)).
    now rewrite (run_bind_Ret _ _ _ _ _ (run_list_pop0 _ _ _ _ HyB)).
  - apply list_lookup_insert_eq. now rewrite length_insert.
  - eapply keeps_trans; [exact K|].
    eapply keeps_trans; [apply (keeps_put _ hA); exact Hle|].
    apply keeps_put. exact Hle.
  - intros ts vs H. do 2 (apply Forall2_repr_put; [now left|]). exact H.
  - intros t v H. do 2 (apply repr_in_put; [now left|]). exact H.
Qed.

Section Item.
Variables (n : nat) (T : tok).
Hypothesis IHdump : forall p lines pv hc,
  size (TList [p]) < size T -> text_of p lines -> repr hc p pv ->
  exists hc', RawNginxDumper_iter n [pv] hc = (Ret lines, hc')
              /\ keeps (length hc) hc hc'.

Lemma params_text ps liness :
  Forall2 text_of ps liness ->
  (forall p, In p ps -> size (TList [p]) < size T) ->
  forall pvals hc acc,
    Forall2 (repr hc) ps pvals ->
    exists hc',
      foldM (fun acc parameter =>
               dumped <- RawNginxDumper_iter n [parameter] ;;
               ret (acc ++ dumped)) acc pvals hc
      = (Ret (acc ++ List.concat liness), hc')
      /\ keeps (length hc) hc hc'.
Proof.
  induction 1 as [|p lines ps liness Hp _ IH]; intros Hsz pvals hc acc Hr.
  - inversion Hr; subst. exists hc. cbn. rewrite app_nil_r.
    split; [reflexivity|apply keeps_refl].
  - apply Forall2_cons_inv_l in Hr as (pv & pvals' & Hpv & Hrest & ->).
    destruct (IHdump p lines pv hc (Hsz _ (or_introl eq_refl)) Hp Hpv)
      as (hc1 & E1 & K1).
    destruct (IH (fun q Hq => Hsz _ (or_intror Hq)) pvals' hc1 (acc ++ lines))
      as (hc' & E & K).
    { eapply Forall2_impl; [exact Hrest|]. intros t v. now apply repr_in_keeps. }
    exists hc'. split.
    + cbn [foldM]. unfold bind at 1. unfold bind at 1. rewrite E1.
      unfold ret at 1. rewrite E. cbn [List.concat]. now rewrite app_assoc.
    + eapply keeps_trans; [exact K1|]. eapply keeps_le; [|exact K]. apply K1.
Qed.

Lemma item_text out t lines v h :
  text_of t lines -> repr h t v -> size t <= n -> size t < size T ->
  exists h', dump_item n out v h = (Ret (out ++ lines), h')
             /\ keeps (length h) h h'.
Proof.
  intros Htext Hr Hn HT.
  destruct Htext as [s|s Hsp|pre ind k gapt gap v0 extra Hind Hck Hgap
                     |pre ind k v0 extra Hind Hck
                     |pre ind ks ps liness extra Hind Hps].
  - apply repr_str_inv in Hr as ->. exists h. split; [reflexivity|apply keeps_refl].
  - (* a line of white space only *)
    destruct (item_copy n h _ v Hr Hn) as (y & cs & m' & h1 & E & [l ->] & Hle & Hy & Hcs & K).
    apply Forall2_cons_inv_l in Hcs as (c & cs' & Hc & Hnil & ->).
    inversion Hnil; subst. apply repr_str_inv in Hc as ->.
    assert (Hy' : <[y := OList []]> h1 !! y = Some (OList [])).
    { apply list_lookup_insert_eq. now apply lookup_lt_Some in Hy. }
    eexists. split.
    + cbv beta iota. rewrite (run_bind_Ret _ _ _ _ _ E). cbn [fst].
      rewrite (run_bind_Ret _ _ _ _ _ (run_first_item _ _ _ _ Hy)).
      cbn [as_ref]. unfold bind at 1, ret at 1. rewrite Hsp.
      unfold bind at 1.
      rewrite (run_bind_Ret _ _ _ _ _ (run_list_pop0 _ _ _ _ Hy)).
      cbn [expect_str]. unfold bind at 1, ret at 1.
      rewrite (run_bind_Ret _ _ _ _ _ (run_get_elems _ _ _ Hy')).
      cbn. reflexivity.
    + eapply keeps_trans; [exact K|]. now apply keeps_put.
  - (* a directive *)
    destruct (item_copy n h _ v Hr Hn) as (y & cs & m' & h1 & E & [l ->] & Hle & Hy & Hcs & K).
    destruct (run_indent h h1 y cs pre ind (TStr k) _ Hle K Hy Hcs Hind)
      as (c0 & hA & c & csr & Efirst & Eind & HyA & Hc & Hcsr & KA).
    apply repr_str_inv in Hc as ->.
    destruct Hgap as [(-> & -> & Hv)|(-> & Hgne & Hgsp)]; cbn [app] in Hcsr.
    + apply Forall2_cons_inv_l in Hcsr as (c1 & csr1 & Hc1 & _ & ->).
      apply repr_str_inv in Hc1 as ->.
      destruct (run_two_pops h hA y _ _ _ Hle KA HyA) as (hC & Epops & _ & KC & _).
      exists hC. split; [|assumption].
      cbv beta iota. rewrite (run_bind_Ret _ _ _ _ _ E). cbn [fst].
      rewrite (run_bind_Ret _ _ _ _ _ Efirst).
      cbn [as_ref]. unfold bind at 1, ret at 1.
      rewrite (run_bind_Ret _ _ _ _ _ Eind). cbn [fst snd].
      rewrite Epops. cbn [is_list]. rewrite Hck.
      cbn [truthy]. unfold bind at 1, ret at 1.
      assert (Hfalse : negb (String.eqb v0 "") && spacey (VStr v0) = false).
      { destruct Hv as [->|Hv]; [reflexivity|]. rewrite Hv. apply andb_false_r. }
      rewrite Hfalse. reflexivity.
    + apply Forall2_cons_inv_l in Hcsr as (c1 & csr1 & Hc1 & Hcsr1 & ->).
      apply repr_str_inv in Hc1 as ->.
      apply Forall2_cons_inv_l in Hcsr1 as (c2 & csr2 & Hc2 & _ & ->).
      apply repr_str_inv in Hc2 as ->.
      destruct (run_two_pops h hA y _ _ _ Hle KA HyA) as (hC & Epops & HyC & KC & _).
      exists (<[y := OList csr2]> hC). split.
      * cbv beta iota. rewrite (run_bind_Ret _ _ _ _ _ E). cbn [fst].
        rewrite (run_bind_Ret _ _ _ _ _ Efirst).
        cbn [as_ref]. unfold bind at 1, ret at 1.
        rewrite (run_bind_Ret _ _ _ _ _ Eind). cbn [fst snd].
        rewrite Epops. cbn [is_list]. rewrite Hck.
        cbn [truthy]. unfold bind at 1, ret at 1.
        assert (Htrue : negb (String.eqb gap "") && spacey (VStr gap) = true).
        { rewrite Hgsp, andb_true_r. apply negb_true_iff.
          now apply String.eqb_neq. }
        rewrite Htrue. cbn [expect_str].
        unfold bind at 1. unfold bind at 1, ret at 1.
        rewrite (run_bind_Ret _ _ _ _ _ (run_list_pop0 _ _ _ _ HyC)).
        reflexivity.
      * eapply keeps_trans; [exact KC|]. now apply keeps_put.
  - (* a comment *)
    destruct (item_copy n h _ v Hr Hn) as (y & cs & m' & h1 & E & [l ->] & Hle & Hy & Hcs & K).
    destruct (run_indent h h1 y cs pre ind (TStr k) _ Hle K Hy Hcs Hind)
      as (c0 & hA & c & csr & Efirst & Eind & HyA & Hc & Hcsr & KA).
    apply repr_str_inv in Hc as ->.
    apply Forall2_cons_inv_l in Hcsr as (c1 & csr1 & Hc1 & _ & ->).
    apply repr_str_inv in Hc1 as ->.
    destruct (run_two_pops h hA y _ _ _ Hle KA HyA) as (hC & Epops & _ & KC & _).
    exists hC. split; [|assumption].
    cbv beta iota. rewrite (run_bind_Ret _ _ _ _ _ E). cbn [fst].
    rewrite (run_bind_Ret _ _ _ _ _ Efirst).
    cbn [as_ref]. unfold bind at 1, ret at 1.
    rewrite (run_bind_Ret _ _ _ _ _ Eind). cbn [fst snd].
    rewrite Epops. cbn [is_list]. rewrite Hck. reflexivity.
  - (* a block *)
    destruct (item_copy n h _ v Hr Hn) as (y & cs & m' & h1 & E & [l ->] & Hle & Hy & Hcs & K).
    destruct (run_indent h h1 y cs pre ind _ _ Hle K Hy Hcs Hind)
      as (c0 & hA & c & csr & Efirst & Eind & HyA & Hc & Hcsr & KA).
    apply Forall2_cons_inv_l in Hcsr as (c1 & csr1 & Hc1 & _ & ->).
    destruct (run_two_pops h hA y _ _ _ Hle KA HyA)
      as (hC & Epops & _ & KC & _ & Hmove).
    apply Hmove in Hc, Hc1.
    destruct (repr_list_inv _ _ _ _ Hc) as (kl & kvals & -> & _ & Hkl & Hkvals).
    apply repr_strs in Hkvals as ->.
    destruct (repr_list_inv _ _ _ _ Hc1) as (pl & pvals & -> & _ & Hpl & Hpvals).
    assert (Hpvals' : Forall2 (repr hC) ps pvals).
    { eapply Forall2_impl; [exact Hpvals|]. intros t v.
      apply repr_in_avoid. intros a []. }
    destruct (params_text ps liness Hps) with (pvals := pvals) (hc := hC)
      (acc := @nil string) as (h' & Einner & K').
    { intros p Hp. pose proof (size_child _ _ Hp) as H1.
      assert (H2 : size (TList ps) < size (TList (pre ++ TList (map TStr ks) :: TList ps :: extra))).
      { apply size_child. apply in_or_app. right. right. now left. }
      change (size (TList [p])) with (S (size p + 0)). lia. }
    { exact Hpvals'. }
    exists h'. split.
    + cbv beta iota. rewrite (run_bind_Ret _ _ _ _ _ E). cbn [fst].
      rewrite (run_bind_Ret _ _ _ _ _ Efirst).
      cbn [as_ref]. unfold bind at 1, ret at 1.
      rewrite (run_bind_Ret _ _ _ _ _ Eind). cbn [fst snd].
      rewrite Epops. cbn [is_list as_ref]. unfold bind at 1, ret at 1.
      rewrite (run_bind_Ret _ _ _ _ _ (run_get_elems _ _ _ Hkl)). cbn [elems].
      rewrite (run_bind_Ret _ _ _ _ _ (join_strs "" ks hC)).
      cbn [iterate].
      rewrite (run_bind_Ret _ _ _ _ _ (run_get_elems _ _ _ Hpl)). cbn [elems].
      rewrite (run_bind_Ret _ _ _ _ _ Einner). reflexivity.
    + eapply keeps_trans; [exact KC|]. eapply keeps_le; [|exact K']. apply KC.
Qed.

End Item.

Lemma items_text n T
    (IHdump : forall p lines pv hc,
       size (TList [p]) < size T -> text_of p lines -> repr hc p pv ->
       exists hc', RawNginxDumper_iter n [pv] hc = (Ret lines, hc')
                   /\ keeps (length hc) hc hc')
    ts liness :
  Forall2 text_of ts liness ->
  (forall t, In t ts -> size t <= n /\ size t < size T) ->
  forall vs h out,
    Forall2 (repr h) ts vs ->
    exists h', foldM (dump_item n) out vs h = (Ret (out ++ List.concat liness), h')
               /\ keeps (length h) h h'.
Proof.
  induction 1 as [|t lines ts liness Ht _ IH]; intros Hsz vs h out Hr.
  - inversion Hr; subst. exists h. cbn. rewrite app_nil_r.
    split; [reflexivity|apply keeps_refl].
  - apply Forall2_cons_inv_l in Hr as (v & vs' & Hv & Hrest & ->).
    destruct (Hsz t (or_introl eq_refl)) as [Hn HT].
    destruct (item_text n T IHdump out t lines v h Ht Hv Hn HT) as (h1 & E1 & K1).
    destruct (IH (fun q Hq => Hsz _ (or_intror Hq)) vs' h1 (out ++ lines))
      as (h' & E & K).
    { eapply Forall2_impl; [exact Hrest|]. intros a b. now apply repr_in_keeps. }
    exists h'. split.
    + cbn [foldM]. rewrite (run_bind_Ret _ _ _ _ _ E1).
      cbn [List.concat]. rewrite app_assoc. exact E.
    + eapply keeps_trans; [exact K1|]. eapply keeps_le; [|exact K]. apply K1.
Qed.

(** The dumper yields the text of the items, in order. *)
Lemma dumper_text T : forall ts, T = TList ts ->
  forall liness vs h fuel,
    Forall2 text_of ts liness -> Forall2 (repr h) ts vs ->
    size (TList ts) < fuel ->
    exists h', RawNginxDumper_iter fuel vs h = (Ret (List.concat liness), h')
               /\ keeps (length h) h h'.
Proof.
  induction T as [T IH] using size_ind. intros ts -> liness vs h fuel Htext Hr Hfuel.
  destruct fuel as [|n]; [lia|]. rewrite dumper_unfold.
  apply (items_text n (TList ts)) with (ts := ts) (out := @nil string);
    try assumption.
  - intros p lines pv hc Hsz Hp Hpv.
    destruct (IH (TList [p]) Hsz [p] eq_refl [lines] [pv] hc n) as (hc' & E & K).
    + now constructor.
    + now constructor.
    + lia.
    + exists hc'. cbn [List.concat] in E. rewrite app_nil_r in E. auto.
  - intros t Ht. pose proof (size_child _ _ Ht). lia.
Qed.

(** X15.  [UnspacedList(src)] for every nested list [src] of strings and [None]:
    the spaced list of the new node is a copy of [src] that holds the same
    token tree, whitespace and lists of whitespace included, whatever the
    logical view drops; [src] still holds its tokens. *)
Theorem spaced_tree_is_a_verbatim_copy
    (fuel : nat) (h : heap) (l : nat) (ts : list tok) :
  repr h (TList ts) (VRef l) ->
  size (TList ts) < fuel ->
  exists self xs sp h',
    UnspacedList fuel (VRef l) false h = (Ret self, h')
    /\ h' !! self = Some (OUnspaced xs sp)
    /\ repr h' (TList ts) (VRef sp)
    /\ repr h' (TList ts) (VRef l)
    /\ length h <= self
    /\ (forall a o, h !! a = Some o -> h' !! a = Some o).
Proof.
  intros Hr Hfuel.
  destruct (repr_list_inv _ _ _ _ Hr) as (l' & vs & [= <-] & _ & Hl & Hvs).
  destruct (init_repr ts vs h fuel Hvs Hfuel)
    as (self & h' & E & K & xs & sp & Hself & Hsp).
  exists self, xs, sp, h'. split; [|split; [assumption|split; [assumption|split; [|split]]]].
  - unfold UnspacedList. cbn [iterate].
    now rewrite (run_bind_Ret _ _ _ _ _ (run_get_elems _ _ _ Hl)).
  - eapply repr_in_keeps; eassumption.
  - destruct (Nat.le_gt_cases (length h) self) as [|Hlt]; [assumption|].
    destruct K as [_ K]. rewrite (K self Hlt) in Hself.
    (* an object of [h] at [self] would be the source of nothing new *)
    exfalso. revert Hself E. clear. intros Hself E.
    pose proof (ok_UnspacedList_init fuel (length h) vs false h (Ret self) h'
                  (inv_start h) E) as (_ & _ & Hfresh).
    specialize (Hfresh self eq_refl). apply lookup_lt_Some in Hself. lia.
  - now apply keeps_extends.
Qed.

(** X16.  [dumps] writes the text of the tokens of the spaced tree: a string as
    it is, a directive as indentation, key, gap and value followed by [;],
    a comment as indentation, key and text, a block as indentation, the
    strings of its header, [{], the texts of its body and [}]. *)
Theorem dumps_writes_the_spaced_tree
    (fuel : nat) (h : heap) (tree : nat) (xs : list val) (sp : nat)
    (ts : list tok) (liness : list (list string)) :
  h !! tree = Some (OUnspaced xs sp) ->
  repr h (TList ts) (VRef sp) ->
  Forall2 text_of ts liness ->
  size (TList ts) < fuel ->
  exists h', dumps fuel tree h = (Ret (join (List.concat liness)), h').
Proof.
  intros Htree Hr Htext Hfuel.
  destruct (repr_list_inv _ _ _ _ Hr) as (sp' & vs & [= <-] & _ & Hsp & Hvs).
  destruct (dumper_text (TList ts) ts eq_refl liness vs h fuel Htext Hvs Hfuel)
    as (h' & E & _).
  exists h'. unfold dumps, RawNginxDumper_str.
  rewrite (run_bind_Ret _ _ _ _ _ (run_get_spaced _ _ _ _ Htree)).
  rewrite (run_bind_Ret _ _ _ _ _ (run_get_elems _ _ _ Hsp)). cbn [elems].
  now rewrite (run_bind_Ret _ _ _ _ _ E).
Qed.

Lemma loads_dumps fuel source ts liness h :
  RawNginxParser.as_list source = Some ts ->
  Forall2 text_of ts liness ->
  size (TList ts) < fuel ->
  exists h', (tree <- loads fuel source ;; dumps fuel tree) h
             = (Ret (join (List.concat liness)), h').
Proof.
  intros Hparse Htext Hfuel.
  destruct (alloc_tok_repr (TList ts) h) as (v & h1 & Ea & Hv & K1).
  destruct (repr_list_inv _ _ _ _ Hv) as (l & vs & -> & _ & Hl & Hvs).
  destruct (init_repr ts vs h1 fuel Hvs Hfuel)
    as (self & h2 & E & K & xs & sp & Hself & Hsp).
  destruct (repr_list_inv _ _ _ _ Hsp) as (sp' & zs & [= <-] & _ & Hspl & Hzs).
  destruct (dumper_text (TList ts) ts eq_refl liness zs h2 fuel Htext Hzs Hfuel)
    as (h' & Ed & _).
  exists h'.
  assert (El : loads fuel source h = (Ret self, h2)).
  { unfold loads. rewrite Hparse.
    rewrite (run_bind_Ret _ _ _ _ _ Ea). unfold UnspacedList. cbn [iterate].
    now rewrite (run_bind_Ret _ _ _ _ _ (run_get_elems _ _ _ Hl)). }
  rewrite (run_bind_Ret _ _ _ _ _ El).
  unfold dumps, RawNginxDumper_str.
  rewrite (run_bind_Ret _ _ _ _ _ (run_get_spaced _ _ _ _ Hself)).
  rewrite (run_bind_Ret _ _ _ _ _ (run_get_elems _ _ _ Hspl)). cbn [elems].
  now rewrite (run_bind_Ret _ _ _ _ _ Ed).
Qed.

(** X17.  [dumps(loads(source))] is the text of the tokens the parser returns
    for [source]: between the parser and the dumper no token is lost,
    added or reordered. *)
Theorem loads_then_dumps_writes_the_tokens
    (fuel : nat) (source : string) (ts : list tok)
    (liness : list (list string)) (h : heap) :
  RawNginxParser.as_list source = Some ts ->
  Forall2 text_of ts liness ->
  size (TList ts) < fuel ->
  exists h', (tree <- loads fuel source ;; dumps fuel tree) h
             = (Ret (join (List.concat liness)), h').
Proof. apply loads_dumps. Qed.

End TokenFacts.

(** * More of the grammar *)

Module GrammarFacts.
Import Chars Re Pyparsing RawNginxParser ParserSpec ParserFacts TokenSpec
  TokenFacts GrammarSpec.
Local Open Scope string_scope.

Lemma span_all p w : all_chars p w = true -> span p w = (w, "").
Proof.
  intros H.
  induction w as [|c w IH]; simpl in *; [reflexivity|].
  apply andb_prop in H as [Hc Hw]. rewrite Hc, (IH Hw). reflexivity.
Qed.

Lemma script_skips fuel : skipWhitespace (script fuel false) = true.
Proof. destruct fuel; reflexivity. Qed.

(** X18.  A text that is empty or holds white characters only is no
    configuration: the parser raises. *)
Theorem whitespace_only_is_rejected (w : string) :
  all_chars is_white w = true -> as_list w = None.
Proof.
  intros Hw. unfold as_list, _parse, preParse.
  rewrite script_skips.
  change (span _ w) with (span is_white w). rewrite (span_all _ _ Hw).
  cbn [snd]. destruct (String.length w) as [|n]; vm_compute; reflexivity.
Qed.

Local Open Scope list_scope.

#[local] Arguments inb : simpl never.

Lemma string_length_app (a b : string) :
  String.length (a ++ b) = String.length a + String.length b.
Proof. induction a as [|c a IH]; simpl; [reflexivity|]. now rewrite IH. Qed.

Lemma substring_app (a b : string) : substring 0 (String.length a) (a ++ b) = a.
Proof.
  induction a as [|c a IH]; simpl.
  - destruct b; reflexivity.
  - now rewrite IH.
Qed.

Lemma consumed_app (a b : string) : consumed (a ++ b) b = a.
Proof.
  unfold consumed. rewrite string_length_app.
  replace (String.length a + String.length b - String.length b)
    with (String.length a) by lia.
  apply substring_app.
Qed.

Lemma string_app_nil_l (a : string) : (EmptyString ++ a)%string = a.
Proof. reflexivity. Qed.

Lemma stops_starts p s : starts p s = false -> stops p s.
Proof. destruct s; simpl; auto. Qed.

(** A greedy repetition of one character class takes the whole run. *)
Lemma rloop_run p t rest : forall fuel,
  all_chars p t = true -> stops p rest -> String.length t <= fuel ->
  rloop (one p) fuel (t ++ rest) Some = Some rest.
Proof.
  induction t as [|c t IH]; intros fuel Ht Hr Hf.
  - cbn [String.append]. destruct fuel as [|n]; [reflexivity|].
    cbn [rloop]. destruct rest as [|d rest]; cbn [one]; [reflexivity|].
    simpl in Hr. now rewrite Hr.
  - simpl in Ht. apply andb_prop in Ht as [Hc Ht].
    destruct fuel as [|n]; [simpl in Hf; lia|].
    cbn [rloop String.append one]. rewrite Hc.
    assert (Hlt : Nat.ltb (String.length (t ++ rest))
                          (String.length (String c (t ++ rest))) = true).
    { apply Nat.ltb_lt. simpl. lia. }
    rewrite Hlt, IH; [reflexivity|assumption|assumption|simpl in Hf; lia].
Qed.

Lemma re_match_rest_of_line t rest :
  all_chars no_lf t = true -> ends_line rest = true ->
  re_match (RStar RDot) (t ++ rest) = Some rest.
Proof.
  intros Ht Hr. unfold re_match. cbn [rmatch].
  change (rmatch RDot) with (one no_lf).
  apply rloop_run; [assumption| |rewrite string_length_app; lia].
  destruct rest as [|c rest]; simpl in *; [exact I|].
  unfold no_lf. now rewrite Hr.
Qed.

Lemma parse_restOfLine lv cp t rest :
  all_chars no_lf t = true -> ends_line rest = true ->
  _parse (restOfLine lv) cp (t ++ rest) = Some ([TStr t], rest).
Proof.
  intros Ht Hr.
  assert (H : parseImpl (restOfLine lv) (t ++ rest) = Some ([TStr t], rest)).
  { unfold restOfLine, leaveWhitespace. cbn [Regex parseImpl].
    unfold regex_impl.
    now rewrite (re_match_rest_of_line _ _ Ht Hr), consumed_app. }
  unfold _parse, preParse. destruct cp; exact H.
Qed.

(** A literal where the text starts with it and with no white character *)
Lemma parse_Literal lv cp m s :
  stops is_white (m ++ s) ->
  _parse (Literal m lv) cp (m ++ s) = Some ([TStr m], s).
Proof.
  intros Hs.
  assert (Hp : strip_prefix m (m ++ s) = Some s).
  { clear Hs. induction m as [|c m IH]; simpl; [now destruct s|].
    now rewrite Ascii.eqb_refl. }
  assert (H : parseImpl (Literal m lv) (m ++ s) = Some ([TStr m], s)).
  { cbn. now rewrite Hp. }
  unfold _parse, preParse. destruct cp; [|exact H].
  destruct (skipWhitespace (Literal m lv)); [|exact H].
  change (span _ (m ++ s)) with (span is_white (EmptyString ++ (m ++ s))).
  rewrite span_app_stop; [exact H|reflexivity|exact Hs].
Qed.

(** The comment rule: the white characters before the [#], the [#], and
    the rest of the line as it is. *)
Lemma parse_comment lv cp w t rest :
  all_chars is_white w = true ->
  all_chars no_lf t = true ->
  ends_line rest = true ->
  _parse (comment lv) cp (w ++ "#" ++ t ++ rest)
  = Some (ws_tok w ++ [TStr "#"; TStr t], rest).
Proof.
  intros Hw Ht Hr. unfold comment.
  rewrite !parse_And by reflexivity.
  rewrite (parse_space lv false w) by (assumption || reflexivity).
  rewrite (parse_Literal lv true "#") by reflexivity.
  rewrite (parse_restOfLine lv true t rest Ht Hr).
  rewrite <- !app_assoc. reflexivity.
Qed.

(** *** Plain values *)

Lemma plain_not_special c : is_plain c = true -> not_special c = true.
Proof.
  unfold is_plain, not_special. intros H.
  apply andb_prop in H as [H _]. now apply andb_prop in H as [H _].
Qed.

Lemma plain_not_quote c :
  is_plain c = true -> Ascii.eqb DQ c = false /\ Ascii.eqb SQ c = false.
Proof.
  unfold is_plain. intros H.
  apply andb_prop in H as [H H2]. apply andb_prop in H as [_ H1].
  rewrite (Ascii.eqb_sym DQ), (Ascii.eqb_sym SQ).
  split; now apply negb_true_iff.
Qed.

Lemma special_not_quote c :
  not_special c = false -> Ascii.eqb DQ c = false /\ Ascii.eqb SQ c = false.
Proof.
  unfold not_special. intros H. apply negb_false_iff in H.
  unfold inb in H.
  repeat (apply orb_prop in H as [H|H];
          [apply Ascii.eqb_eq in H; subst c; split; reflexivity|]).
  discriminate.
Qed.

Lemma value_body_plain c s k :
  is_plain c = true ->
  rmatch value_body (String c s) k
  = match k s with Some r => Some r | None => k (String c s) end.
Proof.
  intros Hc. destruct (plain_not_quote c Hc) as [Hd Hs].
  pose proof (plain_not_special c Hc) as Hn. unfold not_special in Hn.
  unfold value_body. cbn [rseq rmatch one]. rewrite Hd, Hs, Hn. reflexivity.
Qed.

Lemma value_body_stop s k :
  stops not_special s -> rmatch value_body s k = k s.
Proof.
  intros Hs. unfold value_body. destruct s as [|c s]; [reflexivity|].
  simpl in Hs. destruct (special_not_quote c Hs) as [Hd Hq].
  unfold not_special in Hs.
  cbn [rseq rmatch one]. rewrite Hd, Hq, Hs. reflexivity.
Qed.

Lemma rloop_plain v r : forall fuel,
  all_chars is_plain v = true -> stops not_special r ->
  String.length v <= fuel ->
  rloop (rmatch value_body) fuel (v ++ r) Some = Some r.
Proof.
  induction v as [|c v IH]; intros fuel Hv Hr Hf.
  - cbn [String.append]. destruct fuel as [|n]; [reflexivity|].
    cbn [rloop]. rewrite value_body_stop by exact Hr.
    now rewrite Nat.ltb_irrefl.
  - simpl in Hv. apply andb_prop in Hv as [Hc Hv].
    destruct fuel as [|n]; [simpl in Hf; lia|].
    cbn [rloop String.append]. rewrite value_body_plain by exact Hc.
    assert (Hlt : Nat.ltb (String.length (v ++ r))
                          (String.length (String c (v ++ r))) = true).
    { apply Nat.ltb_lt. simpl. lia. }
    rewrite Hlt, IH; [reflexivity|assumption|assumption|simpl in Hf; lia].
Qed.

(** The pattern of [value] takes a plain text up to the special
    character that ends it. *)
Lemma re_match_plain_value v r :
  all_chars is_plain v = true -> stops not_special r ->
  re_match value_re (v ++ r) = Some r.
Proof.
  intros Hv Hr. unfold re_match, value_re.
  change (rseq _) with value_body. cbn [rmatch].
  destruct v as [|c v].
  - cbn [String.append]. rewrite value_body_stop by exact Hr.
    apply (rloop_plain EmptyString r); [reflexivity|exact Hr|simpl; lia].
  - simpl in Hv. apply andb_prop in Hv as [Hc Hv].
    cbn [String.append]. rewrite value_body_plain by exact Hc.
    rewrite rloop_plain; [reflexivity|assumption|assumption|].
    rewrite string_length_app. lia.
Qed.

Lemma parse_plain_value lv cp v r :
  all_chars is_plain v = true -> stops not_special r ->
  stops is_white (v ++ r) ->
  _parse (value lv) cp (v ++ r) = Some ([TStr v], r).
Proof.
  intros Hv Hr Hw.
  assert (H : parseImpl (value lv) (v ++ r) = Some ([TStr v], r)).
  { cbn [value Regex parseImpl]. unfold regex_impl.
    now rewrite (re_match_plain_value _ _ Hv Hr), consumed_app. }
  unfold _parse, preParse. destruct cp; [|exact H].
  destruct (skipWhitespace (value lv)); [|exact H].
  change (span _ (v ++ r)) with (span is_white (EmptyString ++ (v ++ r))).
  rewrite span_app_stop; [exact H|reflexivity|exact Hw].
Qed.

Lemma stops_app p a b :
  stops p a -> (a = EmptyString -> stops p b) -> stops p (a ++ b).
Proof. destruct a; simpl; auto. Qed.

Lemma stops_key_white w s :
  w <> EmptyString -> all_chars is_white w = true -> stops is_key_char (w ++ s).
Proof.
  destruct w as [|c w]; [congruence|]. simpl. intros _ H.
  apply andb_prop in H as [H _]. now apply white_not_key.
Qed.

Lemma stops_key_gap g c r :
  all_chars is_white g = true -> is_key_char c = false ->
  stops is_key_char (g ++ String c r).
Proof.
  intros Hg Hc. destruct g as [|d g]; [exact Hc|].
  apply stops_key_white; [discriminate|exact Hg].
Qed.

(** The directive rule on a key, a gap and a plain value. *)
Lemma parse_directive lv cp w k g v rest :
  all_chars is_white w = true ->
  k <> EmptyString ->
  all_chars is_key_char k = true ->
  all_chars is_white g = true ->
  all_chars is_plain v = true ->
  starts is_white v = false ->
  stops is_key_char (g ++ v ++ ";" ++ rest) ->
  _parse (assignment lv) cp (w ++ k ++ g ++ v ++ ";" ++ rest)
  = Some (ws_tok w ++ [TStr k] ++ ws_tok g ++ [TStr v], rest).
Proof.
  intros Hw Hne Hk Hg Hv Hvw Hsk.
  unfold assignment, Optional_default.
  rewrite !parse_And by reflexivity.
  rewrite (parse_space lv false w) by (auto using stops_white_key).
  rewrite (parse_key lv true k (g ++ v ++ ";" ++ rest))
    by (auto using stops_white_key).
  rewrite parse_Optional_with by reflexivity.
  rewrite parse_And by reflexivity.
  assert (Hs : stops is_white (v ++ ";" ++ rest)).
  { apply stops_app; [now apply stops_starts|reflexivity]. }
  rewrite (parse_space lv false g (v ++ ";" ++ rest)) by assumption.
  rewrite (parse_plain_value lv true v (";" ++ rest)) by (assumption || reflexivity).
  rewrite parse_semicolon.
  rewrite <- !app_assoc. reflexivity.
Qed.

(** *** Where an element fails *)

Lemma span_stops p s : stops p s -> span p s = (EmptyString, s).
Proof.
  destruct s as [|c s]; simpl; [reflexivity|]. intros ->. reflexivity.
Qed.

Lemma parse_at_nonwhite e cp s :
  stops is_white s -> _parse e cp s = parseImpl e s.
Proof.
  intros Hs. unfold _parse, preParse. destruct (cp && _); [|reflexivity].
  destruct (skipWhitespace e); [|reflexivity].
  change (span _ s) with (span is_white s). now rewrite span_stops.
Qed.

Lemma strip_prefix_stop (p : ascii -> bool) m : forall k s,
  String.prefix m k = false -> all_chars p m = true ->
  stops p s -> strip_prefix m (k ++ s) = None.
Proof.
  induction m as [|a m IH]; intros k s Hp Hm Hs.
  - destruct k; discriminate.
  - simpl in Hm. apply andb_prop in Hm as [Ha Hm].
    destruct k as [|b k].
    + cbn [String.append]. destruct s as [|d s]; [reflexivity|].
      simpl in Hs. cbn [strip_prefix].
      destruct (Ascii.eqb a d) eqn:E; [|reflexivity].
      apply Ascii.eqb_eq in E. congruence.
    + cbn [String.append strip_prefix]. simpl in Hp.
      destruct (ascii_dec a b) as [->|Hab].
      * rewrite Ascii.eqb_refl. now apply IH.
      * apply Ascii.eqb_neq in Hab. now rewrite Hab.
Qed.

Lemma strip_prefix_key m k s :
  String.prefix m k = false -> all_chars is_key_char m = true ->
  stops is_key_char s -> strip_prefix m (k ++ s) = None.
Proof. apply strip_prefix_stop. Qed.

Lemma parse_Literal_fails lv cp m s :
  stops is_white s -> strip_prefix m s = None ->
  _parse (Literal m lv) cp s = None.
Proof.
  intros Hs Hm. rewrite parse_at_nonwhite by exact Hs. cbn. now rewrite Hm.
Qed.

Lemma parse_key_fails lv cp s :
  stops is_white s -> stops is_key_char s -> _parse (key lv) cp s = None.
Proof.
  intros Hw Hs. rewrite parse_at_nonwhite by exact Hw. cbn. unfold nonempty_run.
  change (span _ s) with (span is_key_char s).
  now rewrite span_stops.
Qed.

Lemma comment_fails lv cp w s :
  all_chars is_white w = true -> stops is_white s ->
  strip_prefix "#" s = None ->
  _parse (comment lv) cp (w ++ s) = None.
Proof.
  intros Hw Hs Hm. unfold comment. rewrite !parse_And by reflexivity.
  rewrite (parse_space lv false w) by assumption.
  now rewrite parse_Literal_fails.
Qed.

Lemma assignment_fails lv cp w s :
  all_chars is_white w = true -> stops is_white s -> stops is_key_char s ->
  _parse (assignment lv) cp (w ++ s) = None.
Proof.
  intros Hw Hs Hk. unfold assignment. rewrite !parse_And by reflexivity.
  rewrite (parse_space lv false w) by assumption.
  now rewrite parse_key_fails.
Qed.

(** *** Texts guarded by a semicolon *)

Lemma all_chars_app p a b :
  all_chars p (a ++ b) = all_chars p a && all_chars p b.
Proof.
  induction a as [|c a IH]; simpl; [reflexivity|].
  now rewrite IH, andb_assoc.
Qed.

Lemma all_chars_impl (p q : ascii -> bool) s :
  (forall c, p c = true -> q c = true) ->
  all_chars p s = true -> all_chars q s = true.
Proof.
  intros Hpq. induction s as [|c s IH]; simpl; [reflexivity|].
  intros H. apply andb_prop in H as [Hc Hs]. now rewrite (Hpq c Hc), IH.
Qed.

Lemma guarded_app x r :
  all_chars not_brace x = true -> guarded (x ++ ";" ++ r) = true.
Proof.
  induction x as [|c x IH]; simpl; [reflexivity|].
  intros H. apply andb_prop in H as [Hc Hx].
  destruct (Ascii.eqb c ";"); [reflexivity|].
  unfold not_brace in Hc. apply negb_true_iff in Hc. rewrite Hc. now apply IH.
Qed.

Lemma guarded_span p : forall s a b,
  p ";"%char = false -> span p s = (a, b) ->
  guarded s = true -> guarded b = true.
Proof.
  intros s a b Hp. revert a b.
  induction s as [|c s IH]; intros a b E G; [discriminate|].
  cbn [span] in E. destruct (p c) eqn:Hc.
  - destruct (span p s) as [a' b'] eqn:E'. injection E as <- <-.
    cbn [guarded] in G.
    destruct (Ascii.eqb c ";") eqn:Ec.
    { apply Ascii.eqb_eq in Ec. congruence. }
    destruct (Ascii.eqb c "{"); [discriminate|].
    now apply (IH a' b').
  - injection E as <- <-. exact G.
Qed.

Lemma guarded_strip m : forall s s1,
  all_chars not_semicolon m = true -> strip_prefix m s = Some s1 ->
  guarded s = true -> guarded s1 = true.
Proof.
  induction m as [|a m IH]; intros s s1 Hm E G.
  - cbn in E. destruct s; injection E as <-; exact G.
  - simpl in Hm. apply andb_prop in Hm as [Ha Hm].
    destruct s as [|b s]; [discriminate|].
    cbn [strip_prefix] in E. destruct (Ascii.eqb a b) eqn:Eab; [|discriminate].
    apply Ascii.eqb_eq in Eab. subst b.
    cbn [guarded] in G. unfold not_semicolon in Ha.
    apply negb_true_iff in Ha. rewrite Ha in G.
    destruct (Ascii.eqb a "{"); [discriminate|].
    now apply (IH s s1).
Qed.

Lemma guarded_preParse e s :
  guarded s = true -> guarded (preParse e s) = true.
Proof.
  intros G. unfold preParse. destruct (skipWhitespace e); [|exact G].
  destruct (span (fun c => inb c default_white) s) as [a b] eqn:E.
  cbn [snd].
  exact (guarded_span (fun c => inb c default_white) s a b eq_refl E G).
Qed.

Lemma keeps_parse e cp s ts s1 :
  keeps_guard e -> guarded s = true ->
  _parse e cp s = Some (ts, s1) -> guarded s1 = true.
Proof.
  intros He G. unfold _parse. destruct (cp && _); intros E.
  - apply (He _ _ _ (guarded_preParse e s G) E).
  - apply (He _ _ _ G E).
Qed.

Lemma keeps_And a b lv :
  keeps_guard (a lv) -> keeps_guard (b lv) -> keeps_guard (And a b lv).
Proof.
  intros Ha Hb s ts s1 G. cbn [And parseImpl].
  destruct (_parse (a lv) false s) as [[t1 r1]|] eqn:E1; [|discriminate].
  destruct (_parse (b lv) true r1) as [[t2 r2]|] eqn:E2; [|discriminate].
  intros [= <- <-].
  apply (keeps_parse _ _ _ _ _ Hb (keeps_parse _ _ _ _ _ Ha G E1) E2).
Qed.

Lemma keeps_Optional_with d a lv :
  keeps_guard (a lv) -> keeps_guard (Optional_with d a lv).
Proof.
  intros Ha s ts s1 G. cbn [Optional_with parseImpl].
  destruct (_parse (a lv) false s) as [[t1 r1]|] eqn:E1.
  - intros [= <- <-]. apply (keeps_parse _ _ _ _ _ Ha G E1).
  - intros [= <- <-]. exact G.
Qed.

Lemma keeps_MatchFirst a b lv :
  keeps_guard (a lv) -> keeps_guard (b lv) -> keeps_guard (MatchFirst a b lv).
Proof.
  intros Ha Hb s ts s1 G. cbn [MatchFirst parseImpl].
  destruct (_parse (a lv) true s) as [[t1 r1]|] eqn:E1.
  - intros [= <- <-]. apply (keeps_parse _ _ _ _ _ Ha G E1).
  - intros E2. apply (keeps_parse _ _ _ _ _ Hb G E2).
Qed.

Lemma keeps_Group a lv : keeps_guard (a lv) -> keeps_guard (Group a lv).
Proof.
  intros Ha s ts s1 G. cbn [Group parseImpl].
  destruct (_parse (a lv) false s) as [[t1 r1]|] eqn:E1; [|discriminate].
  intros [= <- <-]. apply (keeps_parse _ _ _ _ _ Ha G E1).
Qed.

Lemma keeps_run p m c :
  p ";"%char = false ->
  keeps_guard (mkPE m c (nonempty_run p)).
Proof.
  intros Hp s ts s1 G. cbn [parseImpl]. unfold nonempty_run.
  destruct (span p s) as [a b] eqn:E.
  destruct a as [|x a]; [discriminate|]. intros [= <- <-].
  exact (guarded_span p s (String x a) b Hp E G).
Qed.

Lemma keeps_Literal m lv :
  all_chars not_semicolon m = true -> keeps_guard (Literal m lv).
Proof.
  intros Hm s ts s1 G. cbn [Literal parseImpl].
  destruct (strip_prefix m s) as [r|] eqn:E; [|discriminate].
  intros [= <- <-]. now apply (guarded_strip m s).
Qed.

Lemma keeps_space lv : keeps_guard (space lv).
Proof.
  apply keeps_Optional_with. apply keeps_run. reflexivity.
Qed.

Lemma keeps_location_statement lv : keeps_guard (location_statement lv).
Proof.
  unfold location_statement.
  repeat first
    [ apply keeps_And | apply keeps_Optional_with | apply keeps_MatchFirst
    | apply keeps_space | apply keeps_Literal; reflexivity
    | apply keeps_run; reflexivity ].
Qed.

Lemma keeps_generic_header lv :
  keeps_guard (Group (space + key + location_statement)%pp lv).
Proof.
  apply keeps_Group. apply keeps_And; [apply keeps_And|].
  - apply keeps_space.
  - unfold key, Word. apply keeps_run. reflexivity.
  - apply keeps_location_statement.
Qed.

Lemma left_bracket_fails lv cp s :
  guarded s = true -> _parse (left_bracket lv) cp s = None.
Proof.
  intros G.
  assert (H : forall s', guarded s' = true ->
                parseImpl (left_bracket lv) s' = None).
  { intros s' G'. destruct s' as [|c s']; [discriminate|].
    cbn [guarded] in G'.
    assert (E : Ascii.eqb "{" c = false).
    { destruct (Ascii.eqb "{" c) eqn:E; [|reflexivity].
      apply Ascii.eqb_eq in E. subst c. discriminate. }
    unfold left_bracket, suppress. cbn [parseImpl]. unfold _parse.
    cbn [Literal parseImpl strip_prefix andb]. now rewrite E. }
  unfold _parse. destruct (cp && _); apply H;
    [now apply guarded_preParse|exact G].
Qed.

(** *** Block headers *)

Lemma parse_fail cp s : _parse fail cp s = None.
Proof. destruct cp; reflexivity. Qed.

Lemma parse_space_none lv cp s :
  stops is_white s -> _parse (space lv) cp s = Some ([], s).
Proof. intros Hs. exact (parse_space lv cp EmptyString s eq_refl Hs). Qed.

Lemma if_header_fails cp w s :
  all_chars is_white w = true -> stops is_white s ->
  strip_prefix "if" s = None ->
  _parse (Group if_statement true) cp (w ++ s) = None.
Proof.
  intros Hw Hs Hm. rewrite parse_Group by reflexivity.
  unfold if_statement. rewrite !parse_And by reflexivity.
  rewrite (parse_space true false w) by assumption.
  now rewrite parse_Literal_fails.
Qed.

Lemma map_header_fails cp w s :
  all_chars is_white w = true -> stops is_white s ->
  strip_prefix "map" s = None ->
  _parse (Group map_statement true) cp (w ++ s) = None.
Proof.
  intros Hw Hs Hm. rewrite parse_Group by reflexivity.
  unfold map_statement. rewrite !parse_And by reflexivity.
  rewrite (parse_space true false w) by assumption.
  now rewrite parse_Literal_fails.
Qed.

Lemma generic_header_fails cp w s :
  all_chars is_white w = true -> stops is_white s -> stops is_key_char s ->
  _parse (Group (space + key + location_statement)%pp true) cp (w ++ s) = None.
Proof.
  intros Hw Hs Hk. rewrite parse_Group by reflexivity.
  rewrite !parse_And by reflexivity.
  rewrite (parse_space true false w) by assumption.
  now rewrite parse_key_fails.
Qed.

Lemma block_header_eq lv cp s :
  _parse (block_header lv) cp s
  = match
      match _parse (Group (space + key + location_statement)%pp true) true s,
            _parse (Group if_statement true) true s with
      | Some (ta, ra), Some (tb, rb) =>
          if Nat.ltb (String.length rb) (String.length ra) then Some (tb, rb)
          else Some (ta, ra)
      | Some r, None => Some r
      | None, r => r
      end, _parse (Group map_statement true) true s with
    | Some (ta, ra), Some (tb, rb) =>
        if Nat.ltb (String.length rb) (String.length ra) then Some (tb, rb)
        else Some (ta, ra)
    | Some r, None => Some r
    | None, r => r
    end.
Proof. unfold block_header, leaveWhitespace. now rewrite !parse_Or. Qed.

Lemma literal_fails_at m s :
  m <> EmptyString -> all_chars is_key_char m = true -> stops is_key_char s ->
  strip_prefix m s = None.
Proof.
  intros Hne Hm Hs.
  apply (strip_prefix_key m EmptyString s); [|exact Hm|exact Hs].
  destruct m; [congruence|reflexivity].
Qed.

(** No header starts where no key does. *)
Lemma block_header_fails lv cp w s :
  all_chars is_white w = true -> stops is_white s -> stops is_key_char s ->
  _parse (block_header lv) cp (w ++ s) = None.
Proof.
  intros Hw Hs Hk. rewrite block_header_eq.
  rewrite generic_header_fails, if_header_fails, map_header_fails;
    try assumption; try reflexivity;
    apply literal_fails_at; (discriminate || reflexivity || assumption).
Qed.

Lemma block_eq n lv cp s :
  _parse (block (S n) lv) cp s
  = match _parse (block_header lv) false s with
    | Some (t1, s1) =>
        match _parse (left_bracket lv) true s1 with
        | Some (t2, s2) =>
            match _parse (Group (ZeroOrMore (body_item n) + space)%pp true)
                         true s2 with
            | Some (t3, s3) =>
                match _parse (right_bracket lv) true s3 with
                | Some (t4, s4) => Some ([TList (((t1 ++ t2) ++ t3) ++ t4)], s4)
                | None => None
                end
            | None => None
            end
        | None => None
        end
    | None => None
    end.
Proof.
  cbn [block]. rewrite parse_Group by reflexivity.
  rewrite !parse_And by reflexivity.
  destruct (_parse (block_header lv) false s) as [[t1 s1]|]; [|reflexivity].
  destruct (_parse (left_bracket lv) true s1) as [[t2 s2]|]; [|reflexivity].
  change (leaveWhitespace ?e lv) with (e true). unfold body_item.
  destruct (_parse _ true s2) as [[t3 s3]|]; [|reflexivity].
  destruct (_parse (right_bracket lv) true s3) as [[t4 s4]|]; reflexivity.
Qed.

Lemma block_fails n lv cp w s :
  all_chars is_white w = true -> stops is_white s -> stops is_key_char s ->
  _parse (block n lv) cp (w ++ s) = None.
Proof.
  intros Hw Hs Hk. destruct n as [|n]; [apply parse_fail|].
  rewrite block_eq. now rewrite block_header_fails.
Qed.

Lemma key_ok_inv k :
  key_ok k = true -> k <> EmptyString /\ all_chars is_key_char k = true.
Proof.
  unfold key_ok. intros H. apply andb_prop in H as [H1 H2]. split; [|exact H2].
  apply negb_true_iff in H1. now apply String.eqb_neq in H1.
Qed.

Lemma free_key_inv k s :
  free_key k = true -> stops is_key_char s ->
  strip_prefix "if" (k ++ s) = None /\ strip_prefix "map" (k ++ s) = None.
Proof.
  unfold free_key. intros H Hs. apply andb_prop in H as [H1 H2].
  apply negb_true_iff in H1, H2.
  split; apply strip_prefix_key; (assumption || reflexivity).
Qed.

(** *** The parts of a block header *)

Lemma inb_app c a b : inb c (a ++ b) = inb c a || inb c b.
Proof.
  induction a as [|d a IH]; [reflexivity|].
  cbn [String.append]. unfold inb; fold inb. now rewrite IH, orb_assoc.
Qed.

Lemma white_is_space c : is_white c = true -> inb c whitespace = true.
Proof.
  unfold is_white. intros H. unfold inb in H.
  repeat (apply orb_prop in H as [H|H];
          [apply Ascii.eqb_eq in H; subst c; reflexivity|]).
  discriminate.
Qed.

Lemma white_not_loc c : is_white c = true -> is_loc c = false.
Proof.
  intros H. unfold is_loc. rewrite inb_app, (white_is_space c H).
  now rewrite orb_true_r.
Qed.

Lemma arg_is_loc c : is_arg c = true -> is_loc c = true.
Proof.
  unfold is_arg, is_loc. intros H. apply andb_prop in H as [H1 H2].
  apply plain_not_special in H1. unfold not_special in H1.
  apply negb_true_iff in H1, H2. now rewrite inb_app, H1, H2.
Qed.

Lemma arg_not_white c : is_arg c = true -> is_white c = false.
Proof.
  intros H. destruct (is_white c) eqn:E; [|reflexivity].
  apply white_is_space in E. unfold is_arg in H.
  apply andb_prop in H as [_ H]. now rewrite E in H.
Qed.

Lemma arg_is_plain c : is_arg c = true -> is_plain c = true.
Proof. unfold is_arg. intros H. now apply andb_prop in H as [H _]. Qed.

Lemma white_is_plain c : is_white c = true -> is_plain c = true.
Proof.
  unfold is_white. intros H. unfold inb in H.
  repeat (apply orb_prop in H as [H|H];
          [apply Ascii.eqb_eq in H; subst c; reflexivity|]).
  discriminate.
Qed.

(** The text from the white characters before the left brace on. *)
Lemma stops_loc_gap g r :
  all_chars is_white g = true -> stops is_loc (g ++ "{" ++ r).
Proof.
  destruct g as [|c g]; [reflexivity|]. simpl. intros H.
  apply andb_prop in H as [H _]. now apply white_not_loc.
Qed.

Lemma parse_location cp loc s :
  loc <> EmptyString -> all_chars is_arg loc = true -> stops is_loc s ->
  _parse (location true) cp (loc ++ s) = Some ([TStr loc], s).
Proof.
  intros Hne Hl Hs.
  assert (H : parseImpl (location true) (loc ++ s) = Some ([TStr loc], s)).
  { cbn. change (nonempty_run _ (loc ++ s)) with (nonempty_run is_loc (loc ++ s)).
    rewrite (nonempty_run_app _ _ _ (all_chars_impl _ _ _ arg_is_loc Hl) Hs).
    destruct loc; congruence. }
  unfold _parse, preParse. destruct cp; exact H.
Qed.

Lemma is_modifier_inv m :
  is_modifier m = true -> m = "=" \/ m = "~*" \/ m = "~" \/ m = "^~".
Proof.
  unfold is_modifier. intros H.
  repeat (apply orb_prop in H as [H|H]); apply String.eqb_eq in H; auto.
Qed.

Lemma parse_modifier cp m s :
  is_modifier m = true -> (m = "~" -> strip_prefix "*" s = None) ->
  _parse (modifier true) cp (m ++ s) = Some ([TStr m], s).
Proof.
  intros Hm Hs. unfold modifier.
  rewrite !parse_MatchFirst, !parse_Literal_true.
  apply is_modifier_inv in Hm as [-> | [-> | [-> | ->]]]; try reflexivity.
  specialize (Hs eq_refl).
  change (strip_prefix "~*" ("~" ++ s)) with (strip_prefix "*" s).
  rewrite Hs. reflexivity.
Qed.

Lemma modifier_fails cp s :
  strip_prefix "=" s = None -> strip_prefix "~" s = None ->
  strip_prefix "^~" s = None ->
  _parse (modifier true) cp s = None.
Proof.
  intros H1 H2 H3. unfold modifier.
  rewrite !parse_MatchFirst, !parse_Literal_true.
  assert (H4 : strip_prefix "~*" s = None).
  { destruct s as [|c s]; [reflexivity|]. cbn [strip_prefix] in H2 |- *.
    destruct (Ascii.eqb "~" c); [destruct s; discriminate|reflexivity]. }
  now rewrite H1, H2, H3, H4.
Qed.

Lemma no_modifier_inv loc s :
  no_modifier loc = true -> stops is_loc s ->
  strip_prefix "=" (loc ++ s) = None /\ strip_prefix "~" (loc ++ s) = None
  /\ strip_prefix "^~" (loc ++ s) = None.
Proof.
  unfold no_modifier. intros H Hs.
  apply andb_prop in H as [H H3]. apply andb_prop in H as [H1 H2].
  apply negb_true_iff in H1, H2, H3.
  repeat split; apply (strip_prefix_stop is_loc); (assumption || reflexivity).
Qed.

Lemma ws_tok_nonempty s : s <> EmptyString -> ws_tok s = [TStr s].
Proof. destruct s; [congruence|reflexivity]. Qed.

Lemma parse_opt_location cp g2 loc g3 r :
  all_chars is_white g2 = true -> all_chars is_arg loc = true ->
  all_chars is_white g3 = true ->
  (loc = EmptyString -> g2 = EmptyString /\ g3 = EmptyString) ->
  _parse (Optional (space + location + space)%pp true) cp
         (g2 ++ loc ++ g3 ++ "{" ++ r)
  = Some (ws_tok g2 ++ ws_tok loc ++ ws_tok g3, ("{" ++ r)%string).
Proof.
  intros Hg2 Hl Hg3 He.
  rewrite parse_Optional by reflexivity. rewrite !parse_And by reflexivity.
  destruct loc as [|c loc].
  - destruct (He eq_refl) as [-> ->].
    rewrite !string_app_nil_l.
    rewrite parse_space_none by reflexivity.
    assert (Hf : _parse (location true) true ("{" ++ r) = None) by reflexivity.
    now rewrite Hf.
  - assert (Hs : stops is_white (String c loc ++ g3 ++ "{" ++ r)).
    { simpl in Hl |- *. apply andb_prop in Hl as [Hc _]. now apply arg_not_white. }
    rewrite (parse_space true false g2) by assumption.
    rewrite parse_location;
      [|discriminate|exact Hl|now apply stops_loc_gap].
    rewrite (parse_space true true g3 ("{" ++ r)) by (assumption || reflexivity).
    rewrite (ws_tok_nonempty (String c loc)) by discriminate.
    now rewrite <- !app_assoc.
Qed.

Lemma header_ok_inv k g m g2 loc g3 :
  header_ok (mkHeader k g m g2 loc g3) = true ->
  key_ok k = true /\ free_key k = true
  /\ all_chars is_white g = true /\ all_chars is_white g2 = true
  /\ all_chars is_arg loc = true /\ all_chars is_white g3 = true
  /\ starts is_key_char (g ++ m ++ loc) = false
  /\ ((m = EmptyString /\ g2 = EmptyString /\ no_modifier loc = true)
      \/ (m <> EmptyString /\ is_modifier m = true
          /\ (m = "~" -> starts (Ascii.eqb "*") (g2 ++ loc) = false)))
  /\ (loc = EmptyString -> g2 = EmptyString /\ g3 = EmptyString).
Proof.
  unfold header_ok. cbn [hkey hgap hmod hgap2 hloc hgap3]. intros H.
  apply andb_prop in H as [H H9]. apply andb_prop in H as [H H8].
  apply andb_prop in H as [H H7]. apply andb_prop in H as [H H6].
  apply andb_prop in H as [H H5]. apply andb_prop in H as [H H4].
  apply andb_prop in H as [H H3]. apply andb_prop in H as [H1 H2].
  do 6 (split; [assumption|]).
  split; [now apply negb_true_iff|]. split.
  - destruct (String.eqb_spec m "") as [->|Hne].
    + left. apply andb_prop in H8 as [Ha Hb].
      apply String.eqb_eq in Ha. auto.
    + right. apply andb_prop in H8 as [Ha Hb].
      split; [exact Hne|]. split; [exact Ha|].
      intros ->. apply negb_true_iff in Hb. exact Hb.
  - intros ->. cbn in H9. apply andb_prop in H9 as [Ha Hb].
    split; now apply String.eqb_eq.
Qed.

Lemma modifier_starts m s :
  is_modifier m = true ->
  stops is_white (m ++ s) /\ stops is_key_char (m ++ s)
  /\ all_chars is_plain m = true.
Proof.
  intros H. apply is_modifier_inv in H as [-> | [-> | [-> | ->]]];
    repeat split; reflexivity.
Qed.

Section Header.
Variables (k g m g2 loc g3 r : string).
Hypothesis Hok : header_ok (mkHeader k g m g2 loc g3) = true.

Lemma header_after_modifier_star :
  m = "~" -> strip_prefix "*" (g2 ++ loc ++ g3 ++ "{" ++ r) = None.
Proof.
  intros Hm.
  destruct (header_ok_inv _ _ _ _ _ _ Hok)
    as (_ & _ & _ & Hg2 & _ & Hg3 & _ & [[-> _]|(_ & _ & Hstar)] & He);
    [discriminate|].
  specialize (Hstar Hm).
  destruct g2 as [|c g2'].
  - destruct loc as [|d loc'].
    + destruct (He eq_refl) as [_ ->]. reflexivity.
    + cbn in Hstar |- *. now rewrite Hstar.
  - cbn in Hstar |- *. now rewrite Hstar.
Qed.

Lemma header_stops_white_after_gap :
  stops is_white (m ++ g2 ++ loc ++ g3 ++ "{" ++ r).
Proof.
  destruct (header_ok_inv _ _ _ _ _ _ Hok)
    as (_ & _ & _ & Hg2 & Hl & Hg3 & _ & [(-> & -> & _)|(_ & Hm & _)] & He).
  - rewrite !string_app_nil_l. destruct loc as [|c loc'].
    + destruct (He eq_refl) as [_ ->]. reflexivity.
    + simpl in Hl |- *. apply andb_prop in Hl as [Hc _]. now apply arg_not_white.
  - now apply modifier_starts.
Qed.

Lemma header_stops_key_after_key :
  stops is_key_char (g ++ m ++ g2 ++ loc ++ g3 ++ "{" ++ r).
Proof.
  destruct (header_ok_inv _ _ _ _ _ _ Hok)
    as (_ & _ & Hg & Hg2 & Hl & Hg3 & Hst & Hm & He).
  destruct g as [|c g'].
  - rewrite string_app_nil_l. rewrite string_app_nil_l in Hst.
    destruct Hm as [(-> & -> & _)|(_ & Hm & _)].
    + rewrite !string_app_nil_l. rewrite string_app_nil_l in Hst.
      destruct loc as [|d loc'].
      * destruct (He eq_refl) as [_ ->]. reflexivity.
      * exact Hst.
    + now apply modifier_starts.
  - exact Hst.
Qed.

Lemma header_value_plain :
  all_chars is_plain (m ++ g2 ++ loc ++ g3) = true.
Proof.
  destruct (header_ok_inv _ _ _ _ _ _ Hok)
    as (_ & _ & _ & Hg2 & Hl & Hg3 & _ & Hm & _).
  rewrite !all_chars_app.
  rewrite (all_chars_impl _ _ _ white_is_plain Hg2),
          (all_chars_impl _ _ _ arg_is_plain Hl),
          (all_chars_impl _ _ _ white_is_plain Hg3).
  destruct Hm as [(-> & _)|(_ & Hm & _)]; [reflexivity|].
  destruct (modifier_starts m EmptyString Hm) as (_ & _ & ->). reflexivity.
Qed.

Lemma parse_location_statement cp :
  _parse (location_statement true) cp (g ++ m ++ g2 ++ loc ++ g3 ++ "{" ++ r)
  = Some (ws_tok g ++ ws_tok m ++ ws_tok g2 ++ ws_tok loc ++ ws_tok g3,
          ("{" ++ r)%string).
Proof.
  pose proof header_stops_white_after_gap as Hsw.
  pose proof header_after_modifier_star as Hstar.
  destruct (header_ok_inv _ _ _ _ _ _ Hok)
    as (_ & _ & Hg & Hg2 & Hl & Hg3 & _ & Hm & He).
  unfold location_statement. rewrite !parse_And by reflexivity.
  rewrite (parse_space true false g) by assumption.
  rewrite parse_Optional by reflexivity.
  destruct Hm as [(-> & -> & Hno)|(Hne & Hm & _)].
  - rewrite !string_app_nil_l.
    destruct (no_modifier_inv loc (g3 ++ "{" ++ r) Hno (stops_loc_gap g3 r Hg3))
      as (H1 & H2 & H3).
    rewrite (modifier_fails false _ H1 H2 H3).
    pose proof (parse_opt_location true EmptyString loc g3 r eq_refl Hl Hg3 He) as E.
    rewrite string_app_nil_l in E. rewrite E. now rewrite !app_nil_r.
  - rewrite (parse_modifier false m _ Hm Hstar).
    rewrite (parse_opt_location true g2 loc g3 r Hg2 Hl Hg3 He).
    rewrite (ws_tok_nonempty m Hne). now rewrite <- !app_assoc.
Qed.

End Header.

Lemma header_text_app k g m g2 loc g3 s :
  (header_text (mkHeader k g m g2 loc g3) ++ s
   = k ++ g ++ m ++ g2 ++ loc ++ g3 ++ s)%string.
Proof.
  unfold header_text. cbn [hkey hgap hmod hgap2 hloc hgap3].
  now rewrite !string_app_assoc.
Qed.

(** The header of a block. *)
Lemma parse_block_header lv cp w hd r :
  all_chars is_white w = true -> header_ok hd = true ->
  _parse (block_header lv) cp (w ++ header_text hd ++ "{" ++ r)
  = Some ([TList (ws_tok w ++ header_toks hd)], ("{" ++ r)%string).
Proof.
  intros Hw Hok. destruct hd as [k g m g2 loc g3].
  rewrite header_text_app.
  pose proof (header_stops_key_after_key k g m g2 loc g3 r Hok) as Hsk.
  pose proof (parse_location_statement k g m g2 loc g3 r Hok true) as Els.
  destruct (header_ok_inv _ _ _ _ _ _ Hok) as (Hk & Hf & _).
  apply key_ok_inv in Hk as [Hne Hk].
  destruct (free_key_inv k _ Hf Hsk) as [Hif Hmap].
  assert (Hsw : stops is_white (k ++ g ++ m ++ g2 ++ loc ++ g3 ++ "{" ++ r))
    by now apply stops_white_key.
  rewrite block_header_eq.
  rewrite if_header_fails, map_header_fails by assumption.
  rewrite parse_Group by reflexivity.
  rewrite !parse_And by reflexivity.
  rewrite (parse_space true false w) by assumption.
  rewrite (parse_key true true k) by assumption.
  rewrite Els. unfold header_toks. cbn [hkey hgap hmod hgap2 hloc hgap3].
  now rewrite <- !app_assoc.
Qed.

(** The text of a block is no directive: the pattern of [value] stops at
    the left brace, where no semicolon stands. *)
Lemma assignment_fails_at_header lv cp w hd r :
  all_chars is_white w = true -> header_ok hd = true ->
  _parse (assignment lv) cp (w ++ header_text hd ++ "{" ++ r) = None.
Proof.
  intros Hw Hok. destruct hd as [k g m g2 loc g3].
  rewrite header_text_app.
  pose proof (header_stops_key_after_key k g m g2 loc g3 r Hok) as Hsk.
  pose proof (header_stops_white_after_gap k g m g2 loc g3 r Hok) as Hsw.
  pose proof (header_value_plain k g m g2 loc g3 Hok) as Hv.
  destruct (header_ok_inv _ _ _ _ _ _ Hok) as (Hk & _ & Hg & _).
  apply key_ok_inv in Hk as [Hne Hk].
  unfold assignment, Optional_default.
  rewrite !parse_And by reflexivity.
  rewrite (parse_space lv false w) by (auto using stops_white_key).
  rewrite (parse_key lv true k) by (auto using stops_white_key).
  rewrite parse_Optional_with by reflexivity.
  rewrite parse_And by reflexivity.
  rewrite (parse_space lv false g) by assumption.
  assert (Ev : _parse (value lv) true (m ++ g2 ++ loc ++ g3 ++ "{" ++ r)
               = Some ([TStr (m ++ g2 ++ loc ++ g3)], ("{" ++ r)%string)).
  { set (X := ("{" ++ r)%string) in *.
    replace (m ++ g2 ++ loc ++ g3 ++ X)%string
      with ((m ++ g2 ++ loc ++ g3) ++ X)%string
      by now rewrite !string_app_assoc.
    apply parse_plain_value; [exact Hv|reflexivity|].
    now rewrite !string_app_assoc. }
  rewrite Ev. unfold _parse, preParse. destruct lv; reflexivity.
Qed.

Lemma parse_left_bracket lv cp r :
  _parse (left_bracket lv) cp ("{" ++ r) = Some ([], r).
Proof. unfold _parse, preParse. destruct cp, lv; reflexivity. Qed.

Lemma parse_right_bracket lv cp r :
  _parse (right_bracket lv) cp ("}" ++ r) = Some ([], r).
Proof. unfold _parse, preParse. destruct cp, lv; reflexivity. Qed.

(** A directive is no block: its text leads to the semicolon, and no
    header crosses it. *)
Lemma block_fails_guarded n lv cp k s :
  key_ok k = true -> free_key k = true -> stops is_key_char s ->
  guarded (k ++ s) = true ->
  _parse (block n lv) cp (k ++ s) = None.
Proof.
  intros Hk Hf Hs G. destruct n as [|n]; [apply parse_fail|].
  apply key_ok_inv in Hk as [Hne Hk].
  destruct (free_key_inv k s Hf Hs) as [Hif Hmap].
  assert (Hsw : stops is_white (k ++ s)) by now apply stops_white_key.
  rewrite block_eq, block_header_eq.
  assert (Ei : _parse (Group if_statement true) true (k ++ s) = None)
    by exact (if_header_fails true EmptyString (k ++ s) eq_refl Hsw Hif).
  assert (Em : _parse (Group map_statement true) true (k ++ s) = None)
    by exact (map_header_fails true EmptyString (k ++ s) eq_refl Hsw Hmap).
  rewrite Ei, Em.
  destruct (_parse (Group (space + key + location_statement)%pp true) true (k ++ s))
    as [[t1 s1]|] eqn:E; [|reflexivity].
  rewrite left_bracket_fails; [reflexivity|].
  exact (keeps_parse _ _ _ _ _ (keeps_generic_header true) G E).
Qed.

(** *** The items of a block body *)

Lemma group_rules_eq cp s :
  _parse (Group (comment :|: assignment)%pp true) cp s
  = match
      match _parse (comment true) true s with
      | Some r => Some r
      | None => _parse (assignment true) true s
      end
    with
    | Some (ts, rest) => Some ([TList ts], rest)
    | None => None
    end.
Proof. rewrite parse_Group by reflexivity. now rewrite parse_MatchFirst. Qed.

Lemma body_item_eq n cp s :
  _parse (body_item n true) cp s
  = match _parse (Group (comment :|: assignment)%pp true) true s with
    | Some r => Some r
    | None => _parse (block n false) false s
    end.
Proof. unfold body_item. now rewrite parse_MatchFirst. Qed.

Lemma hash_not_key k s :
  k <> EmptyString -> all_chars is_key_char k = true ->
  strip_prefix "#" (k ++ s) = None.
Proof.
  destruct k as [|c k]; [congruence|]. intros _ H. simpl in H.
  apply andb_prop in H as [H _]. cbn [String.append strip_prefix].
  destruct (Ascii.eqb "#" c) eqn:E; [|reflexivity].
  apply Ascii.eqb_eq in E. subst c. discriminate.
Qed.

Lemma join_cons a l : join (a :: l) = (a ++ join l)%string.
Proof. reflexivity. Qed.

Lemma stmts_text_cons it its :
  stmts_text (it :: its) = (stmt_text it ++ stmts_text its)%string.
Proof. reflexivity. Qed.

Lemma directive_ok_inv w k g v :
  stmt_ok (Directive w k g v) = true ->
  all_chars is_white w = true /\ key_ok k = true
  /\ all_chars is_white g = true /\ all_chars is_plain v = true
  /\ starts is_white v = false /\ (g <> EmptyString \/ v = EmptyString).
Proof.
  cbn [stmt_ok]. intros H.
  repeat (apply andb_prop in H as [H ?]).
  repeat split; try assumption.
  - now apply negb_true_iff.
  - match goal with X : (_ || _) = true |- _ => apply orb_prop in X as [Y|Y] end.
    + left. apply negb_true_iff in Y. now apply String.eqb_neq in Y.
    + right. now apply String.eqb_eq in Y.
Qed.

Lemma block_ok_inv w hd body e :
  stmt_ok (Block w hd body e) = true ->
  all_chars is_white w = true /\ header_ok hd = true
  /\ forallb stmt_ok body = true
  /\ lines_ok body (e ++ "}") = true /\ all_chars is_white e = true.
Proof.
  cbn [stmt_ok]. intros H.
  apply andb_prop in H as [H H5]. apply andb_prop in H as [H H4].
  apply andb_prop in H as [H H3]. apply andb_prop in H as [H1 H2].
  auto.
Qed.

Lemma header_starts hd s :
  header_ok hd = true -> stops is_white (header_text hd ++ s).
Proof.
  destruct hd as [k g m g2 loc g3]. intros Hok. rewrite header_text_app.
  destruct (header_ok_inv _ _ _ _ _ _ Hok) as (Hk & _).
  apply key_ok_inv in Hk as [Hne Hk]. now apply stops_white_key.
Qed.

Lemma hash_not_header hd s :
  header_ok hd = true -> strip_prefix "#" (header_text hd ++ s) = None.
Proof.
  destruct hd as [k g m g2 loc g3]. intros Hok. rewrite header_text_app.
  destruct (header_ok_inv _ _ _ _ _ _ Hok) as (Hk & _).
  apply key_ok_inv in Hk as [Hne Hk]. now apply hash_not_key.
Qed.

Lemma directive_stops_key g v rest :
  all_chars is_white g = true -> (g <> EmptyString \/ v = EmptyString) ->
  stops is_key_char (g ++ v ++ ";" ++ rest).
Proof.
  intros Hg [Hne| ->].
  - now apply stops_key_white.
  - apply (stops_key_gap g ";" rest); [exact Hg|reflexivity].
Qed.

(** The text of a directive item under the directive rule. *)
Lemma parse_directive_stmt lv cp w k g v rest :
  stmt_ok (Directive w k g v) = true ->
  _parse (assignment lv) cp (stmt_text (Directive w k g v) ++ rest)
  = Some (ws_tok w ++ [TStr k] ++ ws_tok g ++ [TStr v], rest).
Proof.
  intros H. apply directive_ok_inv in H as (Hw & Hk & Hg & Hv & Hs & Hgv).
  apply key_ok_inv in Hk as [Hne Hk].
  cbn [stmt_text]. rewrite !string_app_assoc.
  apply parse_directive; try assumption.
  now apply directive_stops_key.
Qed.

Lemma ends_line_app x b :
  x <> EmptyString -> ends_line (x ++ b) = ends_line x.
Proof. destruct x; [congruence|reflexivity]. Qed.

Lemma app_not_empty a b : b <> EmptyString -> (a ++ b)%string <> EmptyString.
Proof. destruct a; [auto|discriminate]. Qed.

Lemma lines_ok_ext its a b :
  a <> EmptyString -> lines_ok its (a ++ b) = lines_ok its a.
Proof.
  intros Ha. induction its as [|it its IH]; [reflexivity|].
  cbn [lines_ok]. rewrite IH. f_equal.
  destruct it; try reflexivity.
  rewrite <- string_app_assoc. apply ends_line_app. now apply app_not_empty.
Qed.

Lemma stmt_text_length it : 1 <= String.length (stmt_text it).
Proof.
  destruct it; cbn [stmt_text]; rewrite !string_length_app; simpl; lia.
Qed.

Lemma stmts_text_length its : length its <= String.length (stmts_text its).
Proof.
  induction its as [|it its IH]; [simpl; lia|].
  rewrite stmts_text_cons, string_length_app. pose proof (stmt_text_length it).
  simpl. lia.
Qed.

Section Body.
Variable n : nat.
Hypothesis blocks_below :
  forall w hd body e cp rest,
    stmt_ok (Block w hd body e) = true -> depth (Block w hd body e) <= n ->
    _parse (block n false) cp (stmt_text (Block w hd body e) ++ rest)
    = Some ([stmt_tok (Block w hd body e)], rest).

Lemma parse_body_item cp it rest :
  stmt_ok it = true -> depth it <= n ->
  match it with Comment _ _ => ends_line rest = true | _ => True end ->
  _parse (body_item n true) cp (stmt_text it ++ rest)
  = Some ([stmt_tok it], rest).
Proof.
  intros Hok Hd Hend. rewrite body_item_eq, group_rules_eq.
  destruct it as [w k g v|w t|w hd body e].
  - rewrite parse_directive_stmt by exact Hok.
    apply directive_ok_inv in Hok as (Hw & Hk & _).
    apply key_ok_inv in Hk as [Hne Hk].
    cbn [stmt_text]. rewrite !string_app_assoc.
    rewrite comment_fails;
      [reflexivity|exact Hw|now apply stops_white_key|now apply hash_not_key].
  - cbn [stmt_ok] in Hok. apply andb_prop in Hok as [Hw Ht].
    cbn [stmt_text]. rewrite !string_app_assoc.
    now rewrite parse_comment.
  - rewrite (blocks_below w hd body e false rest Hok Hd).
    apply block_ok_inv in Hok as (Hw & Hh & _).
    cbn [stmt_text]. rewrite !string_app_assoc.
    rewrite comment_fails;
      [|exact Hw|now apply header_starts|now apply hash_not_header].
    now rewrite assignment_fails_at_header.
Qed.

(** Where the body ends, no further item starts. *)
Lemma body_item_fails cp e r :
  all_chars is_white e = true ->
  _parse (body_item n true) cp (e ++ "}" ++ r) = None.
Proof.
  intros He. rewrite body_item_eq, group_rules_eq.
  rewrite comment_fails, assignment_fails, block_fails
    by (assumption || reflexivity).
  reflexivity.
Qed.

Lemma parse_body_items its : forall fuel acc tail,
  forallb stmt_ok its = true ->
  Forall (fun it => depth it <= n) its ->
  lines_ok its tail = true ->
  _parse (body_item n true) true tail = None ->
  length its < fuel ->
  repeat_more (body_item n true) fuel acc (stmts_text its ++ tail)
  = Some (acc ++ map stmt_tok its, tail).
Proof.
  induction its as [|it its IH]; intros fuel acc tail Hok Hd Hl Ht Hf.
  - destruct fuel as [|f]; [simpl in Hf; lia|].
    cbn [repeat_more stmts_text map join fold_right String.append].
    now rewrite Ht, app_nil_r.
  - destruct fuel as [|f]; [simpl in Hf; lia|].
    cbn [forallb] in Hok. apply andb_prop in Hok as [Hok Hoks].
    cbn [lines_ok] in Hl. apply andb_prop in Hl as [Hl Hls].
    apply Forall_cons_1 in Hd as [Hd Hds].
    rewrite stmts_text_cons, string_app_assoc. cbn [repeat_more].
    rewrite parse_body_item; [|exact Hok|exact Hd|].
    2:{ destruct it; try exact I. exact Hl. }
    rewrite IH; [|assumption|assumption|assumption|assumption|simpl in Hf; lia].
    now rewrite <- app_assoc.
Qed.

Lemma parse_body cp its tail :
  forallb stmt_ok its = true ->
  Forall (fun it => depth it <= n) its ->
  lines_ok its tail = true ->
  (forall cp', _parse (body_item n true) cp' tail = None) ->
  _parse (ZeroOrMore (body_item n) true) cp (stmts_text its ++ tail)
  = Some (map stmt_tok its, tail).
Proof.
  intros Hok Hd Hl Ht.
  assert (H : parseImpl (ZeroOrMore (body_item n) true) (stmts_text its ++ tail)
              = Some (map stmt_tok its, tail)).
  { cbn [ZeroOrMore parseImpl]. destruct its as [|it its].
    - cbn [stmts_text map join fold_right String.append]. now rewrite Ht.
    - cbn [forallb] in Hok. apply andb_prop in Hok as [Hok Hoks].
      cbn [lines_ok] in Hl. apply andb_prop in Hl as [Hl Hls].
      apply Forall_cons_1 in Hd as [Hd Hds].
      rewrite stmts_text_cons, string_app_assoc.
      rewrite parse_body_item; [|exact Hok|exact Hd|].
      2:{ destruct it; try exact I. exact Hl. }
      rewrite parse_body_items; try assumption; [reflexivity|apply Ht|].
      rewrite string_length_app. pose proof (stmts_text_length its). lia. }
  unfold _parse, preParse. destruct cp; exact H.
Qed.

Lemma parse_block_step w hd body e cp rest :
  stmt_ok (Block w hd body e) = true ->
  depth (Block w hd body e) <= S n ->
  _parse (block (S n) false) cp (stmt_text (Block w hd body e) ++ rest)
  = Some ([stmt_tok (Block w hd body e)], rest).
Proof.
  intros Hok Hd.
  apply block_ok_inv in Hok as (Hw & Hh & Hb & Hl & He).
  cbn [depth] in Hd. apply le_S_n in Hd.
  assert (Hds : Forall (fun it => depth it <= n) body).
  { apply List.Forall_forall. intros it Hin.
    apply Nat.le_trans with (list_max (map depth body)); [|exact Hd].
    assert (Hm : Forall (fun k => k <= list_max (map depth body)) (map depth body))
      by now apply list_max_le.
    rewrite List.Forall_forall in Hm. apply Hm. now apply in_map. }
  cbn [stmt_text stmt_tok]. fold (stmts_text body).
  rewrite !string_app_assoc.
  rewrite block_eq, parse_block_header by assumption.
  rewrite parse_left_bracket.
  rewrite parse_Group by reflexivity. rewrite parse_And by reflexivity.
  rewrite parse_body; try assumption.
  - rewrite (parse_space true true e ("}" ++ rest)) by (assumption || reflexivity).
    rewrite parse_right_bracket. now rewrite !app_nil_r.
  - rewrite <- string_app_assoc, lines_ok_ext; [exact Hl|].
    now apply app_not_empty.
  - intros cp'. now apply body_item_fails.
Qed.

End Body.

(** The text of a block item under [block]. *)
Lemma parse_block_stmt n : forall w hd body e cp rest,
  stmt_ok (Block w hd body e) = true ->
  depth (Block w hd body e) <= n ->
  _parse (block n false) cp (stmt_text (Block w hd body e) ++ rest)
  = Some ([stmt_tok (Block w hd body e)], rest).
Proof.
  induction n as [|n IH]; intros w hd body e cp rest Hok Hd.
  - cbn [depth] in Hd. lia.
  - now apply parse_block_step.
Qed.

(** *** The items of the script *)

Lemma group_rules_top cp s :
  _parse (Group (comment :|: assignment)%pp false) cp s
  = match
      match _parse (comment false) true s with
      | Some r => Some r
      | None => _parse (assignment false) true s
      end
    with
    | Some (ts, rest) => Some ([TList ts], rest)
    | None => None
    end.
Proof. destruct cp; reflexivity. Qed.

(** [Or] calls no [preParse]: an element of the script is parsed where
    the element before it ended. *)
Lemma script_item_noskip n cp s :
  _parse (script_item n false) cp s = parseImpl (script_item n false) s.
Proof. destruct cp; reflexivity. Qed.

Lemma script_item_impl n s :
  parseImpl (script_item n false) s
  = match _parse (Group (comment :|: assignment)%pp false) true s,
          _parse (block n false) true s with
    | Some (ta, ra), Some (tb, rb) =>
        if Nat.ltb (String.length rb) (String.length ra) then Some (tb, rb)
        else Some (ta, ra)
    | Some r, None => Some r
    | None, r => r
    end.
Proof. reflexivity. Qed.

Lemma key_not_brace c : is_key_char c = true -> not_brace c = true.
Proof.
  intros H. unfold not_brace. destruct (Ascii.eqb c "{") eqn:E; [|reflexivity].
  apply Ascii.eqb_eq in E. subst c. discriminate.
Qed.

Lemma white_not_brace c : is_white c = true -> not_brace c = true.
Proof.
  intros H. unfold not_brace. destruct (Ascii.eqb c "{") eqn:E; [|reflexivity].
  apply Ascii.eqb_eq in E. subst c. discriminate.
Qed.

Lemma plain_not_brace c : is_plain c = true -> not_brace c = true.
Proof.
  intros H. unfold not_brace. destruct (Ascii.eqb c "{") eqn:E; [|reflexivity].
  apply Ascii.eqb_eq in E. subst c. discriminate.
Qed.

Lemma directive_guarded k g v rest :
  all_chars is_key_char k = true -> all_chars is_white g = true ->
  all_chars is_plain v = true ->
  guarded (k ++ g ++ v ++ ";" ++ rest) = true.
Proof.
  intros Hk Hg Hv.
  rewrite <- (string_app_assoc g), <- (string_app_assoc k).
  apply guarded_app. rewrite !all_chars_app.
  rewrite (all_chars_impl _ _ _ key_not_brace Hk),
          (all_chars_impl _ _ _ white_not_brace Hg),
          (all_chars_impl _ _ _ plain_not_brace Hv).
  reflexivity.
Qed.

Lemma stmt_ok_unlead it : stmt_ok it = true -> stmt_ok (unlead it) = true.
Proof.
  destruct it as [w k g v|w t|w hd body e]; cbn [stmt_ok unlead]; intros H.
  - repeat (apply andb_prop in H as [H ?]). cbn [all_chars].
    repeat match goal with X : _ = true |- _ => rewrite X; clear X end.
    reflexivity.
  - apply andb_prop in H as [_ H]. exact H.
  - repeat (apply andb_prop in H as [H ?]). cbn [all_chars].
    repeat match goal with X : _ = true |- _ => rewrite X; clear X end.
    reflexivity.
Qed.

Lemma stmt_text_lead it :
  stmt_text it = (lead it ++ stmt_text (unlead it))%string.
Proof. destruct it; reflexivity. Qed.

Lemma stmt_starts it rest :
  stmt_ok it = true -> stops is_white (stmt_text (unlead it) ++ rest).
Proof.
  destruct it as [w k g v|w t|w hd body e]; intros H.
  - apply directive_ok_inv in H as (_ & Hk & _).
    apply key_ok_inv in Hk as [Hne Hk].
    cbn [unlead stmt_text]. rewrite !string_app_assoc, string_app_nil_l.
    now apply stops_white_key.
  - reflexivity.
  - apply block_ok_inv in H as (_ & Hh & _).
    cbn [unlead stmt_text]. rewrite !string_app_assoc, string_app_nil_l.
    now apply header_starts.
Qed.

Lemma guarded_lead w s :
  all_chars is_white w = true -> guarded s = true -> guarded (w ++ s) = true.
Proof.
  intros Hw G. induction w as [|c w IH]; [exact G|].
  simpl in Hw. apply andb_prop in Hw as [Hc Hw].
  cbn [String.append guarded].
  destruct (Ascii.eqb c ";"); [reflexivity|].
  pose proof (white_not_brace c Hc) as Hb. unfold not_brace in Hb.
  apply negb_true_iff in Hb. rewrite Hb. now apply IH.
Qed.

(** A directive is no block, with the white characters in front of it. *)
Lemma block_fails_at_directive n lv cp w k s :
  all_chars is_white w = true ->
  key_ok k = true -> free_key k = true -> stops is_key_char s ->
  guarded (k ++ s) = true ->
  _parse (block n lv) cp (w ++ k ++ s) = None.
Proof.
  intros Hw Hk Hf Hs G. destruct n as [|n]; [apply parse_fail|].
  apply key_ok_inv in Hk as [Hne Hk].
  destruct (free_key_inv k s Hf Hs) as [Hif Hmap].
  assert (Hsw : stops is_white (k ++ s)) by now apply stops_white_key.
  rewrite block_eq, block_header_eq.
  assert (Ei : _parse (Group if_statement true) true (w ++ k ++ s) = None)
    by exact (if_header_fails true w (k ++ s) Hw Hsw Hif).
  assert (Em : _parse (Group map_statement true) true (w ++ k ++ s) = None)
    by exact (map_header_fails true w (k ++ s) Hw Hsw Hmap).
  rewrite Ei, Em.
  destruct (_parse (Group (space + key + location_statement)%pp true) true
                   (w ++ k ++ s))
    as [[t1 s1]|] eqn:E; [|reflexivity].
  rewrite left_bracket_fails; [reflexivity|].
  exact (keeps_parse _ _ _ _ _ (keeps_generic_header true)
           (guarded_lead w _ Hw G) E).
Qed.

(** An item of the script with the white characters in front of it: they
    are tokens of the item. *)
Lemma parse_script_item n cp it rest :
  stmt_ok it = true -> top_ok it = true -> depth it <= n ->
  match it with Comment _ _ => ends_line rest = true | _ => True end ->
  _parse (script_item n false) cp (stmt_text it ++ rest)
  = Some ([stmt_tok it], rest).
Proof.
  intros Hok Htop Hd Hend.
  rewrite script_item_noskip, script_item_impl, group_rules_top.
  destruct it as [w k g v|w t|w hd body e].
  - rewrite parse_directive_stmt by exact Hok.
    apply directive_ok_inv in Hok as (Hw & Hk & Hg & Hv & Hs & Hgv).
    pose proof Hk as Hk'. apply key_ok_inv in Hk' as [Hne Hkc].
    cbn [stmt_text]. rewrite !string_app_assoc.
    assert (Ec : _parse (comment false) true (w ++ k ++ g ++ v ++ ";" ++ rest)
                 = None).
    { apply (comment_fails false true w);
        [exact Hw|now apply stops_white_key|now apply hash_not_key]. }
    rewrite Ec.
    rewrite block_fails_at_directive;
      [reflexivity|exact Hw|exact Hk|exact Htop|now apply directive_stops_key
      |now apply directive_guarded].
  - cbn [stmt_ok] in Hok. apply andb_prop in Hok as [Hw Ht].
    cbn [stmt_text]. rewrite !string_app_assoc.
    assert (Ec : _parse (comment false) true (w ++ "#" ++ t ++ rest)
                 = Some (ws_tok w ++ [TStr "#"; TStr t], rest))
      by exact (parse_comment false true w t rest Hw Ht Hend).
    rewrite Ec.
    assert (Eb : _parse (block n false) true (w ++ "#" ++ t ++ rest) = None)
      by exact (block_fails n false true w ("#" ++ t ++ rest)
                  Hw eq_refl eq_refl).
    now rewrite Eb.
  - rewrite (parse_block_stmt n w hd body e true rest Hok Hd).
    apply block_ok_inv in Hok as (Hw & Hh & _).
    cbn [stmt_text]. rewrite !string_app_assoc.
    fold (stmts_text body).
    set (r := (stmts_text body ++ e ++ "}" ++ rest)%string).
    assert (Ec : _parse (comment false) true (w ++ header_text hd ++ "{" ++ r)
                 = None).
    { apply (comment_fails false true w);
        [exact Hw|now apply header_starts|now apply hash_not_header]. }
    rewrite Ec.
    assert (Ea : _parse (assignment false) true
                   (w ++ header_text hd ++ "{" ++ r) = None)
      by exact (assignment_fails_at_header false true w hd r Hw Hh).
    now rewrite Ea.
Qed.

(** White characters alone are no item. *)
Lemma script_item_fails n cp w :
  all_chars is_white w = true -> _parse (script_item n false) cp w = None.
Proof.
  intros Hw.
  rewrite script_item_noskip, script_item_impl, group_rules_top.
  rewrite <- (string_app_nil_r w).
  rewrite (comment_fails false true w EmptyString Hw I eq_refl).
  rewrite (assignment_fails false true w EmptyString Hw I I).
  now rewrite (block_fails n false true w EmptyString Hw I I).
Qed.

Lemma parse_script_items n its : forall fuel acc w,
  forallb stmt_ok its = true -> forallb top_ok its = true ->
  Forall (fun it => depth it <= n) its ->
  lines_ok its w = true ->
  all_chars is_white w = true ->
  length its < fuel ->
  repeat_more (script_item n false) fuel acc (stmts_text its ++ w)
  = Some (acc ++ map stmt_tok its, w).
Proof.
  induction its as [|it its IH]; intros fuel acc w Hok Htop Hd Hl Hw Hf.
  - destruct fuel as [|f]; [simpl in Hf; lia|].
    cbn [repeat_more stmts_text map join fold_right String.append].
    now rewrite script_item_fails, app_nil_r.
  - destruct fuel as [|f]; [simpl in Hf; lia|].
    cbn [forallb] in Hok, Htop.
    apply andb_prop in Hok as [Hok Hoks]. apply andb_prop in Htop as [Htop Htops].
    cbn [lines_ok] in Hl. apply andb_prop in Hl as [Hl Hls].
    apply Forall_cons_1 in Hd as [Hd Hds].
    rewrite stmts_text_cons, string_app_assoc. cbn [repeat_more].
    rewrite parse_script_item; [|exact Hok|exact Htop|exact Hd|].
    2:{ destruct it; try exact I. exact Hl. }
    rewrite IH; try assumption; [|simpl in Hf; lia].
    cbn [map]. now rewrite <- app_assoc.
Qed.

Lemma top_ok_unlead it : top_ok (unlead it) = top_ok it.
Proof. now destruct it. Qed.

Lemma depth_unlead it : depth (unlead it) = depth it.
Proof. now destruct it. Qed.

Lemma depth_le_text m : forall it,
  depth it <= m -> depth it <= String.length (stmt_text it).
Proof.
  induction m as [|m IH]; intros it Hd.
  - lia.
  - destruct it as [w k g v|w t|w hd body e]; cbn [depth] in *; try lia.
    apply le_S_n in Hd.
    assert (Hb : list_max (map depth body) <= String.length (stmts_text body)).
    { apply list_max_le. apply List.Forall_forall. intros d Hin.
      apply in_map_iff in Hin as (it & <- & Hin).
      assert (Hle : depth it <= m).
      { apply Nat.le_trans with (list_max (map depth body)); [|exact Hd].
        assert (Hm : Forall (fun k => k <= list_max (map depth body))
                            (map depth body)) by now apply list_max_le.
        rewrite List.Forall_forall in Hm. apply Hm. now apply in_map. }
      apply Nat.le_trans with (String.length (stmt_text it)); [now apply IH|].
      clear -Hin. induction body as [|b body IHb]; [destruct Hin|].
      rewrite stmts_text_cons, string_length_app. destruct Hin as [->|Hin].
      - lia.
      - specialize (IHb Hin). lia. }
    cbn [stmt_text]. fold (stmts_text body). rewrite !string_length_app. simpl. lia.
Qed.

Lemma depth_le_items its :
  Forall (fun it => depth it <= String.length (stmts_text its)) its.
Proof.
  induction its as [|it its IH]; [constructor|].
  rewrite stmts_text_cons, string_length_app. constructor.
  - pose proof (depth_le_text (depth it) it (Nat.le_refl _)). lia.
  - eapply Forall_impl; [exact IH|]. cbn. intros x Hx. lia.
Qed.

Lemma script_eq n s :
  parseImpl (script n false) s
  = match parseImpl (script_item n false) s with
    | Some (ts, s') =>
        match repeat_more (script_item n false) (S (String.length s')) ts s' with
        | Some (t1, s1) =>
            match _parse (space false) true s1 with
            | Some (t2, s2) =>
                match _parse (stringEnd false) true s2 with
                | Some (t3, s3) => Some ((t1 ++ t2) ++ t3, s3)
                | None => None
                end
            | None => None
            end
        | None => None
        end
    | None => None
    end.
Proof.
  unfold script. fold (script_item n).
  cbn [And parseImpl]. unfold _parse at 1. cbn [andb]. cbn [And parseImpl].
  unfold _parse at 1. cbn [andb]. cbn [OneOrMore parseImpl].
  unfold _parse at 1. cbn [andb].
  destruct (parseImpl (script_item n false) s) as [[ts s']|]; [|reflexivity].
  destruct (repeat_more _ _ ts s') as [[t1 s1]|]; [|reflexivity].
  destruct (_parse (space false) true s1) as [[t2 s2]|]; reflexivity.
Qed.

(** A text of directives, comments and blocks is parsed into its items.
    The white characters in front of the first item are skipped before
    [script] is parsed; those in front of every other item are tokens of
    that item. *)
Lemma parse_script its w :
  its <> [] ->
  forallb stmt_ok its = true -> forallb top_ok its = true ->
  lines_ok its w = true ->
  all_chars is_white w = true ->
  as_list (stmts_text its ++ w)
  = Some (map stmt_tok (unlead_first its) ++ ws_tok w).
Proof.
  intros Hne Hok Htop Hl Hw. unfold as_list.
  set (n := String.length (stmts_text its ++ w)).
  assert (Hd : Forall (fun it => depth it <= n) its).
  { eapply Forall_impl; [apply depth_le_items|]. cbn. intros x Hx.
    unfold n. rewrite string_length_app. lia. }
  destruct its as [|it its]; [congruence|].
  cbn [forallb] in Hok, Htop.
  apply andb_prop in Hok as [Hok Hoks]. apply andb_prop in Htop as [Htop Htops].
  cbn [lines_ok] in Hl. apply andb_prop in Hl as [Hl Hls].
  apply Forall_cons_1 in Hd as [Hd Hds].
  assert (Hend : match unlead it with
                 | Comment _ _ => ends_line (stmts_text its ++ w) = true
                 | _ => True
                 end).
  { destruct it; try exact I. exact Hl. }
  assert (Hw1 : all_chars is_white (lead it) = true).
  { destruct it as [w1 k g v|w1 t|w1 hd body e]; cbn [lead].
    - now apply directive_ok_inv in Hok as (Hw1 & _).
    - cbn [stmt_ok] in Hok. now apply andb_prop in Hok as [Hw1 _].
    - now apply block_ok_inv in Hok as (Hw1 & _). }
  assert (E : _parse (script n false) true (stmts_text (it :: its) ++ w)
              = Some (map stmt_tok (unlead_first (it :: its)) ++ ws_tok w,
                      EmptyString)).
  { unfold _parse, preParse. rewrite script_skips.
    assert (Hc : callPreparse (script n false) = true) by reflexivity.
    rewrite Hc. cbn [andb].
    rewrite stmts_text_cons, stmt_text_lead, !string_app_assoc.
    change (span _ ?x) with (span is_white x).
    rewrite span_app_stop;
      [|exact Hw1|now apply stmt_starts].
    cbn [snd]. rewrite script_eq.
    rewrite <- (script_item_noskip n true).
    rewrite (parse_script_item n true (unlead it) (stmts_text its ++ w)
               (stmt_ok_unlead it Hok)
               ltac:(now rewrite top_ok_unlead)
               ltac:(now rewrite depth_unlead) Hend).
    rewrite parse_script_items; try assumption.
    2:{ rewrite string_length_app. pose proof (stmts_text_length its). lia. }
    assert (Es : _parse (space false) true w = Some (ws_tok w, EmptyString)).
    { rewrite <- (string_app_nil_r w) at 1. now apply parse_space. }
    rewrite Es. cbn [map app unlead_first].
    assert (Ee : _parse (stringEnd false) true EmptyString = Some ([], EmptyString))
      by reflexivity.
    rewrite Ee. now rewrite app_nil_r. }
  now rewrite E.
Qed.

(** X19.  The comment rule takes the white characters before the [#], the
    [#] and the rest of the line as it is, up to the end of the text or
    to the newline, which it leaves. *)
Theorem comment_takes_the_rest_of_the_line
    (lv cp : bool) (w t rest : string) :
  all_chars is_white w = true ->
  all_chars no_lf t = true ->
  _parse (comment lv) cp (w ++ "#" ++ t)
  = Some (ws_tok w ++ [TStr "#"; TStr t], EmptyString)
  /\ _parse (comment lv) cp (w ++ "#" ++ t ++ nl ++ rest)
     = Some (ws_tok w ++ [TStr "#"; TStr t], (nl ++ rest)%string).
Proof.
  intros Hw Ht. split.
  - rewrite <- (string_app_nil_r t) at 1. now apply parse_comment.
  - now apply parse_comment.
Qed.

(** X20.  The directive rule on a key, white characters and a value of
    plain characters (none of [{ } ; ,], no quote) that does not start
    with a white character: the tokens are the white characters before
    the key, the key, the gap and the value, which ends at the semicolon;
    white characters inside the value belong to it. *)
Theorem directive_with_plain_value
    (lv cp : bool) (w k g v rest : string) :
  all_chars is_white w = true ->
  k <> EmptyString ->
  all_chars is_key_char k = true ->
  all_chars is_white g = true ->
  g <> EmptyString ->
  all_chars is_plain v = true ->
  starts is_white v = false ->
  _parse (assignment lv) cp (w ++ k ++ g ++ v ++ ";" ++ rest)
  = Some (ws_tok w ++ [TStr k; TStr g; TStr v], rest).
Proof.
  intros Hw Hne Hk Hg Hgne Hv Hs.
  rewrite parse_directive; try assumption.
  - now rewrite (ws_tok_nonempty g Hgne).
  - now apply stops_key_white.
Qed.

(** *** Quoted values *)

Section Quoted.
Variable Q : ascii.
Hypothesis Q_quote : Q = DQ \/ Q = SQ.

Lemma quote_no_lf : no_lf Q = true.
Proof. pose proof Q_quote as HQ. destruct HQ as [E|E]; now rewrite E. Qed.

Lemma quote_not_lf : Ascii.eqb Q LF = false.
Proof. pose proof Q_quote as HQ. destruct HQ as [E|E]; now rewrite E. Qed.

(** Behind the last quote of the line the closing quote is not found. *)
Lemma rloop_line_free K t : forall fuel,
  line_free Q t = true ->
  rloop (one no_lf) fuel t (fun s => one (Ascii.eqb Q) s K) = None.
Proof.
  induction t as [|c t IH]; intros fuel Hf.
  - destruct fuel; reflexivity.
  - cbn [line_free] in Hf. destruct (Ascii.eqb c LF) eqn:Ec.
    + apply Ascii.eqb_eq in Ec. subst c.
      destruct fuel; cbn [rloop one]; rewrite ?quote_not_lf; reflexivity.
    + apply andb_prop in Hf as [Hq Hf]. apply negb_true_iff in Hq.
      rewrite Ascii.eqb_sym in Hq.
      destruct fuel as [|n]; cbn [rloop one]; [now rewrite Hq|].
      unfold no_lf at 1. rewrite Ec. cbn [negb].
      assert (Hlt : Nat.ltb (String.length t) (String.length (String c t)) = true)
        by (apply Nat.ltb_lt; simpl; lia).
      rewrite Hlt, IH by exact Hf. now rewrite Hq.
Qed.

(** The greedy [.*] runs to the end of the line and comes back to the
    last quote. *)
Lemma rloop_to_last_quote K q t x : forall fuel,
  all_chars no_lf q = true -> line_free Q t = true ->
  K t = Some x -> String.length q < fuel ->
  rloop (one no_lf) fuel (q ++ String Q t) (fun s => one (Ascii.eqb Q) s K)
  = Some x.
Proof.
  induction q as [|c q IH]; intros fuel Hq Ht HK Hf.
  - destruct fuel as [|n]; [simpl in Hf; lia|].
    cbn [String.append rloop one]. rewrite quote_no_lf.
    assert (Hlt : Nat.ltb (String.length t) (String.length (String Q t)) = true)
      by (apply Nat.ltb_lt; simpl; lia).
    rewrite Hlt, rloop_line_free by exact Ht.
    now rewrite Ascii.eqb_refl.
  - simpl in Hq. apply andb_prop in Hq as [Hc Hq].
    destruct fuel as [|n]; [simpl in Hf; lia|].
    cbn [String.append rloop one]. rewrite Hc.
    assert (Hlt : Nat.ltb (String.length (q ++ String Q t))
                          (String.length (String c (q ++ String Q t))) = true)
      by (apply Nat.ltb_lt; simpl; lia).
    rewrite Hlt, IH; [reflexivity|assumption|assumption|assumption|].
    simpl in Hf. lia.
Qed.

(** One iteration of the pattern of [value] at an opening quote. *)
Lemma value_body_quoted q t k x :
  all_chars no_lf q = true -> line_free Q t = true ->
  stops not_special t -> k t = Some x ->
  rmatch value_body (String Q (q ++ String Q t)) k = Some x.
Proof.
  intros Hq Hl Hs Hk.
  assert (Ht : forall k', rmatch (ROpt (RNotIn "{};,")) t k' = k' t).
  { intros k'. destruct t as [|c t']; [reflexivity|]. simpl in Hs.
    unfold not_special in Hs. cbn [rmatch one]. now rewrite Hs. }
  assert (Hsq : forall k',
             rmatch (ROpt (rseq [RChr SQ; RStar RDot; RChr SQ])) t k' = k' t).
  { intros k'. destruct t as [|c t']; [reflexivity|]. simpl in Hs.
    destruct (special_not_quote c Hs) as [_ E].
    cbn [rseq rmatch one]. now rewrite E. }
  assert (Hlen : String.length q < String.length (q ++ String Q t)).
  { rewrite string_length_app. simpl. lia. }
  unfold value_body. cbn [rseq rmatch one].
  pose proof Q_quote as HQ. destruct HQ as [E|E].
  - rewrite <- E. rewrite Ascii.eqb_refl.
    rewrite (rloop_to_last_quote _ q t x); [reflexivity|assumption|assumption| |assumption].
    refine (eq_trans (Hsq (fun s1 => rmatch (ROpt (RNotIn "{};,")) s1 k)) _).
    exact (eq_trans (Ht k) Hk).
  - assert (Hd : Ascii.eqb DQ Q = false) by now rewrite E.
    rewrite Hd. rewrite <- E. rewrite Ascii.eqb_refl.
    rewrite (rloop_to_last_quote _ q t x); [reflexivity|assumption|assumption| |assumption].
    exact (eq_trans (Ht k) Hk).
Qed.

Lemma rloop_quoted p q t : forall fuel,
  all_chars is_plain p = true -> all_chars no_lf q = true ->
  line_free Q t = true -> stops not_special t ->
  String.length p < fuel ->
  rloop (rmatch value_body) fuel (p ++ String Q (q ++ String Q t)) Some
  = Some t.
Proof.
  induction p as [|c p IH]; intros fuel Hp Hq Hl Hs Hf.
  - destruct fuel as [|n]; [simpl in Hf; lia|].
    cbn [String.append rloop].
    rewrite (value_body_quoted q t _ t); [reflexivity|assumption..|].
    assert (Hlt : Nat.ltb (String.length t)
                    (String.length (String Q (q ++ String Q t))) = true).
    { apply Nat.ltb_lt. simpl. rewrite string_length_app. simpl. lia. }
    rewrite Hlt. apply (rloop_plain EmptyString t); [reflexivity|exact Hs|simpl; lia].
  - simpl in Hp. apply andb_prop in Hp as [Hc Hp].
    destruct fuel as [|n]; [simpl in Hf; lia|].
    cbn [rloop String.append]. rewrite value_body_plain by exact Hc.
    assert (Hlt : Nat.ltb (String.length (p ++ String Q (q ++ String Q t)))
                    (String.length (String c (p ++ String Q (q ++ String Q t))))
                  = true).
    { apply Nat.ltb_lt. simpl. lia. }
    rewrite Hlt, IH; [reflexivity|assumption..|simpl in Hf; lia].
Qed.

Lemma re_match_quoted_value p q t :
  all_chars is_plain p = true -> all_chars no_lf q = true ->
  line_free Q t = true -> stops not_special t ->
  re_match value_re (p ++ String Q (q ++ String Q t)) = Some t.
Proof.
  intros Hp Hq Hl Hs. unfold re_match, value_re.
  change (rseq _) with value_body. cbn [rmatch].
  destruct p as [|c p].
  - cbn [String.append].
    apply (value_body_quoted q t _ t); try assumption.
    apply (rloop_plain EmptyString t); [reflexivity|exact Hs|simpl; lia].
  - simpl in Hp. apply andb_prop in Hp as [Hc Hp].
    cbn [String.append]. rewrite value_body_plain by exact Hc.
    rewrite rloop_quoted; [reflexivity|assumption..|].
    rewrite string_length_app. simpl. lia.
Qed.

Lemma quoted_app p q t :
  ((p ++ quoted Q q) ++ t = p ++ String Q (q ++ String Q t))%string.
Proof.
  unfold quoted. rewrite string_app_assoc. cbn [String.append].
  now rewrite string_app_assoc.
Qed.

Lemma parse_quoted_value lv cp p q t :
  all_chars is_plain p = true -> starts is_white p = false ->
  all_chars no_lf q = true ->
  line_free Q t = true -> stops not_special t ->
  _parse (value lv) cp ((p ++ quoted Q q) ++ t)
  = Some ([TStr (p ++ quoted Q q)], t).
Proof.
  intros Hp Hw Hq Hl Hs.
  assert (H : parseImpl (value lv) ((p ++ quoted Q q) ++ t)
              = Some ([TStr (p ++ quoted Q q)], t)).
  { cbn [value Regex parseImpl]. unfold regex_impl.
    rewrite quoted_app, (re_match_quoted_value _ _ _ Hp Hq Hl Hs).
    now rewrite <- quoted_app, consumed_app. }
  rewrite parse_at_nonwhite; [exact H|].
  rewrite quoted_app. destruct p as [|c p]; [|now apply stops_starts].
  pose proof Q_quote as HQ. destruct HQ as [E|E]; rewrite E; reflexivity.
Qed.

Lemma parse_directive_quoted lv cp w k g p q rest :
  all_chars is_white w = true ->
  k <> EmptyString ->
  all_chars is_key_char k = true ->
  all_chars is_white g = true ->
  g <> EmptyString ->
  all_chars is_plain p = true ->
  starts is_white p = false ->
  all_chars no_lf q = true ->
  line_free Q rest = true ->
  _parse (assignment lv) cp (w ++ k ++ g ++ (p ++ quoted Q q) ++ ";" ++ rest)
  = Some (ws_tok w ++ [TStr k; TStr g; TStr (p ++ quoted Q q)], rest).
Proof.
  intros Hw Hne Hk Hg Hgne Hp Hpw Hq Hl.
  unfold assignment, Optional_default.
  rewrite !parse_And by reflexivity.
  rewrite (parse_space lv false w) by (auto using stops_white_key).
  rewrite (parse_key lv true k)
    by (auto using stops_white_key, stops_key_white).
  rewrite parse_Optional_with by reflexivity.
  rewrite parse_And by reflexivity.
  assert (Hlt : line_free Q (";" ++ rest) = true).
  { cbn [String.append line_free].
    change (Ascii.eqb ";" LF) with false. cbv iota.
    pose proof Q_quote as HQ.
    assert (E : Ascii.eqb ";" Q = false) by (destruct HQ as [E|E]; now rewrite E).
    now rewrite E. }
  assert (Hs : stops is_white ((p ++ quoted Q q) ++ ";" ++ rest)).
  { rewrite quoted_app. destruct p as [|c p]; [|now apply stops_starts].
    pose proof Q_quote as HQ. destruct HQ as [E|E]; rewrite E; reflexivity. }
  rewrite (parse_space lv false g) by assumption.
  rewrite (parse_quoted_value lv true p q (";" ++ rest)) by (assumption || reflexivity).
  rewrite parse_semicolon.
  rewrite (ws_tok_nonempty g Hgne). now rewrite <- !app_assoc.
Qed.

End Quoted.

(** X21.  A value that ends with a quoted text, in double or in single
    quotes: whatever stands between the quotes (semicolons and braces as
    well, no newline) belongs to the value, provided no quote of that
    kind follows the closing one on the same line. *)
Theorem directive_with_quoted_value
    (lv cp : bool) (Q : ascii) (w k g p q rest : string) :
  Q = DQ \/ Q = SQ ->
  all_chars is_white w = true ->
  k <> EmptyString ->
  all_chars is_key_char k = true ->
  all_chars is_white g = true ->
  g <> EmptyString ->
  all_chars is_plain p = true ->
  starts is_white p = false ->
  all_chars no_lf q = true ->
  line_free Q rest = true ->
  _parse (assignment lv) cp (w ++ k ++ g ++ (p ++ quoted Q q) ++ ";" ++ rest)
  = Some (ws_tok w ++ [TStr k; TStr g; TStr (p ++ quoted Q q)], rest).
Proof. intros HQ. now apply parse_directive_quoted. Qed.

(** X22.  A block whose header is a key, with or without a modifier and a
    location, and whose body holds directives, comments and such blocks,
    is parsed into its header tokens and the nodes of its body, every
    run of white characters inside it kept as a token. *)
Theorem block_is_parsed_into_header_and_body
    (n : nat) (cp : bool) (w : string) (hd : header) (body : list stmt)
    (e rest : string) :
  stmt_ok (Block w hd body e) = true ->
  depth (Block w hd body e) <= n ->
  _parse (block n false) cp
         (w ++ header_text hd ++ "{" ++ stmts_text body ++ e ++ "}" ++ rest)
  = Some ([TList [TList (ws_tok w ++ header_toks hd);
                  TList (map stmt_tok body ++ ws_tok e)]], rest).
Proof.
  intros Hok Hd.
  pose proof (parse_block_stmt n w hd body e cp rest Hok Hd) as H.
  cbn [stmt_text stmt_tok] in H. fold (stmts_text body) in H.
  now rewrite !string_app_assoc in H.
Qed.

(** X23.  A text of directives, comments and blocks, followed by white
    characters, is parsed into one node for each of them, in order.  The
    white characters before the first item are dropped; those before
    every other top-level item are the first token of that item, and
    those at the end of the text are the last token. *)
Theorem script_is_parsed_into_its_items
    (it : stmt) (its : list stmt) (w : string) :
  forallb stmt_ok (it :: its) = true ->
  forallb top_ok (it :: its) = true ->
  lines_ok (it :: its) w = true ->
  all_chars is_white w = true ->
  as_list (stmts_text (it :: its) ++ w)
  = Some (stmt_tok (unlead it) :: map stmt_tok its ++ ws_tok w).
Proof.
  intros Hok Htop Hl Hw.
  exact (parse_script (it :: its) w ltac:(discriminate) Hok Htop Hl Hw).
Qed.

End GrammarFacts.

(** * Reading and writing a configuration *)

Module RoundTripFacts.
Import Chars Re Pyparsing RawNginxParser Py Store Nginxparser ParserSpec
  ParserFacts TokenSpec TokenFacts GrammarSpec GrammarFacts.
Local Open Scope py_scope.

#[local] Arguments inb : simpl never.

(** *** What the dumper writes for the items *)

Lemma all_in_white w : all_chars is_white w = true -> all_in whitespace w = true.
Proof.
  induction w as [|c w IH]; [reflexivity|]. cbn [all_chars all_in]. intros H.
  apply andb_prop in H as [Hc Hw]. now rewrite (white_is_space c Hc), IH.
Qed.

Lemma white_spacey w :
  w <> EmptyString -> all_chars is_white w = true -> spacey (VStr w) = true.
Proof.
  intros Hne Hw. unfold spacey, isspace. destruct w as [|c w]; [congruence|].
  now rewrite (all_in_white _ Hw).
Qed.

Lemma key_not_space c : is_key_char c = true -> inb c whitespace = false.
Proof.
  intros H. destruct (inb c whitespace) eqn:E; [|reflexivity].
  unfold inb in E.
  repeat (apply orb_prop in E as [E|E];
          [apply Ascii.eqb_eq in E; subst c; discriminate|]).
  discriminate.
Qed.

Lemma key_not_spacey k :
  k <> EmptyString -> all_chars is_key_char k = true -> spacey (VStr k) = false.
Proof.
  intros Hne Hk. unfold spacey, isspace. destruct k as [|c k]; [congruence|].
  simpl in Hk. apply andb_prop in Hk as [Hc _].
  cbn [all_in]. now rewrite (key_not_space c Hc).
Qed.

Lemma all_chars_span_snd (p q : ascii -> bool) s :
  all_chars q s = true -> all_chars q (snd (span p s)) = true.
Proof.
  induction s as [|c s IH]; [reflexivity|]. intros H. cbn [span].
  destruct (p c); [|exact H].
  simpl in H. apply andb_prop in H as [_ H].
  destruct (span p s) as [a b]. now apply IH.
Qed.

Lemma all_chars_rev (q : ascii -> bool) s : forall acc,
  all_chars q s = true -> all_chars q acc = true ->
  all_chars q (rev_string s acc) = true.
Proof.
  induction s as [|c s IH]; intros acc Hs Ha; [exact Ha|].
  simpl in Hs. apply andb_prop in Hs as [Hc Hs].
  cbn [rev_string]. apply IH; [exact Hs|]. simpl. now rewrite Hc, Ha.
Qed.

Lemma all_chars_strip (q : ascii -> bool) s :
  all_chars q s = true -> all_chars q (strip s) = true.
Proof.
  intros H. unfold strip, lstrip.
  apply all_chars_rev; [|reflexivity].
  apply all_chars_span_snd. apply all_chars_rev; [|reflexivity].
  now apply all_chars_span_snd.
Qed.

Lemma key_not_comment k :
  all_chars is_key_char k = true -> is_comment_key (VStr k) = false.
Proof.
  intros Hk. unfold is_comment_key.
  destruct (String.eqb_spec (strip k) "#") as [E|]; [|reflexivity].
  apply (all_chars_strip is_key_char) in Hk. rewrite E in Hk. discriminate.
Qed.

Lemma indent_ws w first :
  all_chars is_white w = true -> spacey (leaf first) = false ->
  indent (ws_tok w) w first.
Proof.
  intros Hw Hf. destruct w as [|c w].
  - left. auto.
  - right. split; [reflexivity|]. now apply white_spacey.
Qed.

Lemma gap_ws g v :
  all_chars is_white g = true -> (g <> EmptyString \/ v = EmptyString) ->
  gap_of (ws_tok g) g v.
Proof.
  intros Hg Hgv. destruct g as [|c g].
  - left. destruct Hgv as [H| ->]; [congruence|]. auto.
  - right. repeat split; [discriminate|]. now apply white_spacey.
Qed.

Lemma directive_text_of w k g v :
  stmt_ok (Directive w k g v) = true ->
  text_of (stmt_tok (Directive w k g v)) [stmt_text (Directive w k g v)].
Proof.
  intros H. apply directive_ok_inv in H as (Hw & Hk & Hg & Hv & Hs & Hgv).
  apply key_ok_inv in Hk as [Hne Hk].
  apply (text_directive (ws_tok w) w k (ws_tok g) g v []).
  - apply indent_ws; [exact Hw|]. now apply key_not_spacey.
  - now apply key_not_comment.
  - now apply gap_ws.
Qed.

Lemma comment_text_of w t :
  stmt_ok (Comment w t) = true ->
  text_of (stmt_tok (Comment w t)) [stmt_text (Comment w t)].
Proof.
  cbn [stmt_ok]. intros H. apply andb_prop in H as [Hw Ht].
  apply (text_comment (ws_tok w) w "#" t []).
  - apply indent_ws; [exact Hw|reflexivity].
  - reflexivity.
Qed.

Lemma join_app a b : join (a ++ b) = (join a ++ join b)%string.
Proof.
  induction a as [|x a IH]; [reflexivity|].
  cbn [app]. rewrite !join_cons, IH. now rewrite string_app_assoc.
Qed.

Lemma ws_tok_strs w :
  exists ks, ws_tok w = map TStr ks /\ join ks = w.
Proof.
  destruct w as [|c w].
  - exists []. split; reflexivity.
  - exists [String c w]. split; [reflexivity|].
    cbn [join fold_right]. apply string_app_nil_r.
Qed.

Lemma header_strs w hd :
  exists ks, ws_tok w ++ header_toks hd = map TStr ks
             /\ join ks = (w ++ header_text hd)%string.
Proof.
  destruct hd as [k g m g2 loc g3]. unfold header_toks, header_text.
  cbn [hkey hgap hmod hgap2 hloc hgap3].
  destruct (ws_tok_strs w) as (kw & Ew & Jw).
  destruct (ws_tok_strs g) as (kg & Eg & Jg).
  destruct (ws_tok_strs m) as (km & Em & Jm).
  destruct (ws_tok_strs g2) as (kg2 & Eg2 & Jg2).
  destruct (ws_tok_strs loc) as (kl & El & Jl).
  destruct (ws_tok_strs g3) as (kg3 & Eg3 & Jg3).
  exists (kw ++ [k] ++ kg ++ km ++ kg2 ++ kl ++ kg3).
  assert (Jk : join [k] = k) by apply string_app_nil_r.
  rewrite Ew, Eg, Em, Eg2, El, Eg3. split.
  - change [TStr k] with (map TStr [k]). now rewrite <- !map_app.
  - now rewrite !join_app, Jw, Jk, Jg, Jm, Jg2, Jl, Jg3.
Qed.

Lemma ws_tok_lines e :
  exists liness,
    Forall2 text_of (ws_tok e) liness /\ join (List.concat liness) = e.
Proof.
  destruct e as [|c e].
  - exists []. split; [constructor|reflexivity].
  - exists [[String c e]]. split; [repeat constructor|].
    cbn [List.concat app join fold_right]. now rewrite !string_app_nil_r.
Qed.

Lemma block_text_of w hd body e liness :
  Forall2 text_of (map stmt_tok body) liness ->
  join (List.concat liness) = stmts_text body ->
  exists lines,
    text_of (stmt_tok (Block w hd body e)) lines
    /\ join lines = stmt_text (Block w hd body e).
Proof.
  intros Hb Jb.
  destruct (header_strs w hd) as (ks & Ek & Jk).
  destruct (ws_tok_lines e) as (le & He & Je).
  exists ((EmptyString ++ join ks ++ "{")%string
          :: List.concat (liness ++ le) ++ ["}"%string]).
  split.
  - cbn [stmt_tok]. rewrite Ek.
    apply (text_block [] EmptyString ks (map stmt_tok body ++ ws_tok e)
                      (liness ++ le) []).
    + left. auto.
    + now apply Forall2_app.
  - cbn [stmt_text]. fold (stmts_text body).
    rewrite join_cons, join_app, concat_app, join_app, Jb, Je, Jk.
    cbn [join fold_right]. rewrite string_app_nil_l, string_app_nil_r.
    now rewrite !string_app_assoc.
Qed.

Lemma stmt_lines m : forall it,
  depth it <= m -> stmt_ok it = true ->
  exists lines, text_of (stmt_tok it) lines /\ join lines = stmt_text it.
Proof.
  induction m as [|m IH]; intros it Hd Hok;
    destruct it as [w k g v|w t|w hd body e].
  1,4: exists [stmt_text (Directive w k g v)];
       split; [now apply directive_text_of|apply string_app_nil_r].
  1,3: exists [stmt_text (Comment w t)];
       split; [now apply comment_text_of|apply string_app_nil_r].
  - cbn [depth] in Hd. lia.
  - cbn [depth] in Hd. apply le_S_n in Hd.
    apply block_ok_inv in Hok as (_ & _ & Hb & _).
    assert (Hl : exists liness,
               Forall2 text_of (map stmt_tok body) liness
               /\ join (List.concat liness) = stmts_text body).
    { clear -IH Hd Hb. induction body as [|b body IHb].
      - exists []. split; [constructor|reflexivity].
      - cbn [forallb] in Hb. apply andb_prop in Hb as [Hb Hbs].
        change (list_max (map depth (b :: body)))
        with (Nat.max (depth b) (list_max (map depth body))) in Hd.
        destruct (IH b ltac:(lia) Hb) as (lb & Tb & Jb).
        destruct (IHb ltac:(lia) Hbs) as (ls & Ts & Js).
        exists (lb :: ls). split; [now constructor|].
        cbn [List.concat]. now rewrite join_app, Jb, Js. }
    destruct Hl as (liness & Tl & Jl).
    now apply (block_text_of w hd body e liness).
Qed.

Lemma stmts_lines its :
  forallb stmt_ok its = true ->
  exists liness,
    Forall2 text_of (map stmt_tok its) liness
    /\ join (List.concat liness) = stmts_text its.
Proof.
  induction its as [|it its IH]; intros Hok.
  - exists []. split; [constructor|reflexivity].
  - cbn [forallb] in Hok. apply andb_prop in Hok as [Hok Hoks].
    destruct (stmt_lines (depth it) it (Nat.le_refl _) Hok) as (lb & Tb & Jb).
    destruct (IH Hoks) as (ls & Ts & Js).
    exists (lb :: ls). split; [now constructor|].
    cbn [List.concat]. now rewrite join_app, Jb, Js.
Qed.

(** *** The size of the token tree *)

Lemma size_ws w : list_sum (map size (ws_tok w)) = 0.
Proof. destruct w; reflexivity. Qed.

Lemma size_strs ks : list_sum (map size (map TStr ks)) = 0.
Proof. induction ks as [|k ks IH]; [reflexivity|]. exact IH. Qed.

Lemma header_text_length hd :
  header_ok hd = true -> 1 <= String.length (header_text hd).
Proof.
  destruct hd as [k g m g2 loc g3]. intros Hok.
  destruct (header_ok_inv _ _ _ _ _ _ Hok) as (Hk & _).
  apply key_ok_inv in Hk as [Hne _].
  unfold header_text. cbn [hkey hgap hmod hgap2 hloc hgap3].
  rewrite string_length_app. destruct k; [congruence|]. simpl. lia.
Qed.

Lemma size_stmt m : forall it,
  depth it <= m -> stmt_ok it = true ->
  size (stmt_tok it) <= String.length (stmt_text it).
Proof.
  induction m as [|m IH]; intros it Hd Hok;
    destruct it as [w k g v|w t|w hd body e].
  1,4: pose proof (stmt_text_length (Directive w k g v));
       cbn [stmt_tok size]; rewrite !map_app, !list_sum_app, !size_ws;
       cbn [map size list_sum fold_right]; lia.
  1,3: pose proof (stmt_text_length (Comment w t));
       cbn [stmt_tok size]; rewrite !map_app, !list_sum_app, !size_ws;
       cbn [map size list_sum fold_right]; lia.
  - cbn [depth] in Hd. lia.
  - cbn [depth] in Hd. apply le_S_n in Hd.
    apply block_ok_inv in Hok as (_ & Hh & Hb & _).
    assert (Hs : list_sum (map size (map stmt_tok body))
                 <= String.length (stmts_text body)).
    { clear -IH Hd Hb. induction body as [|b body IHb]; [simpl; lia|].
      cbn [forallb] in Hb. apply andb_prop in Hb as [Hb Hbs].
      change (list_max (map depth (b :: body)))
        with (Nat.max (depth b) (list_max (map depth body))) in Hd.
      pose proof (IH b ltac:(lia) Hb). pose proof (IHb ltac:(lia) Hbs).
      rewrite stmts_text_cons, string_length_app.
      change (list_sum (map size (map stmt_tok (b :: body))))
        with (size (stmt_tok b) + list_sum (map size (map stmt_tok body))).
      lia. }
    destruct (header_strs w hd) as (ks & Ek & _).
    pose proof (header_text_length hd Hh).
    cbn [stmt_tok size map list_sum fold_right]. rewrite Ek, size_strs.
    rewrite map_app, list_sum_app, size_ws.
    cbn [stmt_text]. fold (stmts_text body). rewrite !string_length_app.
    simpl String.length. lia.
Qed.

Lemma size_stmts its :
  forallb stmt_ok its = true ->
  list_sum (map size (map stmt_tok its)) <= String.length (stmts_text its).
Proof.
  induction its as [|it its IH]; intros Hok; [simpl; lia|].
  cbn [forallb] in Hok. apply andb_prop in Hok as [Hok Hoks].
  pose proof (size_stmt (depth it) it (Nat.le_refl _) Hok).
  pose proof (IH Hoks).
  rewrite stmts_text_cons, string_length_app.
  change (list_sum (map size (map stmt_tok (it :: its))))
    with (size (stmt_tok it) + list_sum (map size (map stmt_tok its))).
  lia.
Qed.

Lemma unlead_shorter its :
  String.length (stmts_text (unlead_first its)) <= String.length (stmts_text its).
Proof.
  destruct its as [|it its]; [simpl; lia|].
  cbn [unlead_first].
  rewrite !stmts_text_cons, (stmt_text_lead it), !string_length_app. lia.
Qed.

Lemma forallb_unlead its :
  forallb stmt_ok its = true -> forallb stmt_ok (unlead_first its) = true.
Proof.
  destruct its as [|it its]; [reflexivity|]. cbn [forallb unlead_first].
  intros H. apply andb_prop in H as [H1 H2].
  now rewrite (stmt_ok_unlead it H1), H2.
Qed.

Lemma unlead_id it : lead it = EmptyString -> unlead it = it.
Proof. destruct it; cbn [lead unlead]; now intros ->. Qed.

(** [dumps(loads(source))] for a text of items. *)
Lemma dumps_loads_stmts fuel its w h :
  its <> [] ->
  forallb stmt_ok its = true -> forallb top_ok its = true ->
  lines_ok its w = true ->
  all_chars is_white w = true ->
  String.length (stmts_text its ++ w) + 1 < fuel ->
  exists h',
    (tree <- loads fuel (stmts_text its ++ w) ;; dumps fuel tree) h
    = (Ret (stmts_text (unlead_first its) ++ w)%string, h').
Proof.
  intros Hne Hok Htop Hl Hw Hf.
  pose proof (parse_script its w Hne Hok Htop Hl Hw) as Ep.
  pose proof (forallb_unlead its Hok) as Hok'.
  destruct (stmts_lines (unlead_first its) Hok') as (ls & Ts & Js).
  destruct (ws_tok_lines w) as (lw & Tw & Jw).
  assert (Hsize : size (TList (map stmt_tok (unlead_first its) ++ ws_tok w)) < fuel).
  { cbn [size]. rewrite map_app, list_sum_app, size_ws.
    pose proof (size_stmts (unlead_first its) Hok').
    pose proof (unlead_shorter its). rewrite string_length_app in Hf. lia. }
  destruct (loads_dumps fuel _ _ (ls ++ lw) h Ep (Forall2_app Ts Tw) Hsize)
    as (h' & E).
  exists h'. rewrite E. now rewrite concat_app, join_app, Js, Jw.
Qed.

(** X24.  [dumps(loads(source))] for a text of directives, comments and
    blocks is the text without the white characters in front of its
    first item: every other character, the white characters in front of
    the later top-level items and inside the blocks among them, is
    written back. *)
Theorem dumps_of_loads_drops_leading_whitespace
    (fuel : nat) (it : stmt) (its : list stmt) (w : string) (h : heap) :
  forallb stmt_ok (it :: its) = true ->
  forallb top_ok (it :: its) = true ->
  lines_ok (it :: its) w = true ->
  all_chars is_white w = true ->
  String.length (stmts_text (it :: its) ++ w) + 1 < fuel ->
  (stmts_text (it :: its) ++ w
   = lead it ++ stmts_text (unlead it :: its) ++ w)%string
  /\ exists h',
       (tree <- loads fuel (stmts_text (it :: its) ++ w) ;; dumps fuel tree) h
       = (Ret (stmts_text (unlead it :: its) ++ w)%string, h').
Proof.
  intros Hok Htop Hl Hw Hf. split.
  - now rewrite !stmts_text_cons, (stmt_text_lead it), !string_app_assoc.
  - exact (dumps_loads_stmts fuel (it :: its) w h ltac:(discriminate)
             Hok Htop Hl Hw Hf).
Qed.

(** X25.  A text of directives, comments and blocks with no white
    character in front of its top-level items round-trips:
    [dumps(loads(source))] is [source]. *)
Theorem configuration_round_trips
    (fuel : nat) (its : list stmt) (w : string) (h : heap) :
  its <> [] ->
  forallb stmt_ok its = true ->
  forallb top_ok its = true ->
  lines_ok its w = true ->
  all_chars is_white w = true ->
  forallb (fun it => lead it =? "")%string its = true ->
  String.length (stmts_text its ++ w) + 1 < fuel ->
  exists h',
    (tree <- loads fuel (stmts_text its ++ w) ;; dumps fuel tree) h
    = (Ret (stmts_text its ++ w)%string, h').
Proof.
  intros Hne Hok Htop Hl Hw Hlead Hf.
  destruct (dumps_loads_stmts fuel its w h Hne Hok Htop Hl Hw Hf) as (h' & E).
  assert (Hid : unlead_first its = its).
  { clear -Hlead. destruct its as [|it its]; [reflexivity|].
    cbn [forallb] in Hlead. apply andb_prop in Hlead as [H1 H2].
    apply String.eqb_eq in H1. cbn [unlead_first]. now rewrite (unlead_id it H1). }
  rewrite Hid in E. now exists h'.
Qed.

End RoundTripFacts.

(** * The logical view of a tree *)

Module NodeFacts.
Import Chars Pyparsing Py Store Nginxparser FrameSpec ConstructSpec Frame
  TreeSpec TreeFacts ParserSpec ViewFacts TokenSpec TokenFacts GrammarSpec GrammarFacts
  RoundTripFacts NodeSpec.
Local Open Scope py_scope.

#[local] Arguments inb : simpl never.

#[local] Abbreviation init_body n so self :=
  (fun ie : nat * val =>
        let i := Z.of_nat (fst ie) in
        let entry := snd ie in
        if is_list entry then
          src <- iterate entry ;;
          sublist <- UnspacedList_init n src so ;;
          sub_xs <- get_elems sublist ;;
          sub_sp <- get_spaced sublist ;;
          sub_spaced <- get_elems sub_sp ;;
          (if negb (Nat.eqb (length sub_xs) 0) || Nat.eqb (length sub_spaced) 0
           then list_setitem self i (VRef sublist)
           else list_delitem self i) ;;
          sp2 <- get_spaced self ;;
          list_setitem sp2 i (VRef sub_sp)
        else if spacey entry then
          xs <- get_elems self ;;
          if negb (existsb (val_eqb (VStr "#")) (take (fst ie) xs))
          then list_delitem self i
          else ret tt
        else ret tt).

Lemma view_unfold ts : view (TList ts) = TList (view_from false ts).
Proof.
  reflexivity.
Qed.

Lemma nrepr_heap lo h h' t v :
  (forall a o, h !! a = Some o -> h' !! a = Some o) ->
  nrepr lo h t v -> nrepr lo h' t v.
Proof.
  intros Hext. revert v. induction t as [t IH] using size_ind. intros v Hr.
  inversion Hr as [s|  |ts l xs sp Hl Hlk Hall]; subst; try constructor.
  apply (nrepr_node _ _ _ _ xs sp); auto.
  eapply Forall2_impl_In; [exact Hall|].
  intros t v Ht. apply IH. now apply size_child.
Qed.

Lemma nrepr_keeps lo h h' t v :
  keeps (length h) h h' -> nrepr lo h t v -> nrepr lo h' t v.
Proof. intros K. apply nrepr_heap. now apply keeps_extends. Qed.

Lemma nrepr_put lo h a o t v :
  a < lo -> nrepr lo h t v -> nrepr lo (<[a := o]> h) t v.
Proof.
  intros Ha. revert v. induction t as [t IH] using size_ind. intros v Hr.
  inversion Hr as [s|  |ts l xs sp Hl Hlk Hall]; subst; try constructor.
  apply (nrepr_node _ _ _ _ xs sp); auto.
  - rewrite list_lookup_insert_ne; [assumption|lia].
  - eapply Forall2_impl_In; [exact Hall|].
    intros t v Ht. apply IH. now apply size_child.
Qed.

Lemma nrepr_weaken lo lo' h t v :
  lo' <= lo -> nrepr lo h t v -> nrepr lo' h t v.
Proof.
  intros Hle. revert v. induction t as [t IH] using size_ind. intros v Hr.
  inversion Hr as [s|  |ts l xs sp Hl Hlk Hall]; subst; try constructor.
  apply (nrepr_node _ _ _ _ xs sp); [lia|assumption|].
  eapply Forall2_impl_In; [exact Hall|].
  intros t v Ht. apply IH. now apply size_child.
Qed.

Lemma repr_hash h t v : repr h t v -> val_eqb (VStr "#") v = is_hash t.
Proof. intros Hr. inversion Hr; reflexivity. Qed.

Lemma seen_hash h ts vs i :
  Forall2 (repr h) ts vs ->
  existsb (val_eqb (VStr "#")) (take i vs) = existsb is_hash (take i ts).
Proof.
  intros H. revert i. induction H as [|t v ts vs Htv Hrest IH]; intros i.
  - now rewrite !take_nil.
  - destruct i as [|i]; [reflexivity|]. cbn [take existsb].
    now rewrite (repr_hash _ _ _ Htv), IH.
Qed.

Section InitView.
Variables (n : nat) (h : heap) (ts : list tok) (vs : list val) (self y : nat).
Hypothesis Hsrc : Forall2 (repr h) ts vs.
Hypothesis IHinit : forall tsi es hc,
  size (TList tsi) < size (TList ts) ->
  Forall2 (repr hc) tsi es ->
  exists sub hc', UnspacedList_init n es false hc = (Ret sub, hc')
    /\ keeps (length hc) hc hc' /\ length hc <= sub
    /\ exists sxs ssp, hc' !! sub = Some (OUnspaced sxs ssp)
         /\ repr hc' (TList tsi) (VRef ssp)
         /\ Forall2 (nrepr (length hc) hc') (view_from false tsi) sxs.
Hypothesis Hself : length h <= self.
Hypothesis Hy : length h <= y.
Hypothesis Hys : y < self.

Lemma view_step i t :
  ts !! i = Some t ->
  view_from (existsb is_hash (take i ts)) (drop i ts)
  = view_entry (existsb is_hash (take i ts)) t (view t)
      (view_from (existsb is_hash (take (S i) ts)) (drop (S i) ts)).
Proof.
  intros Hi. rewrite (drop_S _ _ _ Hi). cbn [view_from].
  rewrite (take_S_r _ _ _ Hi), existsb_app. cbn [existsb].
  now rewrite orb_false_r.
Qed.

Lemma body_view hc i e :
  vs !! i = Some e -> view_at h ts vs self y hc (S i) ->
  exists hc', init_body n false self (i, e) hc = (Ret tt, hc')
              /\ view_at h ts vs self y hc' i.
Proof.
  intros Hie (suf & zs & Hs & Hyl & Hzs & Hsuf & K). cbv beta zeta. cbn [fst snd].
  destruct (Forall2_lookup_r _ _ _ _ _ Hsrc Hie) as (ti & Hti & Hrepr).
  rewrite (take_S_r _ _ _ Hie), <- app_assoc in Hs. cbn [app] in Hs.
  assert (Hi : i < length vs) by (now apply lookup_lt_Some in Hie).
  assert (Hlen : length (take i vs) = i) by (rewrite length_take; lia).
  assert (Hsy : self <> y) by lia.
  assert (Hsl : self < length hc) by (now apply lookup_lt_Some in Hs).
  assert (Hcur : i < length (take i vs ++ e :: suf)).
  { rewrite length_app, Hlen. simpl. lia. }
  assert (Hset : forall x, <[i := x]> (take i vs ++ e :: suf) = take i vs ++ x :: suf).
  { intros x. rewrite insert_app_r_alt by lia. now rewrite Hlen, Nat.sub_diag. }
  assert (Hdel : delete i (take i vs ++ e :: suf) = take i vs ++ suf).
  { rewrite <- Hlen at 1. apply delete_middle. }
  destruct (is_list e) eqn:El.
  - inversion Hrepr as [s|  |tsi a es _ Ha Hes]; subst; try discriminate.
    assert (Ha' : hc !! a = Some (OList es)) by (eapply keeps_extends; eassumption).
    assert (Hes' : Forall2 (repr hc) tsi es).
    { eapply Forall2_impl; [exact Hes|]. intros t v. now apply repr_in_keeps. }
    assert (Hsz : size (TList tsi) < size (TList ts)).
    { apply size_child. eapply lookup_In, Hti. }
    destruct (IHinit tsi es hc Hsz Hes')
      as (sub & hc1 & Einit & K1 & Hsub_lo & sxs & ssp & Hsub & Hssp & Hview).
    inversion Hssp as [ |  |? ? sys _ Hssp_l Hsys]; subst.
    assert (Hs1 : hc1 !! self = Some (OUnspaced (take i vs ++ VRef a :: suf) y))
      by (eapply keeps_extends; eassumption).
    assert (Hy1 : hc1 !! y = Some (OList zs))
      by (eapply keeps_extends; eassumption).
    assert (Hzs1 : Forall2 (repr hc1) ts zs).
    { eapply Forall2_impl; [exact Hzs|]. intros t v. now apply repr_in_keeps. }
    assert (Hsuf1 : Forall2 (nrepr (S self) hc1)
              (view_from (existsb is_hash (take (S i) ts)) (drop (S i) ts)) suf).
    { eapply Forall2_impl; [exact Hsuf|]. intros t v. now apply nrepr_keeps. }
    assert (Hsubn : nrepr (S self) hc1 (view (TList tsi)) (VRef sub)).
    { rewrite view_unfold. apply (nrepr_node _ _ _ _ sxs ssp); [lia|assumption|].
      eapply Forall2_impl; [exact Hview|]. intros t v. apply nrepr_weaken. lia. }
    assert (Lx : length sxs = length (view_from false tsi))
      by (symmetry; eapply Forall2_length; eassumption).
    assert (Ly : length sys = length tsi)
      by (symmetry; eapply Forall2_length; eassumption).
    set (keep := negb (Nat.eqb (length sxs) 0) || Nat.eqb (length sys) 0).
    set (cur' := if keep then take i vs ++ VRef sub :: suf else take i vs ++ suf).
    set (suf' := if keep then VRef sub :: suf else suf).
    set (hc2 := <[self := OUnspaced cur' y]> hc1).
    assert (E2 : (if keep then list_setitem self (Z.of_nat i) (VRef sub)
                  else list_delitem self (Z.of_nat i)) hc1 = (Ret tt, hc2)).
    { unfold hc2, cur'. destruct keep.
      - rewrite (run_list_setitem_at _ _ _ _ _ Hs1) by exact Hcur.
        cbn [with_elems elems]. now rewrite Hset.
      - rewrite (run_list_delitem_at _ _ _ _ Hs1) by exact Hcur.
        cbn [with_elems elems]. now rewrite Hdel. }
    assert (Hs2 : hc2 !! self = Some (OUnspaced (take i vs ++ suf') y)).
    { unfold hc2. rewrite list_lookup_insert_eq
        by (apply lookup_lt_Some in Hs1; exact Hs1).
      unfold cur', suf'. now destruct keep. }
    assert (Hy2 : hc2 !! y = Some (OList zs))
      by (unfold hc2; now rewrite list_lookup_insert_ne).
    assert (Hzs2 : Forall2 (repr hc2) ts zs).
    { eapply Forall2_impl; [exact Hzs1|]. intros t v.
      apply (repr_put_unspaced _ _ _ _ _ _ _ _ Hs1). }
    assert (Hssp2 : repr hc2 (TList tsi) (VRef ssp)).
    { unfold hc2. eapply repr_put_unspaced; eassumption. }
    assert (Hilen : i < length zs).
    { apply Forall2_length in Hzs. rewrite <- Hzs.
      apply lookup_lt_Some in Hti. exact Hti. }
    exists (<[y := OList (<[i := VRef ssp]> zs)]> hc2). split.
    + cbn [iterate].
      rewrite (run_bind_Ret _ _ _ _ _ (run_get_elems _ _ _ Ha')). cbn [elems].
      rewrite (run_bind_Ret _ _ _ _ _ Einit).
      rewrite (run_bind_Ret _ _ _ _ _ (run_get_elems _ _ _ Hsub)).
      rewrite (run_bind_Ret _ _ _ _ _ (run_get_spaced _ _ _ _ Hsub)).
      rewrite (run_bind_Ret _ _ _ _ _ (run_get_elems _ _ _ Hssp_l)).
      cbn [elems]. fold keep. rewrite (run_bind_Ret _ _ _ _ _ E2).
      rewrite (run_bind_Ret _ _ _ _ _ (run_get_spaced _ _ _ _ Hs2)).
      apply (run_list_setitem_at _ _ _ _ _ Hy2). exact Hilen.
    + exists suf', (<[i := VRef ssp]> zs).
      split; [now rewrite list_lookup_insert_ne|].
      split; [apply list_lookup_insert_eq; now apply lookup_lt_Some in Hy2|].
      split; [|split].
      * apply (spaced_put hc2 y zs); [assumption..|].
        eapply Forall2_set_r; eassumption.
      * rewrite (view_step i (TList tsi) Hti).
        assert (Hput : forall t v, nrepr (S self) hc1 t v ->
                  nrepr (S self) (<[y := OList (<[i := VRef ssp]> zs)]> hc2) t v).
        { intros t v Hn. apply nrepr_put; [lia|]. apply nrepr_put; [lia|exact Hn]. }
        rewrite view_unfold. cbn [view_entry]. rewrite <- Lx, <- Ly. fold keep.
        unfold suf'. destruct keep.
        -- constructor.
           ++ rewrite <- view_unfold. now apply Hput.
           ++ eapply Forall2_impl; [exact Hsuf1|]. exact Hput.
        -- eapply Forall2_impl; [exact Hsuf1|]. exact Hput.
      * eapply keeps_trans; [exact K|].
        eapply keeps_trans; [eapply keeps_le; [|exact K1]; apply K|].
        eapply keeps_trans;
          [apply (keeps_put _ hc1 self (OUnspaced cur' y)); exact Hself|].
        apply keeps_put. exact Hy.
  - assert (Hleaf : e = leaf ti /\ view ti = ti).
    { inversion Hrepr; subst; try discriminate; split; reflexivity. }
    destruct Hleaf as [Eleaf Eview].
    assert (Hatom : match ti with TList _ => False | _ => True end).
    { inversion Hrepr; subst; try discriminate; exact I. }
    assert (Hnr : nrepr (S self) hc ti e).
    { inversion Hrepr; subst; try discriminate; constructor. }
    assert (Hstay : spacey e && negb (existsb is_hash (take i ts)) = false ->
              view_at h ts vs self y hc i).
    { intros Hc. exists (e :: suf), zs. repeat (split; [assumption|]). split; [|assumption].
      rewrite (view_step i ti Hti), Eview.
      assert (Ev : view_entry (existsb is_hash (take i ts)) ti ti
                     (view_from (existsb is_hash (take (S i) ts)) (drop (S i) ts))
                   = ti :: view_from (existsb is_hash (take (S i) ts)) (drop (S i) ts)).
      { unfold view_entry. rewrite <- Eleaf, Hc. destruct ti; (reflexivity || contradiction). }
      rewrite Ev. now constructor. }
    assert (Hgone : spacey e && negb (existsb is_hash (take i ts)) = true ->
              view_at h ts vs self y (<[self := OUnspaced (take i vs ++ suf) y]> hc) i).
    { intros Hc. exists suf, zs.
      split; [now apply list_lookup_insert_eq|].
      split; [now rewrite list_lookup_insert_ne|].
      split; [|split].
      - eapply Forall2_impl; [exact Hzs|]. intros t v.
        apply (repr_put_unspaced _ _ _ _ _ _ _ _ Hs).
      - rewrite (view_step i ti Hti), Eview.
        assert (Ev : view_entry (existsb is_hash (take i ts)) ti ti
                     (view_from (existsb is_hash (take (S i) ts)) (drop (S i) ts))
                   = view_from (existsb is_hash (take (S i) ts)) (drop (S i) ts)).
        { unfold view_entry. rewrite <- Eleaf, Hc. destruct ti; (reflexivity || contradiction). }
        rewrite Ev. eapply Forall2_impl; [exact Hsuf|].
        intros t v. apply nrepr_put. lia.
      - eapply keeps_trans; [exact K|]. now apply keeps_put. }
    destruct (spacey e) eqn:Esp.
    + rewrite (run_bind_Ret _ _ _ _ _ (run_get_elems _ _ _ Hs)). cbn [elems].
      rewrite (take_app_length' _ _ _ (eq_sym Hlen)).
      rewrite (seen_hash h ts vs i Hsrc).
      destruct (negb (existsb is_hash (take i ts))) eqn:En.
      * eexists. split; [apply (run_list_delitem_at _ _ _ _ Hs); exact Hcur|].
        cbn [with_elems elems]. rewrite Hdel. now apply Hgone.
      * exists hc. split; [reflexivity|]. now apply Hstay.
    + exists hc. split; [reflexivity|]. now apply Hstay.
Qed.

Lemma loop_view b : b <= length vs -> forall hc,
  view_at h ts vs self y hc b ->
  exists hc', forM_ (rev (enumerate (take b vs))) (init_body n false self) hc
              = (Ret tt, hc')
              /\ view_at h ts vs self y hc' 0.
Proof.
  induction b as [|b IH]; intros Hb hc Hinv.
  - exists hc. split; [reflexivity|exact Hinv].
  - destruct (lookup_lt_is_Some_2 vs b ltac:(lia)) as [e He].
    rewrite (take_S_r _ _ _ He), enumerate_app, rev_app_distr.
    cbn [rev app]. rewrite length_take, Nat.min_l by lia.
    destruct (body_view hc b e He Hinv) as (hc1 & E1 & Hinv1).
    destruct (IH ltac:(lia) hc1 Hinv1) as (hc' & E & Hinv').
    exists hc'. split; [|assumption].
    unfold forM_. cbn [foldM].
    rewrite (run_bind_Ret _ _ _ _ _ E1). exact E.
Qed.

End InitView.

(** [UnspacedList(src)] for a nested list of strings and [None]: the
    logical lists of the nodes it builds are the logical view of the
    tokens of [src], and its spaced list holds all of them. *)
Lemma init_view ts : forall vs h fuel,
  Forall2 (repr h) ts vs -> size (TList ts) < fuel ->
  exists self h', UnspacedList_init fuel vs false h = (Ret self, h')
    /\ keeps (length h) h h' /\ length h <= self
    /\ exists xs sp, h' !! self = Some (OUnspaced xs sp)
         /\ repr h' (TList ts) (VRef sp)
         /\ Forall2 (nrepr (length h) h') (view_from false ts) xs.
Proof.
  remember (TList ts) as T eqn:ET. revert ts ET.
  induction T as [T IH] using size_ind. intros ts -> vs h fuel Hsrc Hfuel.
  destruct fuel as [|n]; [lia|].
  set (tmp := length h). set (h1 := h ++ [OList vs]).
  assert (K1 : keeps (length h) h h1) by apply keeps_alloc.
  assert (Htmp : repr h1 (TList ts) (VRef tmp)).
  { apply (repr_list _ _ _ _ vs); [intros []| |].
    - unfold h1, tmp. rewrite lookup_app_r by lia. now rewrite Nat.sub_diag.
    - eapply Forall2_impl; [exact Hsrc|]. intros t v. now apply repr_in_keeps. }
  destruct (deepcopy_tree n h1 (TList ts) (VRef tmp) Htmp ltac:(lia))
    as (v' & m' & h2 & Edc & Hcopy & K2 & Hfresh).
  rewrite (Hfresh tmp eq_refl) in *. clear Hfresh.
  set (y := length h1) in *.
  inversion Hcopy as [ |  |? ? cs _ Hy2 Hcs]; subst.
  set (self := length h2). set (h3 := h2 ++ [OUnspaced [] y]).
  assert (Hs3 : h3 !! self = Some (OUnspaced [] y)).
  { unfold h3, self. rewrite lookup_app_r by lia. now rewrite Nat.sub_diag. }
  pose proof (run_set_elems _ _ _ vs Hs3) as E4. cbn [with_elems] in E4.
  set (h4 := <[self := OUnspaced vs y]> h3) in *.
  assert (Lh1 : length h1 = S (length h))
    by (unfold h1; rewrite length_app; simpl; lia).
  assert (Hself : length h <= self) by (unfold self; destruct K2; lia).
  assert (Hy : length h <= y) by (unfold y; lia).
  assert (Hys : y < self) by (unfold self; now apply lookup_lt_Some in Hy2).
  assert (K3 : keeps (length h2) h2 h3) by apply keeps_alloc.
  assert (Lts : length ts = length vs) by (eapply Forall2_length; eassumption).
  assert (Hinv : view_at h ts vs self y h4 (length vs)).
  { assert (Hy3 : h3 !! y = Some (OList cs)) by (eapply keeps_extends; eassumption).
    assert (self <> y) by lia.
    exists [], cs. unfold h4. split; [|split; [|split; [|split]]].
    - rewrite firstn_all, app_nil_r.
      apply list_lookup_insert_eq. now apply lookup_lt_Some in Hs3.
    - now rewrite list_lookup_insert_ne.
    - eapply Forall2_impl; [exact Hcs|]. intros t v Htv.
      apply (repr_put_unspaced _ _ _ _ _ _ _ _ Hs3).
      eapply repr_in_keeps; eassumption.
    - rewrite <- Lts, drop_all. constructor.
    - eapply keeps_trans; [exact K1|].
      eapply keeps_trans; [eapply keeps_le; [|exact K2]; lia|].
      eapply keeps_trans; [eapply keeps_le; [|exact K3]; destruct K2; lia|].
      now apply keeps_put. }
  assert (IHinit : forall tsi es hc,
            size (TList tsi) < size (TList ts) ->
            Forall2 (repr hc) tsi es ->
            exists sub hc', UnspacedList_init n es false hc = (Ret sub, hc')
              /\ keeps (length hc) hc hc' /\ length hc <= sub
              /\ exists sxs ssp, hc' !! sub = Some (OUnspaced sxs ssp)
                   /\ repr hc' (TList tsi) (VRef ssp)
                   /\ Forall2 (nrepr (length hc) hc') (view_from false tsi) sxs).
  { intros tsi es hc Hsz Hes.
    apply (IH (TList tsi) Hsz tsi eq_refl es hc n Hes). lia. }
  destruct (loop_view n h ts vs self y Hsrc IHinit Hself Hy Hys
              (length vs) (Nat.le_refl _) h4 Hinv)
    as (h5 & E5 & suf & zs & Hs5 & Hy5 & Hzs5 & Hsuf5 & K5).
  rewrite firstn_all in E5.
  exists self, h5. split; [|split; [exact K5|split; [exact Hself|]]].
  - cbn [UnspacedList_init].
    unfold bind at 1, alloc at 1. fold tmp. fold h1.
    rewrite (run_bind_Ret _ _ _ _ _ Edc). cbn [fst as_ref].
    unfold bind at 1, ret at 1.
    unfold bind at 1, alloc at 1. fold self. fold h3.
    unfold bind at 1, ret at 1.
    rewrite (run_bind_Ret _ _ _ _ _ E4).
    rewrite (run_bind_Ret _ _ _ _ _ E5). reflexivity.
  - exists suf, y. cbn [take app] in Hs5. split; [assumption|]. split.
    + apply (repr_list _ _ _ _ zs); [intros []|assumption..].
    + cbn [take drop existsb] in Hsuf5.
      eapply Forall2_impl; [exact Hsuf5|]. intros t v. apply nrepr_weaken. lia.
Qed.

(** *** The logical view of the items of a configuration *)

Lemma white_not_hash w :
  all_chars is_white w = true -> is_hash (TStr w) = false.
Proof.
  intros Hw. unfold is_hash. cbn [leaf val_eqb].
  destruct (String.eqb_spec "#" w) as [<-|]; [discriminate|reflexivity].
Qed.

Lemma view_from_ws w rest :
  all_chars is_white w = true ->
  view_from false (ws_tok w ++ rest) = view_from false rest.
Proof.
  intros Hw. destruct w as [|c w]; [reflexivity|].
  cbn [ws_tok app view_from view view_entry leaf].
  rewrite (white_spacey (String c w)) by (discriminate || assumption).
  now rewrite (white_not_hash _ Hw).
Qed.

Lemma view_from_kept seen s rest :
  spacey (VStr s) = false ->
  view_from seen (TStr s :: rest)
  = TStr s :: view_from (seen || is_hash (TStr s)) rest.
Proof. intros Hs. cbn [view_from view view_entry leaf]. now rewrite Hs. Qed.

Lemma view_from_piece s rest :
  s = EmptyString \/ (spacey (VStr s) = false /\ is_hash (TStr s) = false) ->
  view_from false (ws_tok s ++ rest) = ws_tok s ++ view_from false rest.
Proof.
  intros [->|[Hs Hh]]; [reflexivity|].
  destruct s as [|c s]; [reflexivity|].
  cbn [ws_tok app]. now rewrite view_from_kept, Hh.
Qed.

Lemma key_not_hash k :
  all_chars is_key_char k = true -> is_hash (TStr k) = false.
Proof.
  intros Hk. unfold is_hash. cbn [leaf val_eqb].
  destruct (String.eqb_spec "#" k) as [<-|]; [discriminate|reflexivity].
Qed.

Lemma directive_view w k g v :
  stmt_ok (Directive w k g v) = true ->
  view (stmt_tok (Directive w k g v)) = stmt_view (Directive w k g v).
Proof.
  intros H. apply directive_ok_inv in H as (Hw & Hk & Hg & _).
  apply key_ok_inv in Hk as [Hne Hk].
  cbn [stmt_tok stmt_view]. rewrite view_unfold. f_equal.
  rewrite view_from_ws by exact Hw. cbn [app].
  rewrite view_from_kept by now apply key_not_spacey.
  rewrite (key_not_hash k Hk). cbn [orb].
  rewrite view_from_ws by exact Hg. f_equal.
  cbn [view_from view view_entry leaf]. rewrite andb_true_r.
  now destruct (spacey (VStr v)).
Qed.

Lemma comment_view w t :
  stmt_ok (Comment w t) = true ->
  view (stmt_tok (Comment w t)) = stmt_view (Comment w t).
Proof.
  cbn [stmt_ok]. intros H. apply andb_prop in H as [Hw _].
  cbn [stmt_tok stmt_view]. rewrite view_unfold. f_equal.
  rewrite view_from_ws by exact Hw.
  rewrite view_from_kept by reflexivity. f_equal.
  cbn [view_from view view_entry leaf orb]. change (is_hash (TStr "#")) with true.
  cbn [orb negb]. now rewrite andb_false_r.
Qed.

Lemma modifier_kept m :
  is_modifier m = true ->
  spacey (VStr m) = false /\ is_hash (TStr m) = false.
Proof.
  intros H. apply is_modifier_inv in H as [-> | [-> | [-> | ->]]];
    split; reflexivity.
Qed.

Lemma arg_not_space c : is_arg c = true -> inb c whitespace = false.
Proof.
  unfold is_arg. intros H. apply andb_prop in H as [_ H].
  now apply negb_true_iff in H.
Qed.

Lemma location_not_spacey loc :
  loc <> EmptyString -> all_chars is_arg loc = true -> spacey (VStr loc) = false.
Proof.
  intros Hne Hl. unfold spacey, isspace. destruct loc as [|c loc]; [congruence|].
  simpl in Hl. apply andb_prop in Hl as [Hc _].
  cbn [all_in]. now rewrite (arg_not_space c Hc).
Qed.

Lemma header_view w hd :
  all_chars is_white w = true -> header_ok hd = true ->
  (hloc hd =? "#")%string = false ->
  view_from false (ws_tok w ++ header_toks hd)
  = TStr (hkey hd) :: ws_tok (hmod hd) ++ ws_tok (hloc hd).
Proof.
  intros Hw Hok Hh. destruct hd as [k g m g2 loc g3].
  unfold header_toks. cbn [hkey hgap hmod hgap2 hloc hgap3] in *.
  destruct (header_ok_inv _ _ _ _ _ _ Hok)
    as (Hk & _ & Hg & Hg2 & Hl & Hg3 & _ & Hm & _).
  apply key_ok_inv in Hk as [Hne Hk].
  rewrite view_from_ws by exact Hw. cbn [app].
  rewrite view_from_kept by now apply key_not_spacey.
  rewrite (key_not_hash k Hk). cbn [orb]. f_equal.
  rewrite view_from_ws by exact Hg.
  rewrite view_from_piece.
  2:{ destruct Hm as [(-> & _)|(_ & Hm & _)]; [now left|right].
      now apply modifier_kept. }
  f_equal. rewrite view_from_ws by exact Hg2.
  rewrite view_from_piece.
  2:{ destruct loc as [|c loc]; [now left|right].
      split; [apply location_not_spacey; [discriminate|exact Hl]|].
      unfold is_hash. cbn [leaf val_eqb]. now rewrite String.eqb_sym. }
  rewrite <- (app_nil_r (ws_tok g3)), view_from_ws by exact Hg3.
  cbn [view_from]. now rewrite app_nil_r.
Qed.

Lemma stmt_view_list it : exists x xs, stmt_view it = TList (x :: xs).
Proof. destruct it; cbn [stmt_view]; eauto. Qed.

Lemma stmt_tok_list it : exists ts, stmt_tok it = TList ts.
Proof. destruct it; cbn [stmt_tok]; eauto. Qed.

(** The nodes of items are all kept, the white characters after them
    dropped. *)
Lemma view_from_stmts its e :
  Forall (fun it => view (stmt_tok it) = stmt_view it) its ->
  all_chars is_white e = true ->
  view_from false (map stmt_tok its ++ ws_tok e) = map stmt_view its.
Proof.
  intros Hall He. induction Hall as [|it its Hit Hrest IH].
  - cbn [map app]. rewrite <- (app_nil_r (ws_tok e)).
    now rewrite view_from_ws.
  - cbn [map app view_from]. rewrite Hit.
    destruct (stmt_tok_list it) as (ts & Et).
    destruct (stmt_view_list it) as (x & xs & Ev).
    rewrite Et, Ev. cbn [view_entry length Nat.eqb negb orb].
    change (is_hash (TList ts)) with false. cbn [orb]. now rewrite IH.
Qed.

Lemma block_view w hd body e :
  stmt_ok (Block w hd body e) = true ->
  (hloc hd =? "#")%string = false ->
  Forall (fun it => view (stmt_tok it) = stmt_view it) body ->
  view (stmt_tok (Block w hd body e)) = stmt_view (Block w hd body e).
Proof.
  intros Hok Hh Hb. apply block_ok_inv in Hok as (Hw & Hhd & _ & _ & He).
  cbn [stmt_tok stmt_view]. rewrite view_unfold. f_equal.
  cbn [view_from]. rewrite !view_unfold.
  rewrite (header_view w hd Hw Hhd Hh), (view_from_stmts body e Hb He).
  cbn [view_entry length Nat.eqb negb orb].
  change (is_hash (TList ?x)) with false. cbn [orb]. f_equal.
  rewrite length_map, length_app, length_map.
  destruct body as [|b body].
  - cbn [map length Nat.eqb negb orb Nat.add].
    destruct e as [|c e]; reflexivity.
  - reflexivity.
Qed.

Lemma stmt_view_correct m : forall it,
  depth it <= m -> stmt_ok it = true -> view_ok it = true ->
  view (stmt_tok it) = stmt_view it.
Proof.
  induction m as [|m IH]; intros it Hd Hok Hv;
    destruct it as [w k g v|w t|w hd body e].
  1,4: now apply directive_view.
  1,3: now apply comment_view.
  - cbn [depth] in Hd. lia.
  - cbn [depth] in Hd. apply le_S_n in Hd.
    cbn [view_ok] in Hv. apply andb_prop in Hv as [Hh Hvb].
    apply negb_true_iff in Hh.
    apply block_view; [exact Hok|exact Hh|].
    apply block_ok_inv in Hok as (_ & _ & Hb & _).
    clear -IH Hd Hb Hvb. induction body as [|b body IHb]; [constructor|].
    cbn [forallb] in Hb, Hvb.
    apply andb_prop in Hb as [Hb Hbs]. apply andb_prop in Hvb as [Hvb Hvbs].
    change (list_max (map depth (b :: body)))
      with (Nat.max (depth b) (list_max (map depth body))) in Hd.
    constructor; [apply IH; (assumption || lia)|].
    apply IHb; (assumption || lia).
Qed.

Lemma stmt_view_unlead it : stmt_view (unlead it) = stmt_view it.
Proof. destruct it; reflexivity. Qed.

Lemma view_ok_unlead it : view_ok (unlead it) = view_ok it.
Proof. destruct it; reflexivity. Qed.

Lemma script_view its w :
  forallb stmt_ok its = true -> forallb view_ok its = true ->
  all_chars is_white w = true ->
  view (TList (map stmt_tok its ++ ws_tok w)) = TList (map stmt_view its).
Proof.
  intros Hok Hv Hw. rewrite view_unfold. f_equal.
  rewrite view_from_stmts; [reflexivity|clear Hw|exact Hw].
  induction its as [|it its IH]; [constructor|].
  cbn [forallb] in Hok, Hv.
  apply andb_prop in Hok as [Hok Hoks]. apply andb_prop in Hv as [Hv Hvs].
  cbn [map]. constructor; [|now apply IH].
  now apply (stmt_view_correct (depth it)); [lia| |].
Qed.

Lemma view_unlead_first its :
  map stmt_view (unlead_first its) = map stmt_view its.
Proof.
  destruct its as [|it its]; [reflexivity|].
  cbn [unlead_first map]. now rewrite stmt_view_unlead.
Qed.

Lemma view_ok_unlead_first its :
  forallb view_ok (unlead_first its) = forallb view_ok its.
Proof.
  destruct its as [|it its]; [reflexivity|].
  cbn [unlead_first forallb]. now rewrite view_ok_unlead.
Qed.

(** [loads] on a text of items. *)
Lemma loads_view fuel its w h :
  its <> [] ->
  forallb stmt_ok its = true -> forallb top_ok its = true ->
  forallb view_ok its = true ->
  lines_ok its w = true ->
  all_chars is_white w = true ->
  String.length (stmts_text its ++ w) + 1 < fuel ->
  exists tree h',
    loads fuel (stmts_text its ++ w) h = (Ret tree, h')
    /\ nrepr (length h) h' (TList (map stmt_view its)) (VRef tree).
Proof.
  intros Hne Hok Htop Hv Hl Hw Hf.
  pose proof (parse_script its w Hne Hok Htop Hl Hw) as Ep.
  set (ts := map stmt_tok (unlead_first its) ++ ws_tok w) in *.
  assert (Hsize : size (TList ts) < fuel).
  { unfold ts. cbn [size]. rewrite map_app, list_sum_app, size_ws.
    pose proof (size_stmts (unlead_first its) (forallb_unlead its Hok)).
    pose proof (unlead_shorter its). rewrite string_length_app in Hf. lia. }
  destruct (alloc_tok_repr (TList ts) h) as (v & h1 & Ea & Hr & K1).
  inversion Hr as [ |  |? l vs _ Hlk Hvs]; subst.
  destruct (init_view ts vs h1 fuel Hvs Hsize)
    as (self & h2 & Ei & K2 & Hlo & xs & sp & Hs & _ & Hx).
  exists self, h2. split.
  - unfold loads. rewrite Ep.
    rewrite (run_bind_Ret _ _ _ _ _ Ea).
    now rewrite (run_UnspacedList _ _ _ _ _ Hlk).
  - rewrite <- view_unlead_first.
    rewrite <- (script_view (unlead_first its) w (forallb_unlead its Hok)
                  ltac:(now rewrite view_ok_unlead_first) Hw).
    fold ts. rewrite view_unfold.
    apply (nrepr_node _ _ _ _ xs sp); [destruct K1; lia|exact Hs|].
    eapply Forall2_impl; [exact Hx|]. intros t x. apply nrepr_weaken.
    destruct K1; lia.
Qed.

(** X26.  [UnspacedList(src)] for a nested list [src] of strings and
    [None]: the node it returns, and the nodes below it, have as logical
    lists the logical view of the tokens of [src]: whitespace entries are
    dropped unless a [#] stands before them in their list, and a
    sublist is dropped when it holds nothing but whitespace. *)
Theorem logical_view_of_constructed_tree
    (fuel : nat) (h : heap) (l : nat) (ts : list tok) :
  repr h (TList ts) (VRef l) ->
  size (TList ts) < fuel ->
  exists self h',
    UnspacedList fuel (VRef l) false h = (Ret self, h')
    /\ nrepr (length h) h' (view (TList ts)) (VRef self)
    /\ (forall a o, h !! a = Some o -> h' !! a = Some o).
Proof.
  intros Hr Hf. inversion Hr as [ |  |? ? vs _ Hlk Hvs]; subst.
  destruct (init_view ts vs h fuel Hvs Hf)
    as (self & h' & Ei & K & Hlo & xs & sp & Hs & _ & Hx).
  exists self, h'. split; [now rewrite (run_UnspacedList _ _ _ _ _ Hlk)|].
  split; [|now apply keeps_extends].
  rewrite view_unfold. now apply (nrepr_node _ _ _ _ xs sp).
Qed.

(** X27.  [loads] of a text of directives, comments and blocks returns a
    tree whose logical lists hold the items without any white space: a
    directive as its key and value, a comment as [#] and its text, a
    block as its header and the list of its body. *)
Theorem loads_gives_the_items_without_whitespace
    (fuel : nat) (its : list stmt) (w : string) (h : heap) :
  its <> [] ->
  forallb stmt_ok its = true ->
  forallb top_ok its = true ->
  forallb view_ok its = true ->
  lines_ok its w = true ->
  all_chars is_white w = true ->
  String.length (stmts_text its ++ w) + 1 < fuel ->
  exists tree h',
    loads fuel (stmts_text its ++ w) h = (Ret tree, h')
    /\ nrepr (length h) h' (TList (map stmt_view its)) (VRef tree).
Proof. intros. now apply loads_view. Qed.

End NodeFacts.

(** * What [dumps] writes after an edit *)

Module EditFacts.
Import Chars Pyparsing Py Store Nginxparser FrameSpec ConstructSpec Frame
  TreeSpec TreeFacts ParserSpec ViewSpec ViewFacts TokenSpec TokenFacts
  RoundTripFacts EditSpec.
Local Open Scope py_scope.

Lemma count_entries ys h ts zs :
  Forall2 (repr_in ys h) ts zs -> count_nonspacey zs = Z.of_nat (entries ts).
Proof.
  unfold entries. induction 1 as [|t z ts zs Htz _ IH]; [reflexivity|].
  cbn [count_nonspacey List.filter]. rewrite IH, (repr_spacey _ _ _ _ Htz).
  destruct (spacey (leaf t)); cbn [negb length]; lia.
Qed.

(** [_spaces_before] at the index of an entry: the whitespace entries in
    front of it. *)
Lemma spaces_loop_at h zb z za : forall acc,
  spacey z = false ->
  spaces_loop (zb ++ z :: za) (count_nonspacey zb) acc h
  = (Ret (acc + (Z.of_nat (length zb) - count_nonspacey zb))%Z, h).
Proof.
  induction zb as [|x zb IH]; intros acc Hz.
  - cbn [app count_nonspacey length spaces_loop]. cbn. rewrite Hz.
    destruct za; cbn; unfold ret; do 2 f_equal; lia.
  - pose proof (count_nonspacey_nonneg zb) as Hnn.
    cbn [app count_nonspacey length spaces_loop].
    destruct (Z.eqb_spec ((if spacey x then 0 else 1) + count_nonspacey zb) (-1))
      as [E|_]; [destruct (spacey x); lia|].
    destruct (spacey x).
    + rewrite Z.add_0_l, IH by assumption. do 2 f_equal. lia.
    + replace (1 + count_nonspacey zb - 1)%Z with (count_nonspacey zb) by lia.
      rewrite IH by assumption. do 2 f_equal. lia.
Qed.

(** What the tokens of a spaced list stand for does not reach the list. *)
Lemma old_avoid h h1 sp ts zs :
  h !! sp = Some (OList zs) -> Forall2 (repr h) ts zs ->
  (forall a o, h !! a = Some o -> h1 !! a = Some o) ->
  Forall2 (repr_in [sp] h1) ts zs.
Proof.
  intros Hsp Hzs Hext.
  assert (HT : repr h (TList ts) (VRef sp))
    by (apply (repr_list _ _ _ _ zs); [intros []|assumption..]).
  eapply Forall2_impl_In; [exact Hzs|]. intros t z Ht Hz.
  apply (repr_in_heap _ h); [assumption|].
  exact (repr_avoid_bigger h (TList ts) sp t z HT Hz (size_child _ _ Ht)).
Qed.

(** [dumps] after the spaced list and the logical list of a node have been
    rewritten. *)
Lemma dump_after_edit fuel h1 tree sp xs xs' zs ts' zs' liness' :
  h1 !! tree = Some (OUnspaced xs sp) -> h1 !! sp = Some (OList zs) ->
  Forall2 (repr_in [sp] h1) ts' zs' -> Forall2 text_of ts' liness' ->
  size (TList ts') < fuel ->
  exists h', dumps fuel tree
               (<[tree := OUnspaced xs' sp]> (<[sp := OList zs']> h1))
             = (Ret (join (List.concat liness')), h').
Proof.
  intros Htree Hsp Hzs Htext Hfuel.
  assert (Hne : sp <> tree) by (intros ->; congruence).
  set (h2 := <[sp := OList zs']> h1).
  assert (Htree2 : h2 !! tree = Some (OUnspaced xs sp))
    by (unfold h2; now rewrite list_lookup_insert_ne).
  set (h3 := <[tree := OUnspaced xs' sp]> h2).
  assert (Htree3 : h3 !! tree = Some (OUnspaced xs' sp)).
  { apply list_lookup_insert_eq. now apply lookup_lt_Some in Htree2. }
  assert (Hsp3 : h3 !! sp = Some (OList zs')).
  { unfold h3. rewrite list_lookup_insert_ne by congruence.
    apply list_lookup_insert_eq. now apply lookup_lt_Some in Hsp. }
  assert (Hr : Forall2 (repr h3) ts' zs').
  { eapply Forall2_impl_In; [exact Hzs|]. intros t z _ Hz.
    apply (repr_put_unspaced _ _ _ _ _ _ _ _ Htree2).
    eapply repr_in_avoid; [|apply repr_in_put; [|exact Hz]].
    - intros a [].
    - now left. }
  destruct (dumper_text (TList ts') ts' eq_refl liness' zs' h3 fuel Htext Hr Hfuel)
    as (h' & E & _).
  exists h'. unfold dumps, RawNginxDumper_str.
  rewrite (run_bind_Ret _ _ _ _ _ (run_get_spaced _ _ _ _ Htree3)).
  rewrite (run_bind_Ret _ _ _ _ _ (run_get_elems _ _ _ Hsp3)). cbn [elems].
  now rewrite (run_bind_Ret _ _ _ _ _ E).
Qed.

(** [_coerce] of the new directive [[k, v]]. *)
Lemma coerce_directive fuel h l k v so :
  h !! l = Some (OList [VStr k; VStr v]) -> 2 <= fuel ->
  exists u a h1,
    _coerce fuel (VRef l) so h = (Ret (VRef u, VRef a), h1)
    /\ length h <= a
    /\ (forall b o, h !! b = Some o -> h1 !! b = Some o)
    /\ forall ys, ~ In a ys -> repr_in ys h1 (directive_tokens so k v) (VRef a).
Proof.
  intros Hl Hfuel. destruct so.
  - exists (length h + 2), (length h + 3),
      (h ++ [OList [VStr k; VStr v]; OList [VStr k; VStr v];
             OUnspaced (visible [VStr k; VStr v]) (length h + 3);
             OList (spaced_out [VStr k; VStr v])]).
    split; [|split; [lia|split]].
    + unfold _coerce.
      rewrite (run_bind_Ret _ _ _ _ _ (run_get_obj _ _ _ Hl)).
      rewrite (run_bind_Ret _ _ _ _ _
                 (init_flat_spaced_out fuel [VStr k; VStr v] h Hfuel
                    ltac:(repeat constructor))).
      erewrite run_bind_Ret; [reflexivity|].
      eapply run_get_spaced. now rewrite lookup_off.
    + intros b o. apply lookup_old.
    + intros ys Hys. eapply repr_list; [exact Hys|now rewrite lookup_off|].
      repeat constructor.
  - exists (length h + 2), (length h + 1),
      (h ++ [OList [VStr k; VStr v]; OList [VStr k; VStr v];
             OUnspaced (visible [VStr k; VStr v]) (length h + 1)]).
    split; [|split; [lia|split]].
    + apply coerce_flat; [assumption| |assumption]. repeat constructor.
    + intros b o. apply lookup_old.
    + intros ys Hys. eapply repr_list; [exact Hys|now rewrite lookup_off|].
      repeat constructor.
Qed.

Lemma directive_text so k v :
  is_comment_key (VStr k) = false ->
  (so = false -> spacey (VStr k) = false /\ spacey (VStr v) = false) ->
  text_of (directive_tokens so k v) [directive_line so k v].
Proof.
  intros Hk Hso. destruct so; unfold directive_tokens, directive_line.
  - apply (text_directive [TStr nl] nl k [TStr " "] " " v []); [|assumption|].
    + right. split; reflexivity.
    + right. split; [reflexivity|]. split; [discriminate|reflexivity].
  - destruct (Hso eq_refl) as [Hks Hvs].
    apply (text_directive [] "" k [] "" v []); [|assumption|].
    + left. split; [reflexivity|]. split; [reflexivity|exact Hks].
    + left. split; [reflexivity|]. split; [reflexivity|now right].
Qed.

Lemma join_lines (a b : list (list string)) :
  join (List.concat (a ++ b))
  = (join (List.concat a) ++ join (List.concat b))%string.
Proof. now rewrite List.concat_app, join_app. Qed.

Lemma size_app_one ts t :
  size (TList (ts ++ [t])) = size (TList ts) + size t.
Proof.
  change (size (TList (ts ++ [t]))) with (S (list_sum (map size (ts ++ [t])))).
  change (size (TList ts)) with (S (list_sum (map size ts))).
  rewrite map_app, list_sum_app. cbn. lia.
Qed.

Lemma size_middle a t b :
  size (TList (a ++ t :: b)) = size (TList (a ++ b)) + size t.
Proof.
  change (size (TList (a ++ t :: b)))
    with (S (list_sum (map size (a ++ t :: b)))).
  change (size (TList (a ++ b))) with (S (list_sum (map size (a ++ b)))).
  rewrite !map_app, !list_sum_app.
  change (list_sum (map size (t :: b))) with (size t + list_sum (map size b)).
  lia.
Qed.

Lemma size_directive so k v : size (directive_tokens so k v) = 1.
Proof. now destruct so. Qed.

(** X28.  Appending the new directive [[k, v]] to a node adds its line at the
    end of what [dumps] writes for the node: a line break, the key, a
    blank, the value and [;] with [spaceout], and key, value and [;] with
    nothing between them without. *)
Theorem appended_directive_is_dumped
    (fuel : nat) (h : heap) (tree : nat) (xs : list val) (sp : nat)
    (ts : list tok) (liness : list (list string)) (l : nat) (k v : string)
    (so : bool) :
  h !! tree = Some (OUnspaced xs sp) ->
  repr h (TList ts) (VRef sp) ->
  Forall2 text_of ts liness ->
  h !! l = Some (OList [VStr k; VStr v]) ->
  is_comment_key (VStr k) = false ->
  (so = false -> spacey (VStr k) = false /\ spacey (VStr v) = false) ->
  size (TList ts) + 1 < fuel ->
  exists h',
    (append fuel tree (VRef l) so ;; dumps fuel tree) h
    = (Ret (join (List.concat liness) ++ directive_line so k v)%string, h').
Proof.
  intros Htree Hr Htext Hl Hk Hso Hfuel.
  destruct (repr_list_inv _ _ _ _ Hr) as (sp' & zs & [= <-] & _ & Hsp & Hzs).
  destruct (coerce_directive fuel h l k v so Hl ltac:(lia))
    as (u & a & h1 & Ec & Ha & Hext & Hnew).
  rewrite (run_bind_Ret _ _ _ _ _
             (run_append fuel h tree sp xs zs (VRef l) so _ h1 Htree Hsp Ec)).
  cbn [fst snd].
  destruct (dump_after_edit fuel h1 tree sp xs (xs ++ [VRef u]) zs
              (ts ++ [directive_tokens so k v]) (zs ++ [VRef a])
              (liness ++ [[directive_line so k v]]))
    as (h' & E); auto.
  - apply Forall2_app; [now apply (old_avoid h)|].
    constructor; [|constructor]. apply Hnew.
    intros [->|[]]. apply lookup_lt_Some in Hsp. lia.
  - apply Forall2_app; [assumption|].
    constructor; [|constructor]. now apply directive_text.
  - rewrite size_app_one, size_directive. lia.
  - exists h'. rewrite E, join_lines. cbn [List.concat app join fold_right].
    now rewrite string_app_nil_r.
Qed.

(** X29.  Inserting the new directive [[k, v]] at the index of an item of a
    node puts its line directly in front of the text of that item in what
    [dumps] writes for the node, after the white space that precedes the
    item. *)
Theorem inserted_directive_is_dumped_before_the_item
    (fuel : nat) (h : heap) (tree : nat) (xs : list val) (sp : nat)
    (before after : list tok) (t : tok) (lb la : list (list string))
    (l : nat) (k v : string) (so : bool) :
  h !! tree = Some (OUnspaced xs sp) ->
  repr h (TList (before ++ t :: after)) (VRef sp) ->
  spacey (leaf t) = false ->
  Forall2 text_of before lb ->
  Forall2 text_of (t :: after) la ->
  h !! l = Some (OList [VStr k; VStr v]) ->
  is_comment_key (VStr k) = false ->
  (so = false -> spacey (VStr k) = false /\ spacey (VStr v) = false) ->
  size (TList (before ++ t :: after)) + 1 < fuel ->
  exists h',
    (insert fuel tree (Z.of_nat (entries before)) (VRef l) so ;;
     dumps fuel tree) h
    = (Ret (join (List.concat lb) ++ directive_line so k v
            ++ join (List.concat la))%string, h').
Proof.
  intros Htree Hr Ht Hlb Hla Hl Hk Hso Hfuel.
  destruct (repr_list_inv _ _ _ _ Hr) as (sp' & zs & [= <-] & _ & Hsp & Hzs).
  pose proof Hzs as Hsplit.
  apply Forall2_app_inv_l in Hsplit as (zb & zr & Hzb & Hzr & Ezs).
  apply Forall2_cons_inv_l in Hzr as (z & za & Hz & Hza & ->).
  destruct (coerce_directive fuel h l k v so Hl ltac:(lia))
    as (u & a & h1 & Ec & Ha & Hext & Hnew).
  assert (Hzs' : spacey z = false) by now rewrite (repr_spacey _ _ _ _ Hz).
  pose proof (spaces_loop_at h1 zb z za 0%Z Hzs') as Hloop.
  rewrite (count_entries _ _ _ _ Hzb), <- Ezs in Hloop.
  rewrite (run_bind_Ret _ _ _ _ _
             (run_insert fuel h tree sp xs zs _ _ (VRef l) so _ h1
                Htree Hsp Ec Hloop)).
  cbn [fst snd].
  replace (Z.of_nat (entries before)
           + (0 + (Z.of_nat (length zb) - Z.of_nat (entries before))))%Z
    with (Z.of_nat (length zb)) by lia.
  assert (Ei : inserted zs (Z.of_nat (length zb)) (VRef a)
               = zb ++ VRef a :: z :: za).
  { unfold inserted. rewrite insert_index_in_range
      by (rewrite Ezs, length_app; lia).
    rewrite Ezs, take_app_length, drop_app_length. reflexivity. }
  rewrite Ei.
  destruct (dump_after_edit fuel h1 tree sp xs
              (inserted xs (Z.of_nat (entries before)) (VRef u)) zs
              (before ++ directive_tokens so k v :: t :: after)
              (zb ++ VRef a :: z :: za)
              (lb ++ [directive_line so k v] :: la))
    as (h' & E); auto.
  - pose proof (old_avoid h h1 sp _ _ Hsp Hzs Hext) as Hold.
    rewrite Ezs in Hold.
    apply Forall2_app_inv_l in Hold as (zb' & zr' & Hb' & Hr' & E').
    apply Forall2_length in Hzb as Lb. apply Forall2_length in Hb' as Lb'.
    apply app_inj_1 in E' as [<- <-]; [|congruence].
    apply Forall2_app; [assumption|]. constructor; [|assumption].
    apply Hnew. intros [->|[]]. apply lookup_lt_Some in Hsp. lia.
  - apply Forall2_app; [assumption|]. constructor; [|assumption].
    now apply directive_text.
  - rewrite size_middle, size_directive. lia.
  - exists h'. rewrite E, join_lines. cbn [List.concat].
    rewrite join_app. cbn [join fold_right].
    now rewrite string_app_nil_r.
Qed.

(** X30.  Deleting an item of a node removes the text of that item, and
    nothing else, from what [dumps] writes for the node: the white space
    in front of the item and behind it stays. *)
Theorem deleted_item_leaves_the_dump
    (fuel : nat) (h : heap) (tree : nat) (xs : list val) (sp : nat)
    (before after : list tok) (t : tok) (lb la : list (list string)) :
  h !! tree = Some (OUnspaced xs sp) ->
  repr h (TList (before ++ t :: after)) (VRef sp) ->
  spacey (leaf t) = false ->
  entries before < length xs ->
  Forall2 text_of before lb ->
  Forall2 text_of after la ->
  size (TList (before ++ after)) < fuel ->
  exists h',
    (__delitem__ tree (Z.of_nat (entries before)) ;; dumps fuel tree) h
    = (Ret (join (List.concat lb) ++ join (List.concat la))%string, h').
Proof.
  intros Htree Hr Ht Hi Hlb Hla Hfuel.
  destruct (repr_list_inv _ _ _ _ Hr) as (sp' & zs & [= <-] & _ & Hsp & Hzs).
  pose proof Hzs as Hsplit.
  apply Forall2_app_inv_l in Hsplit as (zb & zr & Hzb & Hzr & Ezs).
  apply Forall2_cons_inv_l in Hzr as (z & za & Hz & Hza & ->).
  assert (Hzs' : spacey z = false) by now rewrite (repr_spacey _ _ _ _ Hz).
  pose proof (spaces_loop_at h zb z za 0%Z Hzs') as Hloop.
  rewrite (count_entries _ _ _ _ Hzb), <- Ezs in Hloop.
  rewrite (run_bind_Ret _ _ _ _ _
             (run_delitem h tree sp xs zs _ _ (length zb) (entries before)
                Htree Hsp Hloop
                ltac:(replace (Z.of_nat (entries before)
                        + (0 + (Z.of_nat (length zb) - Z.of_nat (entries before))))%Z
                        with (Z.of_nat (length zb)) by lia;
                      apply item_index_in_range;
                      rewrite Ezs, length_app; cbn [length]; lia)
                ltac:(now apply item_index_in_range))).
  assert (Ed : delete (length zb) zs = zb ++ za).
  { rewrite Ezs. apply delete_middle. }
  rewrite Ed.
  destruct (dump_after_edit fuel h tree sp xs (delete (entries before) xs) zs
              (before ++ after) (zb ++ za) (lb ++ la))
    as (h' & E); auto.
  - pose proof (old_avoid h h sp _ _ Hsp Hzs (fun _ _ H => H)) as Hold.
    rewrite Ezs in Hold.
    apply Forall2_app_inv_l in Hold as (zb' & zr' & Hb' & Hr' & E').
    apply Forall2_length in Hzb as Lb. apply Forall2_length in Hb' as Lb'.
    apply app_inj_1 in E' as [<- <-]; [|congruence].
    apply Forall2_cons_inv_l in Hr' as (z' & za' & _ & Ha' & [= <- <-]).
    now apply Forall2_app.
  - now apply Forall2_app.
  - exists h'. now rewrite E, join_lines.
Qed.

End EditFacts.

(** * Instances

    The statements above at concrete stores and texts. *)

Module Instances.
Import Chars Pyparsing RawNginxParser Py Store Nginxparser FrameSpec
  ConstructSpec Frame TreeSpec TreeFacts ViewSpec TokenSpec ViewFacts
  TokenFacts GrammarFacts ParserSpec GrammarSpec RoundTripFacts NodeSpec
  NodeFacts EditSpec EditFacts.
Local Open Scope py_scope.
Local Open Scope string_scope.
Local Open Scope list_scope.

#[local] Abbreviation listen_xs := [VStr "listen"; VStr "80"].
#[local] Abbreviation listen_spaced :=
  [VStr " "; VStr "listen"; VStr " "; VStr "80"].

Lemma spaces_before_locates_entry_witness :
  listen_node !! 0 = Some (OUnspaced listen_xs 1)
  /\ listen_node !! 1 = Some (OList listen_spaced)
  /\ (0 <= 1 < count_nonspacey listen_spaced)%Z
  /\ exists (n : Z) (p : nat) v,
       _spaces_before 0 1 listen_node = (Ret n, listen_node)
       /\ (0 <= n)%Z /\ (1 + n)%Z = Z.of_nat p
       /\ listen_spaced !! p = Some v /\ spacey v = false
       /\ count_nonspacey (take p listen_spaced) = 1%Z.
Proof.
  assert (H3 : (0 <= 1 < count_nonspacey listen_spaced)%Z) by (now vm_compute).
  split; [reflexivity|]. split; [reflexivity|]. split; [exact H3|].
  exact (spaces_before_locates_entry listen_node 0 1 listen_xs listen_spaced 1
           eq_refl eq_refl H3).
Defined.

Lemma spaces_before_raises_exactly_witness :
  listen_node !! 0 = Some (OUnspaced listen_xs 1)
  /\ listen_node !! 1 = Some (OList listen_spaced)
  /\ (_spaces_before 0 2 listen_node = (Raise IndexError, listen_node)
      <-> (2 < -1 \/ count_nonspacey listen_spaced <= 2)%Z)
  /\ ((-1 <= 2 < count_nonspacey listen_spaced)%Z ->
      exists n, _spaces_before 0 2 listen_node = (Ret n, listen_node))
  /\ _spaces_before 0 (-1) listen_node = (Ret 0%Z, listen_node).
Proof.
  split; [reflexivity|]. split; [reflexivity|].
  exact (spaces_before_raises_exactly listen_node 0 1 listen_xs listen_spaced 2
           eq_refl eq_refl).
Defined.

Lemma delete_removes_the_entry_witness :
  listen_node !! 0 = Some (OUnspaced listen_xs 1)
  /\ listen_node !! 1 = Some (OList listen_spaced)
  /\ 1 < length listen_xs
  /\ (Z.of_nat 1 < count_nonspacey listen_spaced)%Z
  /\ exists p v,
       listen_spaced !! p = Some v /\ spacey v = false
       /\ count_nonspacey (take p listen_spaced) = Z.of_nat 1
       /\ __delitem__ 0 (Z.of_nat 1) listen_node
          = (Ret tt, <[0 := OUnspaced (delete 1 listen_xs) 1]>
                       (<[1 := OList (delete p listen_spaced)]> listen_node))
       /\ List.filter spacey (delete p listen_spaced)
          = List.filter spacey listen_spaced
       /\ count_nonspacey (delete p listen_spaced)
          = (count_nonspacey listen_spaced - 1)%Z.
Proof.
  assert (H3 : 1 < length listen_xs) by (cbn; lia).
  assert (H4 : (Z.of_nat 1 < count_nonspacey listen_spaced)%Z) by (now vm_compute).
  split; [reflexivity|]. split; [reflexivity|]. split; [exact H3|].
  split; [exact H4|].
  exact (delete_removes_the_entry listen_node 0 1 listen_xs listen_spaced 1
           eq_refl eq_refl H3 H4).
Defined.

Lemma set_replaces_the_entry_witness :
  listen_and_root !! 0 = Some (OUnspaced listen_xs 1)
  /\ listen_and_root !! 1 = Some (OList listen_spaced)
  /\ 1 < length listen_xs
  /\ (Z.of_nat 1 < count_nonspacey listen_spaced)%Z
  /\ operand listen_and_root 1 (VRef 2) /\ 1 < 5 /\ spacey (VRef 2) = false
  /\ exists c h1 p v,
       _coerce 5 (VRef 2) false listen_and_root = (Ret c, h1)
       /\ listen_spaced !! p = Some v /\ spacey v = false
       /\ count_nonspacey (take p listen_spaced) = Z.of_nat 1
       /\ __setitem__ 5 0 (Z.of_nat 1) (VRef 2) listen_and_root
          = (Ret tt, <[0 := OUnspaced (<[1 := fst c]> listen_xs) 1]>
                       (<[1 := OList (<[p := snd c]> listen_spaced)]> h1))
       /\ List.filter spacey (<[p := snd c]> listen_spaced)
          = List.filter spacey listen_spaced
       /\ count_nonspacey (<[p := snd c]> listen_spaced)
          = count_nonspacey listen_spaced.
Proof.
  assert (H3 : 1 < length listen_xs) by (cbn; lia).
  assert (H4 : (Z.of_nat 1 < count_nonspacey listen_spaced)%Z) by (now vm_compute).
  assert (H5 : operand listen_and_root 1 (VRef 2)).
  { left. exists [VStr "root"; VStr "/var/www"].
    split; [reflexivity|]. repeat constructor. }
  assert (H6 : 1 < 5) by lia.
  split; [reflexivity|]. split; [reflexivity|]. split; [exact H3|].
  split; [exact H4|]. split; [exact H5|]. split; [exact H6|].
  split; [reflexivity|].
  exact (set_replaces_the_entry 5 listen_and_root 0 1 listen_xs listen_spaced 1
           (VRef 2) 1 eq_refl eq_refl H3 H4 H5 H6 eq_refl).
Defined.

Lemma insert_lands_before_the_entry_witness :
  listen_and_root !! 0 = Some (OUnspaced listen_xs 1)
  /\ listen_and_root !! 1 = Some (OList listen_spaced)
  /\ 1 < length listen_xs
  /\ (Z.of_nat 1 < count_nonspacey listen_spaced)%Z
  /\ operand listen_and_root 1 (VRef 2) /\ 1 < 5 /\ spacey (VRef 2) = false
  /\ exists c h1 p v,
       _coerce 5 (VRef 2) true listen_and_root = (Ret c, h1)
       /\ listen_spaced !! p = Some v /\ spacey v = false
       /\ count_nonspacey (take p listen_spaced) = Z.of_nat 1
       /\ insert 5 0 (Z.of_nat 1) (VRef 2) true listen_and_root
          = (Ret tt,
             <[0 := OUnspaced (take 1 listen_xs ++ fst c :: drop 1 listen_xs) 1]>
               (<[1 := OList (take p listen_spaced ++ snd c
                              :: drop p listen_spaced)]> h1))
       /\ count_nonspacey (take p listen_spaced ++ snd c :: drop p listen_spaced)
          = (count_nonspacey listen_spaced + 1)%Z.
Proof.
  assert (H3 : 1 < length listen_xs) by (cbn; lia).
  assert (H4 : (Z.of_nat 1 < count_nonspacey listen_spaced)%Z) by (now vm_compute).
  assert (H5 : operand listen_and_root 1 (VRef 2)).
  { left. exists [VStr "root"; VStr "/var/www"].
    split; [reflexivity|]. repeat constructor. }
  assert (H6 : 1 < 5) by lia.
  split; [reflexivity|]. split; [reflexivity|]. split; [exact H3|].
  split; [exact H4|]. split; [exact H5|]. split; [exact H6|].
  split; [reflexivity|].
  exact (insert_lands_before_the_entry 5 listen_and_root 0 1 listen_xs
           listen_spaced 1 (VRef 2) true 1 eq_refl eq_refl H3 H4 H5 H6 eq_refl).
Defined.

Lemma minus_one_is_not_translated_witness :
  listen_node !! 0 = Some (OUnspaced listen_xs 1)
  /\ listen_node !! 1 = Some (OList listen_spaced)
  /\ 0 < length listen_xs /\ 0 < length listen_spaced
  /\ __delitem__ 0 (-1) listen_node
     = (Ret tt, [OUnspaced [VStr "listen"] 1;
                 OList [VStr " "; VStr "listen"; VStr " "]])
  /\ __setitem__ 5 0 (-1) (VStr "x") listen_node
     = (Ret tt, [OUnspaced [VStr "listen"; VStr "x"] 1;
                 OList [VStr " "; VStr "listen"; VStr " "; VStr "x"]]).
Proof.
  assert (H3 : 0 < length listen_xs) by (cbn; lia).
  assert (H4 : 0 < length listen_spaced) by (cbn; lia).
  split; [reflexivity|]. split; [reflexivity|]. split; [exact H3|].
  split; [exact H4|].
  destruct (minus_one_is_not_translated 5 listen_node 0 1 listen_xs
              listen_spaced eq_refl eq_refl H3 H4) as [Hd Hs].
  split; [exact Hd|]. exact (Hs (VStr "x") eq_refl).
Defined.

Lemma extend_by_string_adds_characters_witness :
  listen_node !! 0 = Some (OUnspaced listen_xs 1)
  /\ listen_node !! 1 = Some (OList listen_spaced)
  /\ extend 5 0 (VStr "ab") false listen_node
     = (Ret tt, [OUnspaced [VStr "listen"; VStr "80"; VStr "a"; VStr "b"] 1;
                 OList [VStr " "; VStr "listen"; VStr " "; VStr "80";
                        VStr "a"; VStr "b"]]).
Proof.
  split; [reflexivity|]. split; [reflexivity|].
  exact (extend_by_string_adds_characters 5 listen_node 0 1 listen_xs
           listen_spaced "ab" false eq_refl eq_refl).
Defined.

Lemma construct_drops_whitespace_witness :
  spaced_listen !! 0 = Some (OList listen_spaced)
  /\ Forall atom listen_spaced
  /\ existsb (val_eqb (VStr "#")) listen_spaced = false
  /\ 2 <= 5
  /\ exists self sp h',
       UnspacedList 5 (VRef 0) false spaced_listen = (Ret self, h')
       /\ h' !! self = Some (OUnspaced (List.filter nonspacey listen_spaced) sp)
       /\ h' !! sp = Some (OList listen_spaced)
       /\ length spaced_listen <= self /\ length spaced_listen <= sp
       /\ (forall k o, spaced_listen !! k = Some o -> h' !! k = Some o).
Proof.
  assert (H2 : Forall atom listen_spaced) by (repeat constructor).
  assert (H4 : 2 <= 5) by lia.
  split; [reflexivity|]. split; [exact H2|]. split; [reflexivity|].
  split; [exact H4|].
  exact (construct_drops_whitespace 5 spaced_listen 0 listen_spaced
           eq_refl H2 eq_refl H4).
Defined.

Lemma construct_keeps_comment_text_witness :
  comment_line !! 0 = Some (OList ([VStr " "] ++ VStr "#" :: [VStr " "; VStr ""]))
  /\ Forall atom [VStr " "] /\ Forall atom [VStr " "; VStr ""]
  /\ existsb (val_eqb (VStr "#")) [VStr " "] = false
  /\ 2 <= 5
  /\ exists self sp h',
       UnspacedList 5 (VRef 0) false comment_line = (Ret self, h')
       /\ h' !! self
          = Some (OUnspaced (List.filter nonspacey [VStr " "]
                             ++ VStr "#" :: [VStr " "; VStr ""]) sp)
       /\ h' !! sp
          = Some (OList ([VStr " "] ++ VStr "#" :: [VStr " "; VStr ""])).
Proof.
  assert (H2 : Forall atom [VStr " "]) by (repeat constructor).
  assert (H3 : Forall atom [VStr " "; VStr ""]) by (repeat constructor).
  assert (H5 : 2 <= 5) by lia.
  split; [reflexivity|]. split; [exact H2|]. split; [exact H3|].
  split; [reflexivity|]. split; [exact H5|].
  exact (construct_keeps_comment_text 5 comment_line 0 [VStr " "]
           [VStr " "; VStr ""] eq_refl H2 H3 eq_refl H5).
Defined.

Lemma construct_spaces_out_new_directive_witness :
  root_directive !! 0 = Some (OList [VStr "root"; VStr "/var/www"])
  /\ Forall (fun v => is_str v = true) [VStr "root"; VStr "/var/www"]
  /\ Forall (fun v => spacey v = false) [VStr "root"; VStr "/var/www"]
  /\ 2 <= 5
  /\ exists self sp h',
       UnspacedList 5 (VRef 0) true root_directive = (Ret self, h')
       /\ h' !! self = Some (OUnspaced [VStr "root"; VStr "/var/www"] sp)
       /\ h' !! sp
          = Some (OList (VStr nl :: take 1 [VStr "root"; VStr "/var/www"]
                         ++ flat_map (fun y => [VStr " "; y])
                              (drop 1 [VStr "root"; VStr "/var/www"])))
       /\ h' !! 0 = Some (OList [VStr "root"; VStr "/var/www"]).
Proof.
  assert (H2 : Forall (fun v => is_str v = true) [VStr "root"; VStr "/var/www"])
    by (repeat constructor).
  assert (H3 : Forall (fun v => spacey v = false) [VStr "root"; VStr "/var/www"])
    by (repeat constructor).
  assert (H4 : 2 <= 5) by lia.
  split; [reflexivity|]. split; [exact H2|]. split; [exact H3|].
  split; [exact H4|].
  exact (construct_spaces_out_new_directive 5 root_directive 0
           [VStr "root"; VStr "/var/www"] eq_refl H2 H3 H4).
Defined.

Lemma extend_by_flat_list_witness :
  listen_and_root !! 0 = Some (OUnspaced listen_xs 1)
  /\ listen_and_root !! 1 = Some (OList listen_spaced)
  /\ listen_and_root !! 2 = Some (OList [VStr "root"; VStr "/var/www"])
  /\ Forall atom [VStr "root"; VStr "/var/www"]
  /\ existsb (val_eqb (VStr "#")) [VStr "root"; VStr "/var/www"] = false
  /\ 2 <= 5
  /\ exists h',
       extend 5 0 (VRef 2) false listen_and_root = (Ret tt, h')
       /\ h' !! 0
          = Some (OUnspaced (listen_xs
                             ++ List.filter nonspacey [VStr "root"; VStr "/var/www"]) 1)
       /\ h' !! 1 = Some (OList (listen_spaced ++ [VStr "root"; VStr "/var/www"])).
Proof.
  assert (H4 : Forall atom [VStr "root"; VStr "/var/www"]) by (repeat constructor).
  assert (H6 : 2 <= 5) by lia.
  split; [reflexivity|]. split; [reflexivity|]. split; [reflexivity|].
  split; [exact H4|]. split; [reflexivity|]. split; [exact H6|].
  exact (extend_by_flat_list 5 listen_and_root 0 1 listen_xs listen_spaced 2
           [VStr "root"; VStr "/var/www"] eq_refl eq_refl eq_refl H4 eq_refl H6).
Defined.

Lemma clone_of_directive_node_witness :
  listen_node !! 0 = Some (OUnspaced listen_xs 1)
  /\ listen_node !! 1 = Some (OList listen_spaced)
  /\ Forall atom listen_xs /\ Forall atom listen_spaced
  /\ Forall (fun v => spacey v = false) listen_xs
  /\ 4 <= 5
  /\ exists c csp m h',
       deepcopy 5 [] (VRef 0) listen_node = (Ret (VRef c, m), h')
       /\ h' !! c = Some (OUnspaced listen_xs csp)
       /\ h' !! csp = Some (OList listen_spaced)
       /\ length listen_node <= c /\ length listen_node <= csp
       /\ (forall k o, listen_node !! k = Some o -> h' !! k = Some o).
Proof.
  assert (H3 : Forall atom listen_xs) by (repeat constructor).
  assert (H4 : Forall atom listen_spaced) by (repeat constructor).
  assert (H5 : Forall (fun v => spacey v = false) listen_xs) by (repeat constructor).
  assert (H6 : 4 <= 5) by lia.
  split; [reflexivity|]. split; [reflexivity|]. split; [exact H3|].
  split; [exact H4|]. split; [exact H5|]. split; [exact H6|].
  exact (clone_of_directive_node 5 listen_node 0 1 listen_xs listen_spaced
           eq_refl eq_refl H3 H4 H5 H6).
Defined.

Lemma concatenation_of_directive_nodes_witness :
  listen_and_root !! 0 = Some (OUnspaced listen_xs 1)
  /\ listen_and_root !! 1 = Some (OList listen_spaced)
  /\ listen_and_root !! 2 = Some (OList [VStr "root"; VStr "/var/www"])
  /\ Forall atom listen_xs /\ Forall atom listen_spaced
  /\ Forall atom [VStr "root"; VStr "/var/www"]
  /\ Forall (fun v => spacey v = false) listen_xs
  /\ existsb (val_eqb (VStr "#")) [VStr "root"; VStr "/var/www"] = false
  /\ 4 <= 5
  /\ exists c csp h',
       __add__ 5 0 (VRef 2) listen_and_root = (Ret c, h')
       /\ h' !! c
          = Some (OUnspaced (listen_xs
                             ++ List.filter nonspacey [VStr "root"; VStr "/var/www"])
                            csp)
       /\ h' !! csp = Some (OList (listen_spaced ++ [VStr "root"; VStr "/var/www"]))
       /\ length listen_and_root <= c /\ length listen_and_root <= csp
       /\ h' !! 0 = Some (OUnspaced listen_xs 1)
       /\ h' !! 1 = Some (OList listen_spaced)
       /\ h' !! 2 = Some (OList [VStr "root"; VStr "/var/www"]).
Proof.
  assert (H4 : Forall atom listen_xs) by (repeat constructor).
  assert (H5 : Forall atom listen_spaced) by (repeat constructor).
  assert (H6 : Forall atom [VStr "root"; VStr "/var/www"]) by (repeat constructor).
  assert (H7 : Forall (fun v => spacey v = false) listen_xs) by (repeat constructor).
  assert (H9 : 4 <= 5) by lia.
  split; [reflexivity|]. split; [reflexivity|]. split; [reflexivity|].
  split; [exact H4|]. split; [exact H5|]. split; [exact H6|].
  split; [exact H7|]. split; [reflexivity|]. split; [exact H9|].
  exact (concatenation_of_directive_nodes 5 listen_and_root 0 1 listen_xs
           listen_spaced 2 [VStr "root"; VStr "/var/www"]
           eq_refl eq_refl eq_refl H4 H5 H6 H7 eq_refl H9).
Defined.

Lemma dumps_is_read_only_witness :
  dumps 5 2 listen_tree
  = (Ret "listen 80;",
     [OList [VStr "listen"; VStr " "; VStr "80"]; OList [VRef 0];
      OUnspaced [] 1; OList []])
  /\ length listen_tree
     <= length [OList [VStr "listen"; VStr " "; VStr "80"]; OList [VRef 0];
                OUnspaced [] 1; OList []]
  /\ forall l o, listen_tree !! l = Some o ->
       [OList [VStr "listen"; VStr " "; VStr "80"]; OList [VRef 0];
        OUnspaced [] 1; OList []] !! l = Some o.
Proof.
  assert (H1 : dumps 5 2 listen_tree
               = (Ret "listen 80;",
                  [OList [VStr "listen"; VStr " "; VStr "80"]; OList [VRef 0];
                   OUnspaced [] 1; OList []])) by (now vm_compute).
  split; [exact H1|].
  exact (dumps_is_read_only 5 2 listen_tree _ _ H1).
Defined.

Lemma listen_tokens_in_store (h : heap) :
  h !! 0 = Some (OList [VStr "listen"; VStr " "; VStr "80"]) ->
  h !! 1 = Some (OList [VRef 0]) ->
  repr h (TList listen_tokens) (VRef 1).
Proof.
  intros H0 H1.
  apply (repr_list _ _ _ _ [VRef 0]); [intros []|exact H1|].
  constructor; [|constructor].
  apply (repr_list _ _ _ _ [VStr "listen"; VStr " "; VStr "80"]);
    [intros []|exact H0|].
  repeat constructor.
Qed.

Lemma listen_tokens_text : Forall2 text_of listen_tokens [["listen 80;"]].
Proof.
  constructor; [|constructor].
  apply (text_directive [] "" "listen" [TStr " "] " " "80" []).
  - left. repeat split; reflexivity.
  - reflexivity.
  - right. split; [reflexivity|]. split; [discriminate|reflexivity].
Qed.

Lemma spaced_tree_is_a_verbatim_copy_witness :
  repr parsed_listen (TList listen_tokens) (VRef 1)
  /\ size (TList listen_tokens) < 5
  /\ exists self xs sp h',
       UnspacedList 5 (VRef 1) false parsed_listen = (Ret self, h')
       /\ h' !! self = Some (OUnspaced xs sp)
       /\ repr h' (TList listen_tokens) (VRef sp)
       /\ repr h' (TList listen_tokens) (VRef 1)
       /\ length parsed_listen <= self
       /\ (forall a o, parsed_listen !! a = Some o -> h' !! a = Some o).
Proof.
  assert (H1 : repr parsed_listen (TList listen_tokens) (VRef 1))
    by (now apply listen_tokens_in_store).
  assert (H2 : size (TList listen_tokens) < 5) by (cbn; lia).
  split; [exact H1|]. split; [exact H2|].
  exact (spaced_tree_is_a_verbatim_copy 5 parsed_listen 1 listen_tokens H1 H2).
Defined.

Lemma dumps_writes_the_spaced_tree_witness :
  listen_tree !! 2 = Some (OUnspaced [] 1)
  /\ repr listen_tree (TList listen_tokens) (VRef 1)
  /\ Forall2 text_of listen_tokens [["listen 80;"]]
  /\ size (TList listen_tokens) < 5
  /\ exists h', dumps 5 2 listen_tree
                = (Ret (join (List.concat [["listen 80;"]])), h').
Proof.
  assert (H2 : repr listen_tree (TList listen_tokens) (VRef 1))
    by (now apply listen_tokens_in_store).
  assert (H4 : size (TList listen_tokens) < 5) by (cbn; lia).
  split; [reflexivity|]. split; [exact H2|].
  split; [exact listen_tokens_text|]. split; [exact H4|].
  exact (dumps_writes_the_spaced_tree 5 listen_tree 2 [] 1 listen_tokens
           [["listen 80;"]] eq_refl H2 listen_tokens_text H4).
Defined.

Lemma loads_then_dumps_writes_the_tokens_witness :
  as_list "listen 80;" = Some listen_tokens
  /\ Forall2 text_of listen_tokens [["listen 80;"]]
  /\ size (TList listen_tokens) < 5
  /\ exists h', (tree <- loads 5 "listen 80;" ;; dumps 5 tree) []
                = (Ret (join (List.concat [["listen 80;"]])), h').
Proof.
  assert (H1 : as_list "listen 80;" = Some listen_tokens) by (now vm_compute).
  assert (H3 : size (TList listen_tokens) < 5) by (cbn; lia).
  split; [exact H1|]. split; [exact listen_tokens_text|]. split; [exact H3|].
  exact (loads_then_dumps_writes_the_tokens 5 "listen 80;" listen_tokens
           [["listen 80;"]] [] H1 listen_tokens_text H3).
Defined.

Lemma whitespace_only_is_rejected_witness :
  all_chars is_white (" " ++ nl) = true /\ as_list (" " ++ nl) = None.
Proof.
  split; [reflexivity|].
  exact (whitespace_only_is_rejected (" " ++ nl) eq_refl).
Defined.

Lemma comment_takes_the_rest_of_the_line_witness :
  all_chars is_white "  " = true
  /\ all_chars no_lf " a { comment;" = true
  /\ _parse (comment true) true ("  " ++ "#" ++ " a { comment;")
     = Some (ws_tok "  " ++ [TStr "#"; TStr " a { comment;"], EmptyString)
  /\ _parse (comment true) true ("  " ++ "#" ++ " a { comment;" ++ nl ++ "x;")
     = Some (ws_tok "  " ++ [TStr "#"; TStr " a { comment;"], (nl ++ "x;")%string).
Proof.
  split; [reflexivity|]. split; [reflexivity|].
  exact (comment_takes_the_rest_of_the_line true true "  " " a { comment;" "x;"
           eq_refl eq_refl).
Defined.

Lemma directive_with_plain_value_witness :
  all_chars is_white nl = true
  /\ "listen" <> EmptyString
  /\ all_chars is_key_char "listen" = true
  /\ all_chars is_white " " = true
  /\ " " <> EmptyString
  /\ all_chars is_plain "80 default" = true
  /\ starts is_white "80 default" = false
  /\ _parse (assignment false) true (nl ++ "listen" ++ " " ++ "80 default" ++ ";" ++ "}")
     = Some (ws_tok nl ++ [TStr "listen"; TStr " "; TStr "80 default"], "}").
Proof.
  split; [reflexivity|]. split; [discriminate|]. split; [reflexivity|].
  split; [reflexivity|]. split; [discriminate|]. split; [reflexivity|].
  split; [reflexivity|].
  apply (directive_with_plain_value false true nl "listen" " " "80 default" "}");
    (reflexivity || discriminate).
Defined.

Lemma block_is_parsed_into_header_and_body_witness :
  stmt_ok php_location = true
  /\ depth php_location <= 1
  /\ _parse (block 1 false) false
       ((nl ++ "    ") ++ header_text (mkHeader "location" " " "~*" " " "\.php$" " ")
        ++ "{" ++ stmts_text [Directive " " "return" " " "301 $uri"]
        ++ " " ++ "}" ++ nl)
     = Some ([TList [TList (ws_tok (nl ++ "    ")
                            ++ header_toks (mkHeader "location" " " "~*" " " "\.php$" " "));
                     TList (map stmt_tok [Directive " " "return" " " "301 $uri"]
                            ++ ws_tok " ")]], nl).
Proof.
  split; [reflexivity|]. split; [vm_compute; lia|].
  apply (block_is_parsed_into_header_and_body 1 false (nl ++ "    ")
           (mkHeader "location" " " "~*" " " "\.php$" " ")
           [Directive " " "return" " " "301 $uri"] " " nl);
    [reflexivity|vm_compute; lia].
Defined.

Lemma script_is_parsed_into_its_items_witness :
  forallb stmt_ok (indented_user :: sample_tail) = true
  /\ forallb top_ok (indented_user :: sample_tail) = true
  /\ lines_ok (indented_user :: sample_tail) nl = true
  /\ all_chars is_white nl = true
  /\ as_list (stmts_text (indented_user :: sample_tail) ++ nl)
     = Some (stmt_tok (unlead indented_user) :: map stmt_tok sample_tail
             ++ ws_tok nl).
Proof.
  split; [reflexivity|]. split; [reflexivity|].
  split; [reflexivity|]. split; [reflexivity|].
  apply (script_is_parsed_into_its_items indented_user sample_tail nl);
    reflexivity.
Defined.

Lemma dumps_of_loads_drops_leading_whitespace_witness :
  forallb stmt_ok (indented_user :: sample_tail) = true
  /\ forallb top_ok (indented_user :: sample_tail) = true
  /\ lines_ok (indented_user :: sample_tail) nl = true
  /\ all_chars is_white nl = true
  /\ String.length (stmts_text (indented_user :: sample_tail) ++ nl) + 1 < 200
  /\ (stmts_text (indented_user :: sample_tail) ++ nl
      = lead indented_user
        ++ stmts_text (unlead indented_user :: sample_tail) ++ nl)%string
  /\ exists h',
       (tree <- loads 200 (stmts_text (indented_user :: sample_tail) ++ nl) ;;
        dumps 200 tree) []
       = (Ret (stmts_text (unlead indented_user :: sample_tail) ++ nl)%string,
          h').
Proof.
  split; [reflexivity|]. split; [reflexivity|].
  split; [reflexivity|]. split; [reflexivity|]. split; [vm_compute; lia|].
  apply (dumps_of_loads_drops_leading_whitespace 200 indented_user sample_tail
           nl []);
    first [reflexivity | vm_compute; lia].
Defined.

Lemma configuration_round_trips_witness :
  sample_http <> []
  /\ forallb stmt_ok sample_http = true
  /\ forallb top_ok sample_http = true
  /\ lines_ok sample_http nl = true
  /\ all_chars is_white nl = true
  /\ forallb (fun it => lead it =? "")%string sample_http = true
  /\ String.length (stmts_text sample_http ++ nl) + 1 < 200
  /\ exists h',
       (tree <- loads 200 (stmts_text sample_http ++ nl) ;; dumps 200 tree) []
       = (Ret (stmts_text sample_http ++ nl)%string, h').
Proof.
  split; [discriminate|]. split; [reflexivity|]. split; [reflexivity|].
  split; [reflexivity|]. split; [reflexivity|]. split; [reflexivity|].
  split; [vm_compute; lia|].
  apply (configuration_round_trips 200 sample_http nl []);
    first [reflexivity | discriminate | vm_compute; lia].
Defined.
Lemma directive_with_quoted_value_witness :
  (DQ = DQ \/ DQ = SQ)
  /\ all_chars is_white "" = true
  /\ "add_header" <> EmptyString
  /\ all_chars is_key_char "add_header" = true
  /\ all_chars is_white " " = true
  /\ " " <> EmptyString
  /\ all_chars is_plain "X " = true
  /\ starts is_white "X " = false
  /\ all_chars no_lf "a;b{c}" = true
  /\ line_free DQ (" # c" ++ nl ++ dq) = true
  /\ _parse (assignment false) true
       ("" ++ "add_header" ++ " " ++ ("X " ++ quoted DQ "a;b{c}") ++ ";"
        ++ " # c" ++ nl ++ dq)
     = Some (ws_tok "" ++ [TStr "add_header"; TStr " ";
                           TStr ("X " ++ quoted DQ "a;b{c}")],
             (" # c" ++ nl ++ dq)%string).
Proof.
  split; [now left|]. split; [reflexivity|]. split; [discriminate|].
  split; [reflexivity|]. split; [reflexivity|]. split; [discriminate|].
  split; [reflexivity|]. split; [reflexivity|]. split; [reflexivity|].
  split; [reflexivity|].
  apply (directive_with_quoted_value false true DQ "" "add_header" " " "X "
           "a;b{c}" (" # c" ++ nl ++ dq));
    first [now left | reflexivity | discriminate].
Defined.

Lemma logical_view_of_constructed_tree_witness :
  repr parsed_listen (TList listen_tokens) (VRef 1)
  /\ size (TList listen_tokens) < 5
  /\ exists self h',
       UnspacedList 5 (VRef 1) false parsed_listen = (Ret self, h')
       /\ nrepr (length parsed_listen) h' (view (TList listen_tokens)) (VRef self)
       /\ (forall a o, parsed_listen !! a = Some o -> h' !! a = Some o).
Proof.
  assert (H1 : repr parsed_listen (TList listen_tokens) (VRef 1))
    by (now apply listen_tokens_in_store).
  assert (H2 : size (TList listen_tokens) < 5) by (cbn; lia).
  split; [exact H1|]. split; [exact H2|].
  exact (logical_view_of_constructed_tree 5 parsed_listen 1 listen_tokens H1 H2).
Defined.

Lemma loads_gives_the_items_without_whitespace_witness :
  sample_config <> []
  /\ forallb stmt_ok sample_config = true
  /\ forallb top_ok sample_config = true
  /\ forallb view_ok sample_config = true
  /\ lines_ok sample_config nl = true
  /\ all_chars is_white nl = true
  /\ String.length (stmts_text sample_config ++ nl) + 1 < 200
  /\ exists tree h',
       loads 200 (stmts_text sample_config ++ nl) [] = (Ret tree, h')
       /\ nrepr (length ([] : heap)) h' (TList (map stmt_view sample_config))
                (VRef tree).
Proof.
  split; [discriminate|]. split; [reflexivity|]. split; [reflexivity|].
  split; [reflexivity|]. split; [reflexivity|]. split; [reflexivity|].
  split; [vm_compute; lia|].
  apply (loads_gives_the_items_without_whitespace 200 sample_config nl []);
    first [reflexivity | discriminate | vm_compute; lia].
Defined.

Lemma two_lines_in_store : repr two_lines_tree (TList two_lines) (VRef 2).
Proof.
  apply (repr_list _ _ _ _ [VRef 0; VRef 1]); [intros []|reflexivity|].
  constructor; [|constructor; [|constructor]].
  - apply (repr_list _ _ _ _ [VStr "listen"; VStr " "; VStr "80"]);
      [intros []|reflexivity|].
    repeat constructor.
  - apply (repr_list _ _ _ _ [VStr nl; VStr "server_name"; VStr " "; VStr "a"]);
      [intros []|reflexivity|].
    repeat constructor.
Qed.

Lemma server_name_text :
  text_of (TList [TStr nl; TStr "server_name"; TStr " "; TStr "a"])
          [(nl ++ "server_name a;")%string].
Proof.
  apply (text_directive [TStr nl] nl "server_name" [TStr " "] " " "a" []).
  - right. split; reflexivity.
  - reflexivity.
  - right. split; [reflexivity|]. split; [discriminate|reflexivity].
Qed.

Lemma appended_directive_is_dumped_witness :
  two_lines_tree !! 5 = Some (OUnspaced [VRef 3; VRef 4] 2)
  /\ repr two_lines_tree (TList two_lines) (VRef 2)
  /\ Forall2 text_of two_lines [["listen 80;"]; [(nl ++ "server_name a;")%string]]
  /\ two_lines_tree !! 6 = Some (OList [VStr "root"; VStr "/var/www"])
  /\ is_comment_key (VStr "root") = false
  /\ (true = false ->
      spacey (VStr "root") = false /\ spacey (VStr "/var/www") = false)
  /\ size (TList two_lines) + 1 < 5
  /\ exists h',
       (append 5 5 (VRef 6) true ;; dumps 5 5) two_lines_tree
       = (Ret (join (List.concat [["listen 80;"];
                                  [(nl ++ "server_name a;")%string]])
               ++ directive_line true "root" "/var/www")%string, h').
Proof.
  assert (H3 : Forall2 text_of two_lines
                 [["listen 80;"]; [(nl ++ "server_name a;")%string]]).
  { constructor; [|constructor; [exact server_name_text|constructor]].
    pose proof listen_tokens_text as H. now inversion H. }
  assert (H6 : true = false ->
               spacey (VStr "root") = false /\ spacey (VStr "/var/www") = false)
    by discriminate.
  assert (H7 : size (TList two_lines) + 1 < 5) by (cbn; lia).
  split; [reflexivity|]. split; [exact two_lines_in_store|].
  split; [exact H3|]. split; [reflexivity|]. split; [reflexivity|].
  split; [exact H6|]. split; [exact H7|].
  exact (appended_directive_is_dumped 5 two_lines_tree 5 [VRef 3; VRef 4] 2
           two_lines _ 6 "root" "/var/www" true eq_refl two_lines_in_store
           H3 eq_refl eq_refl H6 H7).
Defined.

Lemma inserted_directive_is_dumped_before_the_item_witness :
  two_lines_tree !! 5 = Some (OUnspaced [VRef 3; VRef 4] 2)
  /\ repr two_lines_tree
       (TList ([TList [TStr "listen"; TStr " "; TStr "80"]]
               ++ TList [TStr nl; TStr "server_name"; TStr " "; TStr "a"] :: []))
       (VRef 2)
  /\ spacey (leaf (TList [TStr nl; TStr "server_name"; TStr " "; TStr "a"])) = false
  /\ Forall2 text_of [TList [TStr "listen"; TStr " "; TStr "80"]] [["listen 80;"]]
  /\ Forall2 text_of [TList [TStr nl; TStr "server_name"; TStr " "; TStr "a"]]
       [[(nl ++ "server_name a;")%string]]
  /\ two_lines_tree !! 6 = Some (OList [VStr "root"; VStr "/var/www"])
  /\ is_comment_key (VStr "root") = false
  /\ (true = false ->
      spacey (VStr "root") = false /\ spacey (VStr "/var/www") = false)
  /\ size (TList two_lines) + 1 < 5
  /\ exists h',
       (insert 5 5 (Z.of_nat (entries [TList [TStr "listen"; TStr " "; TStr "80"]]))
          (VRef 6) true ;; dumps 5 5) two_lines_tree
       = (Ret (join (List.concat [["listen 80;"]])
               ++ directive_line true "root" "/var/www"
               ++ join (List.concat [[(nl ++ "server_name a;")%string]]))%string,
          h').
Proof.
  assert (H4 : Forall2 text_of [TList [TStr "listen"; TStr " "; TStr "80"]]
                 [["listen 80;"]]) by exact listen_tokens_text.
  assert (H5 : Forall2 text_of
                 [TList [TStr nl; TStr "server_name"; TStr " "; TStr "a"]]
                 [[(nl ++ "server_name a;")%string]])
    by (constructor; [exact server_name_text|constructor]).
  assert (H8 : true = false ->
               spacey (VStr "root") = false /\ spacey (VStr "/var/www") = false)
    by discriminate.
  assert (H9 : size (TList two_lines) + 1 < 5) by (cbn; lia).
  split; [reflexivity|]. split; [exact two_lines_in_store|].
  split; [reflexivity|]. split; [exact H4|]. split; [exact H5|].
  split; [reflexivity|]. split; [reflexivity|]. split; [exact H8|].
  split; [exact H9|].
  exact (inserted_directive_is_dumped_before_the_item 5 two_lines_tree 5
           [VRef 3; VRef 4] 2 [TList [TStr "listen"; TStr " "; TStr "80"]] []
           (TList [TStr nl; TStr "server_name"; TStr " "; TStr "a"]) _ _
           6 "root" "/var/www" true eq_refl two_lines_in_store eq_refl H4 H5
           eq_refl eq_refl H8 H9).
Defined.

Lemma deleted_item_leaves_the_dump_witness :
  two_lines_tree !! 5 = Some (OUnspaced [VRef 3; VRef 4] 2)
  /\ repr two_lines_tree
       (TList ([TList [TStr "listen"; TStr " "; TStr "80"]]
               ++ TList [TStr nl; TStr "server_name"; TStr " "; TStr "a"] :: []))
       (VRef 2)
  /\ spacey (leaf (TList [TStr nl; TStr "server_name"; TStr " "; TStr "a"])) = false
  /\ entries [TList [TStr "listen"; TStr " "; TStr "80"]]
     < length [VRef 3; VRef 4]
  /\ Forall2 text_of [TList [TStr "listen"; TStr " "; TStr "80"]] [["listen 80;"]]
  /\ Forall2 text_of [] []
  /\ size (TList ([TList [TStr "listen"; TStr " "; TStr "80"]] ++ [])) < 5
  /\ exists h',
       (__delitem__ 5 (Z.of_nat (entries [TList [TStr "listen"; TStr " "; TStr "80"]])) ;;
        dumps 5 5) two_lines_tree
       = (Ret (join (List.concat [["listen 80;"]]) ++ join (List.concat []))%string,
          h').
Proof.
  assert (H4 : entries [TList [TStr "listen"; TStr " "; TStr "80"]]
               < length [VRef 3; VRef 4]) by (cbn; lia).
  assert (H5 : Forall2 text_of [TList [TStr "listen"; TStr " "; TStr "80"]]
                 [["listen 80;"]]) by exact listen_tokens_text.
  assert (H6 : Forall2 text_of [] []) by constructor.
  assert (H7 : size (TList ([TList [TStr "listen"; TStr " "; TStr "80"]] ++ [])) < 5)
    by (cbn; lia).
  split; [reflexivity|]. split; [exact two_lines_in_store|].
  split; [reflexivity|]. split; [exact H4|]. split; [exact H5|].
  split; [exact H6|]. split; [exact H7|].
  exact (deleted_item_leaves_the_dump 5 two_lines_tree 5 [VRef 3; VRef 4] 2
           [TList [TStr "listen"; TStr " "; TStr "80"]] []
           (TList [TStr nl; TStr "server_name"; TStr " "; TStr "a"]) _ _
           eq_refl two_lines_in_store eq_refl H4 H5 H6 H7).
Defined.

End Instances.
